(** * Graph algorithms of labs-graph-theory: a shallow embedding

    The Python sources embedded here are
    - [src/3/graph.py]        (adjacency-matrix graph and its queries,
                               connected components, Dijkstra, Prim),
    - [src/lab4/flow.py]      (Edmonds-Karp over a residual network),
    - [src/lab4/pathfinding.py] (A* over a cost grid),
    - [src/lab4/matching.py]  (two-colouring and Hopcroft-Karp).

    Conventions.
    - Python [int] is [Z].  Python [float] is an exact rational [Q],
      extended with [PInf] where the code produces [float("inf")]; NaN and
      rounding are outside the model.
    - A Python list is a [list]; subscripting follows Python: a negative
      index counts from the end, anything else out of range raises
      [IndexError].
    - A call either returns, raises, or (for [while] loops and recursion,
      which are driven by a fuel argument) runs out of fuel: [outcome]. *)

From Stdlib Require Import ZArith QArith Lia Lqa.
From stdpp Require Import base option list gmap.

Local Open Scope Z_scope.

(** ** Python run-time conventions *)

Module Py.

Inductive exn := IndexError | KeyError | TypeError.

Inductive outcome (A : Type) : Type :=
| Ret (a : A)
| Raise (e : exn)
| OutOfFuel.
Arguments Ret {A} a.
Arguments Raise {A} e.
Arguments OutOfFuel {A}.

#[export] Instance outcome_ret : MRet outcome := fun _ a => Ret a.
#[export] Instance outcome_bind : MBind outcome := fun _ _ f m =>
  match m with
  | Ret a => f a
  | Raise e => Raise e
  | OutOfFuel => OutOfFuel
  end.

(** [float] values: a rational or [float("inf")]. *)
Inductive ext (A : Type) : Type :=
| Fin (a : A)
| PInf.
Arguments Fin {A} a.
Arguments PInf {A}.

Definition Qltb (x y : Q) : bool := negb (Qle_bool y x).

Definition ext_add (x y : ext Q) : ext Q :=
  match x, y with
  | Fin a, Fin b => Fin (a + b)%Q
  | _, _ => PInf
  end.

(** [x < y] on floats. *)
Definition ext_ltb (x y : ext Q) : bool :=
  match x, y with
  | Fin a, Fin b => Qltb a b
  | Fin _, PInf => true
  | PInf, _ => false
  end.

(** [x == y] on floats. *)
Definition ext_eqb (x y : ext Q) : bool :=
  match x, y with
  | Fin a, Fin b => Qeq_bool a b
  | PInf, PInf => true
  | _, _ => false
  end.

(** [min(x, y)]: Python returns [y] only when [y < x]. *)
Definition ext_min (x y : ext Q) : ext Q := if ext_ltb y x then y else x.

Definition is_inf (x : ext Q) : bool :=
  match x with PInf => true | Fin _ => false end.

(** Position denoted by subscript [i] in a list of length [len]. *)
Definition norm_index (len : nat) (i : Z) : option nat :=
  if 0 <=? i then
    if i <? Z.of_nat len then Some (Z.to_nat i) else None
  else
    if - Z.of_nat len <=? i then Some (Z.to_nat (Z.of_nat len + i)) else None.

(** [l[i]] *)
Definition py_get {A} (l : list A) (i : Z) : outcome A :=
  match norm_index (length l) i with
  | Some k => match l !! k with Some x => Ret x | None => Raise IndexError end
  | None => Raise IndexError
  end.

(** [l[i] = x] *)
Definition py_set {A} (l : list A) (i : Z) (x : A) : outcome (list A) :=
  match norm_index (length l) i with
  | Some k => Ret (<[k := x]> l)
  | None => Raise IndexError
  end.

(** [l.pop(i)], keeping only the list. *)
Definition py_pop {A} (l : list A) (i : Z) : outcome (list A) :=
  match norm_index (length l) i with
  | Some k => Ret (delete k l)
  | None => Raise IndexError
  end.

(** [[x] * k]: empty when [k <= 0]. *)
Definition py_repeat {A} (x : A) (k : Z) : list A := replicate (Z.to_nat k) x.

(** [range(lo, hi)] *)
Definition py_range (lo hi : Z) : list Z := seqZ lo (hi - lo).

(** A [for] loop whose body may raise: the state is threaded through. *)
Fixpoint for_each {A S} (xs : list A) (body : A -> S -> outcome S) (s : S)
  : outcome S :=
  match xs with
  | [] => Ret s
  | x :: xs' => s' ← body x s; for_each xs' body s'
  end.

(** [heapq] over a total order [ltb]: only the contract is modelled, the
    queue is kept as a sorted list; [heappop] yields a least entry. *)
Fixpoint heappush {A} (ltb : A -> A -> bool) (q : list A) (x : A) : list A :=
  match q with
  | [] => [x]
  | y :: q' => if ltb x y then x :: q else y :: heappush ltb q' x
  end.

Definition heappop {A} (q : list A) : option (A * list A) :=
  match q with
  | [] => None
  | x :: q' => Some (x, q')
  end.

End Py.
Import Py.

(** ** [src/3/graph.py]: the adjacency-matrix graph *)

Module GraphStore.

Inductive GraphOrientationType := DIRECTED | UNDIRECTED.

Definition is_undirected (t : GraphOrientationType) : bool :=
  match t with UNDIRECTED => true | DIRECTED => false end.

Abbreviation matrix := (list (list (option Q))).

Record Graph := mkGraph {
  graph_type : GraphOrientationType;
  n : Z;
  adj_matrix : matrix;
}.

(** [m[a][b] = x] *)
Definition mat_set (m : matrix) (a b : Z) (x : option Q) : outcome matrix :=
  row ← py_get m a;
  row' ← py_set row b x;
  py_set m a row'.

(** [m[a][b]] *)
Definition mat_get (m : matrix) (a b : Z) : outcome (option Q) :=
  row ← py_get m a; py_get row b.

(** [[[None] * n for _ in range(n)]] followed by the diagonal loop
    [for i in range(n): m[i][i] = 0.0]. *)
Definition empty_matrix (size : Z) : outcome matrix :=
  for_each (py_range 0 size)
    (fun i m => mat_set m i i (Some 0%Q))
    (replicate (Z.to_nat size) (py_repeat None size)).

(** [Graph.__init__] with [graph_file_path is None]. *)
Definition Graph_init (t : GraphOrientationType) (size : Z) : outcome Graph :=
  m ← empty_matrix size;
  Ret {| graph_type := t; n := size; adj_matrix := m |}.

(** [Graph.__init__] from a file, after the lines are split: the first line
    gives [n]; every other non-empty line an edge [(a, b, weight)], the
    weight already defaulted to [1.0]. *)
Definition load_edge (t : GraphOrientationType) (e : Z * Z * Q) (m : matrix)
  : outcome matrix :=
  let '(a_i, b_i, w) := e in
  m1 ← mat_set m a_i b_i (Some w);
  if is_undirected t then mat_set m1 b_i a_i (Some w) else Ret m1.

Definition Graph_load (t : GraphOrientationType) (size : Z)
    (edges : list (Z * Z * Q)) : outcome Graph :=
  m ← empty_matrix size;
  m' ← for_each edges (load_edge t) m;
  Ret {| graph_type := t; n := size; adj_matrix := m' |}.

Definition size (g : Graph) : Z := n g.

Definition in_graph (g : Graph) (a_i : Z) : bool :=
  (0 <=? a_i) && (a_i <? n g).

(** [Graph.weight]: falls off the end, hence [None], when an index is not
    in the graph. *)
Definition weight (g : Graph) (a_i b_i : Z) : outcome (option Q) :=
  if in_graph g a_i && in_graph g b_i
  then mat_get (adj_matrix g) a_i b_i
  else Ret None.

Definition is_edge (g : Graph) (a_i b_i : Z) : outcome bool :=
  w ← weight g a_i b_i;
  Ret (bool_decide (w <> None) && negb (a_i =? b_i)).

(** The mutators update the object in place and may raise half-way: they
    return the object as it is left, and how the call ended. *)
Definition mutation : Type := Graph * outcome unit.

Definition with_matrix (g : Graph) (m : matrix) : Graph :=
  {| graph_type := graph_type g; n := n g; adj_matrix := m |}.

(** The row-appending loop of [add_vertex]. *)
Fixpoint append_rows (idxs : list Z) (new_size : Z) (m : matrix)
  : matrix * outcome unit :=
  match idxs with
  | [] => (m, Ret tt)
  | i :: idxs' =>
      match py_set (py_repeat None new_size) i (Some 0%Q) with
      | Ret new_row => append_rows idxs' new_size (m ++ [new_row])
      | Raise e => (m, Raise e)
      | OutOfFuel => (m, OutOfFuel)
      end
  end.

Definition add_vertex (a_i : Z) (g : Graph) : mutation :=
  if a_i <? n g then (g, Ret tt)
  else
    let new_size := a_i + 1 in
    let m1 := (fun row => row ++ py_repeat None (new_size - n g)) <$> adj_matrix g in
    match append_rows (py_range (n g) new_size) new_size m1 with
    | (m2, Ret _) =>
        ({| graph_type := graph_type g; n := new_size; adj_matrix := m2 |}, Ret tt)
    | (m2, r) => (with_matrix g m2, r)
    end.

Definition add_edge (a_i b_i : Z) (w : Q) (g : Graph) : mutation :=
  let highest_vert := Z.max a_i b_i in
  let '(g1, r) :=
    if n g <=? highest_vert then add_vertex highest_vert g else (g, Ret tt) in
  match r with
  | Ret _ =>
      match mat_set (adj_matrix g1) a_i b_i (Some w) with
      | Ret m2 =>
          if is_undirected (graph_type g1) then
            match mat_set m2 b_i a_i (Some w) with
            | Ret m3 => (with_matrix g1 m3, Ret tt)
            | Raise e => (with_matrix g1 m2, Raise e)
            | OutOfFuel => (with_matrix g1 m2, OutOfFuel)
            end
          else (with_matrix g1 m2, Ret tt)
      | Raise e => (g1, Raise e)
      | OutOfFuel => (g1, OutOfFuel)
      end
  | _ => (g1, r)
  end.

(** [for row in rows: row.pop(a_i)], stopping at the first failure. *)
Fixpoint pop_column (a_i : Z) (rows : matrix) : matrix * outcome unit :=
  match rows with
  | [] => ([], Ret tt)
  | row :: rows' =>
      match py_pop row a_i with
      | Ret row' => let '(rs, r) := pop_column a_i rows' in (row' :: rs, r)
      | Raise e => (rows, Raise e)
      | OutOfFuel => (rows, OutOfFuel)
      end
  end.

Definition remove_vertex (a_i : Z) (g : Graph) : mutation :=
  if negb (in_graph g a_i) then (g, Ret tt)
  else
    match py_pop (adj_matrix g) a_i with
    | Ret m1 =>
        match pop_column a_i m1 with
        | (m2, Ret _) =>
            ({| graph_type := graph_type g; n := n g - 1; adj_matrix := m2 |}, Ret tt)
        | (m2, r) => (with_matrix g m2, r)
        end
    | Raise e => (g, Raise e)
    | OutOfFuel => (g, OutOfFuel)
    end.

Definition remove_edge (a_i b_i : Z) (g : Graph) : mutation :=
  if negb (in_graph g a_i && in_graph g b_i) then (g, Ret tt)
  else
    match mat_set (adj_matrix g) a_i b_i None with
    | Ret m1 =>
        if is_undirected (graph_type g) then
          match mat_set m1 b_i a_i None with
          | Ret m2 => (with_matrix g m2, Ret tt)
          | Raise e => (with_matrix g m1, Raise e)
          | OutOfFuel => (with_matrix g m1, OutOfFuel)
          end
        else (with_matrix g m1, Ret tt)
    | Raise e => (g, Raise e)
    | OutOfFuel => (g, OutOfFuel)
    end.

(** *** Dijkstra and Prim *)

(** Order of the [(float, int)] tuples kept in the heap. *)
Definition tuple_ltb (x y : ext Q * Z) : bool :=
  if ext_eqb x.1 y.1 then x.2 <? y.2 else ext_ltb x.1 y.1.

Record search := mkSearch {
  dist : list (ext Q);
  prev : list (option Z);
  queue : list (ext Q * Z);
}.

(** Body of [for u in range(n)] in [dijkstra] and [dijkstra_all]. *)
Definition relax (g : Graph) (v u : Z) (st : search) : outcome search :=
  w ← weight g v u;
  match w with
  | Some wt =>
      if negb (v =? u) then
        dv ← py_get (dist st) v;
        let new_dist := ext_add dv (Fin wt) in
        du ← py_get (dist st) u;
        if ext_ltb new_dist du then
          dist' ← py_set (dist st) u new_dist;
          prev' ← py_set (prev st) u (Some v);
          Ret {| dist := dist'; prev := prev';
                 queue := heappush tuple_ltb (queue st) (new_dist, u) |}
        else Ret st
      else Ret st
  | None => Ret st
  end.

(** The [while queue] loop.  [stop] is [Some end] in [dijkstra], which
    breaks when [end] is popped, and [None] in [dijkstra_all]. *)
Fixpoint dijkstra_loop (fuel : nat) (g : Graph) (stop : option Z) (st : search)
  : outcome search :=
  match fuel with
  | O => OutOfFuel
  | S fuel' =>
      match heappop (queue st) with
      | None => Ret st
      | Some ((cur_dist, v), q') =>
          let st1 := {| dist := dist st; prev := prev st; queue := q' |} in
          dv ← py_get (dist st1) v;
          if ext_ltb dv cur_dist then dijkstra_loop fuel' g stop st1
          else if bool_decide (stop = Some v) then Ret st1
          else
            st2 ← for_each (py_range 0 (size g)) (relax g v) st1;
            dijkstra_loop fuel' g stop st2
      end
  end.

(** [while current is not None: path.append(current); current = prev[current]] *)
Fixpoint walk_back (fuel : nat) (prev : list (option Z)) (current : option Z)
    (path : list Z) : outcome (list Z) :=
  match current with
  | None => Ret path
  | Some c =>
      match fuel with
      | O => OutOfFuel
      | S fuel' => p ← py_get prev c; walk_back fuel' prev p (path ++ [c])
      end
  end.

Definition init_search (sz start : Z) : outcome search :=
  d ← py_set (py_repeat PInf sz) start (Fin 0%Q);
  Ret {| dist := d; prev := py_repeat None sz; queue := [(Fin 0%Q, start)] |}.

Definition dijkstra (fuel : nat) (g : Graph) (start end_ : Z)
  : outcome (option (ext Q) * list Z) :=
  let sz := size g in
  if negb ((0 <=? start) && (start <? sz) && (0 <=? end_) && (end_ <? sz))
  then Ret (None, [])
  else
    st0 ← init_search sz start;
    st ← dijkstra_loop fuel g (Some end_) st0;
    d_end ← py_get (dist st) end_;
    if is_inf d_end then Ret (Some PInf, [])
    else
      path ← walk_back fuel (prev st) (Some end_) [];
      Ret (Some d_end, reverse path).

(** Body of the final [for end in range(n)] loop of [dijkstra_all]. *)
Definition record_path (fuel : nat) (st : search) (end_ : Z)
    (result_paths : list (ext Q * list Z)) : outcome (list (ext Q * list Z)) :=
  path ← walk_back fuel (prev st) (Some end_) [];
  d_end ← py_get (dist st) end_;
  Ret (result_paths ++ [(d_end, reverse path)]).

Definition dijkstra_all (fuel : nat) (g : Graph) (start : Z)
  : outcome (list (ext Q * list Z)) :=
  let sz := size g in
  if negb ((0 <=? start) && (start <? sz)) then Ret []
  else
    st0 ← init_search sz start;
    st ← dijkstra_loop fuel g None st0;
    for_each (py_range 0 sz) (record_path fuel st) [].

(** [w or float("inf")]: [None] and [0.0] are both falsy. *)
Definition or_inf (w : option Q) : ext Q :=
  match w with
  | None => PInf
  | Some q => if Qeq_bool q 0 then PInf else Fin q
  end.

(** The weight [prim] considers between [v] and [u]:
    [min(graph.weight(v, u) or inf, graph.weight(u, v) or inf)]. *)
Definition prim_min_weight (g : Graph) (v u : Z) : outcome (ext Q) :=
  a ← weight g v u;
  b ← weight g u v;
  Ret (ext_min (or_inf a) (or_inf b)).

(** Body of [for u in range(n)] in [prim]; [dist] holds [min_edge]. *)
Definition attach (g : Graph) (v u : Z) (st : search) : outcome search :=
  if v =? u then Ret st
  else
    min_weight ← prim_min_weight g v u;
    if is_inf min_weight then Ret st
    else
      mu ← py_get (dist st) u;
      if ext_ltb min_weight mu then
        prev' ← py_set (prev st) u (Some v);
        dist' ← py_set (dist st) u min_weight;
        Ret {| dist := dist'; prev := prev';
               queue := heappush tuple_ltb (queue st) (min_weight, u) |}
      else Ret st.

Fixpoint prim_loop (fuel : nat) (g : Graph) (st : search) : outcome search :=
  match fuel with
  | O => OutOfFuel
  | S fuel' =>
      match heappop (queue st) with
      | None => Ret st
      | Some ((cur_weight, v), q') =>
          let st1 := {| dist := dist st; prev := prev st; queue := q' |} in
          mv ← py_get (dist st1) v;
          if ext_ltb mv cur_weight then prim_loop fuel' g st1
          else
            st2 ← for_each (py_range 0 (size g)) (attach g v) st1;
            prim_loop fuel' g st2
      end
  end.

Definition prim (fuel : nat) (g : Graph) (start : Z) : outcome (list (list Z)) :=
  let sz := size g in
  if negb ((0 <=? start) && (start <? sz)) then Ret []
  else
    st0 ← init_search sz start;
    st ← prim_loop fuel g st0;
    for_each (py_range 0 sz)
      (fun end_ result_paths =>
         path ← walk_back fuel (prev st) (Some end_) [];
         Ret (result_paths ++ [reverse path]))
      [].

End GraphStore.

(** ** [src/lab4/flow.py]: Edmonds-Karp *)

Module Flow.

Definition WeightedEdge : Type := Z * Z * Q.

Record FlowEdge := mkFlowEdge {
  to : Z;
  rev_i : Z;
  capacity : Q;
  flow : Q;
}.

Definition residual_capacity (e : FlowEdge) : Q := (capacity e - flow e)%Q.

Definition add_flow (e : FlowEdge) (d : Q) : FlowEdge :=
  {| to := to e; rev_i := rev_i e; capacity := capacity e; flow := (flow e + d)%Q |}.

(** The residual network.  [FlowEdge] objects are shared between [graph],
    [forward_edges] and [parent]; an object is identified by its place
    [(row, column)] in [graph], where it stays once appended. *)
Abbreviation network := (list (list FlowEdge)).
Definition edge_ref : Type := nat * nat.

Definition deref (graph : network) (r : edge_ref) : outcome FlowEdge :=
  match graph !! r.1 with
  | Some row => match row !! r.2 with Some e => Ret e | None => Raise IndexError end
  | None => Raise IndexError
  end.

Definition update_ref (graph : network) (r : edge_ref) (f : FlowEdge -> FlowEdge)
  : network :=
  alter (alter f r.2) r.1 graph.

(** [graph[v].append(e)]; also gives the place of the appended object. *)
Definition append_edge (graph : network) (v : Z) (e : FlowEdge)
  : outcome (network * edge_ref) :=
  match norm_index (length graph) v with
  | Some k =>
      match graph !! k with
      | Some row => Ret (<[k := row ++ [e]]> graph, (k, length row))
      | None => Raise IndexError
      end
  | None => Raise IndexError
  end.

(** Body of [for e in edges] building the residual network. *)
Definition add_residual_pair (e : WeightedEdge) (st : network * list edge_ref)
  : outcome (network * list edge_ref) :=
  let '(v, u, cap) := e in
  let '(graph, forward_edges) := st in
  row_v ← py_get graph v;
  let forward_edge := mkFlowEdge v (Z.of_nat (length row_v)) cap 0 in
  row_u ← py_get graph u;
  let backward_edge := mkFlowEdge u (Z.of_nat (length row_u)) 0 0 in
  '(graph1, fwd) ← append_edge graph v forward_edge;
  '(graph2, _) ← append_edge graph1 u backward_edge;
  Ret (graph2, forward_edges ++ [fwd]).

Definition build_residual (n : Z) (edges : list WeightedEdge)
  : outcome (network * list edge_ref) :=
  for_each edges add_residual_pair (replicate (Z.to_nat n) [], []).

(** [graph[edge.to][edge.rev_i]], the object the code treats as the twin. *)
Definition twin (graph : network) (e : FlowEdge) : outcome FlowEdge :=
  row ← py_get graph (to e); py_get row (rev_i e).

Abbreviation parents := (list (option (Z * edge_ref))).

(** Body of [for edge in graph[v]] in the breadth-first search; [i] is the
    position of [edge] in [graph[v]]. *)
Definition visit (source v : Z) (row_v : nat) (ie : nat * FlowEdge)
    (st : parents * list Z) : outcome (parents * list Z) :=
  let '(i, edge) := ie in
  let '(parent, queue) := st in
  if Qle_bool (residual_capacity edge) 0 then Ret st
  else
    p ← py_get parent (to edge);
    if bool_decide (p <> None) || (to edge =? source) then Ret st
    else
      parent' ← py_set parent (to edge) (Some (v, (row_v, i)));
      Ret (parent', queue ++ [to edge]).

(** [while queue and parent[sink] is None] *)
Fixpoint bfs (fuel : nat) (graph : network) (source sink : Z)
    (parent : parents) (queue : list Z) : outcome parents :=
  match fuel with
  | O => OutOfFuel
  | S fuel' =>
      match queue with
      | [] => Ret parent
      | v :: queue' =>
          ps ← py_get parent sink;
          if bool_decide (ps <> None) then Ret parent
          else
            row ← py_get graph v;
            match norm_index (length graph) v with
            | Some row_v =>
                '(parent', queue'') ←
                  for_each (imap pair row) (visit source v row_v) (parent, queue');
                bfs fuel' graph source sink parent' queue''
            | None => Raise IndexError
            end
      end
  end.

(** [prev, edge = parent[cur]]: unpacking [None] is a [TypeError]. *)
Definition unpack_parent (parent : parents) (cur : Z) : outcome (Z * edge_ref) :=
  p ← py_get parent cur;
  match p with
  | Some pe => Ret pe
  | None => Raise TypeError
  end.

(** First walk from [sink]: the bottleneck of the path found. *)
Fixpoint bottleneck (fuel : nat) (graph : network) (parent : parents)
    (source cur : Z) (path_flow : ext Q) : outcome (ext Q) :=
  if cur =? source then Ret path_flow
  else
    match fuel with
    | O => OutOfFuel
    | S fuel' =>
        '(prev, r) ← unpack_parent parent cur;
        edge ← deref graph r;
        bottleneck fuel' graph parent source prev
          (ext_min path_flow (Fin (residual_capacity edge)))
    end.

(** Second walk: [edge.flow += path_flow] and
    [graph[edge.to][edge.rev_i].flow -= path_flow]. *)
Fixpoint augment (fuel : nat) (graph : network) (parent : parents)
    (source cur : Z) (path_flow : Q) : outcome network :=
  if cur =? source then Ret graph
  else
    match fuel with
    | O => OutOfFuel
    | S fuel' =>
        '(prev, r) ← unpack_parent parent cur;
        edge ← deref graph r;
        let graph1 := update_ref graph r (fun e => add_flow e path_flow) in
        edge1 ← deref graph1 r;
        match norm_index (length graph1) (to edge1) with
        | Some k =>
            row ← py_get graph1 (to edge1);
            match norm_index (length row) (rev_i edge1) with
            | Some j =>
                let graph2 := update_ref graph1 (k, j) (fun e => add_flow e (- path_flow)) in
                augment fuel' graph2 parent source prev path_flow
            | None => Raise IndexError
            end
        | None => Raise IndexError
        end
    end.

(** The [while True] loop. *)
Fixpoint augment_loop (fuel : nat) (n : Z) (graph : network) (source sink : Z)
    (max_flow : Q) : outcome (Q * network) :=
  match fuel with
  | O => OutOfFuel
  | S fuel' =>
      parent ← bfs fuel graph source sink (py_repeat None n) [source];
      ps ← py_get parent sink;
      match ps with
      | None => Ret (max_flow, graph)
      | Some _ =>
          path_flow ← bottleneck fuel graph parent source sink PInf;
          match path_flow with
          | Fin pf =>
              graph' ← augment fuel graph parent source sink pf;
              augment_loop fuel' n graph' source sink (max_flow + pf)%Q
          | PInf =>
              (* only when the walk is empty, that is [sink == source],
                 which [edmonds_karp] has excluded before the loop *)
              Ret (max_flow, graph)
          end
      end
  end.

Definition edmonds_karp (fuel : nat) (n : Z) (edges : list WeightedEdge)
    (source sink : Z) : outcome (Q * list FlowEdge) :=
  if (n <=? 0) || negb ((0 <=? source) && (source <? n))
     || negb ((0 <=? sink) && (sink <? n))
  then Ret (0%Q, [])
  else if source =? sink
  then Ret (0%Q, (fun e : WeightedEdge => mkFlowEdge e.1.1 e.1.2 e.2 0) <$> edges)
  else
    '(graph, forward_edges) ← build_residual n edges;
    '(max_flow, graph') ← augment_loop fuel n graph source sink 0%Q;
    result_edges ←
      for_each (zip edges forward_edges)
        (fun '(orig_edge, r) acc =>
           flow_edge ← deref graph' r;
           Ret (acc ++ [mkFlowEdge orig_edge.1.1 orig_edge.1.2 orig_edge.2
                          (flow flow_edge)]))
        [];
    Ret (max_flow, result_edges).

End Flow.

(** ** [src/lab4/pathfinding.py]: A* on a grid *)

Module Pathfinding.

Definition Coord : Type := Z * Z.
Definition Grid : Type := list (list Z).

(** A heuristic value or f-score: the real [rat + sqrt rad], [0 <= rad].
    [math.hypot] is kept symbolic so that scores are compared exactly. *)
Record surd := mkSurd { rat : Q; rad : Z }.

Definition HeuristicFunc : Type := Coord -> Coord -> surd.

Definition manhattan : HeuristicFunc := fun a b =>
  mkSurd (inject_Z (Z.abs (a.1 - b.1) + Z.abs (a.2 - b.2))) 0.

Definition euclidean : HeuristicFunc := fun a b =>
  let dr := a.1 - b.1 in
  let dc := a.2 - b.2 in
  mkSurd 0 (dr * dr + dc * dc).

(** [d + h] for a float [d] and a heuristic value [h]. *)
Definition surd_add (d : Q) (h : surd) : surd := mkSurd (d + rat h)%Q (rad h).

(** [sqrt m < sqrt k + d] for [0 < d]. *)
Definition sqrt_lt_shift (m k : Z) (d : Q) : bool :=
  let e := (inject_Z m - inject_Z k - d * d)%Q in
  Qltb e 0 || Qltb (e * e) (4 * d * d * inject_Z k).

(** [sqrt m == sqrt k + d] for [0 < d]. *)
Definition sqrt_eq_shift (m k : Z) (d : Q) : bool :=
  let e := (inject_Z m - inject_Z k - d * d)%Q in
  Qle_bool 0 e && Qeq_bool (e * e) (4 * d * d * inject_Z k).

Definition surd_ltb (x y : surd) : bool :=
  let d := (rat y - rat x)%Q in
  if Qeq_bool d 0 then rad x <? rad y
  else if Qltb 0 d then sqrt_lt_shift (rad x) (rad y) d
  else negb (sqrt_lt_shift (rad y) (rad x) (- d))
       && negb (sqrt_eq_shift (rad y) (rad x) (- d)).

Definition surd_eqb (x y : surd) : bool :=
  let d := (rat y - rat x)%Q in
  if Qeq_bool d 0 then rad x =? rad y
  else if Qltb 0 d then sqrt_eq_shift (rad x) (rad y) d
  else sqrt_eq_shift (rad y) (rad x) (- d).

Definition coord_ltb (a b : Coord) : bool :=
  if a.1 =? b.1 then a.2 <? b.2 else a.1 <? b.1.

(** Order of the heap entries [(f_score, dist, coord)]. *)
Definition entry_ltb (x y : surd * Q * Coord) : bool :=
  let '(f1, g1, c1) := x in
  let '(f2, g2, c2) := y in
  if surd_eqb f1 f2 then
    if Qeq_bool g1 g2 then coord_ltb c1 c2 else Qltb g1 g2
  else surd_ltb f1 f2.

(** [runtime_sec], read from the clock, is not part of the model. *)
Record PathFindingResult := mkResult {
  length : ext Q;
  path : list Coord;
  visited_count : Z;
  visited_percent : Q;
}.

Definition in_bounds (rows cols r c : Z) : bool :=
  (0 <=? r) && (r <? rows) && (0 <=? c) && (c <? cols).

Definition cell (grid : Grid) (r c : Z) : outcome Z :=
  row ← py_get grid r; py_get row c.

Definition is_walkable (grid : Grid) (r c : Z) : outcome bool :=
  x ← cell grid r c; Ret (0 <? x).

Record astar := mkAstar {
  dist : gmap Coord Q;
  prev : gmap Coord Coord;
  queue : list (surd * Q * Coord);
  visited : Z;
}.

(** [dist.get(c, math.inf)] *)
Definition dist_get (dist : gmap Coord Q) (c : Coord) : ext Q :=
  match dist !! c with Some d => Fin d | None => PInf end.

Definition moves : list Coord := [(1, 0); (-1, 0); (0, 1); (0, -1)].

(** Body of [for dr, dc in moves]. *)
Definition step (grid : Grid) (rows cols : Z) (heuristic : HeuristicFunc)
    (goal current : Coord) (current_dist : Q) (m : Coord) (st : astar)
  : outcome astar :=
  let nr := current.1 + m.1 in
  let nc := current.2 + m.2 in
  if negb (in_bounds rows cols nr nc) then Ret st
  else
    w ← is_walkable grid nr nc;
    if negb w then Ret st
    else
      step_cost ← cell grid nr nc;
      let new_dist := (current_dist + inject_Z step_cost)%Q in
      if ext_ltb (Fin new_dist) (dist_get (dist st) (nr, nc)) then
        let f_score := surd_add new_dist (heuristic (nr, nc) goal) in
        Ret {| dist := <[(nr, nc) := new_dist]> (dist st);
               prev := <[(nr, nc) := current]> (prev st);
               queue := heappush entry_ltb (queue st) (f_score, new_dist, (nr, nc));
               visited := visited st |}
      else Ret st.

(** The [while queue] loop. *)
Fixpoint search_loop (fuel : nat) (grid : Grid) (rows cols : Z)
    (heuristic : HeuristicFunc) (goal : Coord) (st : astar) : outcome astar :=
  match fuel with
  | O => OutOfFuel
  | S fuel' =>
      match heappop (queue st) with
      | None => Ret st
      | Some ((_, current_dist, current), q') =>
          let st1 := {| dist := dist st; prev := prev st; queue := q';
                        visited := visited st |} in
          if ext_ltb (dist_get (dist st1) current) (Fin current_dist)
          then search_loop fuel' grid rows cols heuristic goal st1
          else
            let st2 := {| dist := dist st1; prev := prev st1; queue := q';
                          visited := visited st1 + 1 |} in
            if bool_decide (current = goal) then Ret st2
            else
              st3 ← for_each moves
                      (step grid rows cols heuristic goal current current_dist) st2;
              search_loop fuel' grid rows cols heuristic goal st3
      end
  end.

(** Truth value of a coordinate pair: a non-empty tuple is always true. *)
Definition coord_truthy (c : Coord) : bool := true.

(** [while cur: path.append(cur); cur = prev[cur]] *)
Fixpoint walk_back (fuel : nat) (prev : gmap Coord Coord) (cur : Coord)
    (path : list Coord) : outcome (list Coord) :=
  if coord_truthy cur then
    match fuel with
    | O => OutOfFuel
    | S fuel' =>
        match prev !! cur with
        | Some p => walk_back fuel' prev p (path ++ [cur])
        | None => Raise KeyError
        end
    end
  else Ret path.

(** [sum(1 for r in range(rows) for c in range(cols) if is_walkable(r, c))] *)
Definition count_walkable (grid : Grid) (rows cols : Z) : outcome Z :=
  for_each (py_range 0 rows)
    (fun r acc =>
       for_each (py_range 0 cols)
         (fun c (acc' : Z) =>
            w ← is_walkable grid r c; Ret (if w : bool then acc' + 1 else acc'))
         acc)
    0.

Definition unreachable : PathFindingResult := mkResult PInf [] 0 0.

Definition a_star (fuel : nat) (grid : Grid) (start goal : Coord)
    (heuristic : HeuristicFunc) : outcome PathFindingResult :=
  let rows := Z.of_nat (List.length grid) in
  cols ← (if rows =? 0 then Ret 0
          else row0 ← py_get grid 0; Ret (Z.of_nat (List.length row0)));
  if negb (in_bounds rows cols start.1 start.2 && in_bounds rows cols goal.1 goal.2)
  then Ret unreachable
  else
    ws ← is_walkable grid start.1 start.2;
    wg ← (if ws then is_walkable grid goal.1 goal.2 else Ret false);
    if negb (ws && wg) then Ret unreachable
    else
      total_walkable ← count_walkable grid rows cols;
      st ← search_loop fuel grid rows cols heuristic goal
             {| dist := {[ start := 0%Q ]}; prev := ∅;
                queue := [(surd_add 0 (heuristic start goal), 0%Q, start)];
                visited := 0 |};
      let visited_percent :=
        if total_walkable =? 0 then 0%Q
        else (inject_Z (visited st) / inject_Z total_walkable * 100)%Q in
      match dist st !! goal with
      | None => Ret (mkResult PInf [] (visited st) visited_percent)
      | Some d_goal =>
          path ← walk_back fuel (prev st) goal [];
          Ret (mkResult (Fin d_goal) (reverse path) (visited st) visited_percent)
      end.

Definition solve_grid (fuel : nat) (grid : Grid) (start goal : Coord)
  : outcome (PathFindingResult * PathFindingResult) :=
  m ← a_star fuel grid start goal manhattan;
  e ← a_star fuel grid start goal euclidean;
  Ret (m, e).

End Pathfinding.

(** ** [src/lab4/matching.py]: two-colouring and Hopcroft-Karp *)

Module Matching.

Definition Edge : Type := Z * Z.

(** [adj[a].append(b)] *)
Definition adj_append (adj : list (list Z)) (a b : Z) : outcome (list (list Z)) :=
  row ← py_get adj a; py_set adj a (row ++ [b]).

(** A loop body that may leave the function: [Return r] carries the value
    returned. *)
Inductive ctrl (S R : Type) : Type :=
| Continue (s : S)
| Return (r : R).
Arguments Continue {S R} s.
Arguments Return {S R} r.

(** [for u in adj[v]] in [check_bipartite]; the state is [(colors, q)] and
    an early [return False, colors] carries [colors]. *)
Fixpoint colour_neighbours (v : Z) (us : list Z) (colors : list Z) (q : list Z)
  : outcome (ctrl (list Z * list Z) (list Z)) :=
  match us with
  | [] => Ret (Continue (colors, q))
  | u :: us' =>
      cu ← py_get colors u;
      if cu =? -1 then
        cv ← py_get colors v;
        colors' ← py_set colors u (1 - cv);
        colour_neighbours v us' colors' (q ++ [u])
      else
        cv ← py_get colors v;
        if cu =? cv then Ret (Return colors)
        else colour_neighbours v us' colors q
  end.

(** [while q] in [check_bipartite]. *)
Fixpoint colour_component (fuel : nat) (adj : list (list Z)) (colors : list Z)
    (q : list Z) : outcome (ctrl (list Z) (list Z)) :=
  match fuel with
  | O => OutOfFuel
  | S fuel' =>
      match q with
      | [] => Ret (Continue colors)
      | v :: q' =>
          us ← py_get adj v;
          r ← colour_neighbours v us colors q';
          match r with
          | Continue (colors', q'') => colour_component fuel' adj colors' q''
          | Return colors' => Ret (Return colors')
          end
      end
  end.

(** [for start in range(n)] in [check_bipartite]. *)
Fixpoint colour_all (fuel : nat) (adj : list (list Z)) (starts : list Z)
    (colors : list Z) : outcome (bool * list Z) :=
  match starts with
  | [] => Ret (true, colors)
  | start :: starts' =>
      c ← py_get colors start;
      if negb (c =? -1) then colour_all fuel adj starts' colors
      else
        colors1 ← py_set colors start 0;
        r ← colour_component fuel adj colors1 [start];
        match r with
        | Continue colors2 => colour_all fuel adj starts' colors2
        | Return colors2 => Ret (false, colors2)
        end
  end.

Definition check_bipartite (fuel : nat) (n : Z) (edges : list Edge)
  : outcome (bool * list Z) :=
  adj ← for_each edges
          (fun '(u, v) adj => adj1 ← adj_append adj u v; adj_append adj1 v u)
          (replicate (Z.to_nat n) []);
  colour_all fuel adj (py_range 0 n) (py_repeat (-1) n).

(** State of [hopcroft_karp]: the three arrays its closures share.
    [dist] holds an [int] layer or [float('inf')]. *)
Record hk := mkHk {
  pair_v : list Z;
  pair_u : list Z;
  dist : list (ext Z);
}.

Definition set_dist (st : hk) (v : Z) (d : ext Z) : outcome hk :=
  dist' ← py_set (dist st) v d;
  Ret {| pair_v := pair_v st; pair_u := pair_u st; dist := dist' |}.

(** [d + 1] *)
Definition layer_succ (d : ext Z) : ext Z :=
  match d with Fin k => Fin (k + 1) | PInf => PInf end.

(** [d == e] *)
Definition layer_eqb (d e : ext Z) : bool :=
  match d, e with
  | Fin a, Fin b => a =? b
  | PInf, PInf => true
  | _, _ => false
  end.

Definition layer_is_inf (d : ext Z) : bool :=
  match d with PInf => true | Fin _ => false end.

(** The loop building [forward_adj]; [left_partition] is given by the list
    of its elements in iteration order. *)
Definition add_forward (left_partition : list Z) (e : Edge) (forward_adj : list (list Z))
  : outcome (list (list Z)) :=
  let '(u, v) := e in
  if bool_decide (u ∈ left_partition) then adj_append forward_adj u v
  else if bool_decide (v ∈ left_partition) then adj_append forward_adj v u
  else Ret forward_adj.

(** First loop of [bfs]: layer 0 for the free left vertices. *)
Definition bfs_init (v : Z) (s : hk * list Z) : outcome (hk * list Z) :=
  let '(st, dq) := s in
  pv ← py_get (pair_v st) v;
  if negb (pv =? -1) then st' ← set_dist st v PInf; Ret (st', dq)
  else st' ← set_dist st v (Fin 0); Ret (st', dq ++ [v]).

(** Body of [for u in forward_adj[v]] in [bfs]; the state is
    [(arrays, dq, found_path)]. *)
Definition bfs_visit (v u : Z) (s : hk * list Z * bool) : outcome (hk * list Z * bool) :=
  let '(st, dq, found_path) := s in
  pu ← py_get (pair_u st) u;
  if pu =? -1 then Ret (st, dq, true)
  else
    dpu ← py_get (dist st) pu;
    if layer_is_inf dpu then
      dv ← py_get (dist st) v;
      st' ← set_dist st pu (layer_succ dv);
      Ret (st', dq ++ [pu], found_path)
    else Ret s.

(** [while dq] in [bfs]. *)
Fixpoint bfs_loop (fuel : nat) (forward_adj : list (list Z))
    (s : hk * list Z * bool) : outcome (hk * bool) :=
  match fuel with
  | O => OutOfFuel
  | S fuel' =>
      let '(st, dq, found_path) := s in
      match dq with
      | [] => Ret (st, found_path)
      | v :: dq' =>
          us ← py_get forward_adj v;
          s' ← for_each us (bfs_visit v) (st, dq', found_path);
          bfs_loop fuel' forward_adj s'
      end
  end.

Definition bfs (fuel : nat) (forward_adj : list (list Z)) (left_partition : list Z)
    (st : hk) : outcome (hk * bool) :=
  '(st1, dq) ← for_each left_partition bfs_init (st, []);
  bfs_loop fuel forward_adj (st1, dq, false).

(** [pair_v[v] = u; pair_u[u] = v] *)
Definition flip (st : hk) (v u : Z) : outcome hk :=
  pv ← py_set (pair_v st) v u;
  pu ← py_set (pair_u st) u v;
  Ret {| pair_v := pv; pair_u := pu; dist := dist st |}.

(** [for u in forward_adj[v]] in [dfs]; [rec] stands for the recursive call
    [dfs(pu)]. *)
Fixpoint dfs_edges (rec : Z -> hk -> outcome (bool * hk)) (v : Z) (us : list Z)
    (st : hk) : outcome (bool * hk) :=
  match us with
  | [] => st' ← set_dist st v PInf; Ret (false, st')
  | u :: us' =>
      pu ← py_get (pair_u st) u;
      if pu =? -1 then st' ← flip st v u; Ret (true, st')
      else
        dpu ← py_get (dist st) pu;
        dv ← py_get (dist st) v;
        if layer_eqb dpu (layer_succ dv) then
          '(ok, st1) ← rec pu st;
          if ok : bool then st' ← flip st1 v u; Ret (true, st')
          else dfs_edges rec v us' st1
        else dfs_edges rec v us' st
  end.

Fixpoint dfs (fuel : nat) (forward_adj : list (list Z)) (v : Z) (st : hk)
  : outcome (bool * hk) :=
  match fuel with
  | O => OutOfFuel
  | S fuel' =>
      us ← py_get forward_adj v;
      dfs_edges (dfs fuel' forward_adj) v us st
  end.

(** [for u in left_partition: if pair_v[u] == -1: dfs(u)] *)
Definition phase_step (fuel : nat) (forward_adj : list (list Z)) (u : Z) (st : hk)
  : outcome hk :=
  pv ← py_get (pair_v st) u;
  if pv =? -1 then '(_, st') ← dfs fuel forward_adj u st; Ret st'
  else Ret st.

(** [while bfs()] *)
Fixpoint phases (fuel : nat) (forward_adj : list (list Z)) (left_partition : list Z)
    (st : hk) : outcome hk :=
  match fuel with
  | O => OutOfFuel
  | S fuel' =>
      '(st1, found_path) ← bfs fuel forward_adj left_partition st;
      if found_path : bool then
        st2 ← for_each left_partition (phase_step fuel forward_adj) st1;
        phases fuel' forward_adj left_partition st2
      else Ret st1
  end.

Definition hopcroft_karp (fuel : nat) (n : Z) (edges : list Edge)
    (left_partition : list Z) : outcome (list Edge) :=
  forward_adj ← for_each edges (add_forward left_partition) (replicate (Z.to_nat n) []);
  st ← phases fuel forward_adj left_partition
         {| pair_v := py_repeat (-1) n; pair_u := py_repeat (-1) n;
            dist := py_repeat PInf n |};
  for_each left_partition
    (fun u matching =>
       pv ← py_get (pair_v st) u;
       Ret (if pv =? -1 then matching else matching ++ [(u, pv)]))
    [].

(** [{i for i, c in enumerate(colors) if c == 0}], as the list of its
    elements in increasing order. *)
Definition left_of (colors : list Z) : list Z :=
  omap (fun ic : nat * Z => if ic.2 =? 0 then Some (Z.of_nat ic.1) else None)
       (imap pair colors).

(** [solve_matching].  The order in which Python iterates over the set
    [left_partition] is not fixed by the language; [iter_order] gives it. *)
Definition solve_matching (iter_order : list Z -> list Z) (fuel : nat) (n : Z)
    (edges : list Edge) : outcome (bool * list Edge) :=
  '(is_bipartite, colors) ← check_bipartite fuel n edges;
  if negb is_bipartite then Ret (false, [])
  else
    let left_partition := iter_order (left_of colors) in
    matching ← hopcroft_karp fuel n edges left_partition;
    Ret (true, matching).

End Matching.

(** ** [src/3/graph.py]: the listing methods *)

Module GraphQueries.
Import GraphStore.

Definition list_of_vertices (g : Graph) : list Z := py_range 0 (n g).

(** Body of the loops over [j] in [list_of_edges]: the entry is tested,
    then [i != j]; [both] says whether the reversed tuple is appended too.
    The entry is read again for the tuple, with nothing changed since. *)
Definition list_edge (g : Graph) (both : bool) (i j : Z) (edges : list (Z * Z * Q))
  : outcome (list (Z * Z * Q)) :=
  w ← mat_get (adj_matrix g) i j;
  match w with
  | Some wt =>
      if negb (i =? j)
      then Ret (edges ++ (i, j, wt) :: (if both then [(j, i, wt)] else []))
      else Ret edges
  | None => Ret edges
  end.

(** [list_of_edges(a_i)], and [list_of_edges()] for [a_i = None]. *)
Definition list_of_edges (g : Graph) (a_i : option Z) : outcome (list (Z * Z * Q)) :=
  match a_i with
  | Some a =>
      if in_graph g a then for_each (py_range 0 (n g)) (list_edge g false a) []
      else Ret []
  | None =>
      for_each (py_range 0 (n g))
        (fun i edges =>
           let min_j := if is_undirected (graph_type g) then i + 1 else 0 in
           for_each (py_range min_j (n g))
             (list_edge g (is_undirected (graph_type g)) i) edges)
        []
  end.

End GraphQueries.

(** ** [src/3/graph.py]: connected components *)

Module Components.
Import GraphStore.

(** [q.pop()]: the list without its last element, and that element. *)
Definition pop_last {A} (q : list A) : option (list A * A) :=
  match reverse q with
  | [] => None
  | v :: r => Some (reverse r, v)
  end.

(** Body of [for u in range(n)] in [connected_components]:
    [(adj[v][u] is not None or adj[u][v] is not None) and v != u]. *)
Definition push_neighbour (g : Graph) (v u : Z) (q : list Z) : outcome (list Z) :=
  a ← mat_get (adj_matrix g) v u;
  joined ← (if bool_decide (a <> None) then Ret true
            else b ← mat_get (adj_matrix g) u v; Ret (bool_decide (b <> None)));
  Ret (if (joined : bool) && negb (v =? u) then q ++ [u] else q).

(** [while q] in [connected_components]; [component] is a Python set. *)
Fixpoint component_loop (fuel : nat) (g : Graph) (visited : list bool)
    (component : gset Z) (q : list Z) : outcome (list bool * gset Z) :=
  match fuel with
  | O => OutOfFuel
  | S fuel' =>
      match pop_last q with
      | None => Ret (visited, component)
      | Some (q', v) =>
          seen ← py_get visited v;
          if seen : bool then component_loop fuel' g visited component q'
          else
            visited' ← py_set visited v true;
            q'' ← for_each (py_range 0 (n g)) (push_neighbour g v) q';
            component_loop fuel' g visited' ({[v]} ∪ component) q''
      end
  end.

(** Body of [for i in range(n)]. *)
Definition component_from (fuel : nat) (g : Graph) (i : Z)
    (s : list bool * list (gset Z)) : outcome (list bool * list (gset Z)) :=
  let '(visited, components) := s in
  seen ← py_get visited i;
  if seen : bool then Ret s
  else
    '(visited', component) ← component_loop fuel g visited ∅ [i];
    Ret (visited', components ++ [component]).

Definition connected_components (fuel : nat) (g : Graph) : outcome (list (gset Z)) :=
  '(_, components) ←
    for_each (py_range 0 (n g)) (component_from fuel g) (py_repeat false (n g), []);
  Ret components.

Definition is_connected (fuel : nat) (g : Graph) : outcome bool :=
  if n g =? 0 then Ret true
  else components ← connected_components fuel g;
       Ret (length components =? 1)%nat.

End Components.

(** * Scenarios and specification vocabulary *)

Module FlowSpec.
Import Flow.

(** Scenario 2 of the specification: [0->1:3, 0->2:2, 1->3:2, 2->3:3, 1->2:1]. *)
Definition scenario_edges : list WeightedEdge :=
  [(0, 1, 3%Q); (0, 2, 2%Q); (1, 3, 2%Q); (2, 3, 3%Q); (1, 2, 1%Q)].

(** What [edmonds_karp] reports for the scenario: no flow on any edge. *)
Definition scenario_report : list FlowEdge :=
  [mkFlowEdge 0 1 3 0; mkFlowEdge 0 2 2 0; mkFlowEdge 1 3 2 0;
   mkFlowEdge 2 3 3 0; mkFlowEdge 1 2 1 0].

(** The smallest network with one edge, [0 -> 1] of capacity 5. *)
Definition single_edge : list WeightedEdge := [(0, 1, 5%Q)].

Definition single_forward : FlowEdge := mkFlowEdge 0 0 5 0.
Definition single_backward : FlowEdge := mkFlowEdge 1 0 0 0.

End FlowSpec.

Module PathfindingSpec.
Import Pathfinding.

(** Scenario 5 of the specification: the 3x3 grid of ones. *)
Definition grid3 : Grid := [[1; 1; 1]; [1; 1; 1]; [1; 1; 1]].

End PathfindingSpec.

Module GraphSpec.
Import GraphStore.

(** Two vertices and no edge. *)
Definition two_isolated : Graph :=
  mkGraph DIRECTED 2 [[Some 0%Q; None]; [None; Some 0%Q]].

(** A directed graph with the arcs [0 -> 1] of weight 0 and [1 -> 0] of
    weight 5. *)
Definition zero_arc : Graph :=
  mkGraph DIRECTED 2 [[Some 0%Q; Some 0%Q]; [Some 5%Q; Some 0%Q]].

(** The weight between [v] and [u] as the specification words it: the
    smaller of the two directional weights, an absent one counting as
    [+infinity]. *)
Definition absent_as_inf (w : option Q) : ext Q :=
  match w with None => PInf | Some q => Fin q end.

Definition skeleton_weight (g : Graph) (v u : Z) : outcome (ext Q) :=
  a ← weight g v u;
  b ← weight g u v;
  Ret (ext_min (absent_as_inf a) (absent_as_inf b)).

(** The result shape that signals "out of range" and the one that signals
    "no path". *)
Definition out_of_range_sentinel : option (ext Q) * list Z := (None, []).
Definition unreachable_sentinel : option (ext Q) * list Z := (Some PInf, []).

(** Entry [(i, j)] of a matrix, when the matrix has one. *)
Definition entry (m : matrix) (i j : nat) : option (option Q) :=
  row ← m !! i; row !! j.

(** What every graph object satisfies: the matrix has at least [n] rows,
    each of length [n]; an object made with a negative [n] has no rows. *)
Definition consistent (g : Graph) : Prop :=
  (n g < 0 -> adj_matrix g = [])
  /\ (0 <= n g ->
      n g <= Z.of_nat (length (adj_matrix g))
      /\ Forall (fun row => Z.of_nat (length row) = n g) (adj_matrix g)).

(** The matrix is exactly [N] by [N]. *)
Definition is_square (N : nat) (m : matrix) : Prop :=
  length m = N /\ Forall (fun row => length row = N) m.

(** A graph with [n >= 0] whose matrix is [n] by [n]. *)
Definition proper (g : Graph) : Prop :=
  0 <= n g /\ is_square (Z.to_nat (n g)) (adj_matrix g).

(** Index in the old matrix of row or column [i] once [k] is removed. *)
Definition bump (k i : nat) : nat := if decide (i < k)%nat then i else S i.

Definition symmetric_matrix (m : matrix) : Prop :=
  forall i j : nat, entry m i j = entry m j i.

(** The mutating calls a client can make, and the object they leave behind
    (also when the call raised). *)
Inductive op :=
| AddVertex (a_i : Z)
| AddEdge (a_i b_i : Z) (w : Q)
| RemoveVertex (a_i : Z)
| RemoveEdge (a_i b_i : Z).

Definition run_op (g : Graph) (o : op) : Graph :=
  match o with
  | AddVertex a_i => (add_vertex a_i g).1
  | AddEdge a_i b_i w => (add_edge a_i b_i w g).1
  | RemoveVertex a_i => (remove_vertex a_i g).1
  | RemoveEdge a_i b_i => (remove_edge a_i b_i g).1
  end.

Definition run (ops : list op) (g : Graph) : Graph := foldl run_op g ops.

(** Objects as the two forms of [Graph.__init__] make them. *)
Inductive constructed (t : GraphOrientationType) (size : Z) (g : Graph) : Prop :=
| by_size : Graph_init t size = Ret g -> constructed t size g
| from_file edges : Graph_load t size edges = Ret g -> constructed t size g.

(** [add_edge(a, b, w)] followed by [remove_edge(a, b)]. *)
Definition add_then_remove (a_i b_i : Z) (w : Q) (g : Graph) : Graph :=
  (remove_edge a_i b_i (add_edge a_i b_i w g).1).1.

(** A graph with the single edge [0 - 1] of weight 5. *)
Definition one_edge : Graph :=
  mkGraph UNDIRECTED 2 [[Some 0%Q; Some 5%Q]; [Some 5%Q; Some 0%Q]].

(** Two vertices and no edge, undirected. *)
Definition two_apart : Graph :=
  mkGraph UNDIRECTED 2 [[Some 0%Q; None]; [None; Some 0%Q]].

(** An undirected object made with size [-1]. *)
Definition negative_size : Graph := mkGraph UNDIRECTED (-1) [].

End GraphSpec.

Module MatchingSpec.
Import Matching.

(** The entry an array holds for vertex [v]; vertices are not negative. *)
Definition lk {A} (l : list A) (v : Z) : option A :=
  if decide (0 <= v) then l !! Z.to_nat v else None.

#[export] Instance ext_eq_dec {A} `{EqDecision A} : EqDecision (ext A).
Proof. solve_decision. Defined.

Section invariants.
Variables (N : nat) (left_partition : list Z).

(** The arrays describe a matching: a left vertex paired with [u] is the
    one [u] is paired with, and [u] is a right vertex. *)
Definition good (st : hk) : Prop :=
  length (pair_v st) = N /\ length (pair_u st) = N /\ length (dist st) = N
  /\ (forall x u, lk (pair_v st) x = Some u -> u <> -1 ->
        0 <= u < Z.of_nat N /\ (u ∉ left_partition) /\ lk (pair_u st) u = Some x)
  /\ (forall u x, lk (pair_u st) u = Some x -> x <> -1 ->
        0 <= x < Z.of_nat N /\ x ∈ left_partition).

(** How the arrays [s] differ from earlier arrays [st] once calls below
    layer [d] have run: a pair changes only where a call succeeded
    ([ok]), and every vertex touched lay deeper than [d]. *)
Definition deeper (d : Z) (ok : bool) (st s : hk) : Prop :=
  (forall x, lk (pair_v s) x <> lk (pair_v st) x ->
     ok = true
     /\ (exists u', lk (pair_v s) x = Some u' /\ u' <> -1)
     /\ exists dx, lk (dist st) x = Some (Fin dx) /\ d < dx)
  /\ (forall u, lk (pair_u s) u <> lk (pair_u st) u ->
        ok = true
        /\ exists p, lk (pair_u st) u = Some p
             /\ (p = -1 \/ exists k, lk (dist st) p = Some (Fin k) /\ d < k))
  /\ (forall x, lk (dist s) x <> lk (dist st) x ->
        lk (dist s) x = Some PInf
        /\ exists dx, lk (dist st) x = Some (Fin dx) /\ d < dx).

(** What a call [dfs(v)], [v] on layer [d], leaves behind. *)
Definition post (d v : Z) (st st' : hk) (ok : bool) : Prop :=
  good st'
  /\ (forall x, lk (pair_v st') x <> lk (pair_v st) x ->
        ok = true
        /\ (exists u', lk (pair_v st') x = Some u' /\ u' <> -1)
        /\ (x = v \/ exists dx, lk (dist st) x = Some (Fin dx) /\ d < dx))
  /\ (forall u, lk (pair_u st') u <> lk (pair_u st) u ->
        ok = true
        /\ exists p, lk (pair_u st) u = Some p
             /\ (p = -1 \/ exists k, lk (dist st) p = Some (Fin k) /\ d < k))
  /\ (forall x, lk (dist st') x <> lk (dist st) x ->
        lk (dist st') x = Some PInf
        /\ (x = v \/ exists dx, lk (dist st) x = Some (Fin dx) /\ d < dx))
  /\ (ok = true ->
        exists u p, lk (pair_v st') v = Some u /\ u <> -1
          /\ lk (pair_u st) u = Some p
          /\ (p = -1 \/ lk (dist st) p = Some (Fin (d + 1)))).
End invariants.


(** The search changes no pair. *)
Definition same_pairs (st s : hk) : Prop :=
  pair_v s = pair_v st /\ pair_u s = pair_u st /\ length (dist s) = length (dist st).

(** Layers already assigned are never overwritten by the search. *)
Definition keeps_layers (s s' : hk) : Prop :=
  forall u k, lk (dist s) u = Some (Fin k) -> lk (dist s') u = Some (Fin k).

(** [colors'] keeps every colour [colors] has assigned. *)
Definition extends (colors colors' : list Z) : Prop :=
  length colors' = length colors
  /\ forall v c, lk colors v = Some c -> c <> -1 -> lk colors' v = Some c.

(** Vertex [v] is coloured 0 or 1 and each of its neighbours has the other
    colour. *)
Definition checked (adj : list (list Z)) (colors : list Z) (v : Z) : Prop :=
  forall row u, lk adj v = Some row -> u ∈ row ->
    exists cv, lk colors v = Some cv /\ (cv = 0 \/ cv = 1)
               /\ lk colors u = Some (1 - cv).

(** Invariant of the colouring loops: a coloured vertex waits in the queue,
    is the one being processed ([hole]), or is checked. *)
Definition colouring (N : nat) (adj : list (list Z)) (colors : list Z)
    (q : list Z) (hole : option Z) : Prop :=
  length colors = N
  /\ (forall v c, lk colors v = Some c -> c = -1 \/ c = 0 \/ c = 1)
  /\ Forall (fun v => 0 <= v /\ exists c, lk colors v = Some c /\ c <> -1) q
  /\ (forall v c, lk colors v = Some c -> c <> -1 ->
        v ∈ q \/ Some v = hole \/ checked adj colors v).

(** *** Termination measures and the layering *)

(** Number of vertices not coloured yet. *)
Definition uncolored (colors : list Z) : nat :=
  length (filter (fun c => c = -1) colors).

(** Number of vertices without a layer. *)
Definition inf_count (dist : list (ext Z)) : nat :=
  length (filter (fun e => e = PInf) dist).

(** Only left vertices carry a layer, and layers are not negative. *)
Definition layers_ok (left_partition : list Z) (st : hk) : Prop :=
  forall x k, lk (dist st) x = Some (Fin k) -> x ∈ left_partition /\ 0 <= k.

(** What [bfs] leaves in [dist]: layer 0 holds exactly the free left
    vertices, a vertex on layer [k + 1] is the partner of a right
    neighbour of a vertex on layer [k], and [found_path] is set only if a
    layered vertex has a free right neighbour. *)
Definition layered (forward_adj : list (list Z)) (left_partition : list Z)
    (st : hk) (found : bool) : Prop :=
  layers_ok left_partition st
  /\ (forall x, x ∈ left_partition -> lk (pair_v st) x = Some (-1) ->
        lk (dist st) x = Some (Fin 0))
  /\ (forall x, lk (dist st) x = Some (Fin 0) -> lk (pair_v st) x = Some (-1))
  /\ (forall x k, 0 <= k -> lk (dist st) x = Some (Fin (k + 1)) ->
        exists y us u, lk (dist st) y = Some (Fin k) /\ lk forward_adj y = Some us
                       /\ u ∈ us /\ lk (pair_u st) u = Some x)
  /\ (found = true ->
        exists x k us u, lk (dist st) x = Some (Fin k) /\ lk forward_adj x = Some us
                         /\ u ∈ us /\ lk (pair_u st) u = Some (-1)).

(** Invariant of the [while dq] loop of [bfs]. *)
Definition bfs_inv (forward_adj : list (list Z)) (left_partition : list Z)
    (st s : hk) (dq : list Z) (found : bool) : Prop :=
  same_pairs st s
  /\ layered forward_adj left_partition s found
  /\ Forall (fun v => exists k, lk (dist s) v = Some (Fin k)) dq.

(** A layer below [d]. *)
Definition is_deeper (d : Z) (e : ext Z) : Prop :=
  match e with Fin k => d < k | PInf => False end.

#[export] Instance is_deeper_dec d e : Decision (is_deeper d e).
Proof. destruct e; simpl; apply _. Defined.

(** Number of vertices on layers below [d]: it bounds the depth of the
    recursion of [dfs] from layer [d]. *)
Definition deeper_count (d : Z) (dist : list (ext Z)) : nat :=
  length (filter (is_deeper d) dist).

(** [dist] is the layering [D] with some vertices marked [inf] since. *)
Definition below (D dist : list (ext Z)) : Prop :=
  length dist = length D
  /\ forall x, lk dist x <> lk D x -> lk dist x = Some PInf.

(** Every vertex marked since the layering [D] is exhausted: none of its
    right neighbours is free, and their partners on the next layer are
    marked too.  [Pu] is [pair_u] as it was when [D] was computed. *)
Definition exhausted (forward_adj : list (list Z)) (D : list (ext Z)) (Pu : list Z)
    (dist : list (ext Z)) : Prop :=
  forall x d us u,
    lk D x = Some (Fin d) -> lk dist x = Some PInf ->
    lk forward_adj x = Some us -> u ∈ us ->
    exists pu, lk Pu u = Some pu /\ pu <> -1
               /\ (lk D pu = Some (Fin (d + 1)) -> lk dist pu = Some PInf).

(** What a failed call [dfs(v)] leaves behind. *)
Definition fail_post (forward_adj : list (list Z)) (D : list (ext Z)) (Pu : list Z)
    (v : Z) (s s' : hk) : Prop :=
  exhausted forward_adj D Pu (dist s') /\ lk (dist s') v = Some PInf
  /\ below D (dist s')
  /\ (forall u, lk (pair_u s') u = lk Pu u).

(** Number of free entries of a pair array. *)
Definition free_count (pair : list Z) : nat :=
  length (filter (fun u => u = -1) pair).

(** Invariant of the loop [for u in left_partition] of a phase that began
    in [st1], after the roots [pre]: either a call has succeeded, or every
    call so far failed and the failed roots are exhausted. *)
Definition phase_inv (N : nat) (forward_adj : list (list Z)) (left_partition : list Z)
    (st1 : hk) (pre : list Z) (s : hk) : Prop :=
  good N left_partition s
  /\ below (dist st1) (dist s)
  /\ (forall x, x ∈ left_partition -> x ∉ pre -> lk (pair_v s) x = Some (-1) ->
        lk (dist s) x = Some (Fin 0))
  /\ (free_count (pair_v s) <= free_count (pair_v st1))%nat
  /\ ((free_count (pair_v s) < free_count (pair_v st1))%nat
      \/ ((forall x, lk (pair_v s) x = lk (pair_v st1) x)
          /\ (forall u, lk (pair_u s) u = lk (pair_u st1) u)
          /\ exhausted forward_adj (dist st1) (pair_u st1) (dist s)
          /\ forall r, r ∈ pre -> lk (pair_v st1) r = Some (-1) ->
               lk (dist s) r = Some PInf)).

End MatchingSpec.

(** ** Vocabulary of the further properties *)

Module FlowVocabulary.
Import Flow.

(** The report that gives every input edge the flow 0. *)
Definition zero_report (edges : list WeightedEdge) : list FlowEdge :=
  (fun e : WeightedEdge => mkFlowEdge e.1.1 e.1.2 e.2 0) <$> edges.

(** Every residual edge kept in the list of vertex [k] points at [k] itself
    and carries no flow. *)
Definition self_pointing (graph : network) : Prop :=
  forall (k j : nat) row e,
    graph !! k = Some row -> row !! j = Some e -> to e = Z.of_nat k /\ flow e = 0%Q.

(** The place [r] holds an edge of [graph]. *)
Definition valid_ref (graph : network) (r : edge_ref) : Prop :=
  exists row e, graph !! r.1 = Some row /\ row !! r.2 = Some e.

End FlowVocabulary.

Module PathfindingVocabulary.
Import Pathfinding.

(** Every row of the grid has [cols] cells, as [parse_grid] guarantees. *)
Definition rectangular (grid : Grid) (cols : Z) : Prop :=
  Forall (fun row : list Z => Z.of_nat (List.length row) = cols) grid.

(** A grid with two walkable cells that no path joins. *)
Definition walled : Grid := [[1; 0]; [0; 1]].

End PathfindingVocabulary.

Module GraphVocabulary.
Import GraphStore GraphSpec GraphQueries.

#[export] Instance orientation_eq_dec : EqDecision GraphOrientationType.
Proof. solve_decision. Defined.

(** What the methods rely on: [n] is not negative, the matrix is exactly
    [n] by [n], and it is symmetric when the graph is undirected. *)
Definition well_formed (g : Graph) : Prop :=
  proper g /\ (graph_type g = UNDIRECTED -> symmetric_matrix (adj_matrix g)).

(** The entries of a graph grown to hold more vertices: the old ones, a
    zero diagonal and nothing else. *)
Definition grown_weight (g : Graph) (i j : Z) : outcome (option Q) :=
  if decide (i < n g /\ j < n g) then weight g i j
  else Ret (if decide (i = j) then Some 0%Q else None).

(** Number of a vertex before vertex [a] was removed. *)
Definition before_removal (a i : Z) : Z := if decide (i < a) then i else i + 1.

(** The weight [w] is stored for the pair [i <> j] of vertices. *)
Definition stored (g : Graph) (i j : Z) (w : Q) : Prop :=
  0 <= i < n g /\ 0 <= j < n g /\ i <> j /\ weight g i j = Ret (Some w).

(** A directed triangle [0 -> 1 -> 2 -> 0]. *)
Definition triangle : Graph :=
  mkGraph DIRECTED 3
    [[Some 0%Q; Some 1%Q; None]; [None; Some 0%Q; Some 2%Q]; [Some 3%Q; None; Some 0%Q]].

End GraphVocabulary.

Module ComponentsVocabulary.
Import GraphStore GraphSpec GraphVocabulary Components MatchingSpec.

(** Vertices [v <> u] of the graph are joined by an edge or arc, in either
    direction. *)
Definition linked (g : Graph) (v u : Z) : Prop :=
  exists w, stored g v u w \/ stored g u v w.

(** [u] can be reached from [v] along edges, arcs taken in either
    direction. *)
Definition connected (g : Graph) : relation Z := rtc (linked g).

(** Number of vertices not visited yet. *)
Definition unvisited (visited : list bool) : nat :=
  length (filter (fun b => b = false) visited).

(** The vertices marked in [visited] are those of [components], which are
    pairwise disjoint, closed under [linked] and internally connected. *)
Definition components_ok (g : Graph) (visited : list bool)
    (components : list (gset Z)) : Prop :=
  length visited = Z.to_nat (n g)
  /\ (forall v, lk visited v = Some true <-> exists c, c ∈ components /\ v ∈ c)
  /\ (forall c v u, c ∈ components -> v ∈ c -> linked g v u -> u ∈ c)
  /\ (forall c v u, c ∈ components -> v ∈ c -> u ∈ c -> connected g v u)
  /\ (forall c, c ∈ components -> c <> ∅)
  /\ (forall (i j : nat) c c', components !! i = Some c -> components !! j = Some c' ->
        i <> j -> c ## c').

(** Invariant of [while q], for the component grown from [seed] since the
    vertices [visited0] were marked. *)
Definition growing (g : Graph) (seed : Z) (visited0 visited : list bool)
    (component : gset Z) (q : list Z) : Prop :=
  length visited = Z.to_nat (n g)
  /\ (forall v, lk visited v = Some true <-> lk visited0 v = Some true \/ v ∈ component)
  /\ (forall v, v ∈ component -> lk visited0 v = Some false /\ connected g seed v)
  /\ (forall u, u ∈ q -> 0 <= u < n g /\ connected g seed u)
  /\ (forall v u, v ∈ component -> linked g v u -> u ∈ q \/ lk visited u = Some true)
  /\ (seed ∈ component \/ seed ∈ q).

(** Two arcs [0 -> 1] and [2 -> 1] and an isolated vertex [3]. *)
Definition two_parts : Graph :=
  mkGraph DIRECTED 4
    [[Some 0%Q; Some 1%Q; None; None]; [None; Some 0%Q; None; None];
     [None; Some 1%Q; Some 0%Q; None]; [None; None; None; Some 0%Q]].

End ComponentsVocabulary.

Module MatchingVocabulary.
Import Matching MatchingSpec.

(** A proper two-colouring of the graph, given as the side of each
    vertex. *)
Definition two_colourable (edges : list Edge) (side : Z -> bool) : Prop :=
  forall a b, (a, b) ∈ edges -> side a <> side b.

(** The colour the search gives [x] in a component it paints with the
    sides swapped ([swap]) or not. *)
Definition painted (side : Z -> bool) (swap : bool) (x : Z) : Z :=
  if xorb (side x) swap then 1 else 0.

(** The adjacency lists hold exactly the neighbours. *)
Definition neighbours_of (edges : list Edge) (adj : list (list Z)) : Prop :=
  forall v row, lk adj v = Some row ->
    forall u, u ∈ row <-> (v, u) ∈ edges \/ (u, v) ∈ edges.

(** Invariant of the colouring loops when a two-colouring [side] exists:
    the vertices waiting or being processed carry the colour [side] gives
    them, up to [swap]. *)
Definition agrees (side : Z -> bool) (swap : bool) (colors : list Z)
    (q : list Z) (hole : option Z) : Prop :=
  forall x, x ∈ q \/ Some x = hole -> lk colors x = Some (painted side swap x).

(** Every pair recorded in [pair_v] joins a left vertex to one of the
    vertices listed for it in [forward_adj]; stated by position, as the
    code subscripts both lists with the same number. *)
Definition from_adj (forward_adj : list (list Z)) (st : hk) : Prop :=
  length (pair_v st) = length forward_adj
  /\ forall (k : nat) u, pair_v st !! k = Some u -> u <> -1 ->
       exists us, forward_adj !! k = Some us /\ u ∈ us.

(** [pair_v] undoes [pair_u]: the left vertex recorded for [u] records
    [u] in turn. *)
Definition inverse (st : hk) : Prop :=
  forall u x, lk (pair_u st) u = Some x -> x <> -1 -> lk (pair_v st) x = Some u.

(** The same after a successful [dfs(v)], whose caller has not yet taken
    over the right vertex [v] was paired with in [st]. *)
Definition inverse_but (v : Z) (st st' : hk) : Prop :=
  forall u x, lk (pair_u st') u = Some x -> x <> -1 ->
    lk (pair_v st') x = Some u \/ (x = v /\ lk (pair_v st) v = Some u).

(** Vertex [x] has a layer. *)
Definition finite_at (dist : list (ext Z)) (x : Z) : Prop :=
  exists k, lk dist x = Some (Fin k).

(** The search has looked at the right vertex [u]: it is free and
    [found_path] is set, or its partner has a layer. *)
Definition handled (s : hk) (found : bool) (u : Z) : Prop :=
  exists pu, lk (pair_u s) u = Some pu
             /\ (pu = -1 -> found = true)
             /\ (pu <> -1 -> finite_at (dist s) pu).

(** The search has looked at every right neighbour of [x]. *)
Definition explored (forward_adj : list (list Z)) (s : hk) (found : bool) (x : Z)
  : Prop :=
  forall us u, lk forward_adj x = Some us -> u ∈ us -> handled s found u.

(** A matching of the graph: pairs of joined vertices, no vertex in two
    pairs. *)
Definition is_matching (edges : list Edge) (m : list Edge) : Prop :=
  (forall a b, (a, b) ∈ m -> (a, b) ∈ edges \/ (b, a) ∈ edges)
  /\ NoDup (m.*1 ++ m.*2).

(** The ends of an edge, the one in [left_partition] first. *)
Definition ends (left_partition : list Z) (e : Edge) : Z * Z :=
  if bool_decide (e.1 ∈ left_partition) then e else (e.2, e.1).

(** The pair of the matching recorded in [st] that meets the edge [e]: at
    the left end of [e] when that end has no layer, at its right end
    otherwise. *)
Definition cover_of (left_partition : list Z) (st : hk) (e : Edge) : Edge :=
  let '(x, y) := ends left_partition e in
  match lk (dist st) x with
  | Some (Fin _) => (default (-1) (lk (pair_u st) y), y)
  | _ => (x, default (-1) (lk (pair_v st) x))
  end.

(** A square [0 - 1 - 2 - 3 - 0]. *)
Definition square : list Edge := [(0, 1); (1, 2); (2, 3); (3, 0)].

End MatchingVocabulary.

Module RouteVocabulary.
Import GraphStore GraphSpec.
Import MatchingSpec (lk).

(** An arc (or edge) from [v] to another vertex [u], as [dijkstra] reads
    it: [graph.weight(v, u) is not None and v != u]. *)
Definition arc (g : Graph) (v u : Z) (w : Q) : Prop :=
  v <> u /\ weight g v u = Ret (Some w).

(** No stored weight between distinct vertices is negative. *)
Definition nonnegative (g : Graph) : Prop :=
  forall v u w, arc g v u w -> (0 <= w)%Q.

(** [route g s p l]: the vertex list [p] starts at [s] and follows arcs
    of total weight [l]. *)
Inductive route (g : Graph) (s : Z) : list Z -> Q -> Prop :=
| route_one : route g s [s] 0
| route_snoc p u x w l :
    route g s p l -> last p = Some u -> arc g u x w ->
    route g s (p ++ [x]) (l + w).

(** [chain prev u c]: following [prev] from [u] visits the vertices [c]
    and ends at a vertex without predecessor. *)
Inductive chain (prev : list (option Z)) : Z -> list Z -> Prop :=
| chain_root x : lk prev x = Some None -> chain prev x [x]
| chain_step x y c :
    lk prev x = Some (Some y) -> chain prev y c -> chain prev x (x :: c).

(** The order of the heap entries, as a proposition. *)
Definition tuple_lt (a b : ext Q * Z) : Prop := tuple_ltb a b = true.

(** The queue is strictly increasing. *)
Fixpoint increasing (q : list (ext Q * Z)) : Prop :=
  match q with
  | [] => True
  | x :: q' => Forall (tuple_lt x) q' /\ increasing q'
  end.

(** Vertex [u], at distance [du], still has an entry in the queue that is
    not stale. *)
Definition pending (st : search) (u : Z) (du : Q) : Prop :=
  exists q, (Fin q, u) ∈ queue st /\ (q <= du)%Q.

(** No arc out of [u], at distance [du], can improve a distance. *)
Definition relaxed (g : Graph) (dist : list (ext Q)) (u : Z) (du : Q) : Prop :=
  forall x w, arc g u x w ->
    exists dx, lk dist x = Some (Fin dx) /\ (dx <= du + w)%Q.

(** Vertex [s] has been taken from the queue at its final distance:
    nothing in the queue is nearer, and its own entries are stale. *)
Definition settled (st : search) (s : Z) : Prop :=
  exists ds, lk (dist st) s = Some (Fin ds)
    /\ (forall q x, (Fin q, x) ∈ queue st -> (ds <= q)%Q)
    /\ (forall q, (Fin q, s) ∈ queue st -> (ds < q)%Q).

(** What [dist] and [prev] satisfy throughout a search from [start] in a
    graph without negative weights. *)
Record tree (g : Graph) (start : Z) (st : search) : Prop := {
  tree_dist_length : length (dist st) = Z.to_nat (n g);
  tree_prev_length : length (prev st) = Z.to_nat (n g);
  tree_start : lk (dist st) start = Some (Fin 0%Q);
  tree_nonneg : forall x d, lk (dist st) x = Some (Fin d) -> (0 <= d)%Q;
  tree_prev_start : lk (prev st) start = Some None;
  tree_prev : forall u v, lk (prev st) u = Some (Some v) ->
    exists dv du w, arc g v u w /\ lk (dist st) v = Some (Fin dv)
                    /\ lk (dist st) u = Some (Fin du) /\ (dv + w <= du)%Q;
  tree_root : forall u, lk (prev st) u = Some None ->
    u = start \/ lk (dist st) u = Some PInf;
  tree_unreached : forall u, lk (dist st) u = Some PInf -> lk (prev st) u = Some None;
  tree_chain : forall u du, lk (dist st) u = Some (Fin du) ->
    exists c, chain (prev st) u c;
}.

(** Invariant of the [while queue] loop; [S] lists the settled vertices
    and [hole] is the vertex whose arcs are being relaxed, if any. *)
Record inv (g : Graph) (start : Z) (S : list Z) (hole : option Z) (st : search)
  : Prop := {
  inv_tree : tree g start st;
  inv_queue : forall d x, (d, x) ∈ queue st ->
    0 <= x < n g
    /\ exists q dx, d = Fin q /\ lk (dist st) x = Some (Fin dx) /\ (dx <= q)%Q;
  inv_sorted : increasing (queue st);
  inv_front : forall u du, Some u <> hole -> lk (dist st) u = Some (Fin du) ->
    pending st u du \/ relaxed g (dist st) u du;
  inv_settled : forall s, s ∈ S -> settled st s;
  inv_nodup : NoDup S;
  inv_range : forall s, s ∈ S -> 0 <= s < n g;
}.

(** The distances are optimal for the targets of the search: every
    vertex when [stop] is [None], the vertex [e] when it is [Some e]. *)
Definition optimal (g : Graph) (start : Z) (stop : option Z) (st : search) : Prop :=
  forall p l x, route g start p l -> last p = Some x ->
    stop = None \/ stop = Some x ->
    exists dx, lk (dist st) x = Some (Fin dx) /\ (dx <= l)%Q.

(** A result [(d, path)] for the target [e]: a finite [d] comes with a
    route of that length, and no route is shorter; [inf] comes with the
    list [none], and no route reaches [e]. *)
Definition shortest (g : Graph) (start e : Z) (none : list Z) (r : ext Q * list Z)
  : Prop :=
  match r.1 with
  | Fin d =>
      (exists l, route g start r.2 l /\ last r.2 = Some e /\ (l == d)%Q)
      /\ forall p l, route g start p l -> last p = Some e -> (d <= l)%Q
  | PInf =>
      r.2 = none /\ forall p l, route g start p l -> last p = Some e -> False
  end.

(** A directed graph with arcs [0 -> 1] (7), [0 -> 2] (2), [2 -> 1] (3)
    and an isolated vertex [3]. *)
Definition detour : Graph :=
  mkGraph DIRECTED 4
    [[Some 0%Q; Some 7%Q; Some 2%Q; None]; [None; Some 0%Q; None; None];
     [None; Some 3%Q; Some 0%Q; None]; [None; None; None; Some 0%Q]].

End RouteVocabulary.

Module PrimVocabulary.
Import GraphStore.

(** The path [0 - 1 - 2] with weights [w1] and [w2]. *)
Definition path3 (w1 w2 : Q) : Graph :=
  mkGraph UNDIRECTED 3
    [[Some 0%Q; Some w1; None]; [Some w1; Some 0%Q; Some w2];
     [None; Some w2; Some 0%Q]].

(** [prev] as [prim] leaves it on [path3] when [w2 < w1]: vertices 1 and
    2 name each other. *)
Definition looping : list (option Z) := [None; Some 2; Some 1].

End PrimVocabulary.

(** * Properties *)

Module FlowFacts.
Import Flow FlowSpec.

Lemma scenario_network :
  build_residual 4 scenario_edges =
  Ret ([[mkFlowEdge 0 0 3 0; mkFlowEdge 0 1 2 0];
        [mkFlowEdge 1 0 0 0; mkFlowEdge 1 1 2 0; mkFlowEdge 1 2 1 0];
        [mkFlowEdge 2 0 0 0; mkFlowEdge 2 1 3 0; mkFlowEdge 2 2 0 0];
        [mkFlowEdge 3 0 0 0; mkFlowEdge 3 1 0 0]],
       [(0, 0); (0, 1); (1, 1); (2, 1); (1, 2)]%nat).
Proof. reflexivity. Qed.

(** C1 (code defect).  On scenario 2 the specification expects a maximum
    flow of 4; [edmonds_karp] returns 0 with no flow on any edge, for every
    amount of fuel that lets it finish: each residual edge stored for [v]
    points back at [v], so the search never leaves the source. *)
Theorem C1_scenario_flow_is_zero (fuel : nat) :
  edmonds_karp (2 + fuel) 4 scenario_edges 0 3 = Ret (0%Q, scenario_report).
Proof. vm_compute. reflexivity. Qed.

(** C2 (code defect).  For the single input edge [(0, 1, 5)] the forward
    residual edge kept in the list of vertex 0 has target 0, not 1, the
    backward one in the list of vertex 1 has target 1, not 0, and following
    the twin index from either edge leads back to that same edge. *)
Theorem C2_single_edge_network :
  build_residual 2 single_edge =
    Ret ([[single_forward]; [single_backward]], [(0, 0)%nat])
  /\ to single_forward = 0
  /\ to single_backward = 1
  /\ twin [[single_forward]; [single_backward]] single_forward = Ret single_forward
  /\ twin [[single_forward]; [single_backward]] single_backward = Ret single_backward.
Proof. repeat split. Qed.

End FlowFacts.

Module PathfindingFacts.
Import Pathfinding PathfindingSpec.

(** The reconstruction loop of [a_star] has no normal exit. *)
Lemma walk_back_never_returns fuel prev cur path p :
  walk_back fuel prev cur path <> Ret p.
Proof.
  revert cur path. induction fuel as [|fuel IH]; intros cur path; simpl.
  - discriminate.
  - destruct (prev !! cur); [apply IH | discriminate].
Qed.

(** C3 (code defect).  On the 3x3 grid of ones, from (0,0) to (2,2), the
    specification expects a path of length 4 under both heuristics;
    [a_star] raises [KeyError] under both, because the walk back from the
    goal looks up the predecessor of the start cell, which has none. *)
Theorem C3_grid3_raises (fuel : nat) :
  a_star (12 + fuel) grid3 (0, 0) (2, 2) manhattan = Raise KeyError
  /\ a_star (12 + fuel) grid3 (0, 0) (2, 2) euclidean = Raise KeyError.
Proof. split; vm_compute; reflexivity. Qed.

End PathfindingFacts.

Module PyFacts.

Lemma norm_index_lt len i k : norm_index len i = Some k -> (k < len)%nat.
Proof.
  unfold norm_index. intros H.
  destruct (Z.leb_spec 0 i).
  - destruct (Z.ltb_spec i (Z.of_nat len)); simplify_eq. lia.
  - destruct (Z.leb_spec (- Z.of_nat len) i); simplify_eq. lia.
Qed.

Lemma norm_index_in_range len i :
  0 <= i < Z.of_nat len -> norm_index len i = Some (Z.to_nat i).
Proof.
  intros [H0 H1]. unfold norm_index.
  destruct (Z.leb_spec 0 i); [|lia].
  destruct (Z.ltb_spec i (Z.of_nat len)); [done|lia].
Qed.

Lemma norm_index_range len i k :
  norm_index len i = Some k -> - Z.of_nat len <= i < Z.of_nat len.
Proof.
  unfold norm_index. intros H.
  destruct (Z.leb_spec 0 i).
  - destruct (Z.ltb_spec i (Z.of_nat len)); simplify_eq. lia.
  - destruct (Z.leb_spec (- Z.of_nat len) i); simplify_eq. lia.
Qed.

Lemma norm_index_is_Some len i :
  - Z.of_nat len <= i < Z.of_nat len -> is_Some (norm_index len i).
Proof.
  intros H. unfold norm_index.
  destruct (Z.leb_spec 0 i).
  - destruct (Z.ltb_spec i (Z.of_nat len)); [eauto|lia].
  - destruct (Z.leb_spec (- Z.of_nat len) i); [eauto|lia].
Qed.

Lemma py_get_Ret {A} (l : list A) i x :
  py_get l i = Ret x ->
  exists k, norm_index (length l) i = Some k /\ l !! k = Some x.
Proof.
  unfold py_get. destruct (norm_index _ _) as [k|] eqn:E; [|done].
  destruct (l !! k) eqn:E'; [|done]. intros [= ->]. eauto.
Qed.

Lemma py_get_in_range {A} (l : list A) i :
  0 <= i < Z.of_nat (length l) ->
  exists x, l !! Z.to_nat i = Some x /\ py_get l i = Ret x.
Proof.
  intros H. unfold py_get. rewrite norm_index_in_range by done.
  destruct (lookup_lt_is_Some_2 l (Z.to_nat i)) as [x Hx]; [lia|].
  rewrite Hx. eauto.
Qed.

Lemma py_set_Ret {A} (l : list A) i x l' :
  py_set l i x = Ret l' ->
  exists k, norm_index (length l) i = Some k /\ l' = <[k := x]> l.
Proof.
  unfold py_set. destruct (norm_index _ _) as [k|]; [|done].
  intros [= <-]. eauto.
Qed.

Lemma py_set_length {A} (l : list A) i x l' :
  py_set l i x = Ret l' -> length l' = length l.
Proof. intros (k & _ & ->)%py_set_Ret. apply length_insert. Qed.

Lemma bind_Ret {A B} (m : outcome A) (f : A -> outcome B) b :
  m ≫= f = Ret b -> exists a, m = Ret a /\ f a = Ret b.
Proof. destruct m; simpl; [eauto | done | done]. Qed.

Lemma for_each_invariant {A S} (P : S -> Prop) (body : A -> S -> outcome S) xs :
  (forall x s s', x ∈ xs -> P s -> body x s = Ret s' -> P s') ->
  forall s s', P s -> for_each xs body s = Ret s' -> P s'.
Proof.
  induction xs as [|x xs IH]; intros Hbody s s' Hs; simpl.
  - by intros [= <-].
  - intros (s1 & H1 & H2)%bind_Ret.
    eapply IH; [|eapply Hbody; [|done..]|done].
    + intros y t t' Hy. apply Hbody. by right.
    + by left.
Qed.

Lemma for_each_prefix {A S} (P : list A -> S -> Prop) (body : A -> S -> outcome S) xs :
  (forall pre x post s s',
      xs = pre ++ x :: post -> P pre s -> body x s = Ret s' -> P (pre ++ [x]) s') ->
  forall s s', P [] s -> for_each xs body s = Ret s' -> P xs s'.
Proof.
  intros Hbody.
  enough (forall rest pre s s',
             xs = pre ++ rest -> P pre s -> for_each rest body s = Ret s' -> P xs s')
    as H by (intros s s'; by apply (H xs [])).
  induction rest as [|x rest IH]; intros pre s s' Hxs Hs; simpl.
  - intros [= <-]. by rewrite Hxs, app_nil_r.
  - intros (s1 & H1 & H2)%bind_Ret.
    apply (IH (pre ++ [x]) s1 s'); [by rewrite <- app_assoc| |done].
    by eapply Hbody.
Qed.

(** A loop whose body returns at every step returns. *)
Lemma for_each_prefix_total {A S} (P : list A -> S -> Prop)
    (body : A -> S -> outcome S) xs :
  (forall pre x post s,
      xs = pre ++ x :: post -> P pre s ->
      exists s', body x s = Ret s' /\ P (pre ++ [x]) s') ->
  forall s, P [] s -> exists s', for_each xs body s = Ret s' /\ P xs s'.
Proof.
  intros Hbody.
  enough (forall rest pre s,
             xs = pre ++ rest -> P pre s ->
             exists s', for_each rest body s = Ret s' /\ P xs s')
    as H by (intros s; by apply (H xs [])).
  induction rest as [|x rest IH]; intros pre s Hxs Hs; simpl.
  - exists s. split; [done|]. by rewrite Hxs, app_nil_r.
  - destruct (Hbody pre x rest s Hxs Hs) as (s1 & -> & Hs1). simpl.
    apply (IH (pre ++ [x])); [by rewrite <- app_assoc|done].
Qed.

Lemma for_each_total {A S} (P : S -> Prop) (body : A -> S -> outcome S) xs :
  (forall x s, x ∈ xs -> P s -> exists s', body x s = Ret s' /\ P s') ->
  forall s, P s -> exists s', for_each xs body s = Ret s' /\ P s'.
Proof.
  intros Hbody. apply (for_each_prefix_total (fun _ => P)).
  intros pre x post s -> Hs. apply Hbody; [|done].
  rewrite elem_of_app. right. by left.
Qed.

End PyFacts.

Module GraphFacts.
Import GraphStore GraphSpec PyFacts.

Lemma entry_insert (m : matrix) i j row x i' j' :
  m !! i = Some row -> (j < length row)%nat ->
  entry (<[i := <[j := x]> row]> m) i' j'
  = if decide (i' = i /\ j' = j) then Some x else entry m i' j'.
Proof.
  intros Hrow Hj. unfold entry.
  destruct (decide (i' = i)) as [->|Hi].
  - rewrite list_lookup_insert_eq by (by eapply lookup_lt_Some). simpl.
    rewrite Hrow. simpl.
    destruct (decide (j' = j)) as [->|Hj'].
    + rewrite list_lookup_insert_eq by done. by rewrite decide_True.
    + rewrite list_lookup_insert_ne by done. rewrite decide_False by (intros [? ?]; congruence); done.
  - rewrite list_lookup_insert_ne by done. rewrite decide_False by (intros [? ?]; congruence); done.
Qed.

(** What [m[a][b] = x] does when it returns. *)
Lemma mat_set_Ret m a b x m' :
  mat_set m a b x = Ret m' ->
  exists i j row,
    norm_index (length m) a = Some i /\ m !! i = Some row
    /\ norm_index (length row) b = Some j
    /\ m' = <[i := <[j := x]> row]> m.
Proof.
  unfold mat_set. intros (row & Hget & H)%bind_Ret.
  apply bind_Ret in H as (row' & Hset & Hset').
  apply py_get_Ret in Hget as (i & Hi & Hrow).
  apply py_set_Ret in Hset as (j & Hj & ->).
  apply py_set_Ret in Hset' as (i2 & Hi2 & ->).
  rewrite Hi in Hi2. simplify_eq. eauto 8.
Qed.

Lemma mat_set_lengths m a b x m' :
  mat_set m a b x = Ret m' ->
  length m' = length m
  /\ forall P : nat -> Prop, Forall (fun row => P (length row)) m ->
       Forall (fun row => P (length row)) m'.
Proof.
  intros (i & j & row & Hi & Hrow & Hj & ->)%mat_set_Ret. split.
  - apply length_insert.
  - intros P HP. apply Forall_insert; [done|].
    rewrite length_insert. by eapply (Forall_lookup_1 _ _ _ _ HP Hrow).
Qed.

Lemma mat_set_entry m a b x m' :
  mat_set m a b x = Ret m' ->
  exists i j,
    norm_index (length m) a = Some i
    /\ (exists row, m !! i = Some row /\ norm_index (length row) b = Some j)
    /\ forall i' j', entry m' i' j'
         = if decide (i' = i /\ j' = j) then Some x else entry m i' j'.
Proof.
  intros (i & j & row & Hi & Hrow & Hj & ->)%mat_set_Ret.
  exists i, j. split; [done|]. split; [eauto|].
  intros i' j'. apply entry_insert; [done|]. by eapply norm_index_lt.
Qed.

Lemma mat_set_in_range m a b x row :
  0 <= a < Z.of_nat (length m) -> m !! Z.to_nat a = Some row ->
  0 <= b < Z.of_nat (length row) ->
  mat_set m a b x = Ret (<[Z.to_nat a := <[Z.to_nat b := x]> row]> m).
Proof.
  intros Ha Hrow Hb. unfold mat_set, py_get, py_set.
  rewrite (norm_index_in_range _ a) by done. rewrite Hrow. simpl.
  by rewrite (norm_index_in_range _ b) by done.
Qed.

(** Shape of a matrix: the lengths of its rows. *)
Lemma consistent_with_matrix g m :
  consistent g -> length m = length (adj_matrix g) ->
  (forall P : nat -> Prop, Forall (fun row => P (length row)) (adj_matrix g) ->
     Forall (fun row => P (length row)) m) ->
  consistent (with_matrix g m).
Proof.
  intros [Hneg Hpos] Hlen Hrows. split; simpl.
  - intros Hn. specialize (Hneg Hn). rewrite Hneg in Hlen.
    by destruct m.
  - intros Hn. destruct (Hpos Hn) as [H1 H2]. split; [lia|].
    by apply (Hrows (fun k => Z.of_nat k = n g)).
Qed.

Lemma consistent_mat_set g a b x m' :
  consistent g -> mat_set (adj_matrix g) a b x = Ret m' ->
  consistent (with_matrix g m').
Proof.
  intros Hg [Hlen Hrows]%mat_set_lengths.
  by apply consistent_with_matrix.
Qed.


Lemma py_repeat_length {A} (x : A) k : length (py_repeat x k) = Z.to_nat k.
Proof. apply length_replicate. Qed.

Lemma empty_matrix_shape size m :
  empty_matrix size = Ret m ->
  length m = Z.to_nat size /\ Forall (fun row => length row = Z.to_nat size) m.
Proof.
  unfold empty_matrix. intros H.
  eapply (for_each_invariant
            (fun m => length m = Z.to_nat size
                      /\ Forall (fun row => length row = Z.to_nat size) m));
    [| |exact H].
  - intros i s s' _ [Hlen Hrows] [Hlen' Hrows']%mat_set_lengths. split; [lia|].
    by apply (Hrows' (fun k => k = Z.to_nat size)).
  - split; [apply length_replicate|].
    apply Forall_replicate, py_repeat_length.
Qed.

Lemma load_edge_lengths t e m m' :
  load_edge t e m = Ret m' ->
  length m' = length m
  /\ forall P : nat -> Prop, Forall (fun row => P (length row)) m ->
       Forall (fun row => P (length row)) m'.
Proof.
  destruct e as [[a b] w]. unfold load_edge.
  intros (m1 & [H1 H1']%mat_set_lengths & H)%bind_Ret.
  destruct (is_undirected t).
  - apply mat_set_lengths in H as [H2 H2']. split; [lia|]. intros P HP. auto.
  - by simplify_eq.
Qed.

Lemma shape_consistent t size m :
  length m = Z.to_nat size -> Forall (fun row => length row = Z.to_nat size) m ->
  consistent (mkGraph t size m).
Proof.
  intros Hlen Hrows. split; simpl.
  - intros Hn. destruct m; [done|]. simpl in Hlen. lia.
  - intros Hn. split; [lia|].
    eapply Forall_impl; [done|]. simpl. intros row ->. lia.
Qed.

Lemma constructed_consistent t size g : constructed t size g -> consistent g.
Proof.
  intros [H|edges H].
  - unfold Graph_init in H. apply bind_Ret in H as (m & [H1 H2]%empty_matrix_shape & [= <-]).
    by apply shape_consistent.
  - unfold Graph_load in H. apply bind_Ret in H as (m & [H1 H2]%empty_matrix_shape & H).
    apply bind_Ret in H as (m' & H & [= <-]).
    assert (length m' = Z.to_nat size
            /\ Forall (fun row => length row = Z.to_nat size) m') as [??].
    { eapply (for_each_invariant
                (fun m => length m = Z.to_nat size
                          /\ Forall (fun row => length row = Z.to_nat size) m));
        [|split; [exact H1|exact H2]|exact H].
      intros e s s' _ [Hl Hr] [Hl' Hr']%load_edge_lengths. split; [lia|].
      by apply (Hr' (fun k => k = Z.to_nat size)). }
    by apply shape_consistent.
Qed.

(** The row-appending loop of [add_vertex] when every index fits the new
    row. *)
Lemma append_rows_all idxs new_size m :
  Forall (fun i => - Z.of_nat (Z.to_nat new_size) <= i < Z.of_nat (Z.to_nat new_size)) idxs ->
  exists rows,
    append_rows idxs new_size m = (m ++ rows, Ret tt)
    /\ length rows = length idxs
    /\ Forall (fun row => length row = Z.to_nat new_size) rows.
Proof.
  revert m. induction idxs as [|i idxs IH]; intros m Hall; simpl.
  - exists []. by rewrite app_nil_r.
  - apply Forall_cons in Hall as [Hi Hall].
    unfold py_set. rewrite py_repeat_length.
    destruct (norm_index_is_Some _ _ Hi) as [k ->].
    destruct (IH (m ++ [<[k:=Some 0%Q]> (py_repeat None new_size)]) Hall)
      as (rows & -> & Hlen & Hrows).
    eexists (_ :: rows). rewrite <- app_assoc. simpl. split; [done|].
    split; [by rewrite Hlen|].
    constructor; [|done]. by rewrite length_insert, py_repeat_length.
Qed.

Lemma append_rows_head_fails i idxs new_size m :
  ~ (- Z.of_nat (Z.to_nat new_size) <= i < Z.of_nat (Z.to_nat new_size)) ->
  append_rows (i :: idxs) new_size m = (m, Raise IndexError).
Proof.
  intros Hi. simpl. unfold py_set. rewrite py_repeat_length.
  destruct (norm_index _ i) as [k|] eqn:E; [|done].
  apply norm_index_range in E. lia.
Qed.

Lemma consistent_add_vertex a g : consistent g -> consistent (add_vertex a g).1.
Proof.
  intros Hg. unfold add_vertex.
  destruct (Z.ltb_spec a (n g)) as [|Ha]; [done|].
  destruct Hg as [Hneg Hpos].
  destruct (Z.le_gt_cases 0 (n g)) as [Hn|Hn].
  - (* a proper graph: the loop cannot fail *)
    destruct (Hpos Hn) as [Hlen Hrows].
    destruct (append_rows_all (py_range (n g) (a + 1)) (a + 1)
                ((fun row => row ++ py_repeat None (a + 1 - n g)) <$> adj_matrix g))
      as (rows & -> & Hl & Hr).
    { apply Forall_forall. intros i Hi%elem_of_seqZ. lia. }
    simpl. split; simpl; [lia|]. intros _.
    rewrite length_app, length_fmap, Hl. unfold py_range. rewrite length_seqZ.
    split; [lia|].
    apply Forall_app. split.
    + apply Forall_fmap. eapply Forall_impl; [done|]. simpl.
      intros row Hrow. rewrite length_app, py_repeat_length. lia.
    + eapply Forall_impl; [done|]. simpl. intros row ->. lia.
  - (* made with a negative size: no rows yet *)
    rewrite (Hneg Hn). simpl.
    unfold py_range. rewrite seqZ_cons by lia.
    destruct (decide (- Z.of_nat (Z.to_nat (a + 1)) <= n g)) as [Hfit|Hfit].
    + destruct (append_rows_all (n g :: seqZ (Z.succ (n g)) (Z.pred (a + 1 - n g)))
                  (a + 1) []) as (rows & -> & Hl & Hr).
      { constructor; [lia|]. apply Forall_forall. intros i Hi%elem_of_seqZ. lia. }
      simpl. split; simpl; [lia|]. intros _.
      rewrite Hl. cbn [length]. rewrite length_seqZ. split; [lia|].
      eapply Forall_impl; [done|]. simpl. intros row ->. lia.
    + rewrite append_rows_head_fails by lia. simpl.
      split; simpl; [done|lia].
Qed.


Lemma consistent_add_edge a b w g : consistent g -> consistent (add_edge a b w g).1.
Proof.
  intros Hg. unfold add_edge.
  assert (consistent
            (if n g <=? Z.max a b then add_vertex (Z.max a b) g else (g, Ret tt)).1) as Hg1.
  { destruct (n g <=? Z.max a b); [by apply consistent_add_vertex|done]. }
  destruct (if n g <=? Z.max a b then _ else _) as [g1 r]. simpl in Hg1.
  destruct r as [[]|e|]; [|done..].
  destruct (mat_set (adj_matrix g1) a b (Some w)) as [m2|e|] eqn:E2; [|done..].
  pose proof (consistent_mat_set _ _ _ _ _ Hg1 E2) as Hg2.
  destruct (is_undirected (graph_type g1)); [|done].
  destruct (mat_set m2 b a (Some w)) as [m3|e|] eqn:E3; [|done..].
  simpl. by apply (consistent_mat_set _ _ _ _ _ Hg2 E3).
Qed.

Lemma consistent_remove_edge a b g : consistent g -> consistent (remove_edge a b g).1.
Proof.
  intros Hg. unfold remove_edge.
  destruct (negb _); [done|].
  destruct (mat_set (adj_matrix g) a b None) as [m1|e|] eqn:E1; [|done..].
  pose proof (consistent_mat_set _ _ _ _ _ Hg E1) as Hg1.
  destruct (is_undirected (graph_type g)); [|done].
  destruct (mat_set m1 b a None) as [m2|e|] eqn:E2; [|done..].
  simpl. by apply (consistent_mat_set _ _ _ _ _ Hg1 E2).
Qed.

(** [row.pop(a)] on every row, when every row is long enough. *)
Lemma pop_column_all a rows :
  0 <= a -> Forall (fun row : list (option Q) => a < Z.of_nat (length row)) rows ->
  pop_column a rows = (delete (Z.to_nat a) <$> rows, Ret tt).
Proof.
  intros Ha. induction 1 as [|row rows Hrow _ IH]; simpl; [done|].
  unfold py_pop. rewrite norm_index_in_range by lia. by rewrite IH.
Qed.

Lemma in_graph_spec g a : in_graph g a = true <-> 0 <= a < n g.
Proof. unfold in_graph. rewrite andb_true_iff, Z.leb_le, Z.ltb_lt. done. Qed.

Lemma remove_vertex_in_range a g :
  consistent g -> 0 <= a < n g ->
  remove_vertex a g
  = (mkGraph (graph_type g) (n g - 1)
       (delete (Z.to_nat a) <$> delete (Z.to_nat a) (adj_matrix g)), Ret tt).
Proof.
  intros [_ Hpos] Ha. destruct Hpos as [Hlen Hrows]; [lia|].
  unfold remove_vertex. rewrite (proj2 (in_graph_spec g a)) by done. simpl.
  unfold py_pop. rewrite norm_index_in_range by lia.
  rewrite pop_column_all; [done|lia|].
  apply Forall_delete. eapply Forall_impl; [done|]. simpl. lia.
Qed.

Lemma consistent_remove_vertex a g : consistent g -> consistent (remove_vertex a g).1.
Proof.
  intros Hg. destruct (in_graph g a) eqn:Ha.
  - apply in_graph_spec in Ha. rewrite remove_vertex_in_range by done.
    destruct Hg as [_ Hpos]. destruct Hpos as [Hlen Hrows]; [lia|].
    split; simpl; [lia|]. intros _. split.
    + rewrite length_fmap, length_delete by (apply lookup_lt_is_Some; lia). lia.
    + apply Forall_fmap, Forall_delete. eapply Forall_impl; [done|]. simpl.
      intros row Hrow. rewrite length_delete by (apply lookup_lt_is_Some; lia). lia.
  - unfold remove_vertex. by rewrite Ha.
Qed.

Lemma consistent_run_op g o : consistent g -> consistent (run_op g o).
Proof.
  destruct o; simpl;
    auto using consistent_add_vertex, consistent_add_edge,
      consistent_remove_vertex, consistent_remove_edge.
Qed.

Lemma consistent_run ops g : consistent g -> consistent (run ops g).
Proof.
  revert g. induction ops as [|o ops IH]; intros g Hg; [done|].
  apply IH, consistent_run_op, Hg.
Qed.

(** [weight] on a consistent object. *)
Lemma weight_consistent g a b :
  consistent g ->
  (in_graph g a && in_graph g b = true ->
   exists x, entry (adj_matrix g) (Z.to_nat a) (Z.to_nat b) = Some x
             /\ weight g a b = Ret x)
  /\ (in_graph g a && in_graph g b = false -> weight g a b = Ret None).
Proof.
  intros [_ Hpos]. unfold weight. split; intros Hin; rewrite Hin; [|done].
  apply andb_true_iff in Hin as [Ha%in_graph_spec Hb%in_graph_spec].
  destruct Hpos as [Hlen Hrows]; [lia|].
  unfold mat_get, entry.
  destruct (py_get_in_range (adj_matrix g) a) as (row & Hrow & ->); [lia|].
  rewrite Hrow. simpl.
  pose proof (Forall_lookup_1 _ _ _ _ Hrows Hrow) as Hr. simpl in Hr.
  destruct (py_get_in_range row b) as (x & Hx & ->); [lia|]. eauto.
Qed.

(** C10.  On every graph object, made by either form of the constructor
    and changed by any sequence of mutating calls, [weight(a, b)] returns
    for all integers [a] and [b]: the stored matrix entry when both lie in
    [0, n), and [None] otherwise; it never raises. *)
Theorem C10_weight_total (t : GraphOrientationType) (size : Z) (g0 : Graph)
    (ops : list op) (a b : Z) :
  constructed t size g0 ->
  let g := run ops g0 in
  (in_graph g a && in_graph g b = true ->
   exists x, entry (adj_matrix g) (Z.to_nat a) (Z.to_nat b) = Some x
             /\ weight g a b = Ret x)
  /\ (in_graph g a && in_graph g b = false -> weight g a b = Ret None).
Proof.
  intros Hc g. apply weight_consistent, consistent_run.
  by eapply constructed_consistent.
Qed.

Lemma C10_weight_total_witness :
  let g := run [AddEdge 0 3 (7 # 2); RemoveVertex 1] two_isolated in
  (exists x, entry (adj_matrix g) (Z.to_nat 0) (Z.to_nat 2) = Some x
             /\ weight g 0 2 = Ret x)
  /\ weight g (-1) 5 = Ret None.
Proof.
  pose proof (C10_weight_total DIRECTED 2 two_isolated
                [AddEdge 0 3 (7 # 2); RemoveVertex 1]) as H.
  split.
  - apply (H 0 2); [apply by_size|]; reflexivity.
  - apply (H (-1) 5); [apply by_size|]; reflexivity.
Defined.



Lemma mat_set_square N m a b x m' :
  is_square N m -> mat_set m a b x = Ret m' -> is_square N m'.
Proof.
  intros [Hl Hr] [Hl' Hr']%mat_set_lengths. split; [lia|].
  by apply (Hr' (fun k => k = N)).
Qed.

(** On a square matrix [m[a][b] = x] writes at the positions the two
    subscripts denote in a list of length [N]. *)
Lemma mat_set_square_entry N m a b x m' :
  is_square N m -> mat_set m a b x = Ret m' ->
  exists i j,
    norm_index N a = Some i /\ norm_index N b = Some j
    /\ forall i' j', entry m' i' j'
         = if decide (i' = i /\ j' = j) then Some x else entry m i' j'.
Proof.
  intros [Hl Hr] (i & j & Hi & (row & Hrow & Hj) & He)%mat_set_entry.
  exists i, j. rewrite Hl in Hi.
  rewrite (Forall_lookup_1 _ _ _ _ Hr Hrow) in Hj. done.
Qed.

Lemma mat_set_square_total N m a b x :
  is_square N m -> is_Some (norm_index N a) -> is_Some (norm_index N b) ->
  exists m', mat_set m a b x = Ret m'.
Proof.
  intros [Hl Hr] [i Hi] [j Hj]. unfold mat_set, py_get, py_set.
  rewrite Hl, Hi.
  destruct (lookup_lt_is_Some_2 m i) as [row Hrow].
  { apply norm_index_lt in Hi. lia. }
  rewrite Hrow. simpl.
  rewrite (Forall_lookup_1 _ _ _ _ Hr Hrow), Hj. simpl. eauto.
Qed.

Lemma symmetric_set_pair N m a b x m1 m2 :
  is_square N m -> symmetric_matrix m ->
  mat_set m a b x = Ret m1 -> mat_set m1 b a x = Ret m2 ->
  symmetric_matrix m2.
Proof.
  intros Hsq Hsym H1 H2.
  pose proof (mat_set_square _ _ _ _ _ _ Hsq H1) as Hsq1.
  destruct (mat_set_square_entry _ _ _ _ _ _ Hsq H1) as (i & j & Hi & Hj & E1).
  destruct (mat_set_square_entry _ _ _ _ _ _ Hsq1 H2) as (j' & i' & Hj' & Hi' & E2).
  simplify_eq. intros p q. rewrite !E2, !E1, (Hsym p q).
  repeat case_decide; try done; intuition congruence.
Qed.

Lemma symmetric_set_diagonal N m a x m1 :
  is_square N m -> symmetric_matrix m ->
  mat_set m a a x = Ret m1 -> symmetric_matrix m1.
Proof.
  intros Hsq Hsym H1.
  destruct (mat_set_square_entry _ _ _ _ _ _ Hsq H1) as (i & j & Hi & Hj & E1).
  simplify_eq. intros p q. rewrite !E1, (Hsym p q).
  repeat case_decide; try done; intuition congruence.
Qed.

Lemma entry_replicate N i j :
  entry (replicate N (replicate N None)) i j
  = if decide (i < N /\ j < N)%nat then Some None else None.
Proof.
  unfold entry. destruct (decide (i < N)%nat) as [Hi|Hi].
  - rewrite lookup_replicate_2 by done. simpl.
    destruct (decide (j < N)%nat) as [Hj|Hj].
    + rewrite lookup_replicate_2 by done. by rewrite decide_True.
    + rewrite (proj1 (lookup_replicate_None _ _ _)) by lia.
      by rewrite decide_False by lia.
  - rewrite (proj1 (lookup_replicate_None _ _ _)) by lia. simpl.
    by rewrite decide_False by lia.
Qed.

Lemma empty_matrix_symmetric size m :
  empty_matrix size = Ret m ->
  is_square (Z.to_nat size) m /\ symmetric_matrix m.
Proof.
  unfold empty_matrix. intros H.
  eapply (for_each_invariant
            (fun m => is_square (Z.to_nat size) m /\ symmetric_matrix m));
    [| |exact H].
  - intros i s s' _ [Hsq Hsym] Hset. split.
    + by eapply mat_set_square.
    + by eapply symmetric_set_diagonal.
  - split.
    + split; [apply length_replicate|]. apply Forall_replicate, py_repeat_length.
    + intros i j. unfold py_repeat. rewrite !entry_replicate.
      repeat case_decide; try done; intuition congruence.
Qed.


Lemma append_rows_nonneg idxs new_size m :
  Forall (fun i => 0 <= i < new_size) idxs ->
  append_rows idxs new_size m
  = (m ++ ((fun i => <[Z.to_nat i := Some 0%Q]> (py_repeat None new_size)) <$> idxs),
     Ret tt).
Proof.
  revert m. induction idxs as [|i idxs IH]; intros m Hall; simpl.
  - by rewrite app_nil_r.
  - apply Forall_cons in Hall as [Hi Hall].
    unfold py_set. rewrite py_repeat_length, norm_index_in_range by lia.
    rewrite IH by done. by rewrite <- app_assoc.
Qed.

(** The matrix [add_vertex] builds on a proper graph. *)
Lemma add_vertex_proper a g :
  proper g -> n g <= a ->
  add_vertex a g
  = (mkGraph (graph_type g) (a + 1)
       (((fun row => row ++ py_repeat None (a + 1 - n g)) <$> adj_matrix g)
        ++ ((fun i => <[Z.to_nat i := Some 0%Q]> (py_repeat None (a + 1)))
              <$> py_range (n g) (a + 1))), Ret tt).
Proof.
  intros [Hn _] Ha. unfold add_vertex.
  destruct (Z.ltb_spec a (n g)); [lia|].
  rewrite append_rows_nonneg; [done|].
  apply Forall_forall. intros i Hi%elem_of_seqZ. lia.
Qed.

Lemma add_vertex_entry a g i j :
  proper g -> n g <= a ->
  entry (adj_matrix (add_vertex a g).1) i j
  = if decide (i < Z.to_nat (n g) /\ j < Z.to_nat (n g))%nat
    then entry (adj_matrix g) i j
    else if decide (i < Z.to_nat (a + 1) /\ j < Z.to_nat (a + 1))%nat
         then Some (if decide (i = j) then Some 0%Q else None)
         else None.
Proof.
  intros Hg Ha. rewrite add_vertex_proper by done. simpl.
  destruct Hg as [Hn [Hl Hr]]. unfold entry.
  destruct (decide (i < Z.to_nat (n g))%nat) as [Hi|Hi].
  - rewrite lookup_app_l by (rewrite length_fmap; lia).
    rewrite list_lookup_fmap.
    destruct (lookup_lt_is_Some_2 (adj_matrix g) i) as [row Hrow]; [lia|].
    rewrite Hrow. simpl.
    pose proof (Forall_lookup_1 _ _ _ _ Hr Hrow) as Hlen. simpl in Hlen.
    destruct (decide (j < Z.to_nat (n g))%nat) as [Hj|Hj].
    + rewrite decide_True by done. by rewrite lookup_app_l by lia.
    + rewrite decide_False by lia.
      rewrite lookup_app_r by lia. unfold py_repeat.
      destruct (decide (j < Z.to_nat (a + 1))%nat) as [Hj'|Hj'].
      * rewrite decide_True by lia. rewrite lookup_replicate_2 by lia.
        by rewrite decide_False by lia.
      * rewrite decide_False by lia.
        apply lookup_replicate_None. lia.
  - rewrite decide_False by lia.
    rewrite lookup_app_r by (rewrite length_fmap; lia).
    rewrite length_fmap, Hl, list_lookup_fmap. unfold py_range.
    destruct (decide (i < Z.to_nat (a + 1))%nat) as [Hi'|Hi'].
    + rewrite lookup_seqZ_lt by lia. simpl.
      replace (Z.to_nat (n g + Z.of_nat (i - Z.to_nat (n g)))) with i by lia.
      unfold py_repeat.
      destruct (decide (j < Z.to_nat (a + 1))%nat) as [Hj'|Hj'].
      * rewrite decide_True by lia. rewrite list_lookup_insert.
        rewrite length_replicate.
        destruct (decide (i = j)) as [->|Hij].
        -- by rewrite decide_True by lia.
        -- rewrite decide_False by lia. by rewrite lookup_replicate_2 by lia.
      * rewrite decide_False by lia.
        apply lookup_ge_None. rewrite length_insert, length_replicate. lia.
    + rewrite decide_False by lia.
      rewrite lookup_seqZ_ge by lia. done.
Qed.

Lemma add_vertex_keeps_proper a g : proper g -> proper (add_vertex a g).1.
Proof.
  intros Hg. destruct (Z.lt_ge_cases a (n g)) as [Ha|Ha].
  - unfold add_vertex. by destruct (Z.ltb_spec a (n g)); [|lia].
  - rewrite add_vertex_proper by (done || lia). destruct Hg as [Hn [Hl Hr]].
    split; simpl; [lia|]. split.
    + rewrite length_app, !length_fmap. unfold py_range. rewrite length_seqZ. lia.
    + apply Forall_app. split; apply Forall_fmap.
      * eapply Forall_impl; [done|]. simpl. intros row Hrow.
        rewrite length_app, py_repeat_length. lia.
      * apply Forall_forall. intros i _. simpl.
        by rewrite length_insert, py_repeat_length.
Qed.

Lemma add_vertex_symmetric a g :
  proper g -> symmetric_matrix (adj_matrix g) ->
  symmetric_matrix (adj_matrix (add_vertex a g).1).
Proof.
  intros Hg Hsym. destruct (Z.lt_ge_cases a (n g)) as [Ha|Ha].
  - unfold add_vertex. by destruct (Z.ltb_spec a (n g)); [|lia].
  - intros i j. rewrite !add_vertex_entry by (done || lia). rewrite (Hsym i j).
    repeat case_decide; try done; try lia; intuition congruence.
Qed.

Lemma add_vertex_type a g : graph_type (add_vertex a g).1 = graph_type g.
Proof.
  unfold add_vertex. destruct (a <? n g); [done|].
  destruct (append_rows _ _ _) as [m2 [[]| |]]; done.
Qed.

Lemma remove_vertex_entry (m : matrix) k i j :
  entry (delete k <$> delete k m) i j = entry m (bump k i) (bump k j).
Proof.
  unfold entry, bump. rewrite list_lookup_fmap.
  assert (delete k m !! i = m !! (if decide (i < k)%nat then i else S i)) as ->.
  { case_decide; [by apply list_lookup_delete_lt|apply list_lookup_delete_ge; lia]. }
  destruct (m !! _) as [row|]; [simpl|done].
  case_decide; [by apply list_lookup_delete_lt|apply list_lookup_delete_ge; lia].
Qed.


Lemma proper_consistent g : proper g -> consistent g.
Proof.
  intros [Hn [Hl Hr]]. split; [lia|]. intros _. split; [lia|].
  eapply Forall_impl; [done|]. simpl. intros row ->. lia.
Qed.

Lemma matrix_ext N (m m' : matrix) :
  is_square N m -> is_square N m' ->
  (forall i j, entry m i j = entry m' i j) -> m = m'.
Proof.
  intros [Hl Hr] [Hl' Hr'] He. apply list_eq. intros i.
  destruct (m !! i) as [row|] eqn:E, (m' !! i) as [row'|] eqn:E'.
  - f_equal. apply list_eq. intros j. specialize (He i j).
    unfold entry in He. by rewrite E, E' in He.
  - apply lookup_lt_Some in E. apply lookup_ge_None in E'. lia.
  - apply lookup_ge_None in E. apply lookup_lt_Some in E'. lia.
  - done.
Qed.

Lemma weight_entry g a b x :
  proper g -> 0 <= a < n g -> 0 <= b < n g ->
  weight g a b = Ret x <-> entry (adj_matrix g) (Z.to_nat a) (Z.to_nat b) = Some x.
Proof.
  intros Hg Ha Hb.
  destruct (weight_consistent g a b (proper_consistent _ Hg)) as [H _].
  destruct H as (y & Hy & Hw).
  { apply andb_true_iff. by rewrite !in_graph_spec. }
  rewrite Hy, Hw. split; congruence.
Qed.

(** The invariant of undirected graphs made with a non-negative size. *)
Lemma undirected_add_edge a b w g :
  graph_type g = UNDIRECTED -> proper g -> symmetric_matrix (adj_matrix g) ->
  let g' := (add_edge a b w g).1 in
  graph_type g' = UNDIRECTED /\ proper g' /\ symmetric_matrix (adj_matrix g').
Proof.
  intros Ht Hg Hsym. unfold add_edge.
  assert (let g1 := (if n g <=? Z.max a b then add_vertex (Z.max a b) g
                     else (g, Ret tt)).1 in
          graph_type g1 = UNDIRECTED /\ proper g1
          /\ symmetric_matrix (adj_matrix g1)) as Hg1.
  { destruct (n g <=? Z.max a b); simpl; [|done].
    rewrite add_vertex_type.
    eauto using add_vertex_keeps_proper, add_vertex_symmetric. }
  destruct (if n g <=? Z.max a b then _ else _) as [g1 r]. simpl in Hg1.
  destruct Hg1 as (Ht1 & [Hn1 Hsq1] & Hsym1).
  destruct r as [[]|e|]; [|done..].
  destruct (mat_set (adj_matrix g1) a b (Some w)) as [m2|e|] eqn:E2; [|done..].
  rewrite Ht1. simpl.
  pose proof (mat_set_square _ _ _ _ _ _ Hsq1 E2) as Hsq2.
  destruct (mat_set_square_entry _ _ _ _ _ _ Hsq1 E2) as (i & j & Hi & Hj & _).
  destruct (mat_set_square_total _ m2 b a (Some w) Hsq2) as [m3 E3]; [eauto..|].
  rewrite E3. simpl. split; [done|]. split.
  - split; [done|]. by eapply mat_set_square.
  - exact (symmetric_set_pair _ _ _ _ _ _ _ Hsq1 Hsym1 E2 E3).
Qed.

Lemma undirected_remove_edge a b g :
  graph_type g = UNDIRECTED -> proper g -> symmetric_matrix (adj_matrix g) ->
  let g' := (remove_edge a b g).1 in
  graph_type g' = UNDIRECTED /\ proper g' /\ symmetric_matrix (adj_matrix g').
Proof.
  intros Ht [Hn Hsq] Hsym. unfold remove_edge.
  destruct (negb _); [done|].
  destruct (mat_set (adj_matrix g) a b None) as [m1|e|] eqn:E1; [|done..].
  rewrite Ht. simpl.
  pose proof (mat_set_square _ _ _ _ _ _ Hsq E1) as Hsq1.
  destruct (mat_set_square_entry _ _ _ _ _ _ Hsq E1) as (i & j & Hi & Hj & _).
  destruct (mat_set_square_total _ m1 b a None Hsq1) as [m2 E2]; [eauto..|].
  rewrite E2. simpl. split; [done|]. split.
  - split; [done|]. by eapply mat_set_square.
  - exact (symmetric_set_pair _ _ _ _ _ _ _ Hsq Hsym E1 E2).
Qed.

Lemma undirected_remove_vertex a g :
  graph_type g = UNDIRECTED -> proper g -> symmetric_matrix (adj_matrix g) ->
  let g' := (remove_vertex a g).1 in
  graph_type g' = UNDIRECTED /\ proper g' /\ symmetric_matrix (adj_matrix g').
Proof.
  intros Ht Hg Hsym. destruct (in_graph g a) eqn:Ha.
  - apply in_graph_spec in Ha.
    rewrite remove_vertex_in_range by auto using proper_consistent. simpl.
    destruct Hg as [Hn [Hl Hr]]. split; [done|]. split.
    + split; simpl; [lia|]. split.
      * rewrite length_fmap, length_delete by (apply lookup_lt_is_Some; lia). lia.
      * apply Forall_fmap, Forall_delete. eapply Forall_impl; [done|]. simpl.
        intros row Hrow.
        rewrite length_delete by (apply lookup_lt_is_Some; lia). lia.
    + intros i j. by rewrite !remove_vertex_entry.
  - unfold remove_vertex. by rewrite Ha.
Qed.

Lemma undirected_run ops g :
  graph_type g = UNDIRECTED -> proper g -> symmetric_matrix (adj_matrix g) ->
  proper (run ops g) /\ symmetric_matrix (adj_matrix (run ops g)).
Proof.
  revert g. induction ops as [|o ops IH]; intros g Ht Hg Hsym; [done|].
  simpl. assert (graph_type (run_op g o) = UNDIRECTED /\ proper (run_op g o)
                 /\ symmetric_matrix (adj_matrix (run_op g o))) as (?&?&?).
  { destruct o; simpl.
    - rewrite add_vertex_type.
      eauto using add_vertex_keeps_proper, add_vertex_symmetric.
    - by apply undirected_add_edge.
    - by apply undirected_remove_vertex.
    - by apply undirected_remove_edge. }
  by apply IH.
Qed.

Lemma undirected_constructed size g :
  0 <= size -> constructed UNDIRECTED size g ->
  graph_type g = UNDIRECTED /\ proper g /\ symmetric_matrix (adj_matrix g).
Proof.
  intros Hsize [H|edges H].
  - unfold Graph_init in H.
    apply bind_Ret in H as (m & [H1 H2]%empty_matrix_symmetric & [= <-]).
    done.
  - unfold Graph_load in H.
    apply bind_Ret in H as (m & [H1 H2]%empty_matrix_symmetric & H).
    apply bind_Ret in H as (m' & H & [= <-]). simpl.
    enough (is_square (Z.to_nat size) m' /\ symmetric_matrix m') as [Hsq' Hsym']
      by (split; [done|]; split; [split; [exact Hsize|exact Hsq']|exact Hsym']).
    eapply (for_each_invariant
              (fun m => is_square (Z.to_nat size) m /\ symmetric_matrix m));
      [|split; [exact H1|exact H2]|exact H].
    intros [[a b] w] s s' _ [Hsq Hsym]. unfold load_edge. simpl.
    intros (m1 & E1 & E2)%bind_Ret.
    pose proof (mat_set_square _ _ _ _ _ _ Hsq E1) as Hsq1. split.
    + by eapply mat_set_square.
    + exact (symmetric_set_pair _ _ _ _ _ _ _ Hsq Hsym E1 E2).
Qed.

(** C7 (amended).  For an undirected graph made with a non-negative number
    of vertices, after any sequence of [add_vertex], [add_edge],
    [remove_vertex] and [remove_edge] calls, [weight(i, j)] and
    [weight(j, i)] return the same value for all [i], [j] in [0, n). *)
Theorem C7_undirected_symmetric (size : Z) (g0 : Graph) (ops : list op) (i j : Z) :
  0 <= size -> constructed UNDIRECTED size g0 ->
  let g := run ops g0 in
  0 <= i < n g -> 0 <= j < n g ->
  exists x, weight g i j = Ret x /\ weight g j i = Ret x.
Proof.
  intros Hsize Hc g Hi Hj.
  destruct (undirected_constructed _ _ Hsize Hc) as (Ht & Hg0 & Hsym0).
  destruct (undirected_run ops g0 Ht Hg0 Hsym0) as [Hg Hsym]. fold g in Hg, Hsym.
  destruct (weight_consistent g i j (proper_consistent _ Hg)) as [H _].
  destruct H as (x & Hx & Hw).
  { apply andb_true_iff. by rewrite !in_graph_spec. }
  exists x. split; [done|].
  apply weight_entry; [done..|]. by rewrite <- Hsym.
Qed.

Lemma C7_undirected_symmetric_witness :
  let g := run [AddEdge 0 3 (7 # 2); RemoveVertex 1; AddVertex 4; RemoveEdge 2 0]
             one_edge in
  exists x, weight g 0 2 = Ret x /\ weight g 2 0 = Ret x.
Proof.
  apply (C7_undirected_symmetric 2 one_edge
           [AddEdge 0 3 (7 # 2); RemoveVertex 1; AddVertex 4; RemoveEdge 2 0] 0 2).
  - lia.
  - apply (from_file _ _ _ [(0, 1, 5%Q)]). reflexivity.
  - simpl. lia.
  - simpl. lia.
Defined.

(** C7 as stated fails: an undirected object made with size [-1] and then
    grown by [add_vertex(2)] has [weight(0, 2) = 0.0] but [weight(2, 0)]
    absent. *)
Lemma C7_negative_size_counterexample :
  constructed UNDIRECTED (-1) negative_size
  /\ let g := run [AddVertex 2] negative_size in
     (0 <= 0 < n g /\ 0 <= 2 < n g)
     /\ weight g 0 2 = Ret (Some 0%Q) /\ weight g 2 0 = Ret None.
Proof.
  split; [apply by_size; reflexivity|]. simpl. repeat split; lia.
Qed.


Lemma with_matrix_same g : with_matrix g (adj_matrix g) = g.
Proof. by destruct g. Qed.

(** C5 (amended).  On a graph whose matrix is [n] by [n], for vertices
    [a <> b] of the graph between which no weight is stored ([weight(a, b)]
    is [None], and so is [weight(b, a)] when the graph is undirected),
    [add_edge(a, b, w)] followed by [remove_edge(a, b)] returns normally
    twice and leaves the object exactly as it was: every entry of the
    matrix, the diagonal included, and [n]. *)
Theorem C5_add_then_remove_restores (g : Graph) (a b : Z) (w : Q) :
  proper g -> 0 <= a < n g -> 0 <= b < n g -> a <> b ->
  weight g a b = Ret None ->
  (graph_type g = UNDIRECTED -> weight g b a = Ret None) ->
  (add_edge a b w g).2 = Ret tt
  /\ (remove_edge a b (add_edge a b w g).1).2 = Ret tt
  /\ add_then_remove a b w g = g.
Proof.
  intros Hg Ha Hb Hab Hw Hw'. pose proof Hg as [Hn Hsq].
  apply weight_entry in Hw; [|done..].
  assert (norm_index (Z.to_nat (n g)) a = Some (Z.to_nat a)) as Na
    by (apply norm_index_in_range; lia).
  assert (norm_index (Z.to_nat (n g)) b = Some (Z.to_nat b)) as Nb
    by (apply norm_index_in_range; lia).
  assert (in_graph g a && in_graph g b = true) as Hin.
  { apply andb_true_iff. by rewrite !in_graph_spec. }
  unfold add_then_remove, add_edge.
  destruct (Z.leb_spec (n g) (Z.max a b)); [lia|].
  destruct (mat_set_square_total _ (adj_matrix g) a b (Some w) Hsq) as [m1 E1];
    [eauto..|].
  rewrite E1.
  pose proof (mat_set_square _ _ _ _ _ _ Hsq E1) as Hsq1.
  destruct (mat_set_square_entry _ _ _ _ _ _ Hsq E1) as (? & ? & ? & ? & Hm1).
  simplify_eq.
  destruct (graph_type g) eqn:Ht; simpl.
  - (* directed *)
    unfold remove_edge. simpl. unfold in_graph in *. simpl. rewrite Hin. simpl.
    destruct (mat_set_square_total _ m1 a b None Hsq1) as [m2 E2]; [eauto..|].
    rewrite E2, Ht. simpl. split; [done|]. split; [done|].
    pose proof (mat_set_square _ _ _ _ _ _ Hsq1 E2) as Hsq2.
    destruct (mat_set_square_entry _ _ _ _ _ _ Hsq1 E2) as (? & ? & ? & ? & Hm2).
    simplify_eq.
    rewrite <- (with_matrix_same g) at 2. unfold with_matrix. simpl. rewrite Ht.
    f_equal. apply (matrix_ext _ _ _ Hsq2 Hsq). intros i j.
    rewrite Hm2, Hm1. repeat case_decide; try done; intuition congruence.
  - (* undirected *)
    specialize (Hw' eq_refl). apply weight_entry in Hw'; [|done..].
    destruct (mat_set_square_total _ m1 b a (Some w) Hsq1) as [m2 E2]; [eauto..|].
    rewrite E2. simpl.
    pose proof (mat_set_square _ _ _ _ _ _ Hsq1 E2) as Hsq2.
    destruct (mat_set_square_entry _ _ _ _ _ _ Hsq1 E2) as (? & ? & ? & ? & Hm2).
    simplify_eq.
    unfold remove_edge. simpl. unfold in_graph in *. simpl. rewrite Hin. simpl.
    destruct (mat_set_square_total _ m2 a b None Hsq2) as [m3 E3]; [eauto..|].
    rewrite E3, Ht. simpl.
    pose proof (mat_set_square _ _ _ _ _ _ Hsq2 E3) as Hsq3.
    destruct (mat_set_square_entry _ _ _ _ _ _ Hsq2 E3) as (? & ? & ? & ? & Hm3).
    simplify_eq.
    destruct (mat_set_square_total _ m3 b a None Hsq3) as [m4 E4]; [eauto..|].
    rewrite E4. simpl. split; [done|]. split; [done|].
    pose proof (mat_set_square _ _ _ _ _ _ Hsq3 E4) as Hsq4.
    destruct (mat_set_square_entry _ _ _ _ _ _ Hsq3 E4) as (? & ? & ? & ? & Hm4).
    simplify_eq.
    rewrite <- (with_matrix_same g) at 2. unfold with_matrix. simpl. rewrite Ht.
    f_equal. apply (matrix_ext _ _ _ Hsq4 Hsq). intros i j.
    rewrite Hm4, Hm3, Hm2, Hm1. repeat case_decide; try done; intuition congruence.
Qed.

Lemma C5_add_then_remove_restores_witness :
  (add_edge 1 0 (7 # 2) two_apart).2 = Ret tt
  /\ (remove_edge 1 0 (add_edge 1 0 (7 # 2) two_apart).1).2 = Ret tt
  /\ add_then_remove 1 0 (7 # 2) two_apart = two_apart.
Proof.
  apply C5_add_then_remove_restores.
  - split; [simpl; lia|]. split; [reflexivity|]. repeat constructor.
  - simpl. lia.
  - simpl. lia.
  - lia.
  - reflexivity.
  - reflexivity.
Defined.

(** C5 as stated fails: when the edge was there before, the pair of calls
    deletes it; when a vertex is new, the graph stays larger. *)
Lemma C5_counterexample :
  add_then_remove 0 1 7 one_edge <> one_edge
  /\ add_then_remove 0 2 7 two_isolated <> two_isolated.
Proof. split; discriminate. Qed.


(** C9.  With [start] or [end] outside [0, n), [dijkstra] returns the
    out-of-range sentinel [(None, [])] whatever the fuel, and that
    sentinel differs from the unreachable one [(+inf, [])]. *)
Theorem C9_out_of_range_sentinel (fuel : nat) (g : Graph) (start end_ : Z) :
  ~ (0 <= start < n g /\ 0 <= end_ < n g) ->
  dijkstra fuel g start end_ = Ret out_of_range_sentinel
  /\ out_of_range_sentinel <> unreachable_sentinel.
Proof.
  intros Hout. split; [|discriminate].
  unfold dijkstra, size.
  destruct (Z.leb_spec 0 start), (Z.ltb_spec start (n g)),
    (Z.leb_spec 0 end_), (Z.ltb_spec end_ (n g)); simpl; try reflexivity.
  exfalso. apply Hout. lia.
Qed.

Lemma C9_out_of_range_sentinel_witness :
  dijkstra 0 two_isolated 0 2 = Ret out_of_range_sentinel
  /\ out_of_range_sentinel <> unreachable_sentinel.
Proof. apply C9_out_of_range_sentinel. simpl. lia. Defined.

Lemma two_isolated_constructed : Graph_init DIRECTED 2 = Ret two_isolated.
Proof. reflexivity. Qed.

Lemma zero_arc_constructed :
  Graph_load DIRECTED 2 [(0, 1, 0%Q); (1, 0, 5%Q)] = Ret zero_arc.
Proof. reflexivity. Qed.

(** C4 (code defect).  In the graph with two vertices and no edge, vertex 1
    is unreachable from 0: [dijkstra] returns [(+inf, [])], but
    [dijkstra_all] records [(+inf, [1])] for it, a path holding the target
    itself instead of the empty path. *)
Theorem C4_unreachable_records (fuel : nat) :
  dijkstra (2 + fuel) two_isolated 0 1 = Ret (Some PInf, [])
  /\ dijkstra_all (2 + fuel) two_isolated 0 = Ret [(Fin 0%Q, [0]); (PInf, [1])].
Proof. split; vm_compute; reflexivity. Qed.

(** C6 (code defect).  With arcs [0 -> 1] of weight 0 and [1 -> 0] of
    weight 5, the smaller directional weight is 0, but [prim] considers 5:
    [w or inf] treats the weight [0.0] like an absent arc. *)
Theorem C6_zero_weight_arc :
  prim_min_weight zero_arc 0 1 = Ret (Fin 5%Q)
  /\ skeleton_weight zero_arc 0 1 = Ret (Fin 0%Q).
Proof. split; reflexivity. Qed.

End GraphFacts.

Module MatchingFacts.
Import Matching MatchingSpec PyFacts.

Lemma py_get_lk {A} (l : list A) v x :
  0 <= v -> py_get l v = Ret x -> lk l v = Some x /\ v < Z.of_nat (length l).
Proof.
  intros Hv (k & Hk & Hx)%py_get_Ret. unfold lk. rewrite decide_True by done.
  pose proof (norm_index_lt _ _ _ Hk) as Hlt.
  unfold norm_index in Hk. destruct (Z.leb_spec 0 v) as [_|?]; [|lia].
  destruct (Z.ltb_spec v (Z.of_nat (length l))) as [?|?]; simplify_eq.
  split; [done|lia].
Qed.

Lemma py_set_lk {A} (l : list A) v x l' :
  0 <= v -> py_set l v x = Ret l' ->
  length l' = length l /\ v < Z.of_nat (length l)
  /\ forall w, lk l' w = if decide (w = v) then Some x else lk l w.
Proof.
  intros Hv (k & Hk & ->)%py_set_Ret.
  pose proof (norm_index_lt _ _ _ Hk) as Hlt.
  unfold norm_index in Hk. destruct (Z.leb_spec 0 v) as [_|?]; [|lia].
  destruct (Z.ltb_spec v (Z.of_nat (length l))) as [?|?]; simplify_eq.
  split; [apply length_insert|]. split; [lia|].
  intros w. unfold lk. destruct (decide (0 <= w)).
  - destruct (decide (w = v)) as [->|Hne].
    + by rewrite list_lookup_insert_eq.
    + rewrite list_lookup_insert_ne by lia. done.
  - rewrite decide_False by lia. done.
Qed.

Lemma lk_Some_range {A} (l : list A) v x :
  lk l v = Some x -> 0 <= v < Z.of_nat (length l).
Proof.
  unfold lk. case_decide; [|done]. intros Hl%lookup_lt_Some. lia.
Qed.

Lemma set_dist_spec st v d st' :
  0 <= v -> set_dist st v d = Ret st' ->
  pair_v st' = pair_v st /\ pair_u st' = pair_u st
  /\ length (dist st') = length (dist st)
  /\ forall w, lk (dist st') w = if decide (w = v) then Some d else lk (dist st) w.
Proof.
  intros Hv. unfold set_dist. intros (dist' & Hset & [= <-])%bind_Ret. simpl.
  apply py_set_lk in Hset as (? & ? & ?); done.
Qed.

Lemma flip_spec st v u st' :
  0 <= v -> 0 <= u -> flip st v u = Ret st' ->
  dist st' = dist st
  /\ length (pair_v st') = length (pair_v st)
  /\ length (pair_u st') = length (pair_u st)
  /\ v < Z.of_nat (length (pair_v st))
  /\ (forall w, lk (pair_v st') w = if decide (w = v) then Some u else lk (pair_v st) w)
  /\ (forall w, lk (pair_u st') w = if decide (w = u) then Some v else lk (pair_u st) w).
Proof.
  intros Hv Hu. unfold flip. intros (pv & Hpv & H)%bind_Ret.
  apply bind_Ret in H as (pu & Hpu & [= <-]). simpl.
  apply py_set_lk in Hpv as (? & ? & ?); [|done].
  apply py_set_lk in Hpu as (? & ? & ?); done.
Qed.

Section dfs.
Variables (N : nat) (forward_adj : list (list Z)) (left_partition : list Z).
Hypothesis adj_right : forall v us u,
  lk forward_adj v = Some us -> u ∈ us ->
  0 <= u < Z.of_nat N /\ u ∉ left_partition.

Abbreviation good := (good N left_partition).
Abbreviation post := (post N left_partition).

Lemma deeper_refl d st : deeper d false st st.
Proof. split; [|split]; intros x Hne; by destruct Hne. Qed.

Lemma deeper_weaken d ok st s : deeper d false st s -> deeper d ok st s.
Proof.
  intros (Hv & Hu & Hd). split; [|split]; [| |done].
  - intros x Hx. by destruct (Hv x Hx) as [? _].
  - intros u Hu'. by destruct (Hu u Hu') as [? _].
Qed.

Lemma deeper_pairs d st s :
  deeper d false st s ->
  (forall x, lk (pair_v s) x = lk (pair_v st) x)
  /\ (forall u, lk (pair_u s) u = lk (pair_u st) u).
Proof.
  intros (Hv & Hu & _). split; intros x.
  - destruct (decide (lk (pair_v s) x = lk (pair_v st) x)) as [|Hne]; [done|].
    by destruct (Hv x Hne) as [? _].
  - destruct (decide (lk (pair_u s) x = lk (pair_u st) x)) as [|Hne]; [done|].
    by destruct (Hu x Hne) as [? _].
Qed.

(** A layer that is still finite was not touched. *)
Lemma deeper_finite d ok st s x k :
  deeper d ok st s -> lk (dist s) x = Some (Fin k) -> lk (dist st) x = Some (Fin k).
Proof.
  intros (_ & _ & Hd) Hx.
  destruct (decide (lk (dist s) x = lk (dist st) x)) as [<-|Hne]; [done|].
  destruct (Hd x Hne) as [? _]. congruence.
Qed.

Lemma deeper_layer d ok st s x :
  deeper d ok st s -> lk (dist st) x = Some (Fin d) -> lk (dist s) x = Some (Fin d).
Proof.
  intros (_ & _ & Hd) Hx.
  destruct (decide (lk (dist s) x = lk (dist st) x)) as [->|Hne]; [done|].
  destruct (Hd x Hne) as [_ (dx & ? & ?)]. simplify_eq. lia.
Qed.

Lemma deeper_trans d ok st s s1 :
  deeper d false st s -> deeper d ok s s1 -> deeper d ok st s1.
Proof.
  intros H1 (Hv & Hu & Hd). destruct (deeper_pairs _ _ _ H1) as [Ev Eu].
  split; [|split].
  - intros x Hx. rewrite <- Ev in Hx. destruct (Hv x Hx) as (? & ? & dx & ? & ?).
    repeat split; [done..|]. exists dx. eauto using deeper_finite.
  - intros u Hx. rewrite <- Eu in Hx. destruct (Hu u Hx) as (? & p & Hp & Hk).
    split; [done|]. exists p. rewrite <- Eu. split; [done|].
    destruct Hk as [?|(k & ? & ?)]; [by left|right].
    exists k. eauto using deeper_finite.
  - intros x Hx.
    destruct (decide (lk (dist s1) x = lk (dist s) x)) as [E|Hne].
    + rewrite E in *. by apply H1.
    + destruct (Hd x Hne) as (? & dx & ? & ?). split; [done|].
      exists dx. eauto using deeper_finite.
Qed.

(** A call one layer down only touches what [deeper] allows. *)
Lemma post_deeper d pu s s1 ok :
  lk (dist s) pu = Some (Fin (d + 1)) -> post (d + 1) pu s s1 ok ->
  deeper d ok s s1.
Proof.
  intros Hpu (_ & Hv & Hu & Hd & _). split; [|split].
  - intros x Hx. destruct (Hv x Hx) as (? & ? & [->|(dx & ? & ?)]).
    + repeat split; [done..|]. exists (d + 1). split; [done|lia].
    + repeat split; [done..|]. exists dx. split; [done|lia].
  - intros u Hx. destruct (Hu u Hx) as (? & p & ? & Hk). split; [done|].
    exists p. split; [done|]. destruct Hk as [?|(k & ? & ?)]; [by left|right].
    exists k. split; [done|lia].
  - intros x Hx. destruct (Hd x Hx) as (? & [->|(dx & ? & ?)]).
    + split; [done|]. exists (d + 1). split; [done|lia].
    + split; [done|]. exists dx. split; [done|lia].
Qed.

(** Pairing [v] with [u] once [u] is available. *)
Lemma flip_post d v u p st s1 st' :
  0 <= v -> v ∈ left_partition -> 0 <= u < Z.of_nat N -> u ∉ left_partition ->
  good s1 -> deeper d true st s1 ->
  lk (pair_u st) u = Some p ->
  (p = -1 \/ lk (dist st) p = Some (Fin (d + 1))) ->
  (forall x, x <> v -> lk (pair_v s1) x <> Some u) ->
  flip s1 v u = Ret st' ->
  post d v st st' true.
Proof.
  intros Hv Hleft Hu Hright (Lv & Lu & Ld & Mv & Mu) (Dv & Du & Dd) Hp Hk Hfree Hflip.
  apply flip_spec in Hflip as (Ed & Lv' & Lu' & HvN & Ev & Eu); [|lia..].
  split; [|split; [|split; [|split]]].
  - (* the arrays still describe a matching *)
    split; [lia|]. split; [lia|]. split; [by rewrite Ed|]. split.
    + intros x u'. rewrite Ev, Eu. case_decide as Hx.
      * subst x. intros [= <-] _. by rewrite decide_True.
      * intros Hx' Hne. destruct (Mv x u' Hx' Hne) as (? & ? & ?).
        rewrite decide_False; [done|]. intros ->. by apply (Hfree x).
    + intros u' x. rewrite Eu. case_decide.
      * intros [= <-] _. split; [lia|done].
      * apply Mu.
  - intros x. rewrite Ev. case_decide as Hx.
    + intros _. split; [done|]. split; [|by left]. exists u. split; [done|lia].
    + intros Hne. destruct (Dv x Hne) as (? & ? & ?). eauto.
  - intros u'. rewrite Eu. case_decide as Hx.
    + subst u'. intros _. split; [done|]. exists p. split; [done|].
      destruct Hk as [?|?]; [by left|right]. exists (d + 1). split; [done|lia].
    + apply Du.
  - intros x. rewrite Ed. intros Hne. destruct (Dd x Hne) as (? & ?). eauto.
  - intros _. exists u, p. rewrite Ev, decide_True by done.
    repeat split; [lia|done..].
Qed.

Lemma layer_eqb_succ dpu d :
  layer_eqb dpu (layer_succ (Fin d)) = true -> dpu = Fin (d + 1).
Proof. destruct dpu as [k|]; simpl; [|done]. by intros ->%Z.eqb_eq. Qed.

(** The loop of [dfs(v)] over the right neighbours of [v]. *)
Lemma dfs_edges_post (rec : Z -> hk -> outcome (bool * hk)) d v st :
  (forall pu s ok s1,
      good s -> 0 <= pu -> pu ∈ left_partition ->
      lk (dist s) pu = Some (Fin (d + 1)) ->
      rec pu s = Ret (ok, s1) -> post (d + 1) pu s s1 ok) ->
  0 <= v -> v ∈ left_partition -> lk (dist st) v = Some (Fin d) ->
  forall us s ok st',
    (forall u, u ∈ us -> 0 <= u < Z.of_nat N /\ u ∉ left_partition) ->
    good s -> deeper d false st s ->
    dfs_edges rec v us s = Ret (ok, st') ->
    post d v st st' ok.
Proof.
  intros Hrec Hv Hleft Hdv us. induction us as [|u us IH]; intros s ok st' Hus Hs Hin; simpl.
  - (* every neighbour failed: mark [v] *)
    intros (st1 & Hset & [= <- <-])%bind_Ret.
    apply set_dist_spec in Hset as (Ev & Eu & Ld & Ed); [|done].
    destruct (deeper_pairs _ _ _ Hin) as [Pv Pu].
    destruct Hs as (Lv & Lu & Ld' & Mv & Mu).
    split; [|split; [|split; [|split]]].
    + unfold MatchingSpec.good. rewrite Ev, Eu.
      split; [done|]. split; [done|]. split; [lia|]. by split.
    + intros x. rewrite Ev, Pv. done.
    + intros x. rewrite Eu, Pu. done.
    + intros x. rewrite Ed. case_decide as Hx; [by eauto|].
      intros Hne. destruct Hin as (_ & _ & Hd). destruct (Hd x Hne). eauto.
    + done.
  - destruct (Hus u) as [Hu Hright]; [by left|].
    assert (forall u', u' ∈ us -> 0 <= u' < Z.of_nat N /\ u' ∉ left_partition) as Hus'.
    { intros u' Hu'. apply Hus. by right. }
    destruct (deeper_pairs _ _ _ Hin) as [Pv Pu].
    intros (pu & Hpu & H)%bind_Ret.
    apply py_get_lk in Hpu as [Hpu _]; [|lia].
    pose proof Hs as (_ & _ & _ & Mv & Mu).
    destruct (Z.eqb_spec pu (-1)) as [->|Hpu1].
    + (* [u] is free *)
      apply bind_Ret in H as (st1 & Hflip & [= <- <-]).
      eapply (flip_post d v u (-1) st s); eauto using deeper_weaken.
      * by rewrite <- Pu.
      * intros x _ Hx. destruct (Mv x u Hx) as (_ & _ & Hux); [lia|].
        apply lk_Some_range in Hx. simplify_eq. lia.
    + destruct (Mu u pu Hpu Hpu1) as [[Hpu0 HpuN] Hpul].
      apply bind_Ret in H as (dpu & Hdpu & H).
      apply bind_Ret in H as (dv & Hdv' & H).
      apply py_get_lk in Hdpu as [Hdpu _]; [|done].
      apply py_get_lk in Hdv' as [Hdv' _]; [|done].
      rewrite (deeper_layer _ _ _ _ _ Hin Hdv) in Hdv'. simplify_eq.
      destruct (layer_eqb dpu (layer_succ (Fin d))) eqn:El; [|by eapply IH].
      apply layer_eqb_succ in El as ->.
      apply bind_Ret in H as ([ok1 s1] & Hcall & H).
      pose proof (Hrec _ _ _ _ Hs Hpu0 Hpul Hdpu Hcall) as Hpost.
      pose proof (deeper_trans _ _ _ _ _ Hin (post_deeper _ _ _ _ _ Hdpu Hpost)) as Hin1.
      destruct ok1; [|eapply IH; [done|apply Hpost|done|done]].
      (* the call below succeeded: [pu] moved on, [u] is available *)
      apply bind_Ret in H as (st1 & Hflip & [= <- <-]).
      destruct Hpost as (Hs1 & _ & Hu1 & _ & Hok).
      eapply (flip_post d v u pu st s1); eauto.
      * by rewrite <- Pu.
      * right. eauto using deeper_finite.
      * intros x _ Hx.
        destruct Hs1 as (_ & _ & _ & Mv1 & _).
        destruct (Mv1 x u Hx) as (_ & _ & Hux); [lia|].
        assert (lk (pair_u s1) u = lk (pair_u s) u) as Esame.
        { destruct (decide (lk (pair_u s1) u = lk (pair_u s) u)) as [|Hne]; [done|].
          destruct (Hu1 u Hne) as (_ & p & Hp & [->|(k & Hk & ?)]); simplify_eq.
          lia. }
        rewrite Esame in Hux. simplify_eq.
        destruct (Hok eq_refl) as (u2 & p2 & Hu2 & _ & Hp2 & Hk). simplify_eq.
        destruct Hk as [->|Hk]; [done|]. simplify_eq. lia.
Qed.

Lemma dfs_post fuel :
  forall d v st ok st',
    good st -> 0 <= v -> v ∈ left_partition -> lk (dist st) v = Some (Fin d) ->
    dfs fuel forward_adj v st = Ret (ok, st') ->
    post d v st st' ok.
Proof.
  induction fuel as [|fuel IH]; intros d v st ok st' Hst Hv Hleft Hd; simpl; [done|].
  intros (us & Hus & H)%bind_Ret.
  apply py_get_lk in Hus as [Hus _]; [|done].
  eapply (dfs_edges_post (dfs fuel forward_adj) d v st); eauto using deeper_refl.
Qed.

(** *** The layering search keeps the pairs and puts every free left
    vertex on layer 0. *)

Hypothesis left_range : forall u, u ∈ left_partition -> 0 <= u < Z.of_nat N.

Lemma same_pairs_good st s : same_pairs st s -> good st -> good s.
Proof.
  intros (Ev & Eu & Ld) (? & ? & ? & ? & ?). unfold MatchingSpec.good.
  rewrite Ev, Eu, Ld. done.
Qed.

Lemma bfs_init_spec st s dq :
  for_each left_partition bfs_init (st, []) = Ret (s, dq) ->
  same_pairs st s
  /\ Forall (fun v => 0 <= v) dq
  /\ forall u, u ∈ left_partition -> lk (pair_v st) u = Some (-1) ->
       lk (dist s) u = Some (Fin 0).
Proof.
  intros H.
  eapply (for_each_prefix
            (fun pre (sd : hk * list Z) =>
               same_pairs st sd.1 /\ Forall (fun v => 0 <= v) sd.2
               /\ forall u, u ∈ pre -> lk (pair_v st) u = Some (-1) ->
                    lk (dist sd.1) u = Some (Fin 0))) in H; [exact H| |].
  - intros pre x post' [s0 dq0] [s1 dq1] -> ((Ev & Eu & Ld) & Hdq & Hpre). simpl in *.
    destruct (left_range x) as [Hx _]; [apply elem_of_app; right; by left|].
    intros (pv & Hpv & Hb)%bind_Ret.
    apply py_get_lk in Hpv as [Hpv _]; [|done]. rewrite Ev in Hpv.
    destruct (Z.eqb_spec pv (-1)) as [->|Hne]; simpl in Hb;
      apply bind_Ret in Hb as (s' & Hset & [= <- <-]);
      apply set_dist_spec in Hset as (Ev' & Eu' & Ld' & Ed); try done; simpl.
    + split; [split; [congruence|split; [congruence|lia]]|].
      split; [apply Forall_app; split; [done|by constructor]|].
      intros u [Hu| ->%list_elem_of_singleton]%elem_of_app Hfree; rewrite Ed.
      * case_decide; [done|auto].
      * by rewrite decide_True.
    + split; [split; [congruence|split; [congruence|lia]]|].
      split; [done|].
      intros u [Hu| ->%list_elem_of_singleton]%elem_of_app Hfree; rewrite Ed.
      * case_decide; [congruence|auto].
      * congruence.
  - simpl. split; [done|]. split; [done|]. by intros u Hu%elem_of_nil.
Qed.

Lemma bfs_visit_spec st v u s dq found s' dq' found' :
  good st -> same_pairs st s -> 0 <= u ->
  bfs_visit v u (s, dq, found) = Ret (s', dq', found') ->
  same_pairs st s' /\ keeps_layers s s'
  /\ (Forall (fun v => 0 <= v) dq -> Forall (fun v => 0 <= v) dq').
Proof.
  intros Hst (Ev & Eu & Ld) Hu. unfold bfs_visit.
  intros (pu & Hpu & H)%bind_Ret.
  apply py_get_lk in Hpu as [Hpu _]; [|done].
  destruct (Z.eqb_spec pu (-1)) as [->|Hne].
  { injection H as <- <- <-. split; [done|]. split; [by intros ??|done]. }
  destruct Hst as (_ & _ & _ & _ & Mu). rewrite Eu in Hpu.
  destruct (Mu u pu Hpu Hne) as [[Hpu0 _] _].
  apply bind_Ret in H as (dpu & Hdpu & H).
  apply py_get_lk in Hdpu as [Hdpu _]; [|done].
  destruct dpu as [k|]; simpl in H.
  { injection H as <- <- <-. split; [done|]. split; [by intros ??|done]. }
  apply bind_Ret in H as (dv & _ & H).
  apply bind_Ret in H as (s1 & Hset & [= <- <- <-]).
  apply set_dist_spec in Hset as (Ev' & Eu' & Ld' & Ed); [|done].
  split; [split; [congruence|split; [congruence|lia]]|]. split.
  - intros w k Hw. rewrite Ed. case_decide; [congruence|done].
  - intros Hdq. apply Forall_app. split; [done|by constructor].
Qed.

Lemma bfs_loop_spec fuel st :
  good st ->
  forall s dq found s' found',
    same_pairs st s -> Forall (fun v => 0 <= v) dq ->
    bfs_loop fuel forward_adj (s, dq, found) = Ret (s', found') ->
    same_pairs st s' /\ keeps_layers s s'.
Proof.
  intros Hst. induction fuel as [|fuel IH]; intros s dq found s' found' Hs Hdq; simpl;
    [done|].
  destruct dq as [|v dq].
  { intros [= <- <-]. split; [done|]. by intros ??. }
  apply Forall_cons in Hdq as [Hv Hdq].
  intros (us & Hus & H)%bind_Ret.
  apply py_get_lk in Hus as [Hus _]; [|done].
  apply bind_Ret in H as ([[s1 dq1] found1] & Hvisit & H).
  assert (same_pairs st s1 /\ keeps_layers s s1
          /\ Forall (fun v => 0 <= v) dq1) as (Hs1 & Hk1 & Hdq1).
  { eapply (for_each_invariant
              (fun t : hk * list Z * bool =>
                 same_pairs st t.1.1 /\ keeps_layers s t.1.1
                 /\ Forall (fun v => 0 <= v) t.1.2)) in Hvisit; [done| |].
    - intros u [[s2 dq2] f2] [[s3 dq3] f3] Hu (Hs2 & Hk2 & Hdq2) Hstep. simpl in *.
      destruct (adj_right _ _ _ Hus Hu) as [[Hu0 _] _].
      destruct (bfs_visit_spec _ _ _ _ _ _ _ _ _ Hst Hs2 Hu0 Hstep) as (? & Hk3 & ?).
      split; [done|]. split; [|auto]. intros w k Hw. auto.
    - simpl. split; [done|]. split; [by intros ??|done]. }
  destruct (IH _ _ _ _ _ Hs1 Hdq1 H) as [Hs' Hk']. split; [done|].
  intros w k Hw. auto.
Qed.

Lemma bfs_spec fuel st st' found :
  good st -> bfs fuel forward_adj left_partition st = Ret (st', found) ->
  good st'
  /\ forall u, u ∈ left_partition -> lk (pair_v st') u = Some (-1) ->
       lk (dist st') u = Some (Fin 0).
Proof.
  intros Hst. unfold bfs. intros ([s dq] & (Hs & Hdq & H0)%bfs_init_spec & H)%bind_Ret.
  destruct (bfs_loop_spec _ _ Hst _ _ _ _ _ Hs Hdq H) as [Hs' Hk]. split.
  - by eapply same_pairs_good.
  - intros u Hu Hfree. apply Hk, H0; [done|].
    destruct Hs' as (<- & _). done.
Qed.

(** *** A phase, and the loop over phases. *)

Hypothesis left_nodup : NoDup left_partition.

Lemma phase_spec fuel st st' :
  good st ->
  (forall u, u ∈ left_partition -> lk (pair_v st) u = Some (-1) ->
     lk (dist st) u = Some (Fin 0)) ->
  for_each left_partition (phase_step fuel forward_adj) st = Ret st' ->
  good st'.
Proof.
  intros Hst H0 H.
  eapply (for_each_prefix
            (fun pre s =>
               good s
               /\ forall u, u ∈ left_partition -> u ∉ pre ->
                    lk (pair_v s) u = Some (-1) -> lk (dist s) u = Some (Fin 0)))
    in H; [apply H| |].
  - intros pre x post' s s' Hsplit [Hs Hfree]. unfold phase_step.
    assert (x ∈ left_partition) as Hx by (rewrite Hsplit, elem_of_app; right; by left).
    assert (x ∉ pre) as Hxpre.
    { pose proof left_nodup as Hnd. rewrite Hsplit in Hnd.
      apply NoDup_app in Hnd as (_ & Hnd & _). intros Hin. apply (Hnd x Hin). by left. }
    destruct (left_range x Hx) as [Hx0 _].
    intros (pv & Hpv & Hb)%bind_Ret.
    apply py_get_lk in Hpv as [Hpv _]; [|done].
    destruct (Z.eqb_spec pv (-1)) as [->|Hne].
    + apply bind_Ret in Hb as ([ok s1] & Hdfs & [= <-]).
      pose proof (dfs_post fuel 0 x s ok s1 Hs Hx0 Hx (Hfree x Hx Hxpre Hpv) Hdfs)
        as (Hs1 & Hv & _ & Hd & _).
      split; [done|]. intros u Hu Hupre Hu1.
      assert (u <> x) as Hux by (intros ->; apply Hupre; rewrite elem_of_app; right; by left).
      assert (lk (pair_v s1) u = lk (pair_v s) u) as Esame.
      { destruct (decide (lk (pair_v s1) u = lk (pair_v s) u)) as [|Hne]; [done|].
        destruct (Hv u Hne) as (_ & (u' & ? & ?) & _). congruence. }
      assert (lk (dist s) u = Some (Fin 0)) as Hdu.
      { apply Hfree; [done|intros ?; apply Hupre; rewrite elem_of_app; by left|congruence]. }
      destruct (decide (lk (dist s1) u = lk (dist s) u)) as [->|Hne]; [done|].
      destruct (Hd u Hne) as (_ & [?|(dx & ? & ?)]); [done|]. simplify_eq; lia.
    + injection Hb as <-. split; [done|]. intros u Hu Hupre.
      apply Hfree; [done|intros ?; apply Hupre; rewrite elem_of_app; by left].
  - split; [done|]. intros u Hu _. by apply H0.
Qed.

Lemma phases_spec fuel :
  forall st st', good st ->
    phases fuel forward_adj left_partition st = Ret st' -> good st'.
Proof.
  induction fuel as [|fuel IH]; intros st st' Hst; simpl; [done|].
  intros ([st1 found] & [Hst1 H0]%bfs_spec & H)%bind_Ret; [|done].
  destruct found; [|by injection H as <-].
  apply bind_Ret in H as (st2 & Hphase%phase_spec & H); [|done..].
  by apply (IH st2).
Qed.

End dfs.

Lemma adj_append_lk (adj : list (list Z)) a b adj' :
  0 <= a -> adj_append adj a b = Ret adj' ->
  length adj' = length adj
  /\ exists row, lk adj a = Some row
       /\ forall w, lk adj' w = if decide (w = a) then Some (row ++ [b]) else lk adj w.
Proof.
  intros Ha. unfold adj_append. intros (row & Hrow & Hset)%bind_Ret.
  apply py_get_lk in Hrow as [Hrow _]; [|done].
  apply py_set_lk in Hset as (? & _ & ?); [|done]. eauto.
Qed.

Lemma lk_replicate {A} n (x y : A) v : lk (replicate n x) v = Some y -> y = x.
Proof.
  unfold lk. case_decide; [|done]. by intros [-> _]%lookup_replicate.
Qed.

Section hopcroft_karp.
Variables (n : Z) (edges : list Edge) (left_partition : list Z).
Hypothesis edges_range :
  forall a b, (a, b) ∈ edges -> 0 <= a < n /\ 0 <= b < n.
Hypothesis left_range : forall u, u ∈ left_partition -> 0 <= u < n.
Hypothesis left_nodup : NoDup left_partition.
Hypothesis left_right :
  forall a b, (a, b) ∈ edges -> a ∈ left_partition -> b ∉ left_partition.

Lemma forward_adj_right forward_adj :
  for_each edges (add_forward left_partition) (replicate (Z.to_nat n) []) = Ret forward_adj ->
  forall v us u, lk forward_adj v = Some us -> u ∈ us ->
    0 <= u < Z.of_nat (Z.to_nat n) /\ u ∉ left_partition.
Proof.
  intros H.
  eapply (for_each_invariant
            (fun adj : list (list Z) =>
               forall v us u, lk adj v = Some us -> u ∈ us ->
                 0 <= u < Z.of_nat (Z.to_nat n) /\ u ∉ left_partition));
    [| |exact H].
  - intros [a b] adj adj' He Hadj. unfold add_forward.
    destruct (edges_range a b He) as [Ha Hb].
    case_bool_decide as Hal; [|case_bool_decide as Hbl].
    + intros (_ & row & Hrow & E)%adj_append_lk; [|lia].
      intros v us u. rewrite E. case_decide; [|apply Hadj].
      intros [= <-] [Hu| ->%list_elem_of_singleton]%elem_of_app.
      * by eapply Hadj.
      * split; [lia|]. by apply (left_right a).
    + intros (_ & row & Hrow & E)%adj_append_lk; [|lia].
      intros v us u. rewrite E. case_decide; [|apply Hadj].
      intros [= <-] [Hu| ->%list_elem_of_singleton]%elem_of_app.
      * by eapply Hadj.
      * split; [lia|done].
    + by intros [= <-].
  - intros v us u ->%lk_replicate. by intros ?%elem_of_nil.
Qed.

Lemma initial_good :
  good (Z.to_nat n) left_partition
    {| pair_v := py_repeat (-1) n; pair_u := py_repeat (-1) n;
       dist := py_repeat PInf n |}.
Proof.
  unfold good, py_repeat. simpl. rewrite !length_replicate.
  split; [done|]. split; [done|]. split; [done|]. split.
  - by intros x u ->%lk_replicate.
  - by intros x u ->%lk_replicate.
Qed.

(** The pairs read off a matching mention no vertex twice. *)
Lemma matching_nodup st (m : list Edge) :
  good (Z.to_nat n) left_partition st ->
  Forall (fun e => e.1 ∈ left_partition /\ lk (pair_v st) e.1 = Some e.2 /\ e.2 <> -1) m ->
  NoDup m.*1 -> NoDup (m.*1 ++ m.*2).
Proof.
  intros (_ & _ & _ & Mv & _) Hm Hnd. apply NoDup_app. split; [done|]. split.
  - intros x Hx1 [[u pv] [-> He]]%list_elem_of_fmap. simpl in *.
    rewrite Forall_forall in Hm. destruct (Hm _ He) as (_ & Hpv & Hne). simpl in *.
    destruct (Mv u pv Hpv Hne) as (_ & Hright & _). apply Hright.
    apply list_elem_of_fmap in Hx1 as [[u' pv'] [-> He']].
    by destruct (Hm _ He') as (? & _).
  - induction m as [|[u pv] m IH]; simpl; [constructor|].
    apply Forall_cons in Hm as [(Hu & Hpv & Hne) Hm]. simpl in *.
    apply NoDup_cons in Hnd as [Hu' Hnd]. constructor; [|by apply IH].
    intros [[u' pv'] [-> He]]%list_elem_of_fmap. simpl in *.
    rewrite Forall_forall in Hm. destruct (Hm _ He) as (_ & Hpv' & _). simpl in *.
    destruct (Mv u pv' Hpv Hne) as (_ & _ & E1).
    destruct (Mv u' pv' Hpv' Hne) as (_ & _ & E2).
    apply Hu'. apply list_elem_of_fmap. exists (u', pv'). split; [|done]. simpl. congruence.
Qed.

Lemma hopcroft_karp_nodup fuel m :
  hopcroft_karp fuel n edges left_partition = Ret m -> NoDup (m.*1 ++ m.*2).
Proof.
  unfold hopcroft_karp. intros (forward_adj & Hbuild & H)%bind_Ret.
  pose proof (forward_adj_right _ Hbuild) as Hadj.
  apply bind_Ret in H as (st & Hst & H).
  assert (forall u, u ∈ left_partition -> 0 <= u < Z.of_nat (Z.to_nat n)) as Hrange.
  { intros u Hu%left_range. lia. }
  apply (phases_spec _ _ _ Hadj Hrange left_nodup) in Hst; [|apply initial_good].
  eapply (for_each_prefix
            (fun pre (m : list Edge) =>
               Forall (fun e => e.1 ∈ left_partition
                                /\ lk (pair_v st) e.1 = Some e.2 /\ e.2 <> -1) m
               /\ NoDup m.*1 /\ forall u, u ∈ m.*1 -> u ∈ pre)) in H.
  - destruct H as (Hm & Hnd & _). by eapply matching_nodup.
  - intros pre x post' acc acc' Hsplit (Hm & Hnd & Hpre).
    assert (x ∈ left_partition) as Hx by (rewrite Hsplit, elem_of_app; right; by left).
    assert (x ∉ pre) as Hxpre.
    { pose proof left_nodup as Hl. rewrite Hsplit in Hl.
      apply NoDup_app in Hl as (_ & Hl & _). intros Hin. apply (Hl x Hin). by left. }
    intros (pv & Hpv & [= <-])%bind_Ret.
    apply py_get_lk in Hpv as [Hpv _]; [|by apply left_range].
    destruct (Z.eqb_spec pv (-1)) as [->|Hne].
    + split; [done|]. split; [done|]. intros u Hu. rewrite elem_of_app. auto.
    + split; [apply Forall_app; split; [done|by repeat constructor]|].
      rewrite fmap_app. simpl. split.
      * apply NoDup_app. split; [done|]. split; [|apply NoDup_singleton].
        intros u Hu ->%list_elem_of_singleton. auto.
      * intros u [Hu| ->%list_elem_of_singleton]%elem_of_app; rewrite elem_of_app.
        -- auto.
        -- right. by left.
  - split; [constructor|]. split; [constructor|]. by intros u ?%elem_of_nil.
Qed.

End hopcroft_karp.

(** *** Two-colouring *)

Section colouring.
Variables (N : nat) (adj : list (list Z)).
Hypothesis adj_range : forall v row u,
  lk adj v = Some row -> u ∈ row -> 0 <= u < Z.of_nat N.

Lemma extends_refl colors : extends colors colors.
Proof. by split. Qed.

Lemma extends_trans c1 c2 c3 : extends c1 c2 -> extends c2 c3 -> extends c1 c3.
Proof. intros [L1 H1] [L2 H2]. split; [lia|]. eauto. Qed.

Lemma checked_extends colors colors' v :
  extends colors colors' -> checked adj colors v -> checked adj colors' v.
Proof.
  intros [_ He] Hc row u Hrow Hu.
  destruct (Hc row u Hrow Hu) as (cv & Hv & Hcv & Hcu).
  exists cv. split; [apply He; [done|lia]|]. split; [done|]. apply He; [done|lia].
Qed.

(** The loop over the neighbours of [v]; [seen] are those already met. *)
Lemma colour_neighbours_spec v cv row :
  lk adj v = Some row -> 0 <= v -> (cv = 0 \/ cv = 1) ->
  forall us seen colors q colors' q',
    row = seen ++ us ->
    colouring N adj colors q (Some v) ->
    lk colors v = Some cv ->
    (forall u, u ∈ seen -> lk colors u = Some (1 - cv)) ->
    colour_neighbours v us colors q = Ret (Continue (colors', q')) ->
    colouring N adj colors' q' None /\ extends colors colors'.
Proof.
  intros Hrow Hv Hcv. induction us as [|u us IH];
    intros seen colors q colors' q' Hsplit (Hlen & Hval & Hq & Hdone) Hcol Hseen; simpl.
  - intros [= <- <-]. rewrite app_nil_r in Hsplit. subst seen.
    split; [|apply extends_refl]. split; [done|]. split; [done|]. split; [done|].
    intros w c Hw Hc. destruct (Hdone w c Hw Hc) as [?|[[= ->]|?]]; auto.
    right. right. intros row' u Hrow' Hu. simplify_eq. eauto.
  - assert (0 <= u < Z.of_nat N) as Hu.
    { apply (adj_range v row); [done|]. rewrite Hsplit, elem_of_app. right. by left. }
    intros (cu & Hcu & H)%bind_Ret.
    apply py_get_lk in Hcu as [Hcu _]; [|lia].
    destruct (Z.eqb_spec cu (-1)) as [->|Hne].
    + (* [u] is not coloured yet *)
      apply bind_Ret in H as (cv' & Hcv' & H).
      apply py_get_lk in Hcv' as [Hcv' _]; [|done]. simplify_eq.
      apply bind_Ret in H as (colors1 & Hset & H).
      apply py_set_lk in Hset as (Hlen1 & _ & E); [|lia].
      assert (extends colors colors1) as Hext.
      { split; [done|]. intros w c Hw Hc. rewrite E.
        case_decide; [congruence|done]. }
      destruct (IH (seen ++ [u]) colors1 (q ++ [u]) colors' q') as [Hinv Hext'];
        [by rewrite <- app_assoc| | | |done|].
      * split; [lia|]. split; [|split].
        -- intros w c. rewrite E. case_decide; [intros [= <-]; lia|apply Hval].
        -- apply Forall_app. split.
           ++ eapply Forall_impl; [done|]. simpl. intros w [? (c & Hw & Hc)].
              split; [done|]. exists c. split; [|done]. by apply Hext.
           ++ constructor; [|done]. split; [lia|]. exists (1 - cv).
              rewrite E, decide_True by done. split; [done|lia].
        -- intros w c. rewrite E. case_decide as Hw; [subst w|].
           ++ intros _ _. left. rewrite elem_of_app. right. by left.
           ++ intros Hw' Hc. destruct (Hdone w c Hw' Hc) as [?|[?|?]].
              ** left. rewrite elem_of_app. by left.
              ** by right; left.
              ** right; right. by eapply checked_extends.
      * apply Hext; [done|lia].
      * intros w [Hw| ->%list_elem_of_singleton]%elem_of_app.
        -- apply Hext; [auto|lia].
        -- by rewrite E, decide_True.
      * split; [done|]. by eapply extends_trans.
    + (* [u] has a colour: it must differ from the one of [v] *)
      apply bind_Ret in H as (cv' & Hcv' & H).
      apply py_get_lk in Hcv' as [Hcv' _]; [|done]. simplify_eq.
      destruct (Z.eqb_spec cu cv) as [->|Hdiff]; [done|].
      apply (IH (seen ++ [u]) colors q colors' q'); [by rewrite <- app_assoc|done..| |done].
      intros w [Hw| ->%list_elem_of_singleton]%elem_of_app; [auto|].
      rewrite Hcu. f_equal. destruct (Hval u cu Hcu) as [?|[?|?]]; lia.
Qed.

(** The loop over one component. *)
Lemma colour_component_spec fuel :
  forall colors q colors',
    colouring N adj colors q None ->
    colour_component fuel adj colors q = Ret (Continue colors') ->
    colouring N adj colors' [] None /\ extends colors colors'.
Proof.
  induction fuel as [|fuel IH]; intros colors q colors' Hinv; simpl; [done|].
  destruct q as [|v q].
  { intros [= <-]. split; [done|apply extends_refl]. }
  intros (us & Hus & H)%bind_Ret.
  destruct Hinv as (Hlen & Hval & Hq & Hdone).
  apply Forall_cons in Hq as [[Hv (cv & Hcv & Hne)] Hq].
  apply py_get_lk in Hus as [Hus _]; [|done].
  apply bind_Ret in H as (r & Hr & H). destruct r as [[colors1 q1]|]; [|done].
  destruct (colour_neighbours_spec v cv us Hus Hv) with
    (us := us) (seen := @nil Z) (colors := colors) (q := q) (colors' := colors1) (q' := q1)
    as [Hinv1 Hext1]; [destruct (Hval v cv Hcv); lia|done| |done| |done|].
  - split; [done|]. split; [done|]. split; [done|].
    intros w c Hw Hc. destruct (Hdone w c Hw Hc) as [[->|?]%elem_of_cons|[?|?]];
      [auto|auto|done|auto].
  - by intros u ?%elem_of_nil.
  - destruct (IH colors1 q1 colors' Hinv1 H) as [Hinv' Hext']. split; [done|].
    by eapply extends_trans.
Qed.

(** The loop over all start vertices. *)
Lemma colour_all_spec fuel starts :
  forall colors colors',
    Forall (fun v => 0 <= v) starts ->
    colouring N adj colors [] None ->
    colour_all fuel adj starts colors = Ret (true, colors') ->
    colouring N adj colors' [] None.
Proof.
  induction starts as [|start starts IH]; intros colors colors' Hstarts Hinv; simpl.
  { by intros [= <-]. }
  apply Forall_cons in Hstarts as [Hstart Hstarts].
  intros (c & Hc & H)%bind_Ret.
  apply py_get_lk in Hc as [Hc _]; [|done].
  destruct (Z.eqb_spec c (-1)) as [->|Hne]; simpl in H; [|by eapply IH].
  apply bind_Ret in H as (colors1 & Hset & H).
  apply py_set_lk in Hset as (Hlen1 & _ & E); [|done].
  apply bind_Ret in H as (r & Hr & H). destruct r as [colors2|]; [|done].
  destruct Hinv as (Hlen & Hval & _ & Hdone).
  assert (extends colors colors1) as Hext.
  { split; [done|]. intros w c Hw Hc'. rewrite E. case_decide; [congruence|done]. }
  apply colour_component_spec in Hr as [Hinv2 _]; [by eapply IH|].
  split; [lia|]. split; [|split].
  - intros w c. rewrite E. case_decide; [intros [= <-]; lia|apply Hval].
  - constructor; [|done]. split; [done|]. exists 0.
    by rewrite E, decide_True.
  - intros w c. rewrite E. case_decide as Hw; [subst w; intros _ _; left; by left|].
    intros Hw' Hc'. destruct (Hdone w c Hw' Hc') as [?%elem_of_nil|[?|?]]; [done..|].
    right; right. by eapply checked_extends.
Qed.

End colouring.

Lemma adj_append_grow (adj : list (list Z)) a b adj' :
  0 <= a -> adj_append adj a b = Ret adj' ->
  (forall v row, lk adj v = Some row ->
     exists row', lk adj' v = Some row' /\ forall u, u ∈ row -> u ∈ row')
  /\ (exists row', lk adj' a = Some row' /\ b ∈ row')
  /\ (forall v row' u, lk adj' v = Some row' -> u ∈ row' ->
        u = b \/ exists row, lk adj v = Some row /\ u ∈ row).
Proof.
  intros Ha (_ & row & Hrow & E)%adj_append_lk; [|done]. split; [|split].
  - intros v row0 Hv. rewrite E. case_decide; [|eauto]. simplify_eq.
    eexists. split; [done|]. intros u Hu. rewrite elem_of_app. by left.
  - rewrite E, decide_True by done. eexists. split; [done|].
    rewrite elem_of_app. right. by left.
  - intros v row' u. rewrite E. case_decide; [|eauto].
    intros [= <-] [Hu| ->%list_elem_of_singleton]%elem_of_app; [|by left].
    subst v. eauto.
Qed.

(** The adjacency lists [check_bipartite] builds. *)
Lemma check_adj_spec n (edges : list Edge) adj :
  (forall a b, (a, b) ∈ edges -> 0 <= a < n /\ 0 <= b < n) ->
  for_each edges (fun '(u, v) adj => adj1 ← adj_append adj u v; adj_append adj1 v u)
    (replicate (Z.to_nat n) []) = Ret adj ->
  (forall v row u, lk adj v = Some row -> u ∈ row -> 0 <= u < Z.of_nat (Z.to_nat n))
  /\ forall a b, (a, b) ∈ edges -> exists row, lk adj a = Some row /\ b ∈ row.
Proof.
  intros Hrange H.
  eapply (for_each_prefix
            (fun pre (adj : list (list Z)) =>
               (forall v row u, lk adj v = Some row -> u ∈ row ->
                  0 <= u < Z.of_nat (Z.to_nat n))
               /\ forall a b, (a, b) ∈ pre -> exists row, lk adj a = Some row /\ b ∈ row));
    [| |exact H].
  - intros pre [a b] post' s s' Hsplit [Hin Hpre].
    destruct (Hrange a b) as [Ha Hb]; [rewrite Hsplit, elem_of_app; right; by left|].
    intros (adj1 & (G1 & N1 & O1)%adj_append_grow & (G2 & _ & O2)%adj_append_grow)%bind_Ret;
      [|lia..].
    split.
    + intros v row u Hv Hu.
      destruct (O2 v row u Hv Hu) as [->|(row1 & Hv1 & Hu1)]; [lia|].
      destruct (O1 v row1 u Hv1 Hu1) as [->|(row0 & Hv0 & Hu0)]; [lia|].
      by eapply Hin.
    + intros a' b' [Hab|[= -> ->]%list_elem_of_singleton]%elem_of_app.
      * destruct (Hpre a' b' Hab) as (row & Hrow & Hb').
        destruct (G1 a' row Hrow) as (row1 & Hrow1 & Hsub1).
        destruct (G2 a' row1 Hrow1) as (row2 & Hrow2 & Hsub2). eauto.
      * destruct N1 as (row1 & Hrow1 & Hb1).
        destruct (G2 a row1 Hrow1) as (row2 & Hrow2 & Hsub2). eauto.
  - split; [|by intros a b ?%elem_of_nil].
    intros v row u ->%lk_replicate. by intros ?%elem_of_nil.
Qed.

(** What a successful [check_bipartite] guarantees: no edge joins two
    vertices of colour 0. *)
Lemma check_bipartite_spec fuel n (edges : list Edge) colors :
  (forall a b, (a, b) ∈ edges -> 0 <= a < n /\ 0 <= b < n) ->
  check_bipartite fuel n edges = Ret (true, colors) ->
  length colors = Z.to_nat n
  /\ forall a b, (a, b) ∈ edges -> lk colors a = Some 0 -> lk colors b <> Some 0.
Proof.
  intros Hrange. unfold check_bipartite. intros (adj & Hadj & H)%bind_Ret.
  destruct (check_adj_spec _ _ _ Hrange Hadj) as [Hin Hedges].
  apply (colour_all_spec (Z.to_nat n) adj Hin) in H as (Hlen & _ & _ & Hdone).
  - split; [done|]. intros a b Hab Ha.
    destruct (Hdone a 0 Ha) as [?%elem_of_nil|[?|Hc]]; [done..|].
    destruct (Hedges a b Hab) as (row & Hrow & Hb).
    destruct (Hc row b Hrow Hb) as (cv & Hcv & _ & ->). simplify_eq. done.
  - apply Forall_forall. intros v Hv%elem_of_seqZ. lia.
  - unfold py_repeat. split; [apply length_replicate|]. split; [|split].
    + intros v c ->%lk_replicate. by left.
    + constructor.
    + by intros v c ->%lk_replicate.
Qed.

Lemma left_of_elem colors u : u ∈ left_of colors <-> lk colors u = Some 0.
Proof.
  unfold left_of, lk. rewrite list_elem_of_omap. split.
  - intros ([i c] & (i' & c' & [= -> ->] & Hi)%elem_of_lookup_imap & Hf). simpl in Hf.
    destruct (Z.eqb_spec c' 0) as [->|]; [|done]. injection Hf as <-.
    rewrite decide_True by lia. by rewrite Nat2Z.id.
  - case_decide; [|done]. intros Hu. exists (Z.to_nat u, 0). split.
    + apply elem_of_lookup_imap. eauto.
    + simpl. f_equal. lia.
Qed.

Lemma left_of_snoc colors c :
  left_of (colors ++ [c])
  = left_of colors ++ (if c =? 0 then [Z.of_nat (length colors)] else []).
Proof.
  unfold left_of. rewrite imap_app, omap_app. f_equal. simpl.
  rewrite Nat.add_0_r. by destruct (c =? 0).
Qed.

Lemma left_of_nodup colors : NoDup (left_of colors).
Proof.
  induction colors as [|c colors IH] using rev_ind; [constructor|].
  rewrite left_of_snoc. apply NoDup_app. split; [done|]. split.
  - intros u Hu%left_of_elem%lk_Some_range. destruct (c =? 0); [|by intros ?%elem_of_nil].
    intros ->%list_elem_of_singleton. lia.
  - destruct (c =? 0); [apply NoDup_singleton|constructor].
Qed.

(** *** Termination *)

Section count.
Context {A : Type} (P Q : A -> Prop).
Context {decP : forall x, Decision (P x)} {decQ : forall x, Decision (Q x)}.

Lemma count_pointwise_le (l1 l2 : list A) :
  Forall2 (fun a b => P a -> Q b) l1 l2 ->
  (length (filter P l1) <= length (filter Q l2))%nat.
Proof.
  induction 1 as [|a b l1 l2 Hab _ IH]; [done|].
  rewrite !filter_cons. destruct (decide (P a)), (decide (Q b)); simpl; try lia.
  tauto.
Qed.

Lemma count_pointwise_lt (l1 l2 : list A) i a b :
  Forall2 (fun a b => P a -> Q b) l1 l2 ->
  l1 !! i = Some a -> l2 !! i = Some b -> ~ P a -> Q b ->
  (length (filter P l1) < length (filter Q l2))%nat.
Proof.
  intros H. revert i. induction H as [|a' b' l1 l2 Hab H IH]; intros i; [done|].
  rewrite !filter_cons. destruct i as [|i]; simpl.
  - intros [= ->] [= ->] Ha Hb. rewrite decide_False, decide_True by done. simpl.
    pose proof (count_pointwise_le _ _ H). lia.
  - intros H1 H2 Ha Hb. specialize (IH i H1 H2 Ha Hb).
    destruct (decide (P a')), (decide (Q b')); simpl; try lia. tauto.
Qed.
End count.

Lemma lk_of_nat {A} (l : list A) i : lk l (Z.of_nat i) = l !! i.
Proof. unfold lk. rewrite decide_True by lia. by rewrite Nat2Z.id. Qed.

(** Two arrays of the same length related at every vertex. *)
Lemma Forall2_lk {A B} (R : A -> B -> Prop) (l : list A) (k : list B) :
  length l = length k ->
  (forall v x y, lk l v = Some x -> lk k v = Some y -> R x y) ->
  Forall2 R l k.
Proof.
  intros Hlen H. apply Forall2_same_length_lookup_2; [done|].
  intros i x y Hx Hy. apply (H (Z.of_nat i)); by rewrite lk_of_nat.
Qed.

Lemma py_get_total {A} (l : list A) v :
  0 <= v < Z.of_nat (length l) -> exists x, py_get l v = Ret x /\ lk l v = Some x.
Proof.
  intros Hv. destruct (py_get_in_range l v Hv) as (x & Hx & ->).
  exists x. split; [done|]. unfold lk. by rewrite decide_True by lia.
Qed.

Lemma py_set_total {A} (l : list A) v x :
  0 <= v < Z.of_nat (length l) -> exists l', py_set l v x = Ret l'.
Proof. intros Hv. unfold py_set. rewrite norm_index_in_range by done. eauto. Qed.

Lemma adj_append_total (adj : list (list Z)) a b :
  0 <= a < Z.of_nat (length adj) ->
  exists adj', adj_append adj a b = Ret adj' /\ length adj' = length adj.
Proof.
  intros Ha. unfold adj_append.
  destruct (py_get_total adj a Ha) as (row & -> & _). simpl.
  destruct (py_set_total adj a (row ++ [b]) Ha) as (adj' & Hset).
  exists adj'. split; [done|]. by eapply py_set_length.
Qed.

Lemma uncolored_set colors v c colors' :
  lk colors v = Some (-1) -> c <> -1 -> 0 <= v ->
  py_set colors v c = Ret colors' ->
  (uncolored colors' < uncolored colors)%nat.
Proof.
  intros Hv Hc Hv0 Hset. apply py_set_lk in Hset as (Hlen & _ & E); [|done].
  unfold uncolored.
  apply (count_pointwise_lt _ _ _ _ (Z.to_nat v) c (-1)); [| | |done..].
  - apply Forall2_lk; [done|]. intros w x y. rewrite E.
    case_decide; [congruence|]. congruence.
  - rewrite <- lk_of_nat, Z2Nat.id, E, decide_True by done. done.
  - rewrite <- lk_of_nat, Z2Nat.id by done. done.
Qed.

Section colouring_total.
Variables (N : nat) (adj : list (list Z)).
Hypothesis adj_length : length adj = N.
Hypothesis adj_range : forall v row u,
  lk adj v = Some row -> u ∈ row -> 0 <= u < Z.of_nat N.

Lemma colour_neighbours_total v cv :
  0 <= v -> (cv = 0 \/ cv = 1) ->
  forall us colors q,
    length colors = N ->
    (forall u, u ∈ us -> 0 <= u < Z.of_nat N) ->
    lk colors v = Some cv ->
    exists r, colour_neighbours v us colors q = Ret r
      /\ forall colors' q', r = Continue (colors', q') ->
           (uncolored colors' + length q' <= uncolored colors + length q)%nat.
Proof.
  intros Hv Hcv. induction us as [|u us IH]; intros colors q Hlen Hus Hcol; simpl.
  - eexists. split; [done|]. by intros ?? [= <- <-].
  - assert (0 <= u < Z.of_nat N) as Hu by (apply Hus; by left).
    assert (forall u', u' ∈ us -> 0 <= u' < Z.of_nat N) as Hus'.
    { intros u' Hu'. apply Hus. by right. }
    destruct (py_get_total colors u) as (cu & -> & Hcu); [lia|]. simpl.
    destruct (py_get_total colors v) as (cv' & -> & Hcv');
      [apply lk_Some_range in Hcol; lia|]. simpl. simplify_eq.
    destruct (Z.eqb_spec cu (-1)) as [->|Hne].
    + destruct (py_set_total colors u (1 - cv)) as (colors1 & Hset); [lia|].
      rewrite Hset. simpl.
      assert (uncolored colors1 < uncolored colors)%nat as Hlt
        by (apply (uncolored_set colors u (1 - cv)); [done|lia|lia|done]).
      apply py_set_lk in Hset as (Hlen1 & _ & E); [|lia].
      destruct (IH colors1 (q ++ [u])) as (r & -> & Hr); [lia|done| |].
      { rewrite E. case_decide; [|done]. simplify_eq. lia. }
      eexists. split; [done|]. intros colors' q' Heq.
      specialize (Hr colors' q' Heq). rewrite length_app in Hr. simpl in Hr. lia.
    + destruct (Z.eqb_spec cu cv) as [->|Hdiff].
      * eexists. split; [done|]. by intros.
      * by apply IH.
Qed.

Lemma colour_component_total fuel :
  forall colors q,
    colouring N adj colors q None ->
    (uncolored colors + length q < fuel)%nat ->
    exists r, colour_component fuel adj colors q = Ret r.
Proof.
  induction fuel as [|fuel IH]; intros colors q Hinv Hfuel; [lia|]. simpl.
  destruct q as [|v q]; [eauto|].
  pose proof Hinv as (Hlen & Hval & Hq & Hdone).
  apply Forall_cons in Hq as [[Hv (cv & Hcv & Hne)] Hq].
  pose proof (lk_Some_range _ _ _ Hcv) as Hrange.
  destruct (py_get_total adj v) as (us & Hus & Hus'); [lia|]. rewrite Hus. simpl.
  assert (cv = 0 \/ cv = 1) as Hcv01 by (destruct (Hval v cv Hcv); lia).
  destruct (colour_neighbours_total v cv Hv Hcv01 us colors q Hlen) as (r & Hr & Hm);
    [intros u Hu; by eapply adj_range|done|].
  rewrite Hr. simpl. destruct r as [[colors1 q1]|]; [|eauto].
  specialize (Hm colors1 q1 eq_refl). simpl in Hfuel.
  apply IH; [|lia].
  eapply (colour_neighbours_spec N adj adj_range v cv us Hus' Hv Hcv01 us []);
    [done| |done| |done].
  - split; [done|]. split; [done|]. split; [done|].
    intros w c Hw Hc. destruct (Hdone w c Hw Hc) as [[->|?]%elem_of_cons|[?|?]];
      [auto|auto|done|auto].
  - by intros u ?%elem_of_nil.
Qed.

Lemma uncolored_le colors : (uncolored colors <= length colors)%nat.
Proof. apply length_filter. Qed.

Lemma colour_all_total fuel starts :
  (N < fuel)%nat ->
  forall colors,
    Forall (fun v => 0 <= v < Z.of_nat N) starts ->
    colouring N adj colors [] None ->
    exists r, colour_all fuel adj starts colors = Ret r.
Proof.
  intros Hfuel. induction starts as [|start starts IH]; intros colors Hstarts Hinv; simpl;
    [eauto|].
  apply Forall_cons in Hstarts as [Hstart Hstarts].
  pose proof Hinv as (Hlen & Hval & _ & Hdone).
  destruct (py_get_total colors start) as (c & -> & Hc); [lia|]. simpl.
  destruct (Z.eqb_spec c (-1)) as [->|Hne]; simpl; [|by apply IH].
  destruct (py_set_total colors start 0) as (colors1 & Hset); [lia|].
  rewrite Hset. simpl.
  assert (uncolored colors1 < uncolored colors)%nat as Hlt
    by (apply (uncolored_set colors start 0); [done|lia|lia|done]).
  pose proof (uncolored_le colors) as Hle.
  apply py_set_lk in Hset as (Hlen1 & _ & E); [|lia].
  assert (colouring N adj colors1 [start] None) as Hinv1.
  { assert (extends colors colors1) as Hext.
    { split; [done|]. intros w c Hw Hc'. rewrite E. case_decide; [congruence|done]. }
    split; [lia|]. split; [|split].
    - intros w c. rewrite E. case_decide; [intros [= <-]; lia|apply Hval].
    - constructor; [|done]. split; [lia|]. exists 0. by rewrite E, decide_True.
    - intros w c. rewrite E. case_decide as Hw; [subst w; intros _ _; left; by left|].
      intros Hw' Hc'. destruct (Hdone w c Hw' Hc') as [?%elem_of_nil|[?|?]]; [done..|].
      right; right. by eapply checked_extends. }
  destruct (colour_component_total fuel colors1 [start] Hinv1) as (r & Hr);
    [simpl; lia|].
  rewrite Hr. simpl. destruct r as [colors2|]; [|eauto].
  apply IH; [done|].
  by apply (colour_component_spec N adj adj_range fuel colors1 [start] colors2).
Qed.

End colouring_total.

Lemma check_bipartite_total fuel n (edges : list Edge) :
  (forall a b, (a, b) ∈ edges -> 0 <= a < n /\ 0 <= b < n) ->
  (Z.to_nat n < fuel)%nat ->
  exists b colors, check_bipartite fuel n edges = Ret (b, colors).
Proof.
  intros Hrange Hfuel. unfold check_bipartite.
  match goal with |- context [for_each edges ?f ?s0] =>
    destruct (for_each_total (fun adj : list (list Z) => length adj = Z.to_nat n) f edges)
      with (s := s0) as (adj & Hadj & Hlen)
  end.
  - intros [a b] s Hab Hs. destruct (Hrange a b Hab) as [Ha Hb].
    destruct (adj_append_total s a b) as (s1 & -> & Hs1); [lia|]. simpl.
    destruct (adj_append_total s1 b a) as (s2 & -> & Hs2); [lia|].
    exists s2. split; [done|]. lia.
  - apply length_replicate.
  - rewrite Hadj. simpl.
    destruct (check_adj_spec _ _ _ Hrange Hadj) as [Hin _].
    destruct (colour_all_total (Z.to_nat n) adj Hlen Hin fuel (py_range 0 n) Hfuel
                (py_repeat (-1) n)) as ([b colors] & ->); [| |eauto].
    + apply Forall_forall. intros v Hv%elem_of_seqZ. lia.
    + unfold py_repeat. split; [apply length_replicate|]. split; [|split].
      * intros v c ->%lk_replicate. by left.
      * constructor.
      * by intros v c ->%lk_replicate.
Qed.

Lemma set_dist_total st v d :
  0 <= v < Z.of_nat (length (dist st)) -> exists st', set_dist st v d = Ret st'.
Proof.
  intros Hv. unfold set_dist. destruct (py_set_total (dist st) v d Hv) as (l & ->).
  simpl. eauto.
Qed.

Lemma inf_count_set dist v k dist' :
  lk dist v = Some PInf -> 0 <= v -> py_set dist v (Fin k) = Ret dist' ->
  (inf_count dist' < inf_count dist)%nat.
Proof.
  intros Hv Hv0 Hset. apply py_set_lk in Hset as (Hlen & _ & E); [|done].
  unfold inf_count.
  apply (count_pointwise_lt _ _ _ _ (Z.to_nat v) (Fin k) PInf); [| | |done..].
  - apply Forall2_lk; [done|]. intros w x y. rewrite E.
    case_decide; congruence.
  - rewrite <- lk_of_nat, Z2Nat.id, E, decide_True by done. done.
  - rewrite <- lk_of_nat, Z2Nat.id by done. done.
Qed.

Section bfs_total.
Variables (N : nat) (forward_adj : list (list Z)) (left_partition : list Z).
Hypothesis adj_length : length forward_adj = N.
Hypothesis adj_right : forall v us u,
  lk forward_adj v = Some us -> u ∈ us ->
  0 <= u < Z.of_nat N /\ u ∉ left_partition.
Hypothesis left_range : forall u, u ∈ left_partition -> 0 <= u < Z.of_nat N.
Hypothesis left_nodup : NoDup left_partition.

Abbreviation good := (good N left_partition).

Lemma bfs_init_total st :
  good st -> layers_ok left_partition st ->
  exists s dq,
    for_each left_partition bfs_init (st, []) = Ret (s, dq)
    /\ same_pairs st s
    /\ (forall x, x ∈ left_partition -> lk (pair_v st) x = Some (-1) ->
          lk (dist s) x = Some (Fin 0))
    /\ (forall x k, lk (dist s) x = Some (Fin k) ->
          k = 0 /\ x ∈ left_partition /\ lk (pair_v st) x = Some (-1))
    /\ Forall (fun v => exists k, lk (dist s) v = Some (Fin k)) dq
    /\ (length dq <= length left_partition)%nat.
Proof.
  intros (Lv & Lu & Ld & Mv & Mu) Hlay.
  destruct (for_each_prefix_total
    (fun pre (sd : hk * list Z) =>
       same_pairs st sd.1
       /\ (forall x, x ∈ pre -> lk (pair_v st) x = Some (-1) ->
             lk (dist sd.1) x = Some (Fin 0))
       /\ (forall x k, lk (dist sd.1) x = Some (Fin k) ->
             (k = 0 /\ x ∈ pre /\ lk (pair_v st) x = Some (-1))
             \/ ((x ∉ pre) /\ lk (dist st) x = Some (Fin k)))
       /\ Forall (fun v => v ∈ pre /\ lk (pair_v st) v = Some (-1)) sd.2
       /\ (length sd.2 <= length pre)%nat)
    bfs_init left_partition) with (s := (st, @nil Z))
    as ([s dq] & Hrun & Hs & H0 & Hfin & Hdq & Hlen).
  - intros pre x post' [s dq] Hsplit ((Ev & Eu & Ld') & H0 & Hfin & Hdq & Hlen).
    simpl in *.
    assert (x ∈ left_partition) as Hx by (rewrite Hsplit, elem_of_app; right; by left).
    assert (x ∉ pre) as Hxpre.
    { pose proof left_nodup as Hnd. rewrite Hsplit in Hnd.
      apply NoDup_app in Hnd as (_ & Hnd & _). intros Hin. apply (Hnd x Hin). by left. }
    destruct (left_range x Hx) as [Hx0 HxN].
    destruct (py_get_total (pair_v s) x) as (pv & -> & Hpv); [rewrite Ev; lia|]. simpl.
    rewrite Ev in Hpv.
    destruct (Z.eqb_spec pv (-1)) as [->|Hne]; simpl.
    + destruct (set_dist_total s x (Fin 0)) as (s' & Hset); [lia|]. rewrite Hset. simpl.
      apply set_dist_spec in Hset as (Ev' & Eu' & Ld'' & Ed); [|done].
      eexists. split; [done|]. simpl.
      split; [split; [congruence|split; [congruence|lia]]|]. split; [|split; [|split]].
      * intros w [Hw| ->%list_elem_of_singleton]%elem_of_app Hfree; rewrite Ed.
        -- case_decide; [done|auto].
        -- by rewrite decide_True.
      * intros w k. rewrite Ed. case_decide as Hw.
        -- intros [= <-]. left. subst w. rewrite elem_of_app.
           split; [done|]. split; [right; by left|done].
        -- intros Hk. destruct (Hfin w k Hk) as [(? & ? & ?)|[? ?]].
           ++ left. rewrite elem_of_app. auto.
           ++ right. split; [|done]. rewrite elem_of_app.
              intros [?| ->%list_elem_of_singleton]; done.
      * apply Forall_app. split.
        -- eapply Forall_impl; [done|]. simpl. intros ? [? ?]. rewrite elem_of_app. auto.
        -- constructor; [|done]. rewrite elem_of_app. split; [right; by left|done].
      * rewrite !length_app. simpl. lia.
    + destruct (set_dist_total s x PInf) as (s' & Hset); [lia|]. rewrite Hset. simpl.
      apply set_dist_spec in Hset as (Ev' & Eu' & Ld'' & Ed); [|done].
      eexists. split; [done|]. simpl.
      split; [split; [congruence|split; [congruence|lia]]|]. split; [|split; [|split]].
      * intros w [Hw| ->%list_elem_of_singleton]%elem_of_app Hfree; rewrite Ed.
        -- case_decide; [congruence|auto].
        -- congruence.
      * intros w k. rewrite Ed. case_decide as Hw; [done|].
        intros Hk. destruct (Hfin w k Hk) as [(? & ? & ?)|[? ?]].
        -- left. rewrite elem_of_app. auto.
        -- right. split; [|done]. rewrite elem_of_app.
           intros [?| ->%list_elem_of_singleton]; done.
      * eapply Forall_impl; [done|]. simpl. intros ? [? ?]. rewrite elem_of_app. auto.
      * rewrite !length_app. simpl. lia.
  - simpl. split; [done|]. split; [by intros x ?%elem_of_nil|].
    split; [|split; [constructor|simpl; lia]].
    intros x k Hk. right. split; [by intros ?%elem_of_nil|done].
  - simpl in *. exists s, dq. split; [done|]. split; [done|]. split; [done|].
    assert (forall x k, lk (dist s) x = Some (Fin k) ->
              k = 0 /\ x ∈ left_partition /\ lk (pair_v st) x = Some (-1)) as Hfin'.
    { intros x k Hk. destruct (Hfin x k Hk) as [?|[Hx Hk']]; [done|].
      destruct (Hlay x k Hk'). done. }
    split; [done|]. split; [|done].
    rewrite Forall_forall in Hdq. apply Forall_forall. intros v Hv.
    destruct (Hdq v Hv) as [? ?]. exists 0. by apply H0.
Qed.

Abbreviation bfs_inv := (bfs_inv forward_adj left_partition).
Abbreviation layered := (layered forward_adj left_partition).

Lemma bfs_visit_total st v k us u s dq found :
  good st -> bfs_inv st s dq found ->
  lk (dist s) v = Some (Fin k) -> lk forward_adj v = Some us -> u ∈ us ->
  exists s' dq' found',
    bfs_visit v u (s, dq, found) = Ret (s', dq', found')
    /\ bfs_inv st s' dq' found'
    /\ lk (dist s') v = Some (Fin k)
    /\ (length dq' + inf_count (dist s') <= length dq + inf_count (dist s))%nat.
Proof.
  intros (Lv & Lu & Ld & Mv & Mu) ((Ev & Eu & Ld') & (Hlay & L0 & L1 & L2 & L3) & Hdq)
    Hv Hus Hu.
  destruct (adj_right v us u Hus Hu) as [Hu0 _].
  destruct (Hlay v k Hv) as [_ Hk].
  unfold bfs_visit.
  destruct (py_get_total (pair_u s) u) as (pu & -> & Hpu); [rewrite Eu; lia|]. simpl.
  destruct (Z.eqb_spec pu (-1)) as [->|Hne].
  { exists s, dq, true. split; [done|]. split; [|split; [done|lia]].
    split; [done|]. split; [|done].
    split; [done|]. split; [done|]. split; [done|]. split; [done|].
    intros _. exists v, k, us, u. done. }
  rewrite Eu in Hpu. destruct (Mu u pu Hpu Hne) as [Hpur Hpul].
  destruct (py_get_total (dist s) pu) as (dpu & -> & Hdpu); [lia|]. simpl.
  destruct dpu as [kpu|]; simpl.
  { exists s, dq, found. split; [done|]. split; [|split; [done|lia]].
    split; [done|]. split; [|done]. done. }
  destruct (py_get_total (dist s) v) as (dv & -> & Hdv);
    [apply lk_Some_range in Hv; lia|]. simpl. simplify_eq. simpl.
  destruct (set_dist_total s pu (Fin (k + 1))) as (s' & Hset); [lia|].
  rewrite Hset. simpl.
  unfold set_dist in Hset. apply bind_Ret in Hset as (dist' & Hset & [= <-]).
  pose proof (inf_count_set _ _ _ _ Hdpu ltac:(lia) Hset) as Hcount.
  apply py_set_lk in Hset as (Ld'' & _ & Ed); [|lia].
  assert (forall x j, lk (dist s) x = Some (Fin j) -> lk dist' x = Some (Fin j)) as Hkeep.
  { intros x j Hx. rewrite Ed. case_decide; [congruence|done]. }
  eexists _, _, _. split; [done|]. simpl. split; [|split].
  - split; [split; [done|split; [done|]]; simpl; lia|]. split.
    + split; [|split; [|split; [|split]]]; simpl.
      * intros x j. rewrite Ed. case_decide as Hx; [|apply Hlay].
        intros [= <-]. subst x. split; [done|lia].
      * intros x Hx Hfree. apply Hkeep. by apply L0.
      * intros x. rewrite Ed. case_decide as Hx; [intros [= ?]; lia|apply L1].
      * intros x j Hj. rewrite Ed. case_decide as Hx.
        -- intros [= ?]. assert (j = k) as -> by lia. subst x.
           exists v, us, u. rewrite Eu. auto.
        -- intros Hx'. destruct (L2 x j Hj Hx') as (y & us' & u' & Hy & ? & ? & ?).
           exists y, us', u'. auto.
      * intros Hf. destruct (L3 Hf) as (x & j & us' & u' & Hx & ? & ? & ?).
        exists x, j, us', u'. auto.
    + simpl. apply Forall_app. split.
      * eapply Forall_impl; [done|]. simpl. intros w (j & Hw). eauto.
      * constructor; [|done]. exists (k + 1). by rewrite Ed, decide_True.
  - simpl. by apply Hkeep.
  - simpl. rewrite length_app. simpl. lia.
Qed.

Lemma bfs_loop_total st fuel :
  good st ->
  forall s dq found,
    bfs_inv st s dq found ->
    (length dq + inf_count (dist s) < fuel)%nat ->
    exists s' found',
      bfs_loop fuel forward_adj (s, dq, found) = Ret (s', found')
      /\ same_pairs st s' /\ layered s' found'.
Proof.
  intros Hst. induction fuel as [|fuel IH]; intros s dq found Hinv Hfuel; [lia|].
  simpl. destruct dq as [|v dq].
  { destruct Hinv as (? & ? & _). eauto. }
  pose proof Hinv as (Hs & Hl & Hdq).
  apply Forall_cons in Hdq as [(k & Hv) Hdq].
  pose proof (lk_Some_range _ _ _ Hv) as Hrange.
  destruct Hst as (Lv & Lu & Ld & Mv & Mu). destruct Hs as (Ev & Eu & Ld').
  destruct (py_get_total forward_adj v) as (us & -> & Hus); [lia|]. simpl.
  destruct (for_each_total
    (fun t : hk * list Z * bool =>
       bfs_inv st t.1.1 t.1.2 t.2 /\ lk (dist t.1.1) v = Some (Fin k)
       /\ (length t.1.2 + inf_count (dist t.1.1) <= length dq + inf_count (dist s))%nat)
    (bfs_visit v) us) with (s := (s, dq, found)) as ([[s1 dq1] found1] & -> & Hinv1 & _ & Hm).
  - intros u [[s2 dq2] f2] Hu (Hinv2 & Hv2 & Hm2). simpl in *.
    destruct (bfs_visit_total st v k us u s2 dq2 f2) as (s3 & dq3 & f3 & Hrun & ? & ? & ?);
      [done..|].
    exists (s3, dq3, f3). split; [done|]. simpl. split; [done|]. split; [done|lia].
  - simpl. split; [|split; [done|lia]]. split; [done|]. split; [done|]. done.
  - simpl in *. apply IH; [done|lia].
Qed.

Lemma inf_count_le dist : (inf_count dist <= length dist)%nat.
Proof. apply length_filter. Qed.

Lemma bfs_total fuel st :
  good st -> layers_ok left_partition st ->
  (length left_partition + N < fuel)%nat ->
  exists st' found,
    bfs fuel forward_adj left_partition st = Ret (st', found)
    /\ same_pairs st st' /\ layered st' found.
Proof.
  intros Hst Hlay Hfuel. unfold bfs.
  destruct (bfs_init_total st Hst Hlay) as (s & dq & -> & Hs & H0 & Hfin & Hdq & Hlen).
  simpl. pose proof Hs as (Ev & Eu & Ld).
  apply (bfs_loop_total st fuel Hst).
  - split; [done|]. split; [|done].
    split; [|split; [|split; [|split]]].
    + intros x k Hk. destruct (Hfin x k Hk) as (-> & ? & ?). done.
    + intros x Hx. rewrite Ev. by apply H0.
    + intros x Hx. rewrite Ev. by destruct (Hfin x 0 Hx) as (_ & _ & ?).
    + intros x k Hk Hx. destruct (Hfin x _ Hx) as (? & _). lia.
    + done.
  - pose proof (inf_count_le (dist s)). destruct Hst as (_ & _ & Ld0 & _). lia.
Qed.

End bfs_total.

Lemma flip_total st v u :
  0 <= v < Z.of_nat (length (pair_v st)) -> 0 <= u < Z.of_nat (length (pair_u st)) ->
  exists st', flip st v u = Ret st'.
Proof.
  intros Hv Hu. unfold flip.
  destruct (py_set_total (pair_v st) v u Hv) as (pv & ->). simpl.
  destruct (py_set_total (pair_u st) u v Hu) as (pu & ->). simpl. eauto.
Qed.

(** One layer down there are fewer deeper vertices. *)
Lemma deeper_count_step d st s pu :
  length (dist s) = length (dist st) ->
  deeper d false st s -> lk (dist s) pu = Some (Fin (d + 1)) ->
  (deeper_count (d + 1) (dist s) < deeper_count d (dist st))%nat.
Proof.
  intros Hlen Hin Hpu. unfold deeper_count.
  pose proof (lk_Some_range _ _ _ Hpu) as Hrange.
  apply (count_pointwise_lt _ _ _ _ (Z.to_nat pu) (Fin (d + 1)) (Fin (d + 1))).
  - apply Forall2_lk; [done|]. intros x a b Ha Hb. destruct a as [k|]; [|done].
    rewrite (deeper_finite _ _ _ _ _ _ Hin Ha) in Hb. simplify_eq. simpl. lia.
  - rewrite <- lk_of_nat, Z2Nat.id by lia. done.
  - rewrite <- lk_of_nat, Z2Nat.id by lia. eauto using deeper_finite.
  - simpl. lia.
  - simpl. lia.
Qed.

Section dfs_total.
Variables (N : nat) (forward_adj : list (list Z)) (left_partition : list Z).
Hypothesis adj_length : length forward_adj = N.
Hypothesis adj_right : forall v us u,
  lk forward_adj v = Some us -> u ∈ us ->
  0 <= u < Z.of_nat N /\ u ∉ left_partition.
Hypothesis left_range : forall u, u ∈ left_partition -> 0 <= u < Z.of_nat N.

Abbreviation good := (good N left_partition).
Abbreviation post := (post N left_partition).

Lemma dfs_edges_total (rec : Z -> hk -> outcome (bool * hk)) fuel d v st :
  (forall pu s,
      good s -> pu ∈ left_partition -> lk (dist s) pu = Some (Fin (d + 1)) ->
      (deeper_count (d + 1) (dist s) < fuel)%nat ->
      exists ok s1, rec pu s = Ret (ok, s1)) ->
  (forall pu s ok s1,
      good s -> 0 <= pu -> pu ∈ left_partition ->
      lk (dist s) pu = Some (Fin (d + 1)) ->
      rec pu s = Ret (ok, s1) -> post (d + 1) pu s s1 ok) ->
  (deeper_count d (dist st) <= fuel)%nat ->
  v ∈ left_partition -> lk (dist st) v = Some (Fin d) -> good st ->
  forall us s,
    (forall u, u ∈ us -> 0 <= u < Z.of_nat N /\ u ∉ left_partition) ->
    good s -> deeper d false st s ->
    exists ok st', dfs_edges rec v us s = Ret (ok, st').
Proof.
  intros Htotal Hpost Hfuel Hleft Hdv Hst us.
  destruct (left_range v Hleft) as [Hv0 HvN].
  induction us as [|u us IH]; intros s Hus Hs Hin; simpl.
  - destruct (set_dist_total s v PInf) as (s' & ->); [|simpl; eauto].
    destruct Hs as (_ & _ & -> & _). lia.
  - destruct (Hus u) as [Hu Hright]; [by left|].
    assert (forall u', u' ∈ us -> 0 <= u' < Z.of_nat N /\ u' ∉ left_partition) as Hus'.
    { intros u' Hu'. apply Hus. by right. }
    pose proof Hs as (Lv & Lu & Ld & Mv & Mu).
    destruct (py_get_total (pair_u s) u) as (pu & -> & Hpu); [lia|]. simpl.
    destruct (Z.eqb_spec pu (-1)) as [->|Hpu1].
    { destruct (flip_total s v u) as (s' & ->); [lia..|]. simpl. eauto. }
    destruct (Mu u pu Hpu Hpu1) as [[Hpu0 HpuN] Hpul].
    destruct (py_get_total (dist s) pu) as (dpu & -> & Hdpu); [lia|]. simpl.
    destruct (py_get_total (dist s) v) as (dv & -> & Hdv'); [lia|]. simpl.
    rewrite (deeper_layer _ _ _ _ _ Hin Hdv) in Hdv'. simplify_eq.
    destruct (layer_eqb dpu (layer_succ (Fin d))) eqn:El; [|by apply IH].
    apply layer_eqb_succ in El as ->.
    destruct (Htotal pu s Hs Hpul Hdpu) as (ok1 & s1 & Hcall).
    { destruct Hst as (_ & _ & Ld0 & _).
      pose proof (deeper_count_step d st s pu ltac:(lia) Hin Hdpu). lia. }
    rewrite Hcall. simpl.
    pose proof (Hpost _ _ _ _ Hs Hpu0 Hpul Hdpu Hcall) as Hp.
    pose proof (deeper_trans _ _ _ _ _ Hin (post_deeper _ _ _ _ _ _ _ Hdpu Hp)) as Hin1.
    destruct Hp as (Hs1 & _).
    destruct ok1; [|by apply IH].
    destruct Hs1 as (Lv1 & Lu1 & _).
    destruct (flip_total s1 v u) as (s' & ->); [lia..|]. simpl. eauto.
Qed.

Lemma dfs_total fuel :
  forall d v st,
    good st -> v ∈ left_partition -> lk (dist st) v = Some (Fin d) ->
    (deeper_count d (dist st) < fuel)%nat ->
    exists ok st', dfs fuel forward_adj v st = Ret (ok, st').
Proof.
  induction fuel as [|fuel IH]; intros d v st Hst Hleft Hd Hfuel; [lia|]. simpl.
  destruct (left_range v Hleft) as [Hv0 HvN].
  destruct (py_get_total forward_adj v) as (us & -> & Hus); [lia|]. simpl.
  eapply (dfs_edges_total (dfs fuel forward_adj) fuel d v st);
    eauto using deeper_refl.
  - intros pu s ok s1 Hs Hpu0 Hpul Hdpu Hcall.
    by eapply (dfs_post N forward_adj left_partition adj_right fuel).
  - lia.
Qed.

End dfs_total.

Section dfs_fail.
Variables (N : nat) (forward_adj : list (list Z)) (left_partition : list Z).
Variables (D : list (ext Z)) (Pu : list Z).
Hypothesis adj_right : forall v us u,
  lk forward_adj v = Some us -> u ∈ us ->
  0 <= u < Z.of_nat N /\ u ∉ left_partition.
Hypothesis left_range : forall u, u ∈ left_partition -> 0 <= u < Z.of_nat N.

Abbreviation good := (good N left_partition).
Abbreviation post := (post N left_partition).
Abbreviation exhausted := (exhausted forward_adj D Pu).
Abbreviation fail_post := (fail_post forward_adj D Pu).

Lemma below_inf (dist dist' : list (ext Z)) x :
  (forall y, lk dist' y <> lk dist y -> lk dist' y = Some PInf) ->
  lk dist x = Some PInf -> length dist' = length dist -> lk dist' x = Some PInf.
Proof.
  intros Hd Hx Hlen.
  destruct (decide (lk dist' x = lk dist x)) as [->|Hne]; [done|]. by apply Hd.
Qed.

Lemma dfs_edges_fail (rec : Z -> hk -> outcome (bool * hk)) d v st row :
  (forall pu s ok s1,
      good s -> 0 <= pu -> pu ∈ left_partition ->
      lk (dist s) pu = Some (Fin (d + 1)) ->
      rec pu s = Ret (ok, s1) -> post (d + 1) pu s s1 ok) ->
  (forall pu s s1,
      good s -> pu ∈ left_partition ->
      lk (dist s) pu = Some (Fin (d + 1)) -> lk D pu = Some (Fin (d + 1)) ->
      below D (dist s) -> (forall u, lk (pair_u s) u = lk Pu u) ->
      exhausted (dist s) ->
      rec pu s = Ret (false, s1) -> fail_post pu s s1) ->
  v ∈ left_partition -> lk (dist st) v = Some (Fin d) -> lk D v = Some (Fin d) ->
  lk forward_adj v = Some row ->
  forall us seen s s',
    row = seen ++ us ->
    good s -> deeper d false st s ->
    below D (dist s) -> (forall u, lk (pair_u s) u = lk Pu u) ->
    exhausted (dist s) ->
    (forall u, u ∈ seen ->
       exists pu, lk Pu u = Some pu /\ pu <> -1
                  /\ (lk D pu = Some (Fin (d + 1)) -> lk (dist s) pu = Some PInf)) ->
    dfs_edges rec v us s = Ret (false, s') ->
    fail_post v s s'.
Proof.
  intros Hpost Hfail Hleft Hdv HDv Hrow.
  destruct (left_range v Hleft) as [Hv0 HvN].
  induction us as [|u us IH]; intros seen s s' Hsplit Hs Hin Hbelow HPu Hex Hseen; simpl.
  - intros (s1 & Hset & [= <-])%bind_Ret.
    apply set_dist_spec in Hset as (Ev & Eu & Ld & Ed); [|done].
    rewrite app_nil_r in Hsplit. subst seen.
    assert (forall y, lk (dist s) y = Some PInf -> lk (dist s1) y = Some PInf) as Hkeep.
    { intros y Hy. rewrite Ed. by case_decide. }
    split; [|split; [|split]].
    + intros x dx us u HDx Hx Hus Hu.
      rewrite Ed in Hx. case_decide as Hxv.
      * subst x. simplify_eq. destruct (Hseen u Hu) as (pu & ? & ? & Hpu).
        exists pu. auto.
      * destruct (Hex x dx us u HDx Hx Hus Hu) as (pu & ? & ? & Hpu).
        exists pu. auto.
    + by rewrite Ed, decide_True.
    + destruct Hbelow as [Hlen Hb]. split; [lia|].
      intros x. rewrite Ed. case_decide; [done|apply Hb].
    + intros u. rewrite Eu. apply HPu.
  - assert (u ∈ row) as Hurow by (rewrite Hsplit, elem_of_app; right; by left).
    destruct (adj_right v row u Hrow Hurow) as [Hu Hright].
    intros (pu & Hpu & H)%bind_Ret.
    apply py_get_lk in Hpu as [Hpu _]; [|lia].
    pose proof Hs as (_ & _ & _ & Mv & Mu).
    destruct (Z.eqb_spec pu (-1)) as [->|Hpu1].
    { by apply bind_Ret in H as (? & _ & [= ?]). }
    destruct (Mu u pu Hpu Hpu1) as [[Hpu0 HpuN] Hpul].
    apply bind_Ret in H as (dpu & Hdpu & H).
    apply bind_Ret in H as (dv & Hdv' & H).
    apply py_get_lk in Hdpu as [Hdpu _]; [|done].
    apply py_get_lk in Hdv' as [Hdv' _]; [|done].
    rewrite (deeper_layer _ _ _ _ _ Hin Hdv) in Hdv'. simplify_eq.
    destruct (layer_eqb dpu (layer_succ (Fin d))) eqn:El.
    + apply layer_eqb_succ in El as ->.
      apply bind_Ret in H as ([ok1 s1] & Hcall & H).
      destruct ok1; [by apply bind_Ret in H as (? & _ & [= ?])|].
      assert (lk D pu = Some (Fin (d + 1))) as HDpu.
      { destruct (decide (lk (dist s) pu = lk D pu)) as [<-|Hne]; [done|].
        destruct Hbelow as [_ Hb]. rewrite (Hb pu Hne) in Hdpu. done. }
      pose proof (Hpost _ _ _ _ Hs Hpu0 Hpul Hdpu Hcall) as Hp.
      pose proof (deeper_trans _ _ _ _ _ Hin (post_deeper _ _ _ _ _ _ _ Hdpu Hp)) as Hin1.
      destruct (Hfail pu s s1 Hs Hpul Hdpu HDpu Hbelow HPu Hex Hcall)
        as (Hex1 & Hpu1' & Hbelow1 & HPu1).
      destruct Hp as (Hs1 & _ & _ & Hd1 & _).
      apply (IH (seen ++ [u]) s1 s'); [by rewrite <- app_assoc|done..| |done].
      intros u' [Hu'| ->%list_elem_of_singleton]%elem_of_app.
      * destruct (Hseen u' Hu') as (pu' & ? & ? & Hpu').
        exists pu'. split; [done|]. split; [done|]. intros HD'.
        destruct (decide (lk (dist s1) pu' = lk (dist s) pu')) as [->|Hne]; [auto|].
        by destruct (Hd1 pu' Hne).
      * exists pu. rewrite <- HPu. auto.
    + apply (IH (seen ++ [u]) s s'); [by rewrite <- app_assoc|done..| |done].
      intros u' [Hu'| ->%list_elem_of_singleton]%elem_of_app; [auto|].
      exists pu. rewrite <- HPu. split; [done|]. split; [done|]. intros HD'.
      destruct (decide (lk (dist s) pu = lk D pu)) as [E|Hne].
      * rewrite E, HD' in Hdpu. simplify_eq. simpl in El.
        rewrite Z.eqb_refl in El. done.
      * destruct Hbelow as [_ Hb]. by apply Hb.
Qed.

Lemma dfs_fail fuel :
  forall d v s s',
    good s -> v ∈ left_partition ->
    lk (dist s) v = Some (Fin d) -> lk D v = Some (Fin d) ->
    below D (dist s) -> (forall u, lk (pair_u s) u = lk Pu u) ->
    exhausted (dist s) ->
    dfs fuel forward_adj v s = Ret (false, s') -> fail_post v s s'.
Proof.
  induction fuel as [|fuel IH]; intros d v s s' Hs Hleft Hd HD Hbelow HPu Hex; simpl;
    [done|].
  destruct (left_range v Hleft) as [Hv0 HvN].
  intros (us & Hus & H)%bind_Ret.
  apply py_get_lk in Hus as [Hus _]; [|done].
  apply (dfs_edges_fail (dfs fuel forward_adj) d v s us) with (us := us) (seen := []);
    try done.
  - intros pu s0 ok s1 Hs0 Hpu0 Hpul Hdpu Hcall.
    by eapply (dfs_post N forward_adj left_partition adj_right fuel).
  - intros pu s0 s1 Hs0 Hpul Hdpu HDpu Hb0 HPu0 Hex0 Hcall. by eapply IH.
  - by intros u ?%elem_of_nil.
Qed.

End dfs_fail.

Lemma post_free_le N left_partition d v s s' ok :
  good N left_partition s -> post N left_partition d v s s' ok ->
  (free_count (pair_v s') <= free_count (pair_v s))%nat.
Proof.
  intros (Lv & _) ((Lv' & _) & Hv & _). unfold free_count.
  apply count_pointwise_le. apply Forall2_lk; [lia|].
  intros x a b Ha Hb ->.
  destruct (decide (lk (pair_v s') x = lk (pair_v s) x)) as [E|Hne]; [congruence|].
  destruct (Hv x Hne) as (_ & (u' & ? & ?) & _). congruence.
Qed.

Lemma post_free_lt N left_partition d v s s' :
  good N left_partition s -> post N left_partition d v s s' true ->
  0 <= v -> lk (pair_v s) v = Some (-1) ->
  (free_count (pair_v s') < free_count (pair_v s))%nat.
Proof.
  intros (Lv & _) ((Lv' & _) & Hv & _ & _ & Hok) Hv0 Hfree.
  destruct (Hok eq_refl) as (u & p & Hu & Hne & _).
  unfold free_count.
  apply (count_pointwise_lt _ _ _ _ (Z.to_nat v) u (-1)); [| | |done..].
  - apply Forall2_lk; [lia|]. intros x a b Ha Hb ->.
    destruct (decide (lk (pair_v s') x = lk (pair_v s) x)) as [E|Hne']; [congruence|].
    destruct (Hv x Hne') as (_ & (u' & ? & ?) & _). congruence.
  - rewrite <- lk_of_nat, Z2Nat.id by done. done.
  - rewrite <- lk_of_nat, Z2Nat.id by done. done.
Qed.

Lemma below_refl (D : list (ext Z)) : below D D.
Proof. split; [done|]. by intros x []. Qed.

Section phase_total.
Variables (N : nat) (forward_adj : list (list Z)) (left_partition : list Z).
Hypothesis adj_length : length forward_adj = N.
Hypothesis adj_right : forall v us u,
  lk forward_adj v = Some us -> u ∈ us ->
  0 <= u < Z.of_nat N /\ u ∉ left_partition.
Hypothesis left_range : forall u, u ∈ left_partition -> 0 <= u < Z.of_nat N.
Hypothesis left_nodup : NoDup left_partition.

Abbreviation good := (good N left_partition).
Abbreviation post := (post N left_partition).
Abbreviation layered := (layered forward_adj left_partition).
Abbreviation phase_inv := (phase_inv N forward_adj left_partition).

Lemma deeper_count_le d (dist : list (ext Z)) : (deeper_count d dist <= length dist)%nat.
Proof. apply length_filter. Qed.

Lemma phase_step_total fuel st1 pre x post' s :
  (N < fuel)%nat ->
  left_partition = pre ++ x :: post' ->
  phase_inv st1 pre s ->
  exists s', phase_step fuel forward_adj x s = Ret s' /\ phase_inv st1 (pre ++ [x]) s'.
Proof.
  intros Hfuel Hsplit (Hs & Hbelow & Hroot & Hle & Hcase).
  assert (x ∈ left_partition) as Hx by (rewrite Hsplit, elem_of_app; right; by left).
  assert (x ∉ pre) as Hxpre.
  { pose proof left_nodup as Hnd. rewrite Hsplit in Hnd.
    apply NoDup_app in Hnd as (_ & Hnd & _). intros Hin. apply (Hnd x Hin). by left. }
  destruct (left_range x Hx) as [Hx0 HxN].
  pose proof Hs as (Lv & Lu & Ld & _).
  unfold phase_step.
  destruct (py_get_total (pair_v s) x) as (pv & -> & Hpv); [lia|]. simpl.
  destruct (Z.eqb_spec pv (-1)) as [->|Hne].
  - pose proof (Hroot x Hx Hxpre Hpv) as Hdx.
    destruct (dfs_total N forward_adj left_partition adj_length adj_right left_range
                fuel 0 x s Hs Hx Hdx) as (ok & s' & Hdfs).
    { pose proof (deeper_count_le 0 (dist s)). lia. }
    rewrite Hdfs. simpl. exists s'. split; [done|].
    pose proof (dfs_post N forward_adj left_partition adj_right fuel 0 x s ok s'
                  Hs Hx0 Hx Hdx Hdfs) as Hp.
    pose proof (post_free_le _ _ _ _ _ _ _ Hs Hp) as Hle'.
    pose proof Hp as (Hs' & Hv & Hu & Hd & Hok).
    assert (forall y, lk (dist s) y = Some PInf -> lk (dist s') y = Some PInf) as Hkeep.
    { intros y Hy. destruct (decide (lk (dist s') y = lk (dist s) y)) as [->|Hn]; [done|].
      by destruct (Hd y Hn). }
    assert (below (dist st1) (dist s')) as Hbelow'.
    { destruct Hbelow as [Hlen Hb]. destruct Hs' as (_ & _ & Ld' & _). split; [lia|].
      intros y Hy. destruct (decide (lk (dist s') y = lk (dist s) y)) as [E|Hn].
      - rewrite E in *. by apply Hb.
      - by destruct (Hd y Hn). }
    split; [done|]. split; [done|]. split; [|split; [lia|]].
    + intros y Hy Hypre Hfree.
      assert (y <> x) as Hyx
        by (intros ->; apply Hypre; rewrite elem_of_app; right; by left).
      assert (lk (pair_v s') y = lk (pair_v s) y) as Esame.
      { destruct (decide (lk (pair_v s') y = lk (pair_v s) y)) as [|Hn]; [done|].
        destruct (Hv y Hn) as (_ & (u' & ? & ?) & _). congruence. }
      assert (lk (dist s) y = Some (Fin 0)) as Hdy.
      { apply Hroot; [done|intros ?; apply Hypre; rewrite elem_of_app; by left|congruence]. }
      destruct (decide (lk (dist s') y = lk (dist s) y)) as [->|Hn]; [done|].
      destruct (Hd y Hn) as (_ & [?|(dx & ? & ?)]); [done|]. simplify_eq; lia.
    + destruct Hcase as [Hlt|(Ev & Eu & Hex & Hdone)]; [left; lia|].
      destruct ok.
      * left. pose proof (post_free_lt _ _ _ _ _ _ Hs Hp Hx0 Hpv). lia.
      * right.
        assert (lk (dist st1) x = Some (Fin 0)) as HDx.
        { destruct (decide (lk (dist s) x = lk (dist st1) x)) as [<-|Hn]; [done|].
          destruct Hbelow as [_ Hb]. rewrite (Hb x Hn) in Hdx. done. }
        destruct (dfs_fail N forward_adj left_partition (dist st1) (pair_u st1)
                    adj_right left_range fuel 0 x s s' Hs Hx Hdx HDx Hbelow Eu Hex Hdfs)
          as (Hex' & Hx' & _ & Eu').
        split; [|split; [done|split; [done|]]].
        -- intros y. rewrite <- Ev.
           destruct (decide (lk (pair_v s') y = lk (pair_v s) y)) as [|Hn]; [done|].
           by destruct (Hv y Hn) as (? & _).
        -- intros r [Hr| ->%list_elem_of_singleton]%elem_of_app Hfree; [|done].
           apply Hkeep. by apply Hdone.
  - exists s. split; [done|]. split; [done|]. split; [done|]. split; [|split; [done|]].
    + intros y Hy Hypre. apply Hroot; [done|].
      intros ?; apply Hypre; rewrite elem_of_app; by left.
    + destruct Hcase as [Hlt|(Ev & Eu & Hex & Hdone)]; [by left|]. right.
      split; [done|]. split; [done|]. split; [done|].
      intros r [Hr| ->%list_elem_of_singleton]%elem_of_app Hfree; [by apply Hdone|].
      rewrite <- Ev in Hfree. congruence.
Qed.

Lemma phase_total fuel st1 found :
  (N < fuel)%nat -> good st1 -> layered st1 found ->
  exists st2,
    for_each left_partition (phase_step fuel forward_adj) st1 = Ret st2
    /\ phase_inv st1 left_partition st2.
Proof.
  intros Hfuel Hst1 (_ & L0 & _).
  apply (for_each_prefix_total (phase_inv st1)).
  - intros pre x post' s Hsplit Hinv. by eapply phase_step_total.
  - split; [done|]. split; [apply below_refl|]. split; [by intros; apply L0|].
    split; [done|]. right. split; [done|]. split; [done|]. split.
    + intros x d us u HD Hx. congruence.
    + by intros r ?%elem_of_nil.
Qed.

(** A phase that starts with an augmenting path in the layering matches
    one more vertex. *)
Lemma phase_progress st1 s :
  layered st1 true -> phase_inv st1 left_partition s ->
  (free_count (pair_v s) < free_count (pair_v st1))%nat.
Proof.
  intros (Hlay & L0 & L1 & L2 & L3) (Hs & Hbelow & Hroot & Hle & [Hlt|Hstall]); [done|].
  destruct Hstall as (Ev & Eu & Hex & Hdone). exfalso.
  assert (forall (k : nat) x, lk (dist st1) x = Some (Fin (Z.of_nat k)) ->
            lk (dist s) x = Some PInf) as Hall.
  { induction k as [|k IH]; intros x Hx.
    - destruct (Hlay x _ Hx) as [Hleft _]. apply Hdone; [done|]. by apply L1.
    - rewrite Nat2Z.inj_succ in Hx. unfold Z.succ in Hx.
      destruct (L2 x (Z.of_nat k) ltac:(lia) Hx) as (y & us & u & Hy & Hus & Hu & Hpu).
      destruct (Hex y _ us u Hy (IH y Hy) Hus Hu) as (pu & Hpu' & _ & Hnext).
      simplify_eq. by apply Hnext. }
  destruct (L3 eq_refl) as (x & k & us & u & Hx & Hus & Hu & Hfree).
  destruct (Hlay x k Hx) as [_ Hk].
  assert (lk (dist s) x = Some PInf) as Hinf.
  { apply (Hall (Z.to_nat k)). by rewrite Z2Nat.id. }
  destruct (Hex x k us u Hx Hinf Hus Hu) as (pu & Hpu & Hne & _). congruence.
Qed.

Lemma phases_total fuel :
  forall st,
    good st -> layers_ok left_partition st ->
    (free_count (pair_v st) + length left_partition + N < fuel)%nat ->
    exists st', phases fuel forward_adj left_partition st = Ret st'.
Proof.
  induction fuel as [|fuel IH]; intros st Hst Hlay Hfuel; [lia|]. simpl.
  destruct (bfs_total N forward_adj left_partition adj_length adj_right left_range
              left_nodup (S fuel) st Hst Hlay) as (st1 & found & -> & Hsame & Hl);
    [lia|]. simpl.
  destruct found; [|eauto].
  pose proof (same_pairs_good N left_partition st st1 Hsame Hst) as Hst1.
  destruct (phase_total (S fuel) st1 true) as (st2 & -> & Hinv); [lia|done..|]. simpl.
  pose proof (phase_progress st1 st2 Hl Hinv) as Hlt.
  destruct Hsame as (Ev & _). rewrite Ev in Hlt.
  destruct Hinv as (Hst2 & [_ Hb] & _).
  apply IH; [done| |lia].
  intros x k Hk. destruct Hl as (Hlay1 & _). apply Hlay1.
  destruct (decide (lk (dist st2) x = lk (dist st1) x)) as [<-|Hn]; [done|].
  rewrite (Hb x Hn) in Hk. done.
Qed.

End phase_total.

Lemma nodup_range_length (l : list Z) (N : nat) :
  NoDup l -> (forall u, u ∈ l -> 0 <= u < Z.of_nat N) -> (length l <= N)%nat.
Proof.
  intros Hnd Hr.
  assert (l ⊆+ seqZ 0 (Z.of_nat N)) as Hsub.
  { apply NoDup_submseteq; [done|]. intros x Hx. apply elem_of_seqZ.
    specialize (Hr x Hx). lia. }
  apply submseteq_length in Hsub. rewrite length_seqZ in Hsub. lia.
Qed.

Lemma free_count_le pair : (free_count pair <= length pair)%nat.
Proof. apply length_filter. Qed.

Section hopcroft_karp_total.
Variables (n : Z) (edges : list Edge) (left_partition : list Z).
Hypothesis edges_range :
  forall a b, (a, b) ∈ edges -> 0 <= a < n /\ 0 <= b < n.
Hypothesis left_range : forall u, u ∈ left_partition -> 0 <= u < n.
Hypothesis left_nodup : NoDup left_partition.
Hypothesis left_right :
  forall a b, (a, b) ∈ edges -> a ∈ left_partition -> b ∉ left_partition.

Lemma forward_adj_total :
  exists forward_adj,
    for_each edges (add_forward left_partition) (replicate (Z.to_nat n) []) = Ret forward_adj
    /\ length forward_adj = Z.to_nat n.
Proof.
  apply (for_each_total (fun adj : list (list Z) => length adj = Z.to_nat n));
    [|apply length_replicate].
  intros [a b] adj Hab Hlen. destruct (edges_range a b Hab) as [Ha Hb].
  unfold add_forward. case_bool_decide; [|case_bool_decide]; [| |eauto].
  - destruct (adj_append_total adj a b) as (adj' & -> & Hlen'); [lia|].
    exists adj'. split; [done|lia].
  - destruct (adj_append_total adj b a) as (adj' & -> & Hlen'); [lia|].
    exists adj'. split; [done|lia].
Qed.

Lemma hopcroft_karp_total fuel :
  (3 * Z.to_nat n < fuel)%nat ->
  exists m, hopcroft_karp fuel n edges left_partition = Ret m.
Proof.
  intros Hfuel. unfold hopcroft_karp.
  destruct forward_adj_total as (forward_adj & Hbuild & Hlen). rewrite Hbuild. simpl.
  pose proof (forward_adj_right n edges left_partition edges_range left_right
                _ Hbuild) as Hadj.
  assert (forall u, u ∈ left_partition -> 0 <= u < Z.of_nat (Z.to_nat n)) as Hrange.
  { intros u Hu%left_range. lia. }
  pose proof (initial_good n left_partition) as Hinit.
  pose proof (nodup_range_length _ _ left_nodup Hrange) as Hleft.
  destruct (phases_total (Z.to_nat n) forward_adj left_partition Hlen Hadj Hrange
              left_nodup fuel _ Hinit) as (st & Hst).
  { intros x k ?%lk_replicate. done. }
  { cbn [pair_v]. pose proof (free_count_le (py_repeat (-1) n)) as Hfree.
    unfold py_repeat in *. rewrite length_replicate in Hfree. lia. }
  rewrite Hst. simpl.
  apply (phases_spec _ _ _ Hadj Hrange left_nodup) in Hst as (Lv & _); [|done].
  destruct (for_each_total (fun _ : list Edge => True)
              (fun u matching =>
                 pv ← py_get (pair_v st) u;
                 Ret (if pv =? -1 then matching else matching ++ [(u, pv)]))
              left_partition) with (s := @nil Edge) as (m & Hm & _); [|done|eauto].
  intros u acc Hu%Hrange _.
  destruct (py_get_total (pair_v st) u) as (pv & -> & _); [lia|]. simpl. eauto.
Qed.

End hopcroft_karp_total.

(** With fuel above [3 * n], [solve_matching] returns. *)
Lemma solve_matching_total (iter_order : list Z -> list Z) (fuel : nat) (n : Z)
    (edges : list Edge) :
  (forall l, iter_order l ≡ₚ l) ->
  (forall a b, (a, b) ∈ edges -> 0 <= a < n /\ 0 <= b < n) ->
  (3 * Z.to_nat n < fuel)%nat ->
  exists b m, solve_matching iter_order fuel n edges = Ret (b, m).
Proof.
  intros Hperm Hrange Hfuel. unfold solve_matching.
  destruct (check_bipartite_total fuel n edges Hrange) as (b & colors & Hcheck); [lia|].
  rewrite Hcheck. simpl. destruct b; simpl; [|eauto].
  destruct (check_bipartite_spec _ _ _ _ Hrange Hcheck) as [Hlen Hcol].
  destruct (hopcroft_karp_total n edges (iter_order (left_of colors)) Hrange)
    with (fuel := fuel) as (m & ->); [| | |done|simpl; eauto].
  - intros u. rewrite Hperm. intros Hu%left_of_elem%lk_Some_range. lia.
  - rewrite Hperm. apply left_of_nodup.
  - intros a b Hab. rewrite !Hperm, !left_of_elem. by apply Hcol.
Qed.

(** The pairs [solve_matching] returns mention no vertex twice. *)
Lemma solve_matching_nodup (iter_order : list Z -> list Z) (fuel : nat)
    (n : Z) (edges : list Edge) (m : list Edge) :
  (forall l, iter_order l ≡ₚ l) ->
  (forall a b, (a, b) ∈ edges -> 0 <= a < n /\ 0 <= b < n) ->
  solve_matching iter_order fuel n edges = Ret (true, m) ->
  NoDup (m.*1 ++ m.*2).
Proof.
  intros Hperm Hrange.
  unfold solve_matching. intros ([is_bipartite colors] & Hcheck & H)%bind_Ret.
  destruct is_bipartite; [|done]. simpl in H.
  apply bind_Ret in H as (m' & Hhk & [= <-]).
  destruct (check_bipartite_spec _ _ _ _ Hrange Hcheck) as [Hlen Hcol].
  eapply (hopcroft_karp_nodup n edges (iter_order (left_of colors))); [done| | | |done].
  - intros u. rewrite Hperm. intros Hu%left_of_elem%lk_Some_range. lia.
  - rewrite Hperm. apply left_of_nodup.
  - intros a b Hab. rewrite !Hperm, !left_of_elem. by apply Hcol.
Qed.

(** C8.  For every input whose edges join vertices in [0, n), and whatever
    order Python iterates over the set [left_partition] in:
    [solve_matching] returns (with fuel above [3 * n] the loops and the
    recursion of [dfs] never run out), and whenever it returns
    [(True, matching)], i.e. [check_bipartite] accepted the input, the
    matching mentions no vertex twice: the left ends are distinct, the
    right ends are distinct, and no vertex is a left end of one pair and a
    right end of another. *)
Theorem C8_matching_vertices_distinct (iter_order : list Z -> list Z)
    (n : Z) (edges : list Edge) :
  (forall l, iter_order l ≡ₚ l) ->
  Forall (fun e => 0 <= e.1 < n /\ 0 <= e.2 < n) edges ->
  (forall fuel, (3 * Z.to_nat n < fuel)%nat ->
     exists b m, solve_matching iter_order fuel n edges = Ret (b, m))
  /\ (forall fuel m, solve_matching iter_order fuel n edges = Ret (true, m) ->
        NoDup (m.*1 ++ m.*2)).
Proof.
  intros Hperm Hedges. rewrite Forall_forall in Hedges.
  assert (forall a b, (a, b) ∈ edges -> 0 <= a < n /\ 0 <= b < n) as Hrange.
  { intros a b Hab. apply (Hedges _ Hab). }
  split.
  - intros fuel Hfuel. by apply solve_matching_total.
  - intros fuel m. by apply solve_matching_nodup.
Qed.

Lemma C8_matching_vertices_distinct_witness :
  solve_matching reverse 13 4 [(0, 1); (1, 2); (2, 3); (3, 0)] = Ret (true, [(2, 1); (0, 3)])
  /\ (exists b m, solve_matching reverse 13 4 [(0, 1); (1, 2); (2, 3); (3, 0)] = Ret (b, m))
  /\ NoDup ([(2, 1); (0, 3)].*1 ++ [(2, 1); (0, 3)].*2).
Proof.
  split; [reflexivity|].
  destruct (C8_matching_vertices_distinct reverse 4 [(0, 1); (1, 2); (2, 3); (3, 0)])
    as [Hruns Hdistinct].
  - intros l. apply reverse_Permutation.
  - repeat constructor; simpl; lia.
  - split; [apply Hruns; simpl; lia|]. apply (Hdistinct 13%nat). reflexivity.
Defined.

End MatchingFacts.

(** ** [src/lab4/flow.py]: the flow reported *)

Module FlowProps.
Import Flow FlowVocabulary PyFacts.

Lemma append_edge_spec (graph : network) v e :
  0 <= v < Z.of_nat (length graph) ->
  exists row,
    graph !! Z.to_nat v = Some row
    /\ append_edge graph v e
       = Ret (<[Z.to_nat v := row ++ [e]]> graph, (Z.to_nat v, length row)).
Proof.
  intros Hv. unfold append_edge. rewrite norm_index_in_range by done.
  destruct (lookup_lt_is_Some_2 graph (Z.to_nat v)) as [row Hrow]; [lia|].
  rewrite Hrow. eauto.
Qed.

Lemma self_pointing_append (graph : network) k row e :
  self_pointing graph -> graph !! k = Some row ->
  to e = Z.of_nat k -> flow e = 0%Q ->
  self_pointing (<[k := row ++ [e]]> graph).
Proof.
  intros Hg Hrow Hto Hflow k' j row' e' Hk' Hj.
  destruct (decide (k' = k)) as [->|Hne].
  - rewrite list_lookup_insert_eq in Hk' by (by eapply lookup_lt_Some).
    injection Hk' as <-.
    apply lookup_app_Some in Hj as [Hj|[_ Hj]]; [by eapply Hg|].
    apply list_lookup_singleton_Some in Hj as [_ <-]. done.
  - rewrite list_lookup_insert_ne in Hk' by done. by eapply Hg.
Qed.

Lemma valid_ref_append (graph : network) k row e r :
  graph !! k = Some row -> valid_ref graph r ->
  valid_ref (<[k := row ++ [e]]> graph) r.
Proof.
  intros Hrow (row' & e' & Hr & He).
  destruct (decide (r.1 = k)) as [E|Hne].
  - rewrite E in *. simplify_eq. exists (row ++ [e]), e'. split.
    + apply list_lookup_insert_eq. by eapply lookup_lt_Some.
    + by apply lookup_app_l_Some.
  - exists row', e'. by rewrite list_lookup_insert_ne.
Qed.

(** The network [edmonds_karp] builds from in-range edges. *)
Lemma build_residual_spec n (edges : list WeightedEdge) :
  Forall (fun e => 0 <= e.1.1 < n /\ 0 <= e.1.2 < n) edges ->
  exists graph refs,
    build_residual n edges = Ret (graph, refs)
    /\ length graph = Z.to_nat n
    /\ self_pointing graph
    /\ length refs = length edges
    /\ Forall (valid_ref graph) refs.
Proof.
  intros Hedges. unfold build_residual.
  destruct (for_each_prefix_total
    (fun pre (st : network * list edge_ref) =>
       length st.1 = Z.to_nat n /\ self_pointing st.1
       /\ length st.2 = length pre /\ Forall (valid_ref st.1) st.2)
    add_residual_pair edges) with (s := (replicate (Z.to_nat n) (@nil FlowEdge), @nil edge_ref))
    as ([graph refs] & Hrun & Hlen & Hself & Hrefs & Hvalid).
  - intros pre [[v u] cap] post [graph refs] Hsplit (Hlen & Hself & Hrefs & Hvalid).
    simpl in *.
    assert (0 <= v < n /\ 0 <= u < n) as [Hv Hu].
    { rewrite Forall_forall in Hedges. apply (Hedges (v, u, cap)).
      rewrite Hsplit, elem_of_app. right. by left. }
    destruct (py_get_in_range graph v) as (row_v & Hrow_v & ->); [lia|]. simpl.
    destruct (py_get_in_range graph u) as (row_u & Hrow_u & ->); [lia|]. simpl.
    destruct (append_edge_spec graph v (mkFlowEdge v (Z.of_nat (length row_v)) cap 0))
      as (row1 & Hrow1 & ->); [lia|]. simpl.
    set (graph1 := <[Z.to_nat v := _]> graph).
    destruct (append_edge_spec graph1 u (mkFlowEdge u (Z.of_nat (length row_u)) 0 0))
      as (row2 & Hrow2 & ->); [unfold graph1; rewrite length_insert; lia|]. simpl.
    eexists. split; [done|]. simpl.
    assert (self_pointing graph1) as Hself1.
    { apply self_pointing_append; simpl; [done..|lia|done]. }
    split; [unfold graph1; by rewrite !length_insert|]. split; [|split].
    + apply self_pointing_append; simpl; [done..|lia|done].
    + rewrite !length_app. simpl. lia.
    + apply Forall_app. split.
      * eapply Forall_impl; [done|]. simpl. intros r Hr.
        apply valid_ref_append; [done|]. by apply valid_ref_append.
      * constructor; [|done]. apply valid_ref_append; [done|].
        exists (row1 ++ [mkFlowEdge v (Z.of_nat (length row_v)) cap 0]), 
               (mkFlowEdge v (Z.of_nat (length row_v)) cap 0).
        simpl. split.
        -- apply list_lookup_insert_eq. by eapply lookup_lt_Some.
        -- by rewrite lookup_app_r, Nat.sub_diag by lia.
  - simpl. split; [apply length_replicate|]. split; [|done].
    intros k j row e [-> _]%lookup_replicate. done.
  - simpl in *. eauto 10.
Qed.

(** The search skips every edge of a row whose edges point at the source. *)
Lemma visit_row_skips source v row_v (parent : parents) queue (row : list (nat * FlowEdge)) :
  0 <= source < Z.of_nat (length parent) ->
  Forall (fun ie => to ie.2 = source) row ->
  for_each row (visit source v row_v) (parent, queue) = Ret (parent, queue).
Proof.
  intros Hsrc. induction 1 as [|[i e] row He _ IH]; simpl; [done|].
  simpl in He.
  destruct (Qle_bool (residual_capacity e) 0); simpl; [done|].
  rewrite He. destruct (py_get_in_range parent source Hsrc) as (p & _ & ->). simpl.
  rewrite Z.eqb_refl, orb_true_r. simpl. done.
Qed.

Lemma bfs_stays_at_source fuel (graph : network) n source sink :
  length graph = Z.to_nat n -> self_pointing graph ->
  0 <= source < n -> 0 <= sink < n ->
  bfs (2 + fuel) graph source sink (py_repeat None n) [source] = Ret (py_repeat None n).
Proof.
  intros Hlen Hself Hsrc Hsink. simpl.
  assert (length (py_repeat (@None (Z * edge_ref)) n) = Z.to_nat n) as Hpl
    by apply length_replicate.
  destruct (py_get_in_range (py_repeat (@None (Z * edge_ref)) n) sink)
    as (ps & Hps & ->); [lia|]. simpl.
  apply lookup_replicate in Hps as [-> _]. simpl.
  destruct (py_get_in_range graph source) as (row & Hrow & ->); [lia|]. simpl.
  rewrite norm_index_in_range by lia.
  rewrite visit_row_skips; [done|lia|].
  apply Forall_forall. intros [i e] (i' & e' & [= -> ->] & Hi)%elem_of_lookup_imap.
  simpl. destruct (Hself _ _ _ _ Hrow Hi) as [-> _]. lia.
Qed.

Lemma report_zero (graph : network) (edges : list WeightedEdge) :
  self_pointing graph ->
  forall refs acc,
    length refs = length edges -> Forall (valid_ref graph) refs ->
    for_each (zip edges refs)
      (fun '(orig_edge, r) acc =>
         flow_edge ← deref graph r;
         Ret (acc ++ [mkFlowEdge orig_edge.1.1 orig_edge.1.2 orig_edge.2
                        (flow flow_edge)]))
      acc
    = Ret (acc ++ zero_report edges).
Proof.
  intros Hself. induction edges as [|e edges IH]; intros refs acc Hlen Hvalid; simpl.
  - by rewrite app_nil_r.
  - destruct refs as [|r refs]; [done|]. simpl in *.
    apply Forall_cons in Hvalid as [(row & fe & Hr & He) Hvalid].
    unfold deref. rewrite Hr, He. simpl.
    destruct (Hself _ _ _ _ Hr He) as [_ ->].
    rewrite IH by (done || lia). by rewrite <- app_assoc.
Qed.

(** The first search finds no path, and the loop stops at once. *)
Lemma augment_loop_stuck fuel n (graph : network) source sink max_flow :
  length graph = Z.to_nat n -> self_pointing graph ->
  0 <= source < n -> 0 <= sink < n ->
  augment_loop (2 + fuel) n graph source sink max_flow = Ret (max_flow, graph).
Proof.
  intros Hlen Hself Hsrc Hsink.
  change (augment_loop (2 + fuel) n graph source sink max_flow)
    with (parent ← bfs (2 + fuel) graph source sink (py_repeat None n) [source];
          ps ← py_get parent sink;
          match ps with
          | None => Ret (max_flow, graph)
          | Some _ =>
              path_flow ← bottleneck (2 + fuel) graph parent source sink PInf;
              match path_flow with
              | Fin pf =>
                  graph' ← augment (2 + fuel) graph parent source sink pf;
                  augment_loop (1 + fuel) n graph' source sink (max_flow + pf)%Q
              | PInf => Ret (max_flow, graph)
              end
          end).
  rewrite (bfs_stays_at_source fuel graph n source sink) by done.
  cbn [mbind outcome_bind].
  destruct (py_get_in_range (py_repeat (@None (Z * edge_ref)) n) sink)
    as (ps & Hps & ->); [unfold py_repeat; rewrite length_replicate; lia|].
  apply lookup_replicate in Hps as [-> _]. done.
Qed.

(** X1.  [edmonds_karp] never reports a positive flow.  With [n <= 0] or a
    source or sink outside [0, n) it returns [(0.0, [])]; otherwise, for
    edges over [0, n), it returns the flow 0 and the input edges with flow
    0 each: every residual edge stored for [v] points back at [v], so the
    search never leaves the source, whatever the capacities. *)
Theorem edmonds_karp_reports_zero (fuel : nat) (n : Z) (edges : list WeightedEdge)
    (source sink : Z) :
  Forall (fun e => 0 <= e.1.1 < n /\ 0 <= e.1.2 < n) edges ->
  edmonds_karp (2 + fuel) n edges source sink
  = Ret (0%Q, if bool_decide (0 <= source < n /\ 0 <= sink < n)
              then zero_report edges else []).
Proof.
  intros Hedges. unfold edmonds_karp.
  destruct (Z.leb_spec n 0) as [Hn|Hn]; cbn [orb negb andb].
  { rewrite bool_decide_eq_false_2 by lia. done. }
  destruct (Z.leb_spec 0 source), (Z.ltb_spec source n),
    (Z.leb_spec 0 sink), (Z.ltb_spec sink n); cbn [orb negb andb];
    try (rewrite bool_decide_eq_false_2 by lia; done).
  rewrite bool_decide_eq_true_2 by lia.
  destruct (Z.eqb_spec source sink) as [->|Hne]; [done|].
  destruct (build_residual_spec n edges Hedges)
    as (graph & refs & -> & Hlen & Hself & Hrefs & Hvalid).
  cbn [mbind outcome_bind].
  rewrite (augment_loop_stuck fuel n graph source sink 0) by (done || lia).
  cbn [mbind outcome_bind].
  rewrite (report_zero graph edges Hself refs []) by done. done.
Qed.

Lemma edmonds_karp_reports_zero_witness :
  edmonds_karp 2 4 FlowSpec.scenario_edges 0 3
  = Ret (0%Q, zero_report FlowSpec.scenario_edges).
Proof.
  apply (edmonds_karp_reports_zero 0 4 FlowSpec.scenario_edges 0 3).
  repeat constructor; simpl; lia.
Defined.

End FlowProps.

(** ** [src/lab4/pathfinding.py]: what [a_star] returns *)

Module PathfindingProps.
Import Pathfinding PathfindingVocabulary PyFacts PathfindingFacts.

(** X2.  [a_star] never returns a path: whenever it returns, the result is
    the not-found one, with length [inf] and an empty path.  (When the
    search reaches the goal, the walk back from it cannot end normally.) *)
Theorem a_star_never_finds (fuel : nat) (grid : Grid) (start goal : Coord)
    (heuristic : HeuristicFunc) (r : PathFindingResult) :
  a_star fuel grid start goal heuristic = Ret r ->
  length r = PInf /\ path r = [].
Proof.
  unfold a_star. intros (cols & _ & H)%bind_Ret.
  destruct (negb _); [by injection H as <-|].
  apply bind_Ret in H as (ws & _ & H).
  apply bind_Ret in H as (wg & _ & H).
  destruct (negb _); [by injection H as <-|].
  apply bind_Ret in H as (total & _ & H).
  apply bind_Ret in H as (st & _ & H).
  destruct (dist st !! goal); [|by injection H as <-].
  apply bind_Ret in H as (p & Hwalk & _).
  by apply walk_back_never_returns in Hwalk.
Qed.

Lemma a_star_never_finds_witness :
  a_star 5 walled (0, 0) (1, 1) manhattan = Ret (mkResult PInf [] 1 (100 # 2))
  /\ length (mkResult PInf [] 1 (100 # 2)) = PInf /\ path (mkResult PInf [] 1 (100 # 2)) = [].
Proof.
  split; [reflexivity|].
  apply (a_star_never_finds 5 walled (0, 0) (1, 1) manhattan). reflexivity.
Defined.

Lemma in_bounds_spec rows cols r c :
  in_bounds rows cols r c = true <-> 0 <= r < rows /\ 0 <= c < cols.
Proof.
  unfold in_bounds. rewrite !andb_true_iff, !Z.leb_le, !Z.ltb_lt. lia.
Qed.

Lemma in_bounds_no_rows cols r c : in_bounds 0 cols r c = false.
Proof.
  destruct (in_bounds 0 cols r c) eqn:E; [|done]. apply in_bounds_spec in E. lia.
Qed.

Lemma cell_total (grid : Grid) cols r c :
  rectangular grid cols ->
  in_bounds (Z.of_nat (List.length grid)) cols r c = true ->
  exists x, cell grid r c = Ret x.
Proof.
  intros Hrect [Hr Hc]%in_bounds_spec.
  unfold cell. destruct (py_get_in_range grid r) as (row & Hrow & ->); [lia|]. simpl.
  pose proof (Forall_lookup_1 _ _ _ _ Hrect Hrow) as Hlen. simpl in Hlen.
  destruct (py_get_in_range row c) as (x & _ & ->); [lia|]. eauto.
Qed.

Lemma count_walkable_total (grid : Grid) cols :
  rectangular grid cols ->
  exists k, count_walkable grid (Z.of_nat (List.length grid)) cols = Ret k.
Proof.
  intros Hrect. unfold count_walkable.
  destruct (for_each_total (fun _ : Z => True)
    (fun r acc =>
       for_each (py_range 0 cols)
         (fun c (acc' : Z) =>
            w ← is_walkable grid r c; Ret (if w : bool then acc' + 1 else acc'))
         acc)
    (py_range 0 (Z.of_nat (List.length grid)))) with (s := 0) as (k & -> & _);
    [|done|eauto].
  intros r acc Hr%elem_of_seqZ _.
  destruct (for_each_total (fun _ : Z => True)
    (fun c (acc' : Z) =>
       w ← is_walkable grid r c; Ret (if w : bool then acc' + 1 else acc'))
    (py_range 0 cols)) with (s := acc) as (k & -> & _); [|done|eauto].
  intros c acc' Hc%elem_of_seqZ _. unfold is_walkable.
  destruct (cell_total grid cols r c Hrect) as (x & ->);
    [apply in_bounds_spec; lia|].
  simpl. eauto.
Qed.

Lemma first_row_length (grid : Grid) cols :
  rectangular grid cols -> grid <> [] ->
  (if Z.of_nat (List.length grid) =? 0 then Ret 0
   else row0 ← py_get grid 0; Ret (Z.of_nat (List.length row0))) = Ret cols.
Proof.
  intros Hrect Hne. destruct grid as [|row0 grid]; [done|].
  apply Forall_cons in Hrect as [<- _]. done.
Qed.

(** X3.  Asked for the path from a walkable cell to itself, [a_star] raises
    [KeyError] instead of returning the one-cell path: the cell is popped,
    recognised as the goal, and the walk back looks up its predecessor,
    which it does not have. *)
Theorem a_star_same_cell_raises (fuel : nat) (grid : Grid) (cols : Z) (s : Coord)
    (heuristic : HeuristicFunc) (x : Z) :
  rectangular grid cols ->
  in_bounds (Z.of_nat (List.length grid)) cols s.1 s.2 = true ->
  cell grid s.1 s.2 = Ret x -> 0 < x ->
  a_star (S fuel) grid s s heuristic = Raise KeyError.
Proof.
  intros Hrect Hin Hcell Hx. unfold a_star.
  rewrite (first_row_length grid cols Hrect).
  2: { intros ->. apply in_bounds_spec in Hin. simpl in Hin. lia. }
  cbn [mbind outcome_bind]. rewrite Hin. cbn [andb negb].
  unfold is_walkable. rewrite Hcell. cbn [mbind outcome_bind].
  destruct (Z.ltb_spec 0 x); [|lia]. cbn [andb negb].
  destruct (count_walkable_total grid cols Hrect) as (k & ->).
  cbn [mbind outcome_bind search_loop heappop queue dist].
  unfold dist_get. rewrite lookup_singleton_eq. cbn [ext_ltb].
  replace (Qltb 0 0) with false by reflexivity.
  rewrite bool_decide_eq_true_2 by done.
  cbn [mbind outcome_bind dist prev]. rewrite lookup_singleton_eq.
  simpl. rewrite lookup_empty. done.
Qed.

Lemma a_star_same_cell_raises_witness :
  a_star 1 walled (1, 1) (1, 1) euclidean = Raise KeyError.
Proof.
  apply (a_star_same_cell_raises 0 walled 2 (1, 1) euclidean 1).
  - repeat constructor.
  - reflexivity.
  - reflexivity.
  - lia.
Defined.

(** X4.  With the start or the goal outside the grid, or on a cell that is
    not walkable (value [<= 0]), [a_star] returns the not-found result with
    all statistics zero, without searching. *)
Theorem a_star_blocked (fuel : nat) (grid : Grid) (cols : Z) (start goal : Coord)
    (heuristic : HeuristicFunc) :
  rectangular grid cols ->
  let rows := Z.of_nat (List.length grid) in
  in_bounds rows cols start.1 start.2 = false
  \/ in_bounds rows cols goal.1 goal.2 = false
  \/ (exists x, cell grid start.1 start.2 = Ret x /\ x <= 0)
  \/ (exists x, cell grid goal.1 goal.2 = Ret x /\ x <= 0) ->
  a_star fuel grid start goal heuristic = Ret unreachable.
Proof.
  intros Hrect rows Hcase. subst rows. unfold a_star.
  destruct (decide (grid = [])) as [->|Hne].
  { change (Z.of_nat (List.length (@nil (list Z)))) with 0.
    cbn [Z.eqb mbind outcome_bind]. by rewrite in_bounds_no_rows. }
  rewrite (first_row_length grid cols Hrect Hne).
  cbn [mbind outcome_bind].
  destruct (in_bounds _ cols start.1 start.2) eqn:Hs; [|reflexivity].
  destruct (in_bounds _ cols goal.1 goal.2) eqn:Hg; [|reflexivity].
  cbn [andb negb].
  destruct (cell_total grid cols _ _ Hrect Hs) as (xs & Hxs).
  destruct (cell_total grid cols _ _ Hrect Hg) as (xg & Hxg).
  unfold is_walkable. rewrite Hxs. cbn [mbind outcome_bind].
  destruct (Z.ltb_spec 0 xs) as [Hpos|Hwall]; [|reflexivity].
  rewrite Hxg. cbn [mbind outcome_bind].
  destruct (Z.ltb_spec 0 xg) as [Hpos'|Hwall]; [|reflexivity].
  destruct Hcase as [?|[?|[(x & Hx & ?)|(x & Hx & ?)]]]; [congruence..| |].
  - rewrite Hxs in Hx. injection Hx as ->. lia.
  - rewrite Hxg in Hx. injection Hx as ->. lia.
Qed.

Lemma a_star_blocked_witness :
  a_star 0 walled (0, 0) (0, 1) manhattan = Ret unreachable
  /\ a_star 0 walled (0, 0) (2, 0) manhattan = Ret unreachable.
Proof.
  split.
  - apply (a_star_blocked 0 walled 2); [repeat constructor|].
    right; right; right. exists 0. split; [reflexivity|lia].
  - apply (a_star_blocked 0 walled 2); [repeat constructor|].
    right; left. reflexivity.
Defined.

End PathfindingProps.

(** ** [src/3/graph.py]: the methods of [Graph] *)

Module GraphProps.
Import GraphStore GraphSpec GraphQueries GraphVocabulary PyFacts GraphFacts.

Lemma weight_of_entry g i j x :
  proper g -> 0 <= i < n g -> 0 <= j < n g ->
  entry (adj_matrix g) (Z.to_nat i) (Z.to_nat j) = Some x -> weight g i j = Ret x.
Proof. intros Hg Hi Hj. by apply weight_entry. Qed.

Lemma weight_in_range g i j :
  proper g -> 0 <= i < n g -> 0 <= j < n g ->
  exists x, weight g i j = Ret x
            /\ entry (adj_matrix g) (Z.to_nat i) (Z.to_nat j) = Some x.
Proof.
  intros Hg Hi Hj.
  destruct (weight_consistent g i j (proper_consistent _ Hg)) as [H _].
  destruct H as (x & Hx & Hw); [|eauto].
  apply andb_true_iff. by rewrite !in_graph_spec.
Qed.

(** Equal entries give equal weights. *)
Lemma weight_transfer g g' i j i' j' :
  proper g -> proper g' ->
  0 <= i < n g -> 0 <= j < n g -> 0 <= i' < n g' -> 0 <= j' < n g' ->
  entry (adj_matrix g') (Z.to_nat i') (Z.to_nat j')
  = entry (adj_matrix g) (Z.to_nat i) (Z.to_nat j) ->
  weight g' i' j' = weight g i j.
Proof.
  intros Hg Hg' Hi Hj Hi' Hj' E.
  destruct (weight_in_range g i j Hg Hi Hj) as (x & -> & Hx).
  apply weight_of_entry; [done..|]. by rewrite E.
Qed.

Lemma proper_mat_set g a b x m' :
  proper g -> mat_set (adj_matrix g) a b x = Ret m' -> proper (with_matrix g m').
Proof. intros [Hn Hsq] H. split; [done|]. simpl. by eapply mat_set_square. Qed.

Lemma proper_add_edge a b w g : proper g -> proper (add_edge a b w g).1.
Proof.
  intros Hg. unfold add_edge.
  assert (proper (if n g <=? Z.max a b then add_vertex (Z.max a b) g
                  else (g, Ret tt)).1) as Hg1.
  { destruct (n g <=? Z.max a b); [by apply add_vertex_keeps_proper|done]. }
  destruct (if n g <=? Z.max a b then _ else _) as [g1 r]. simpl in Hg1.
  destruct r as [[]|e|]; [|done..].
  destruct (mat_set (adj_matrix g1) a b (Some w)) as [m2|e|] eqn:E2; [|done..].
  pose proof (proper_mat_set _ _ _ _ _ Hg1 E2) as Hg2.
  destruct (is_undirected (graph_type g1)); [|done].
  destruct (mat_set m2 b a (Some w)) as [m3|e|] eqn:E3; [|done..].
  simpl. by apply (proper_mat_set _ _ _ _ _ Hg2 E3).
Qed.

Lemma proper_remove_edge a b g : proper g -> proper (remove_edge a b g).1.
Proof.
  intros Hg. unfold remove_edge.
  destruct (negb _); [done|].
  destruct (mat_set (adj_matrix g) a b None) as [m1|e|] eqn:E1; [|done..].
  pose proof (proper_mat_set _ _ _ _ _ Hg E1) as Hg1.
  destruct (is_undirected (graph_type g)); [|done].
  destruct (mat_set m1 b a None) as [m2|e|] eqn:E2; [|done..].
  simpl. by apply (proper_mat_set _ _ _ _ _ Hg1 E2).
Qed.

Lemma proper_remove_vertex a g : proper g -> proper (remove_vertex a g).1.
Proof.
  intros Hg. destruct (in_graph g a) eqn:Ha.
  - apply in_graph_spec in Ha.
    rewrite remove_vertex_in_range by auto using proper_consistent. simpl.
    destruct Hg as [Hn [Hl Hr]]. split; simpl; [lia|]. split.
    + rewrite length_fmap, length_delete by (apply lookup_lt_is_Some; lia). lia.
    + apply Forall_fmap, Forall_delete. eapply Forall_impl; [done|]. simpl.
      intros row Hrow.
      rewrite length_delete by (apply lookup_lt_is_Some; lia). lia.
  - unfold remove_vertex. by rewrite Ha.
Qed.

Lemma add_edge_type a b w g : graph_type (add_edge a b w g).1 = graph_type g.
Proof.
  unfold add_edge.
  assert (graph_type (if n g <=? Z.max a b then add_vertex (Z.max a b) g
                      else (g, Ret tt)).1 = graph_type g) as Ht.
  { destruct (n g <=? Z.max a b); [apply add_vertex_type|done]. }
  destruct (if n g <=? Z.max a b then _ else _) as [g1 r]. simpl in Ht.
  destruct r as [[]|e|]; [|done..].
  destruct (mat_set (adj_matrix g1) a b (Some w)) as [m2|e|]; [|done..].
  destruct (is_undirected (graph_type g1)); [|done].
  by destruct (mat_set m2 b a (Some w)) as [m3|e|].
Qed.

Lemma remove_edge_type a b g : graph_type (remove_edge a b g).1 = graph_type g.
Proof.
  unfold remove_edge. destruct (negb _); [done|].
  destruct (mat_set (adj_matrix g) a b None) as [m1|e|]; [|done..].
  destruct (is_undirected (graph_type g)); [|done].
  by destruct (mat_set m1 b a None) as [m2|e|].
Qed.

Lemma remove_vertex_type a g : graph_type (remove_vertex a g).1 = graph_type g.
Proof.
  unfold remove_vertex. destruct (negb _); [done|].
  destruct (py_pop (adj_matrix g) a) as [m1|e|]; [|done..].
  by destruct (pop_column a m1) as [m2 [[]|e|]].
Qed.

Lemma well_formed_run_op g o : well_formed g -> well_formed (run_op g o).
Proof.
  intros [Hg Hsym]. split.
  - destruct o; simpl;
      auto using add_vertex_keeps_proper, proper_add_edge, proper_remove_vertex,
        proper_remove_edge.
  - destruct o; simpl.
    + rewrite add_vertex_type. auto using add_vertex_symmetric.
    + rewrite add_edge_type. intros Ht. by apply undirected_add_edge; auto.
    + rewrite remove_vertex_type. intros Ht. by apply undirected_remove_vertex; auto.
    + rewrite remove_edge_type. intros Ht. by apply undirected_remove_edge; auto.
Qed.

Lemma empty_matrix_total size :
  0 <= size -> exists m, empty_matrix size = Ret m.
Proof.
  intros Hsize. unfold empty_matrix.
  destruct (for_each_total (is_square (Z.to_nat size))
              (fun i m => mat_set m i i (Some 0%Q)) (py_range 0 size))
    with (s := replicate (Z.to_nat size) (py_repeat (@None Q) size)) as (m & -> & _);
    [| |eauto].
  - intros i m Hi%elem_of_seqZ Hsq.
    destruct (mat_set_square_total _ m i i (Some 0%Q) Hsq) as [m' E];
      [rewrite norm_index_in_range by lia; eauto..|].
    exists m'. split; [done|]. by eapply mat_set_square.
  - split; [apply length_replicate|]. apply Forall_replicate, py_repeat_length.
Qed.

Lemma constructed_type t size g : constructed t size g -> graph_type g = t /\ n g = size.
Proof.
  intros [H|edges H].
  - unfold Graph_init in H. by apply bind_Ret in H as (m & _ & [= <-]).
  - unfold Graph_load in H. apply bind_Ret in H as (m & _ & H).
    by apply bind_Ret in H as (m' & _ & [= <-]).
Qed.

Lemma constructed_proper t size g : 0 <= size -> constructed t size g -> proper g.
Proof.
  intros Hsize [H|edges H].
  - unfold Graph_init in H.
    apply bind_Ret in H as (m & [H1 H2]%empty_matrix_symmetric & [= <-]). done.
  - unfold Graph_load in H.
    apply bind_Ret in H as (m & [H1 H2]%empty_matrix_symmetric & H).
    apply bind_Ret in H as (m' & H & [= <-]). split; [done|]. simpl.
    eapply (for_each_invariant (is_square (Z.to_nat size))); [|exact H1|exact H].
    intros [[a b] w] s s' _ Hsq. unfold load_edge.
    intros (m1 & E1 & E2)%bind_Ret.
    pose proof (mat_set_square _ _ _ _ _ _ Hsq E1) as Hsq1.
    destruct (is_undirected t); [by eapply mat_set_square|by injection E2 as <-].
Qed.

(** X5.  Every graph object made with [size >= 0] (empty or loaded) and
    changed by any sequence of [add_vertex], [add_edge], [remove_vertex]
    and [remove_edge] calls, failed ones included, keeps [n >= 0] and a
    matrix of exactly [n] rows of [n] entries each; the matrix of an
    undirected graph also stays symmetric. *)
Theorem graph_stays_well_formed (t : GraphOrientationType) (size : Z) (g0 : Graph)
    (ops : list op) :
  0 <= size -> constructed t size g0 -> well_formed (run ops g0).
Proof.
  intros Hsize Hc.
  assert (well_formed g0) as Hg0.
  { split; [by eapply constructed_proper|]. intros Ht.
    destruct (constructed_type _ _ _ Hc) as [<- _]. rewrite Ht in Hc.
    by destruct (undirected_constructed _ _ Hsize Hc) as (_ & _ & ?). }
  clear Hc. revert g0 Hg0. induction ops as [|o ops IH]; intros g Hg; [done|].
  simpl. by apply IH, well_formed_run_op.
Qed.

Lemma graph_stays_well_formed_witness :
  well_formed (run [AddEdge 0 3 (7 # 2); RemoveVertex 1; AddEdge (-1) 7 1;
                    RemoveEdge 2 0] two_isolated).
Proof.
  apply (graph_stays_well_formed DIRECTED 2); [lia|]. apply by_size. reflexivity.
Defined.

(** *** The constructor *)

Lemma empty_matrix_entry size m :
  empty_matrix size = Ret m ->
  forall i j : nat,
    entry m i j
    = if decide (i < Z.to_nat size /\ j < Z.to_nat size)%nat
      then Some (if decide (i = j) then Some 0%Q else None) else None.
Proof.
  unfold empty_matrix. intros H.
  eapply (for_each_prefix
            (fun pre (m : matrix) =>
               is_square (Z.to_nat size) m
               /\ forall i j : nat,
                    entry m i j
                    = if decide (i < Z.to_nat size /\ j < Z.to_nat size)%nat
                      then Some (if decide (i = j /\ Z.of_nat i ∈ pre)
                                 then Some 0%Q else None)
                      else None)) in H.
  - destruct H as [_ H]. intros i j. rewrite H.
    case_decide as Hr; [|done]. f_equal.
    destruct (decide (i = j)) as [->|Hij].
    + rewrite decide_True; [done|]. split; [done|]. apply elem_of_seqZ. lia.
    + rewrite decide_False; [done|]. tauto.
  - intros pre k post s s' Hsplit [Hsq He] Hset.
    assert (0 <= k < size) as Hk.
    { assert (k ∈ py_range 0 size) as Hin
        by (rewrite Hsplit, elem_of_app; right; by left).
      apply elem_of_seqZ in Hin. lia. }
    split; [by eapply mat_set_square|].
    destruct (mat_set_square_entry _ _ _ _ _ _ Hsq Hset) as (i0 & j0 & Hi0 & Hj0 & E).
    rewrite norm_index_in_range in Hi0, Hj0 by lia. simplify_eq.
    intros i j. rewrite E, He.
    destruct (decide (i = Z.to_nat k /\ j = Z.to_nat k)) as [[-> ->]|Hne].
    + rewrite decide_True by lia. f_equal. rewrite decide_True; [done|].
      split; [done|]. rewrite Z2Nat.id by lia. rewrite elem_of_app. right. by left.
    + case_decide; [|done]. f_equal.
      destruct (decide (i = j /\ Z.of_nat i ∈ pre)) as [[-> Hin]|Hn].
      * rewrite decide_True; [done|]. split; [done|]. rewrite elem_of_app. by left.
      * rewrite decide_False; [done|].
        intros [-> [Hin|Hk'%list_elem_of_singleton]%elem_of_app].
        -- tauto.
        -- apply Hne. lia.
  - split.
    + split; [apply length_replicate|]. apply Forall_replicate, py_repeat_length.
    + intros i j. unfold py_repeat. rewrite entry_replicate.
      case_decide; [|done]. f_equal. rewrite decide_False; [done|].
      intros [_ ?%elem_of_nil]. done.
Qed.

(** X6.  [Graph(size=n, graph_type=t)] with [n >= 0] makes a graph of [n]
    isolated vertices: [weight(i, i)] is [0.0] and [weight(i, j)] is [None]
    for all other pairs of vertices. *)
Theorem Graph_init_edgeless (t : GraphOrientationType) (size : Z) :
  0 <= size ->
  exists g,
    Graph_init t size = Ret g /\ graph_type g = t /\ n g = size
    /\ forall i j, 0 <= i < size -> 0 <= j < size ->
         weight g i j = Ret (if decide (i = j) then Some 0%Q else None).
Proof.
  intros Hsize. unfold Graph_init.
  destruct (empty_matrix_total size Hsize) as [m Hm]. rewrite Hm. simpl.
  eexists. split; [done|]. split; [done|]. split; [done|].
  intros i j Hi Hj.
  apply weight_of_entry; simpl; [|done..|].
  - split; [done|]. simpl. by apply empty_matrix_symmetric.
  - rewrite (empty_matrix_entry _ _ Hm). rewrite decide_True by lia.
    f_equal. repeat case_decide; try done; lia.
Qed.

Lemma Graph_init_edgeless_witness :
  exists g,
    Graph_init UNDIRECTED 3 = Ret g /\ graph_type g = UNDIRECTED /\ n g = 3
    /\ forall i j, 0 <= i < 3 -> 0 <= j < 3 ->
         weight g i j = Ret (if decide (i = j) then Some 0%Q else None).
Proof. apply (Graph_init_edgeless UNDIRECTED 3). lia. Defined.

(** *** Growing *)

Lemma add_vertex_spec a g :
  proper g ->
  let g' := (add_vertex a g).1 in
  (add_vertex a g).2 = Ret tt
  /\ proper g' /\ graph_type g' = graph_type g
  /\ n g' = Z.max (n g) (a + 1)
  /\ forall i j, 0 <= i < n g' -> 0 <= j < n g' -> weight g' i j = grown_weight g i j.
Proof.
  intros Hg g'. pose proof (add_vertex_keeps_proper a g Hg) as Hg'. fold g' in Hg'.
  pose proof (add_vertex_type a g) as Ht. fold g' in Ht.
  destruct (Z.lt_ge_cases a (n g)) as [Ha|Ha].
  - assert (add_vertex a g = (g, Ret tt)) as E.
    { unfold add_vertex. by destruct (Z.ltb_spec a (n g)); [|lia]. }
    unfold g' in *. rewrite E in *. simpl.
    split; [done|]. split; [done|]. split; [done|]. split; [lia|].
    intros i j Hi Hj. unfold grown_weight. by rewrite decide_True by lia.
  - assert (n g' = a + 1) as Hn'
      by (unfold g'; by rewrite add_vertex_proper by (done || lia)).
    split; [by rewrite add_vertex_proper by (done || lia)|].
    split; [done|]. split; [done|]. split; [lia|].
    intros i j Hi Hj. unfold grown_weight.
    pose proof (add_vertex_entry a g (Z.to_nat i) (Z.to_nat j) Hg ltac:(lia)) as E.
    fold g' in E. destruct Hg as [Hn Hsq].
    destruct (decide (i < n g /\ j < n g)) as [Hold|Hold].
    + rewrite decide_True in E by lia.
      destruct (weight_in_range g i j) as (x & -> & Hx); [done|lia..|].
      apply weight_of_entry; [done..|]. by rewrite E.
    + rewrite decide_False, decide_True in E by lia.
      apply weight_of_entry; [done..|]. rewrite E. f_equal.
      repeat case_decide; try done; lia.
Qed.

(** X7.  [add_vertex(a)] never raises on a well-formed graph; it leaves the
    graph alone when [a < n], and otherwise grows it to [a + 1] vertices:
    the weights between old vertices are kept, and every new vertex is
    isolated, with [0.0] on the diagonal. *)
Theorem add_vertex_grows (a : Z) (g : Graph) :
  well_formed g ->
  let g' := (add_vertex a g).1 in
  (add_vertex a g).2 = Ret tt
  /\ well_formed g'
  /\ n g' = Z.max (n g) (a + 1)
  /\ forall i j, 0 <= i < n g' -> 0 <= j < n g' -> weight g' i j = grown_weight g i j.
Proof.
  intros [Hg Hsym] g'.
  destruct (add_vertex_spec a g Hg) as (Hr & Hg' & Ht & Hn & Hw).
  split; [done|]. split; [|done]. split; [done|].
  fold g' in Ht. rewrite Ht. intros Hu. by apply add_vertex_symmetric; auto.
Qed.

Lemma add_vertex_grows_witness :
  let g' := (add_vertex 3 triangle).1 in
  (add_vertex 3 triangle).2 = Ret tt
  /\ well_formed g'
  /\ n g' = Z.max (n triangle) (3 + 1)
  /\ forall i j, 0 <= i < n g' -> 0 <= j < n g' ->
       weight g' i j = grown_weight triangle i j.
Proof.
  apply (add_vertex_grows 3 triangle). split; [|done].
  split; [simpl; lia|]. split; [reflexivity|]. repeat constructor.
Defined.

(** The first step of [add_edge]. *)
Lemma add_edge_grow a' g :
  proper g ->
  let r := if n g <=? a' then add_vertex a' g else (g, Ret tt) in
  r.2 = Ret tt /\ proper r.1 /\ graph_type r.1 = graph_type g
  /\ n r.1 = Z.max (n g) (a' + 1)
  /\ forall i j, 0 <= i < n r.1 -> 0 <= j < n r.1 -> weight r.1 i j = grown_weight g i j.
Proof.
  intros Hg r. unfold r. destruct (Z.leb_spec (n g) a') as [Ha|Ha].
  - by apply add_vertex_spec.
  - simpl. split; [done|]. split; [done|]. split; [done|]. split; [lia|].
    intros i j Hi Hj. unfold grown_weight. by rewrite decide_True by lia.
Qed.

(** X8.  [add_edge(a, b, w)] with [a, b >= 0] never raises on a well-formed
    graph.  It first grows the graph to hold [a] and [b], then stores [w]
    for [(a, b)], and for [(b, a)] too when the graph is undirected; every
    other weight is as [add_vertex] leaves it.  With [a = b] the diagonal
    entry is overwritten by [w]. *)
Theorem add_edge_stores (a b : Z) (w : Q) (g : Graph) :
  proper g -> 0 <= a -> 0 <= b ->
  let g' := (add_edge a b w g).1 in
  (add_edge a b w g).2 = Ret tt
  /\ n g' = Z.max (n g) (Z.max a b + 1)
  /\ forall i j, 0 <= i < n g' -> 0 <= j < n g' ->
       weight g' i j
       = if decide ((i = a /\ j = b) \/ (graph_type g = UNDIRECTED /\ i = b /\ j = a))
         then Ret (Some w) else grown_weight g i j.
Proof.
  intros Hg Ha Hb. unfold add_edge.
  destruct (add_edge_grow (Z.max a b) g Hg) as (Hr & Hg1 & Ht1 & Hn1 & Hw1).
  destruct (if n g <=? Z.max a b then _ else _) as [g1 r]. simpl in *. subst r.
  pose proof Hg1 as [Hn1' Hsq1].
  assert (norm_index (Z.to_nat (n g1)) a = Some (Z.to_nat a)) as Na
    by (apply norm_index_in_range; lia).
  assert (norm_index (Z.to_nat (n g1)) b = Some (Z.to_nat b)) as Nb
    by (apply norm_index_in_range; lia).
  destruct (mat_set_square_total _ (adj_matrix g1) a b (Some w) Hsq1) as [m2 E2];
    [eauto..|].
  rewrite E2.
  pose proof (proper_mat_set _ _ _ _ _ Hg1 E2) as Hg2.
  destruct (mat_set_square_entry _ _ _ _ _ _ Hsq1 E2) as (? & ? & ? & ? & Hm2).
  simplify_eq. rewrite Ht1.
  destruct (graph_type g) eqn:Ht; simpl.
  - split; [done|]. split; [done|]. intros i j Hi Hj.
    destruct (weight_in_range g1 i j Hg1 Hi Hj) as (x & Hx & Hex).
    rewrite <- Hw1 by done.
    case_decide as Hcase.
    + destruct Hcase as [[-> ->]|[? _]]; [|done].
      apply weight_of_entry; [done..|]. simpl. rewrite Hm2. by rewrite decide_True.
    + rewrite Hx. apply weight_of_entry; [done..|]. simpl. rewrite Hm2.
      rewrite decide_False; [done|]. intros [? ?]. apply Hcase. left. lia.
  - destruct Hg2 as [_ Hsq2]. simpl in Hsq2.
    destruct (mat_set_square_total _ m2 b a (Some w) Hsq2) as [m3 E3]; [eauto..|].
    rewrite E3. simpl.
    pose proof (mat_set_square _ _ _ _ _ _ Hsq2 E3) as Hsq3.
    destruct (mat_set_square_entry _ _ _ _ _ _ Hsq2 E3) as (? & ? & ? & ? & Hm3).
    simplify_eq.
    split; [done|]. split; [done|]. intros i j Hi Hj.
    assert (proper (with_matrix g1 m3)) as Hg3 by (split; done).
    destruct (weight_in_range g1 i j Hg1 Hi Hj) as (x & Hx & Hex).
    rewrite <- Hw1 by done.
    case_decide as Hcase.
    + apply weight_of_entry; [done..|]. simpl. rewrite Hm3, Hm2.
      destruct Hcase as [[-> ->]|(_ & -> & ->)].
      * repeat case_decide; try done; tauto.
      * by rewrite decide_True.
    + rewrite Hx. apply weight_of_entry; [done..|]. simpl. rewrite Hm3, Hm2.
      rewrite !decide_False; [done| |]; intros [? ?]; apply Hcase.
      * left. lia.
      * right. split; [done|]. lia.
Qed.

Lemma add_edge_stores_witness :
  let g' := (add_edge 1 4 (7 # 2) triangle).1 in
  (add_edge 1 4 (7 # 2) triangle).2 = Ret tt
  /\ n g' = Z.max (n triangle) (Z.max 1 4 + 1)
  /\ forall i j, 0 <= i < n g' -> 0 <= j < n g' ->
       weight g' i j
       = if decide ((i = 1 /\ j = 4) \/ (graph_type triangle = UNDIRECTED /\ i = 4 /\ j = 1))
         then Ret (Some (7 # 2)%Q) else grown_weight triangle i j.
Proof.
  apply (add_edge_stores 1 4 (7 # 2) triangle); [|lia..].
  split; [simpl; lia|]. split; [reflexivity|]. repeat constructor.
Defined.

(** *** Removing *)

(** X9.  [remove_edge(a, b)] never raises on a well-formed graph.  With both
    vertices in [0, n) it clears the entry [(a, b)], and [(b, a)] too when
    the graph is undirected, and nothing else (with [a = b] the diagonal
    entry itself becomes [None]); with a vertex outside [0, n), negative
    ones included, it changes nothing. *)
Theorem remove_edge_clears (a b : Z) (g : Graph) :
  proper g ->
  let g' := (remove_edge a b g).1 in
  (remove_edge a b g).2 = Ret tt
  /\ n g' = n g
  /\ forall i j, 0 <= i < n g -> 0 <= j < n g ->
       weight g' i j
       = if decide ((0 <= a < n g /\ 0 <= b < n g)
                    /\ ((i = a /\ j = b)
                        \/ (graph_type g = UNDIRECTED /\ i = b /\ j = a)))
         then Ret None else weight g i j.
Proof.
  intros Hg. unfold remove_edge.
  destruct (in_graph g a && in_graph g b) eqn:Hin; simpl.
  2: { split; [done|]. split; [done|]. intros i j Hi Hj.
       rewrite decide_False; [done|]. intros [[Ha Hb] _].
       apply andb_false_iff in Hin as [Hin|Hin];
         apply not_true_iff_false in Hin; apply Hin, in_graph_spec; done. }
  apply andb_true_iff in Hin as [Ha%in_graph_spec Hb%in_graph_spec].
  pose proof Hg as [Hn Hsq].
  assert (norm_index (Z.to_nat (n g)) a = Some (Z.to_nat a)) as Na
    by (apply norm_index_in_range; lia).
  assert (norm_index (Z.to_nat (n g)) b = Some (Z.to_nat b)) as Nb
    by (apply norm_index_in_range; lia).
  destruct (mat_set_square_total _ (adj_matrix g) a b None Hsq) as [m1 E1]; [eauto..|].
  rewrite E1.
  pose proof (proper_mat_set _ _ _ _ _ Hg E1) as Hg1.
  destruct (mat_set_square_entry _ _ _ _ _ _ Hsq E1) as (? & ? & ? & ? & Hm1).
  simplify_eq.
  destruct (graph_type g) eqn:Ht; simpl.
  - split; [done|]. split; [done|]. intros i j Hi Hj.
    destruct (weight_in_range g i j Hg Hi Hj) as (x & Hx & Hex).
    destruct (decide _) as [[_ Hcase]|Hcase].
    + destruct Hcase as [[-> ->]|[? _]]; [|done].
      apply weight_of_entry; [done..|]. simpl. rewrite Hm1. by rewrite decide_True.
    + rewrite Hx. apply weight_of_entry; [done..|]. simpl. rewrite Hm1.
      rewrite decide_False; [done|]. intros [? ?]. apply Hcase.
      split; [done|]. left. lia.
  - destruct Hg1 as [_ Hsq1]. simpl in Hsq1.
    destruct (mat_set_square_total _ m1 b a None Hsq1) as [m2 E2]; [eauto..|].
    rewrite E2. simpl.
    pose proof (mat_set_square _ _ _ _ _ _ Hsq1 E2) as Hsq2.
    destruct (mat_set_square_entry _ _ _ _ _ _ Hsq1 E2) as (? & ? & ? & ? & Hm2).
    simplify_eq.
    split; [done|]. split; [done|]. intros i j Hi Hj.
    assert (proper (with_matrix g m2)) as Hg2 by (split; done).
    destruct (weight_in_range g i j Hg Hi Hj) as (x & Hx & Hex).
    destruct (decide _) as [[_ Hcase]|Hcase].
    + apply weight_of_entry; [done..|]. simpl. rewrite Hm2, Hm1.
      destruct Hcase as [[-> ->]|(_ & -> & ->)].
      * repeat case_decide; try done; tauto.
      * by rewrite decide_True.
    + rewrite Hx. apply weight_of_entry; [done..|]. simpl. rewrite Hm2, Hm1.
      rewrite !decide_False; [done| |]; intros [? ?]; apply Hcase;
        (split; [done|]).
      * left. lia.
      * right. split; [done|]. lia.
Qed.

Lemma remove_edge_clears_witness :
  let g' := (remove_edge 1 2 triangle).1 in
  (remove_edge 1 2 triangle).2 = Ret tt
  /\ n g' = n triangle
  /\ forall i j, 0 <= i < n triangle -> 0 <= j < n triangle ->
       weight g' i j
       = if decide ((0 <= 1 < n triangle /\ 0 <= 2 < n triangle)
                    /\ ((i = 1 /\ j = 2)
                        \/ (graph_type triangle = UNDIRECTED /\ i = 2 /\ j = 1)))
         then Ret None else weight triangle i j.
Proof.
  apply (remove_edge_clears 1 2 triangle).
  split; [simpl; lia|]. split; [reflexivity|]. repeat constructor.
Defined.

(** X10.  [remove_vertex(a)] never raises on a well-formed graph.  With [a]
    outside [0, n) it changes nothing; otherwise the graph has one vertex
    less, the vertices above [a] are renumbered one down, and every
    remaining pair keeps its weight. *)
Theorem remove_vertex_shifts (a : Z) (g : Graph) :
  proper g ->
  (~ 0 <= a < n g -> remove_vertex a g = (g, Ret tt))
  /\ (0 <= a < n g ->
      let g' := (remove_vertex a g).1 in
      (remove_vertex a g).2 = Ret tt
      /\ proper g' /\ n g' = n g - 1
      /\ forall i j, 0 <= i < n g' -> 0 <= j < n g' ->
           weight g' i j = weight g (before_removal a i) (before_removal a j)).
Proof.
  intros Hg. split.
  - intros Ha. unfold remove_vertex.
    destruct (in_graph g a) eqn:E; [|done]. by apply in_graph_spec in E.
  - intros Ha g'. pose proof (proper_remove_vertex a g Hg) as Hg'. fold g' in Hg'.
    unfold g' in *. clear g'.
    rewrite remove_vertex_in_range in * by auto using proper_consistent. simpl.
    split; [done|]. split; [done|]. split; [done|].
    intros i j Hi Hj. unfold before_removal.
    apply weight_transfer; [done..|repeat case_decide; lia|repeat case_decide; lia
                            |simpl; lia|simpl; lia|].
    simpl. rewrite remove_vertex_entry. unfold bump. f_equal.
    + repeat case_decide; lia.
    + repeat case_decide; lia.
Qed.

Lemma remove_vertex_shifts_witness :
  (~ 0 <= 0 < n triangle -> remove_vertex 0 triangle = (triangle, Ret tt))
  /\ (0 <= 0 < n triangle ->
      let g' := (remove_vertex 0 triangle).1 in
      (remove_vertex 0 triangle).2 = Ret tt
      /\ proper g' /\ n g' = n triangle - 1
      /\ forall i j, 0 <= i < n g' -> 0 <= j < n g' ->
           weight g' i j = weight triangle (before_removal 0 i) (before_removal 0 j)).
Proof.
  apply (remove_vertex_shifts 0 triangle).
  split; [simpl; lia|]. split; [reflexivity|]. repeat constructor.
Defined.

Lemma entry_outside N (m : matrix) i j :
  is_square N m -> ~ (i < N /\ j < N)%nat -> entry m i j = None.
Proof.
  intros [Hl Hr] Hout. unfold entry.
  destruct (m !! i) as [row|] eqn:E; [simpl|done].
  pose proof (Forall_lookup_1 _ _ _ _ Hr E) as Hlen. simpl in Hlen.
  apply lookup_lt_Some in E. apply lookup_ge_None. lia.
Qed.

(** X11.  Adding the next vertex and removing it again restores the graph:
    [add_vertex(n)] followed by [remove_vertex(n)] leaves the object as it
    was. *)
Theorem add_remove_vertex_restores (g : Graph) :
  proper g -> remove_vertex (n g) (add_vertex (n g) g).1 = (g, Ret tt).
Proof.
  intros Hg.
  destruct (add_vertex_spec (n g) g Hg) as (_ & Hg1 & Ht1 & Hn1 & _).
  pose proof Hg as [Hn Hsq].
  rewrite remove_vertex_in_range by (auto using proper_consistent || lia).
  rewrite Ht1, Hn1. f_equal. destruct g as [t k m]. simpl in *.
  replace (Z.max k (k + 1) - 1) with k by lia. f_equal.
  apply (matrix_ext (Z.to_nat k)); [|done|].
  - pose proof (proper_remove_vertex k _ Hg1) as [_ Hsq'].
    rewrite remove_vertex_in_range in Hsq' by (auto using proper_consistent || lia).
    simpl in Hsq'. rewrite Hn1 in Hsq'.
    by replace (Z.to_nat (Z.max k (k + 1) - 1)) with (Z.to_nat k) in Hsq' by lia.
  - intros i j. rewrite remove_vertex_entry.
    pose proof (add_vertex_entry k (mkGraph t k m) (bump (Z.to_nat k) i)
                  (bump (Z.to_nat k) j) Hg) as E. simpl in E.
    rewrite E by lia. unfold bump.
    destruct (decide (i < Z.to_nat k /\ j < Z.to_nat k)%nat) as [[Hi Hj]|Hout].
    + rewrite !(decide_True (P := (_ < _)%nat)) by lia.
      by rewrite decide_True by lia.
    + rewrite (entry_outside _ m i j Hsq Hout).
      rewrite decide_False by (repeat case_decide; lia).
      rewrite decide_False by (repeat case_decide; lia). done.
Qed.

Lemma add_remove_vertex_restores_witness :
  remove_vertex (n triangle) (add_vertex (n triangle) triangle).1 = (triangle, Ret tt).
Proof.
  apply (add_remove_vertex_restores triangle).
  split; [simpl; lia|]. split; [reflexivity|]. repeat constructor.
Defined.

(** *** Indices outside the graph *)

Lemma norm_index_negative len i :
  - Z.of_nat len <= i < 0 -> norm_index len i = Some (Z.to_nat (Z.of_nat len + i)).
Proof.
  intros Hi. unfold norm_index.
  destruct (Z.leb_spec 0 i); [lia|]. by destruct (Z.leb_spec (- Z.of_nat len) i); [|lia].
Qed.

Lemma norm_index_outside len i :
  ~ - Z.of_nat len <= i < Z.of_nat len -> norm_index len i = None.
Proof.
  intros Hi. destruct (norm_index len i) as [k|] eqn:E; [|done].
  apply norm_index_range in E. lia.
Qed.

Lemma mat_set_outside N (m : matrix) a b x :
  is_square N m ->
  ~ (- Z.of_nat N <= a < Z.of_nat N /\ - Z.of_nat N <= b < Z.of_nat N) ->
  mat_set m a b x = Raise IndexError.
Proof.
  intros [Hl Hr] Hout. unfold mat_set, py_get. rewrite Hl.
  destruct (norm_index N a) as [i|] eqn:Ea; [|done].
  pose proof (norm_index_range _ _ _ Ea) as Ha.
  destruct (lookup_lt_is_Some_2 m i) as [row Hrow].
  { apply norm_index_lt in Ea. lia. }
  rewrite Hrow. simpl. unfold py_set.
  rewrite (Forall_lookup_1 _ _ _ _ Hr Hrow).
  rewrite (norm_index_outside N b) by lia. reflexivity.
Qed.

(** X12.  [add_edge] takes a negative vertex number as a Python subscript.
    With [0 <= b < n] and [-n <= a < 0] the call returns normally and
    stores the weight for vertex [n + a] (and for the pair reversed when the
    graph is undirected), leaving [n] as it is; with [a < -n] it raises
    [IndexError] and changes nothing. *)
Theorem add_edge_negative_index (a b : Z) (w : Q) (g : Graph) :
  proper g -> a < 0 -> 0 <= b < n g ->
  (a < - n g -> add_edge a b w g = (g, Raise IndexError))
  /\ (- n g <= a ->
      let g' := (add_edge a b w g).1 in
      (add_edge a b w g).2 = Ret tt
      /\ n g' = n g
      /\ forall i j, 0 <= i < n g -> 0 <= j < n g ->
           weight g' i j
           = if decide ((i = n g + a /\ j = b)
                        \/ (graph_type g = UNDIRECTED /\ i = b /\ j = n g + a))
             then Ret (Some w) else weight g i j).
Proof.
  intros Hg Ha Hb. pose proof Hg as [Hn Hsq]. unfold add_edge.
  destruct (Z.leb_spec (n g) (Z.max a b)); [lia|]. split.
  - intros Hlow. rewrite (mat_set_outside _ _ _ _ _ Hsq); [done|]. lia.
  - intros Hlow.
    assert (norm_index (Z.to_nat (n g)) a = Some (Z.to_nat (n g + a))) as Na.
    { rewrite norm_index_negative by lia. f_equal. lia. }
    assert (norm_index (Z.to_nat (n g)) b = Some (Z.to_nat b)) as Nb
      by (apply norm_index_in_range; lia).
    destruct (mat_set_square_total _ (adj_matrix g) a b (Some w) Hsq) as [m1 E1];
      [eauto..|].
    rewrite E1.
    pose proof (proper_mat_set _ _ _ _ _ Hg E1) as Hg1.
    destruct (mat_set_square_entry _ _ _ _ _ _ Hsq E1) as (? & ? & ? & ? & Hm1).
    simplify_eq.
    destruct (graph_type g) eqn:Ht; simpl.
    + split; [done|]. split; [done|]. intros i j Hi Hj.
      destruct (weight_in_range g i j Hg Hi Hj) as (x & Hx & Hex).
      destruct (decide _) as [Hcase|Hcase].
      * destruct Hcase as [[-> ->]|[? _]]; [|done].
        apply weight_of_entry; [done..|]. simpl. rewrite Hm1. by rewrite decide_True.
      * rewrite Hx. apply weight_of_entry; [done..|]. simpl. rewrite Hm1.
        rewrite decide_False; [done|]. intros [? ?]. apply Hcase. left. lia.
    + destruct Hg1 as [_ Hsq1]. simpl in Hsq1.
      destruct (mat_set_square_total _ m1 b a (Some w) Hsq1) as [m2 E2]; [eauto..|].
      rewrite E2. simpl.
      pose proof (mat_set_square _ _ _ _ _ _ Hsq1 E2) as Hsq2.
      destruct (mat_set_square_entry _ _ _ _ _ _ Hsq1 E2) as (? & ? & ? & ? & Hm2).
      simplify_eq.
      split; [done|]. split; [done|]. intros i j Hi Hj.
      assert (proper (with_matrix g m2)) as Hg2 by (split; done).
      destruct (weight_in_range g i j Hg Hi Hj) as (x & Hx & Hex).
      destruct (decide _) as [Hcase|Hcase].
      * apply weight_of_entry; [done..|]. simpl. rewrite Hm2, Hm1.
        destruct Hcase as [[-> ->]|(_ & -> & ->)].
        -- repeat case_decide; try done; tauto.
        -- by rewrite decide_True.
      * rewrite Hx. apply weight_of_entry; [done..|]. simpl. rewrite Hm2, Hm1.
        rewrite !decide_False; [done| |]; intros [? ?]; apply Hcase.
        -- left. lia.
        -- right. split; [done|]. lia.
Qed.

Lemma add_edge_negative_index_witness :
  (-1 < - n triangle -> add_edge (-1) 0 5 triangle = (triangle, Raise IndexError))
  /\ (- n triangle <= -1 ->
      let g' := (add_edge (-1) 0 5 triangle).1 in
      (add_edge (-1) 0 5 triangle).2 = Ret tt
      /\ n g' = n triangle
      /\ forall i j, 0 <= i < n triangle -> 0 <= j < n triangle ->
           weight g' i j
           = if decide ((i = n triangle + -1 /\ j = 0)
                        \/ (graph_type triangle = UNDIRECTED /\ i = 0
                            /\ j = n triangle + -1))
             then Ret (Some 5%Q) else weight triangle i j).
Proof.
  apply (add_edge_negative_index (-1) 0 5 triangle); [|lia|simpl; lia].
  split; [simpl; lia|]. split; [reflexivity|]. repeat constructor.
Defined.

(** X13.  [is_edge(a, b)] never raises on a well-formed graph.  It is true
    exactly when [a] and [b] are distinct vertices of the graph with a
    weight stored for [(a, b)]; in particular it is false for [a = b] and
    for numbers outside [0, n).  On an undirected graph [is_edge(b, a)]
    gives the same answer. *)
Theorem is_edge_characterised (g : Graph) (a b : Z) :
  well_formed g ->
  exists e,
    is_edge g a b = Ret e
    /\ (e = true <-> exists w, stored g a b w)
    /\ (graph_type g = UNDIRECTED -> is_edge g b a = Ret e).
Proof.
  intros [Hg Hsym]. unfold is_edge, stored.
  destruct (decide (0 <= a < n g /\ 0 <= b < n g)) as [[Ha Hb]|Hout].
  - destruct (weight_in_range g a b Hg Ha Hb) as (x & Hx & Hex).
    destruct (weight_in_range g b a Hg Hb Ha) as (y & Hy & Hey).
    rewrite Hx. simpl. eexists. split; [done|]. split.
    + rewrite andb_true_iff, bool_decide_eq_true, negb_true_iff, Z.eqb_neq. split.
      * intros [Hsome Hab]. destruct x as [w|]; [|done]. exists w. done.
      * intros (w & _ & _ & Hab & [= ->]). done.
    + intros Ht. rewrite Hy. simpl.
      rewrite (Hsym Ht) in Hex. rewrite Hex in Hey. injection Hey as ->.
      by rewrite (Z.eqb_sym b a).
  - assert (in_graph g a && in_graph g b = false) as E.
    { apply not_true_iff_false. rewrite andb_true_iff, !in_graph_spec. tauto. }
    assert (in_graph g b && in_graph g a = false) as E'
      by (by rewrite andb_comm).
    unfold weight. rewrite E, E'. simpl. exists false. split; [done|]. split; [|done].
    split; [done|]. intros (w & ? & ? & _). tauto.
Qed.

Lemma is_edge_characterised_witness :
  exists e,
    is_edge one_edge 0 1 = Ret e
    /\ (e = true <-> exists w, stored one_edge 0 1 w)
    /\ (graph_type one_edge = UNDIRECTED -> is_edge one_edge 1 0 = Ret e).
Proof.
  apply (is_edge_characterised one_edge 0 1). split.
  - split; [simpl; lia|]. split; [reflexivity|]. repeat constructor.
  - intros _ i j. destruct i as [|[|i]], j as [|[|j]]; reflexivity.
Defined.

(** *** Loading *)

Lemma for_each_app {A S} (body : A -> S -> outcome S) xs ys s :
  for_each (xs ++ ys) body s = (s' ← for_each xs body s; for_each ys body s').
Proof.
  revert s. induction xs as [|x xs IH]; intros s; simpl; [done|].
  destruct (body x s); simpl; [apply IH|done..].
Qed.

Lemma load_edge_total N t e (m : matrix) :
  is_square N m ->
  - Z.of_nat N <= e.1.1 < Z.of_nat N -> - Z.of_nat N <= e.1.2 < Z.of_nat N ->
  exists m', load_edge t e m = Ret m' /\ is_square N m'.
Proof.
  intros Hsq Ha Hb. destruct e as [[a b] w]. simpl in *. unfold load_edge.
  destruct (mat_set_square_total _ m a b (Some w) Hsq) as [m1 E1];
    [by apply norm_index_is_Some..|].
  rewrite E1. simpl. pose proof (mat_set_square _ _ _ _ _ _ Hsq E1) as Hsq1.
  destruct (is_undirected t); [|eauto].
  destruct (mat_set_square_total _ m1 b a (Some w) Hsq1) as [m2 E2];
    [by apply norm_index_is_Some..|].
  rewrite E2. eauto using mat_set_square.
Qed.

(** X14.  Loading a graph of [n >= 0] vertices returns when every edge line
    names vertices in [-n, n) (a negative number counts from the end), and
    raises [IndexError] at the first line that names a vertex outside that
    range. *)
Theorem Graph_load_checks (t : GraphOrientationType) (size : Z)
    (edges : list (Z * Z * Q)) :
  0 <= size ->
  let fits (e : Z * Z * Q) := - size <= e.1.1 < size /\ - size <= e.1.2 < size in
  (Forall fits edges ->
   exists g, Graph_load t size edges = Ret g /\ n g = size /\ proper g)
  /\ (forall pre e post,
        edges = pre ++ e :: post -> Forall fits pre -> ~ fits e ->
        Graph_load t size edges = Raise IndexError).
Proof.
  intros Hsize fits.
  destruct (empty_matrix_total size Hsize) as [m0 Hm0].
  pose proof (empty_matrix_symmetric _ _ Hm0) as [Hsq0 _].
  assert (forall es (m : matrix),
            is_square (Z.to_nat size) m -> Forall fits es ->
            exists m', for_each es (load_edge t) m = Ret m'
                       /\ is_square (Z.to_nat size) m') as Hok.
  { intros es m Hsq Hes.
    apply (for_each_total (is_square (Z.to_nat size))); [|done].
    intros e s He Hs. rewrite Forall_forall in Hes. destruct (Hes e He) as [Ha Hb].
    apply load_edge_total; [done|lia..]. }
  unfold Graph_load. rewrite Hm0. simpl. split.
  - intros Hfits. destruct (Hok edges m0 Hsq0 Hfits) as (m' & -> & Hsq'). simpl.
    eexists. split; [done|]. split; [done|]. by split.
  - intros pre e post -> Hpre Hbad.
    destruct (Hok pre m0 Hsq0 Hpre) as (m' & Hrun & Hsq').
    rewrite for_each_app, Hrun. simpl.
    destruct e as [[a b] w]. unfold load_edge.
    rewrite (mat_set_outside _ _ _ _ _ Hsq'); [done|].
    unfold fits in Hbad. simpl in Hbad. lia.
Qed.

Lemma Graph_load_checks_witness :
  (exists g, Graph_load DIRECTED 2 [(0, 1, 5%Q); (-1, 0, 1%Q)] = Ret g
             /\ n g = 2 /\ proper g)
  /\ Graph_load DIRECTED 2 [(0, 1, 5%Q); (0, 2, 1%Q); (1, 0, 1%Q)] = Raise IndexError.
Proof.
  split.
  - apply (Graph_load_checks DIRECTED 2 [(0, 1, 5%Q); (-1, 0, 1%Q)]); [lia|].
    repeat constructor; simpl; lia.
  - apply (Graph_load_checks DIRECTED 2 [(0, 1, 5%Q); (0, 2, 1%Q); (1, 0, 1%Q)]
             ltac:(lia)) with (pre := [(0, 1, 5%Q)]) (e := (0, 2, 1%Q))
                              (post := [(1, 0, 1%Q)]).
    + reflexivity.
    + repeat constructor; simpl; lia.
    + simpl. lia.
Defined.

(** *** Listing the edges *)

Lemma list_edge_spec g both i j (edges : list (Z * Z * Q)) :
  proper g -> 0 <= i < n g -> 0 <= j < n g ->
  exists x,
    weight g i j = Ret x
    /\ list_edge g both i j edges
       = Ret (edges ++ match x with
                       | Some w =>
                           if decide (i = j) then []
                           else (i, j, w) :: (if both then [(j, i, w)] else [])
                       | None => []
                       end).
Proof.
  intros Hg Hi Hj. destruct (weight_in_range g i j Hg Hi Hj) as (x & Hx & _).
  exists x. split; [done|]. unfold list_edge. unfold weight in Hx.
  rewrite (proj2 (in_graph_spec g i)), (proj2 (in_graph_spec g j)) in Hx by done.
  simpl in Hx. rewrite Hx. simpl. destruct x as [w|]; [|by rewrite app_nil_r].
  destruct (Z.eqb_spec i j); simpl.
  - rewrite decide_True by done. by rewrite app_nil_r.
  - by rewrite decide_False by done.
Qed.

Lemma py_range_split_lt lo hi pre x post :
  py_range lo hi = pre ++ x :: post -> forall y, y ∈ pre -> y < x.
Proof.
  unfold py_range. intros H y [k Hk]%list_elem_of_lookup.
  assert (seqZ lo (hi - lo) !! k = Some y) as Hy
    by (rewrite H; by apply lookup_app_l_Some).
  assert (seqZ lo (hi - lo) !! length pre = Some x) as Hx
    by (rewrite H; apply list_lookup_middle; done).
  apply lookup_seqZ in Hy as [-> _]. apply lookup_seqZ in Hx as [-> _].
  apply lookup_lt_Some in Hk. lia.
Qed.

(** What one pass over [j] appends for row [i]. *)
Lemma list_row_spec g both i lo (edges : list (Z * Z * Q)) :
  proper g -> 0 <= i < n g -> 0 <= lo ->
  exists l,
    for_each (py_range lo (n g)) (list_edge g both i) edges = Ret (edges ++ l)
    /\ NoDup l
    /\ forall t, t ∈ l <->
         exists j w, lo <= j < n g /\ stored g i j w
                     /\ (t = (i, j, w) \/ (both = true /\ t = (j, i, w))).
Proof.
  intros Hg Hi Hlo.
  destruct (for_each_prefix_total
    (fun pre (acc : list (Z * Z * Q)) =>
       exists l, acc = edges ++ l /\ NoDup l
         /\ forall t, t ∈ l <->
              exists j w, j ∈ pre /\ stored g i j w
                          /\ (t = (i, j, w) \/ (both = true /\ t = (j, i, w))))
    (list_edge g both i) (py_range lo (n g))) with (s := edges)
    as (acc & Hrun & l & -> & Hnd & Hl).
  - intros pre j post acc Hsplit (l & -> & Hnd & Hl).
    assert (lo <= j < n g) as Hj.
    { assert (j ∈ py_range lo (n g)) as Hin
        by (rewrite Hsplit, elem_of_app; right; by left).
      apply elem_of_seqZ in Hin. lia. }
    assert (j ∉ pre) as Hjpre.
    { pose proof (NoDup_seqZ lo (n g - lo)) as Hnd'. fold (py_range lo (n g)) in Hnd'.
      rewrite Hsplit in Hnd'. apply NoDup_app in Hnd' as (_ & Hnd' & _).
      intros Hin. apply (Hnd' j Hin). by left. }
    destruct (list_edge_spec g both i j (edges ++ l) Hg Hi) as (x & Hx & ->); [lia|].
    eexists. split; [done|]. rewrite <- app_assoc. eexists. split; [done|].
    assert (forall t, t ∈ l -> exists j' w', j' ∈ pre /\ i <> j'
              /\ (t = (i, j', w') \/ t = (j', i, w'))) as Hold.
    { intros t (j' & w' & ? & (_ & _ & ? & _) & [?|[_ ?]])%Hl; eauto 6. }
    destruct x as [w|]; [destruct (decide (i = j)) as [->|Hij]|].
    + rewrite app_nil_r. split; [done|]. intros t. rewrite Hl. split.
      * intros (j' & w' & ? & ? & ?). exists j', w'. rewrite elem_of_app. auto.
      * intros (j' & w' & [?| ->%list_elem_of_singleton]%elem_of_app & Hst & ?);
          [eauto|]. by destruct Hst as (_ & _ & ? & _).
    + assert (stored g i j w) as Hst by (split; [done|split; [lia|done]]).
      split.
      * apply NoDup_app. split; [done|]. split.
        -- intros t (j' & w' & Hj' & Hne & Ht)%Hold Hin.
           destruct both; rewrite ?elem_of_cons, ?elem_of_nil in Hin;
             destruct Ht as [-> | ->]; destruct Hin as [Hin|Hin]; try done;
             try destruct Hin as [Hin|Hin]; try done; simplify_eq; done.
        -- destruct both; [|apply NoDup_singleton].
           apply NoDup_cons. split; [|apply NoDup_singleton].
           intros Heq%list_elem_of_singleton. congruence.
      * intros t. rewrite elem_of_app, Hl. split.
        -- intros [(j' & w' & ? & ? & ?)|Hin].
           ++ exists j', w'. rewrite elem_of_app. auto.
           ++ exists j, w. rewrite elem_of_app. split; [right; by left|].
              split; [done|].
              destruct both; rewrite ?elem_of_cons, ?elem_of_nil in Hin;
                [destruct Hin as [->|[->|[]]]|destruct Hin as [->|[]]]; auto.
        -- intros (j' & w' & [?| ->%list_elem_of_singleton]%elem_of_app & Hst' & Ht).
           ++ left. eauto.
           ++ right. destruct Hst as (_ & _ & _ & Hw), Hst' as (_ & _ & _ & Hw').
              rewrite Hw in Hw'. injection Hw' as <-.
              destruct Ht as [->|[-> ->]]; [by left|]. right. by left.
    + rewrite app_nil_r. split; [done|]. intros t. rewrite Hl. split.
      * intros (j' & w' & ? & ? & ?). exists j', w'. rewrite elem_of_app. auto.
      * intros (j' & w' & [?| ->%list_elem_of_singleton]%elem_of_app & Hst & ?);
          [eauto|]. destruct Hst as (_ & _ & _ & Hw). rewrite Hx in Hw. done.
  - exists []. rewrite app_nil_r. split; [done|]. split; [constructor|].
    intros t. split; [by intros ?%elem_of_nil|].
    by intros (j & w & ?%elem_of_nil & _).
  - exists l. split; [done|]. split; [done|]. intros t. rewrite Hl.
    split; intros (j & w & Hj & ? & ?); exists j, w; (split; [|done]).
    + apply elem_of_seqZ in Hj. lia.
    + apply elem_of_seqZ. lia.
Qed.

(** X15.  On a well-formed graph [list_of_edges(a)] never raises and lists,
    each once, exactly the triples [(a, j, w)] with [j <> a] a vertex and
    [w] the weight stored for [(a, j)]; for [a] outside [0, n) the list is
    empty. *)
Theorem list_of_edges_from (g : Graph) (a : Z) :
  proper g ->
  exists l,
    list_of_edges g (Some a) = Ret l
    /\ NoDup l
    /\ forall i j w, (i, j, w) ∈ l <-> i = a /\ stored g a j w.
Proof.
  intros Hg. unfold list_of_edges.
  destruct (in_graph g a) eqn:Ha.
  - apply in_graph_spec in Ha.
    destruct (list_row_spec g false a 0 [] Hg Ha) as (l & -> & Hnd & Hl); [lia|].
    exists l. split; [done|]. split; [done|]. intros i j w. rewrite Hl. split.
    + intros (j' & w' & _ & Hst & [[= -> -> ->]|[? _]]); done.
    + intros [-> Hst]. exists j, w. destruct Hst as (? & ? & ? & ?).
      split; [lia|]. split; [done|]. by left.
  - exists []. split; [done|]. split; [constructor|]. intros i j w. split.
    + by intros ?%elem_of_nil.
    + intros [_ (Hr & _)]. apply in_graph_spec in Hr. congruence.
Qed.

Lemma list_of_edges_from_witness :
  exists l,
    list_of_edges triangle (Some 1) = Ret l
    /\ NoDup l
    /\ forall i j w, (i, j, w) ∈ l <-> i = 1 /\ stored triangle 1 j w.
Proof.
  apply (list_of_edges_from triangle 1).
  split; [simpl; lia|]. split; [reflexivity|]. repeat constructor.
Defined.

Lemma stored_symmetric g i j w :
  well_formed g -> graph_type g = UNDIRECTED -> stored g i j w -> stored g j i w.
Proof.
  intros [Hg Hsym] Ht (Hi & Hj & Hij & Hw).
  split; [done|]. split; [done|]. split; [done|].
  rewrite <- Hw. apply weight_transfer; [done..|]. apply (Hsym Ht).
Qed.

(** X16.  On a well-formed graph [list_of_edges()] never raises and lists,
    each once, exactly the triples [(i, j, w)] with [i <> j] vertices and
    [w] the weight stored for [(i, j)]; an edge of an undirected graph is
    thus listed in both directions. *)
Theorem list_of_edges_all (g : Graph) :
  well_formed g ->
  exists l,
    list_of_edges g None = Ret l
    /\ NoDup l
    /\ forall i j w, (i, j, w) ∈ l <-> stored g i j w.
Proof.
  intros Hwf. pose proof Hwf as [Hg Hsym]. unfold list_of_edges.
  remember (is_undirected (graph_type g)) as both eqn:Eboth.
  set (min_j := fun i : Z => if both then i + 1 else 0).
  destruct (for_each_prefix_total
    (fun pre (acc : list (Z * Z * Q)) =>
       NoDup acc
       /\ forall t, t ∈ acc <->
            exists i j w, i ∈ pre /\ min_j i <= j < n g /\ stored g i j w
                          /\ (t = (i, j, w) \/ (both = true /\ t = (j, i, w))))
    (fun i edges =>
       for_each (py_range (min_j i) (n g)) (list_edge g both i) edges)
    (py_range 0 (n g))) with (s := @nil (Z * Z * Q)) as (l & Hrun & Hnd & Hl).
  - intros pre i post acc Hsplit [Hnd Hacc].
    assert (0 <= i < n g) as Hi.
    { assert (i ∈ py_range 0 (n g)) as Hin
        by (rewrite Hsplit, elem_of_app; right; by left).
      apply elem_of_seqZ in Hin. lia. }
    assert (i ∉ pre) as Hipre.
    { pose proof (NoDup_seqZ 0 (n g - 0)) as Hnd'. fold (py_range 0 (n g)) in Hnd'.
      rewrite Hsplit in Hnd'. apply NoDup_app in Hnd' as (_ & Hnd' & _).
      intros Hin. apply (Hnd' i Hin). by left. }
    pose proof (py_range_split_lt _ _ _ _ _ Hsplit) as Hbelow.
    destruct (list_row_spec g both i (min_j i) acc Hg Hi) as (l & -> & Hndl & Hrow).
    { unfold min_j. destruct both; lia. }
    eexists. split; [done|]. split.
    + apply NoDup_app. split; [done|]. split; [|done].
      intros t (i' & j' & w' & Hi' & Hj' & Hst' & Ht')%Hacc
               (j & w & Hj & Hst & Ht)%Hrow.
      specialize (Hbelow i' Hi'). unfold min_j in Hj, Hj'. clear Hacc Hrow.
      destruct Ht as [->|[Hb ->]], Ht' as [Ht'|[Hb' Ht']];
        injection Ht' as ? ? ?; try rewrite Hb in *; try rewrite Hb' in *; lia.
    + intros t. rewrite elem_of_app, Hacc, Hrow. split.
      * intros [(i' & j' & w' & ? & ? & ? & ?)|(j & w & ? & ? & ?)].
        -- exists i', j', w'. rewrite elem_of_app. auto.
        -- exists i, j, w. rewrite elem_of_app. split; [right; by left|done].
      * intros (i' & j' & w' & [?| ->%list_elem_of_singleton]%elem_of_app & ? & ? & ?).
        -- left. eauto 8.
        -- right. eauto.
  - split; [constructor|]. intros t. split; [by intros ?%elem_of_nil|].
    by intros (i & j & w & ?%elem_of_nil & _).
  - exists l. split; [done|]. split; [done|]. intros a b w. rewrite Hl. split.
    + intros (i & j & w' & _ & Hj & Hst & [[= -> -> ->]|[Hb [= -> -> ->]]]); [done|].
      apply stored_symmetric; [done| |done].
      rewrite Hb in Eboth. by destruct (graph_type g).
    + intros Hst. pose proof Hst as (Ha & Hb & Hab & _).
      assert (forall i, 0 <= i < n g -> i ∈ py_range 0 (n g)) as Hin
        by (intros i ?; apply elem_of_seqZ; lia).
      unfold min_j. destruct both.
      * destruct (decide (a < b)).
        -- exists a, b, w. split; [auto|]. split; [lia|]. split; [done|]. by left.
        -- exists b, a, w. split; [auto|]. split; [lia|]. split; [|by right].
           apply stored_symmetric; [done| |done].
           by destruct (graph_type g).
      * exists a, b, w. split; [auto|]. split; [lia|]. split; [done|]. by left.
Qed.

Lemma list_of_edges_all_witness :
  exists l,
    list_of_edges one_edge None = Ret l
    /\ NoDup l
    /\ forall i j w, (i, j, w) ∈ l <-> stored one_edge i j w.
Proof.
  apply (list_of_edges_all one_edge). split.
  - split; [simpl; lia|]. split; [reflexivity|]. repeat constructor.
  - intros _ i j. destruct i as [|[|i]], j as [|[|j]]; reflexivity.
Defined.

End GraphProps.

(** ** [src/3/graph.py]: connected components *)

Module ComponentsFacts.
Import GraphStore GraphSpec GraphQueries GraphVocabulary PyFacts GraphFacts GraphProps.
Import Components ComponentsVocabulary MatchingSpec MatchingFacts.

Lemma pop_last_nil {A} : pop_last (@nil A) = None.
Proof. done. Qed.

Lemma pop_last_snoc {A} (q : list A) v : pop_last (q ++ [v]) = Some (q, v).
Proof. unfold pop_last. by rewrite reverse_snoc, reverse_involutive. Qed.

Lemma pop_last_cases {A} (q : list A) :
  (q = [] /\ pop_last q = None) \/ exists q' v, q = q' ++ [v] /\ pop_last q = Some (q', v).
Proof.
  destruct q as [|x q] using rev_ind; [by left|].
  right. exists q, x. by rewrite pop_last_snoc.
Qed.

Lemma linked_sym g v u : linked g v u -> linked g u v.
Proof. intros [w [?|?]]; exists w; auto. Qed.

Lemma connected_sym g v u : connected g v u -> connected g u v.
Proof.
  induction 1 as [|x y z Hxy _ IH]; [done|].
  eapply rtc_trans; [done|]. by apply rtc_once, linked_sym.
Qed.

Lemma linked_range g v u : linked g v u -> (0 <= v < n g /\ 0 <= u < n g) /\ v <> u.
Proof. intros [w [(? & ? & ? & _)|(? & ? & ? & _)]]; auto. Qed.

(** What the test in [push_neighbour] decides. *)
Lemma push_neighbour_spec g v u q :
  proper g -> 0 <= v < n g -> 0 <= u < n g ->
  exists b, push_neighbour g v u q = Ret (if b : bool then q ++ [u] else q)
            /\ (b = true <-> linked g v u).
Proof.
  intros Hg Hv Hu.
  destruct (weight_in_range g v u Hg Hv Hu) as (a & Ha & _).
  destruct (weight_in_range g u v Hg Hu Hv) as (b & Hb & _).
  pose proof Ha as Ha'. pose proof Hb as Hb'.
  unfold weight in Ha', Hb'.
  rewrite (proj2 (in_graph_spec g v)), (proj2 (in_graph_spec g u)) in Ha', Hb' by done.
  simpl in Ha', Hb'. unfold push_neighbour. rewrite Ha'. simpl.
  assert (forall w, stored g v u w <-> v <> u /\ a = Some w) as Sa.
  { intros w. unfold stored. rewrite Ha. split; [intros (_ & _ & ? & [= ->])|intros [? ->]]; done. }
  assert (forall w, stored g u v w <-> v <> u /\ b = Some w) as Sb.
  { intros w. unfold stored. rewrite Hb.
    split; [intros (_ & _ & ? & [= ->])|intros [? ->]]; done. }
  destruct a as [wa|]; simpl.
  - exists (negb (v =? u)). split; [done|].
    rewrite negb_true_iff, Z.eqb_neq. split.
    + intros Hne. exists wa. left. by apply Sa.
    + by intros [_ ?]%linked_range.
  - rewrite Hb'. simpl. destruct b as [wb|]; simpl.
    + exists (negb (v =? u)). split; [done|].
      rewrite negb_true_iff, Z.eqb_neq. split.
      * intros Hne. exists wb. right. by apply Sb.
      * by intros [_ ?]%linked_range.
    + exists false. split; [done|]. split; [done|].
      intros [w [[_ [=]]%Sa|[_ [=]]%Sb]].
Qed.

(** The pass over [u] pushes exactly the vertices linked to [v]. *)
Lemma push_all_spec g v q :
  proper g -> 0 <= v < n g ->
  exists new,
    for_each (py_range 0 (n g)) (push_neighbour g v) q = Ret (q ++ new)
    /\ (length new <= Z.to_nat (n g))%nat
    /\ forall u, u ∈ new <-> linked g v u.
Proof.
  intros Hg Hv.
  destruct (for_each_prefix_total
    (fun pre (acc : list Z) =>
       exists new, acc = q ++ new /\ (length new <= length pre)%nat
         /\ forall u, u ∈ new <-> u ∈ pre /\ linked g v u)
    (push_neighbour g v) (py_range 0 (n g))) with (s := q)
    as (acc & Hrun & new & -> & Hlen & Hnew).
  - intros pre u post acc Hsplit (new & -> & Hlen & Hnew).
    assert (0 <= u < n g) as Hu.
    { assert (u ∈ py_range 0 (n g)) as Hin
        by (rewrite Hsplit, elem_of_app; right; by left).
      apply elem_of_seqZ in Hin. lia. }
    destruct (push_neighbour_spec g v u (q ++ new) Hg Hv Hu) as (b & -> & Hb).
    eexists. split; [done|]. destruct b.
    + exists (new ++ [u]). rewrite app_assoc. split; [done|].
      rewrite !length_app. simpl. split; [lia|].
      intros x. rewrite !elem_of_app, Hnew, !list_elem_of_singleton. split.
      * intros [[? ?]| ->]; [auto|]. split; [by right|]. by apply Hb.
      * intros [[?| ->] ?]; auto.
    + exists new. split; [done|]. rewrite length_app. simpl. split; [lia|].
      intros x. rewrite elem_of_app, Hnew, list_elem_of_singleton. split.
      * intros [? ?]; auto.
      * intros [[?| ->] Hl]; [done|]. apply Hb in Hl. done.
  - exists []. rewrite app_nil_r. split; [done|]. split; [simpl; lia|].
    intros u. split; [by intros ?%elem_of_nil|]. by intros [?%elem_of_nil _].
  - exists new. split; [done|]. split.
    + unfold py_range in Hlen. rewrite length_seqZ in Hlen. lia.
    + intros u. rewrite Hnew. split; [tauto|]. intros Hl. split; [|done].
      apply linked_range in Hl as [[_ ?] _]. apply elem_of_seqZ. lia.
Qed.

Lemma unvisited_set visited v visited' :
  lk visited v = Some false -> 0 <= v -> py_set visited v true = Ret visited' ->
  (unvisited visited' < unvisited visited)%nat.
Proof.
  intros Hv Hv0 Hset. apply py_set_lk in Hset as (Hlen & _ & E); [|done].
  unfold unvisited.
  apply (count_pointwise_lt _ _ _ _ (Z.to_nat v) true false); [| | |done..].
  - apply Forall2_lk; [done|]. intros w x y. rewrite E.
    case_decide; congruence.
  - rewrite <- lk_of_nat, Z2Nat.id, E, decide_True by done. done.
  - rewrite <- lk_of_nat, Z2Nat.id by done. done.
Qed.

Lemma unvisited_le visited : (unvisited visited <= length visited)%nat.
Proof. apply length_filter. Qed.

Lemma lk_bool_cases (l : list bool) v :
  0 <= v < Z.of_nat (length l) -> lk l v = Some true \/ lk l v = Some false.
Proof.
  intros Hv. destruct (py_get_total l v Hv) as ([] & _ & ->); auto.
Qed.

Section component.
Variables (g : Graph) (seed : Z) (visited0 : list bool).
Hypothesis g_proper : proper g.
Hypothesis visited0_length : length visited0 = Z.to_nat (n g).
Hypothesis seed_fresh : lk visited0 seed = Some false.

Lemma component_loop_spec fuel :
  forall visited component q,
    growing g seed visited0 visited component q ->
    (unvisited visited * S (Z.to_nat (n g)) + length q < fuel)%nat ->
    exists visited' component',
      component_loop fuel g visited component q = Ret (visited', component')
      /\ growing g seed visited0 visited' component' [].
Proof.
  induction fuel as [|fuel IH]; intros visited component q Hinv Hfuel; [lia|].
  simpl. destruct (pop_last_cases q) as [[-> ->]|(q' & v & -> & ->)]; [eauto|].
  destruct Hinv as (Hlen & Hvis & Hcomp & Hq & Hclosed & Hseed).
  destruct (Hq v) as [Hv Hconn]; [rewrite elem_of_app; right; by left|].
  destruct (py_get_total visited v) as (seen & -> & Hseen); [lia|]. simpl.
  rewrite length_app in Hfuel. simpl in Hfuel.
  destruct seen.
  - (* already visited *)
    apply IH; [|lia]. split; [done|]. split; [done|]. split; [done|].
    split; [|split].
    + intros u Hu. apply Hq. rewrite elem_of_app. by left.
    + intros x u Hx Hl.
      destruct (Hclosed x u Hx Hl) as [[?| ->%list_elem_of_singleton]%elem_of_app|?];
        auto.
    + destruct Hseed as [?|[?| ->%list_elem_of_singleton]%elem_of_app]; auto.
      left. apply Hvis in Hseen as [?|?]; [congruence|done].
  - (* a new vertex of the component *)
    destruct (py_set_total visited v true) as (visited' & Hset); [lia|].
    rewrite Hset. simpl.
    pose proof (unvisited_set _ _ _ Hseen ltac:(lia) Hset) as Hless.
    apply py_set_lk in Hset as (Hlen' & _ & E); [|lia].
    destruct (push_all_spec g v q' g_proper Hv) as (new & -> & Hnew & Hlinked).
    simpl. apply IH.
    + split; [lia|]. split; [|split; [|split; [|split]]].
      * intros x. rewrite E, elem_of_union, elem_of_singleton.
        case_decide as Hx; [subst x; split; auto|]. rewrite Hvis. tauto.
      * intros x [->%elem_of_singleton|Hx]%elem_of_union; [|auto].
        split; [|done].
        destruct (lk_bool_cases visited0 v) as [Ht|Hf]; [lia| |done].
        assert (lk visited v = Some true) by (apply Hvis; auto). congruence.
      * intros u [Hu|Hu%Hlinked]%elem_of_app.
        -- apply Hq. rewrite elem_of_app. by left.
        -- split; [by apply linked_range in Hu as [[_ ?] _]|].
           by eapply rtc_r.
      * intros x u [->%elem_of_singleton|Hx]%elem_of_union Hl.
        -- left. rewrite elem_of_app. right. by apply Hlinked.
        -- rewrite E, elem_of_app.
           destruct (Hclosed x u Hx Hl)
             as [[?| ->%list_elem_of_singleton]%elem_of_app|?].
           ++ auto.
           ++ right. by rewrite decide_True.
           ++ right. by case_decide.
      * rewrite elem_of_union, elem_of_singleton, elem_of_app.
        destruct Hseed as [?|[?| ->%list_elem_of_singleton]%elem_of_app]; auto.
    + rewrite length_app.
      assert (unvisited visited' * S (Z.to_nat (n g)) + S (Z.to_nat (n g))
              <= unvisited visited * S (Z.to_nat (n g)))%nat by nia.
      lia.
Qed.

End component.

(** One round of the outer loop. *)
Lemma component_from_spec g fuel i visited components :
  proper g -> 0 <= i < n g ->
  (Z.to_nat (n g) * S (Z.to_nat (n g)) + 1 < fuel)%nat ->
  components_ok g visited components ->
  exists visited' components',
    component_from fuel g i (visited, components) = Ret (visited', components')
    /\ components_ok g visited' components'
    /\ lk visited' i = Some true
    /\ forall v, lk visited v = Some true -> lk visited' v = Some true.
Proof.
  intros Hg Hi Hfuel Hok.
  pose proof Hok as (Hlen & Hvis & Hclosed & Hconn & Hne & Hdisj).
  unfold component_from.
  destruct (py_get_total visited i) as (seen & -> & Hseen); [lia|]. simpl.
  destruct seen.
  { eexists _, _. split; [done|]. split; [done|]. split; [done|]. done. }
  destruct (component_loop_spec g i visited Hg Hlen Hseen fuel visited ∅ [i])
    as (visited' & c & -> & Hlen' & Hvis' & Hcomp & _ & Hclosed' & Hseed).
  { split; [done|]. split; [|split; [|split; [|split]]].
    - intros v. rewrite elem_of_empty. tauto.
    - by intros v ?%elem_of_empty.
    - intros u ->%list_elem_of_singleton. split; [done|]. apply rtc_refl.
    - by intros v u ?%elem_of_empty.
    - right. by left. }
  { pose proof (unvisited_le visited). simpl.
    assert (unvisited visited * S (Z.to_nat (n g))
            <= Z.to_nat (n g) * S (Z.to_nat (n g)))%nat by nia.
    lia. }
  simpl. eexists _, _. split; [done|].
  assert (i ∈ c) as Hic by (by destruct Hseed as [?|?%elem_of_nil]).
  assert (forall v, lk visited' v = Some true <-> exists c', c' ∈ components ++ [c] /\ v ∈ c')
    as Hvis''.
  { intros v. rewrite Hvis', Hvis. split.
    - intros [(c' & ? & ?)|?].
      + exists c'. rewrite elem_of_app. auto.
      + exists c. rewrite elem_of_app. split; [right; by left|done].
    - intros (c' & [?| ->%list_elem_of_singleton]%elem_of_app & ?); eauto. }
  split; [|split].
  - split; [done|]. split; [done|]. split; [|split; [|split]].
    + intros c' v u [Hc'| ->%list_elem_of_singleton]%elem_of_app Hv Hl; [eauto|].
      destruct (Hclosed' v u Hv Hl) as [?%elem_of_nil|Hu]; [done|].
      apply Hvis' in Hu as [Hu|Hu]; [|done].
      apply Hvis in Hu as (c' & Hc' & Hu).
      assert (lk visited v = Some true) as Hv'.
      { apply Hvis. exists c'. split; [done|]. by eapply Hclosed, linked_sym. }
      destruct (Hcomp v Hv) as [? _]. congruence.
    + intros c' v u [Hc'| ->%list_elem_of_singleton]%elem_of_app Hv Hu; [eauto|].
      destruct (Hcomp v Hv) as [_ Hv'], (Hcomp u Hu) as [_ Hu'].
      eapply rtc_trans; [by apply connected_sym|done].
    + intros c' [Hc'| ->%list_elem_of_singleton]%elem_of_app; [auto|].
      intros ->. by apply elem_of_empty in Hic.
    + assert (forall c', c' ∈ components -> c ## c') as Hfresh.
      { intros c' Hc'. apply elem_of_disjoint. intros x Hx Hx'.
        destruct (Hcomp x Hx) as [Hf _].
        assert (lk visited x = Some true) by (apply Hvis; eauto). congruence. }
      intros j k c1 c2 Hj Hk Hjk.
      apply lookup_app_Some in Hj as [Hj|[Hj1 Hj2]],
        Hk as [Hk|[Hk1 Hk2]].
      * by eapply Hdisj.
      * apply list_lookup_singleton_Some in Hk2 as [_ <-].
        symmetry. apply Hfresh. by eapply list_elem_of_lookup_2.
      * apply list_lookup_singleton_Some in Hj2 as [_ <-].
        apply Hfresh. by eapply list_elem_of_lookup_2.
      * apply list_lookup_singleton_Some in Hj2 as [? _].
        apply list_lookup_singleton_Some in Hk2 as [? _]. lia.
  - apply Hvis'. auto.
  - intros v Hv. apply Hvis'. auto.
Qed.

Lemma connected_components_ok fuel g :
  proper g -> (Z.to_nat (n g) * S (Z.to_nat (n g)) + 1 < fuel)%nat ->
  exists visited cs,
    connected_components fuel g = Ret cs
    /\ components_ok g visited cs
    /\ forall v, 0 <= v < n g -> lk visited v = Some true.
Proof.
  intros Hg Hfuel. unfold connected_components.
  destruct (for_each_prefix_total
    (fun pre (s : list bool * list (gset Z)) =>
       components_ok g s.1 s.2 /\ forall i, i ∈ pre -> lk s.1 i = Some true)
    (component_from fuel g) (py_range 0 (n g)))
    with (s := (py_repeat false (n g), @nil (gset Z)))
    as ([visited cs] & -> & Hok & Hall).
  - intros pre i post [visited cs] Hsplit [Hok Hpre]. cbn [fst snd] in *.
    assert (0 <= i < n g) as Hi.
    { assert (i ∈ py_range 0 (n g)) as Hin
        by (rewrite Hsplit, elem_of_app; right; by left).
      apply elem_of_seqZ in Hin. lia. }
    destruct (component_from_spec g fuel i visited cs Hg Hi Hfuel Hok)
      as (visited' & cs' & -> & Hok' & Hi' & Hmono).
    eexists. split; [done|]. simpl. split; [done|].
    intros j [?| ->%list_elem_of_singleton]%elem_of_app; auto.
  - simpl. split; [|by intros i ?%elem_of_nil].
    split; [apply length_replicate|].
    split; [|split; [|split; [|split]]].
    + intros v. split; [by intros ?%lk_replicate|].
      by intros (c & ?%elem_of_nil & _).
    + by intros c v u ?%elem_of_nil.
    + by intros c v u ?%elem_of_nil.
    + by intros c ?%elem_of_nil.
    + by intros i j c c' ?.
  - simpl in *. exists visited, cs. split; [done|]. split; [done|].
    intros v Hv. apply Hall, elem_of_seqZ. lia.
Qed.

(** The sets returned are the classes of [connected]. *)
Lemma components_classes (fuel : nat) (g : Graph) :
  proper g -> (Z.to_nat (n g) * S (Z.to_nat (n g)) + 1 < fuel)%nat ->
  exists cs,
    connected_components fuel g = Ret cs
    /\ (forall v, 0 <= v < n g -> exists c, c ∈ cs /\ v ∈ c)
    /\ (forall c v, c ∈ cs -> v ∈ c -> 0 <= v < n g)
    /\ (forall c u v, c ∈ cs -> u ∈ c -> (v ∈ c <-> connected g u v))
    /\ (forall c, c ∈ cs -> c <> ∅)
    /\ (forall (i j : nat) c c', cs !! i = Some c -> cs !! j = Some c' ->
          i <> j -> c ## c').
Proof.
  intros Hg Hfuel.
  destruct (connected_components_ok fuel g Hg Hfuel)
    as (visited & cs & Hrun & (Hlen & Hvis & Hclosed & Hconn & Hne & Hdisj) & Hall).
  exists cs. split; [done|]. split; [|split; [|split; [|split]]]; [| | |done..].
  - intros v Hv. apply Hvis. auto.
  - intros c v Hc Hv.
    assert (lk visited v = Some true) as Hv' by (apply Hvis; eauto).
    apply lk_Some_range in Hv'. lia.
  - intros c u v Hc Hu. split; [by apply Hconn|].
    induction 1 as [|x y z Hxy _ IH]; [done|]. apply IH. by eapply Hclosed.
Qed.

(** X17.  On a well-formed graph [connected_components] returns (its stack
    loop ends within [n * (n + 1) + 1] rounds) the weakly connected
    components: every vertex lies in one of the sets returned, the sets hold
    vertices only, are non-empty and pairwise disjoint, and two vertices lie
    in the same set exactly when a chain of edges, arcs taken in either
    direction, joins them. *)
Theorem connected_components_partition (fuel : nat) (g : Graph) :
  proper g -> (Z.to_nat (n g) * S (Z.to_nat (n g)) + 1 < fuel)%nat ->
  exists cs,
    connected_components fuel g = Ret cs
    /\ (forall v, 0 <= v < n g -> exists c, c ∈ cs /\ v ∈ c)
    /\ (forall c v, c ∈ cs -> v ∈ c -> 0 <= v < n g)
    /\ (forall c u v, c ∈ cs -> u ∈ c -> (v ∈ c <-> connected g u v))
    /\ (forall c, c ∈ cs -> c <> ∅)
    /\ (forall (i j : nat) c c', cs !! i = Some c -> cs !! j = Some c' ->
          i <> j -> c ## c').
Proof.
  intros Hg Hfuel.
  destruct (connected_components_ok fuel g Hg Hfuel)
    as (visited & cs & Hrun & (Hlen & Hvis & Hclosed & Hconn & Hne & Hdisj) & Hall).
  exists cs. split; [done|]. split; [|split; [|split; [|split]]]; [| | |done..].
  - intros v Hv. apply Hvis. auto.
  - intros c v Hc Hv.
    assert (lk visited v = Some true) as Hv' by (apply Hvis; eauto).
    apply lk_Some_range in Hv'. lia.
  - intros c u v Hc Hu. split; [by apply Hconn|].
    induction 1 as [|x y z Hxy _ IH]; [done|]. apply IH. by eapply Hclosed.
Qed.

Lemma connected_components_partition_witness :
  exists cs,
    connected_components 22 two_parts = Ret cs
    /\ (forall v, 0 <= v < n two_parts -> exists c, c ∈ cs /\ v ∈ c)
    /\ (forall c v, c ∈ cs -> v ∈ c -> 0 <= v < n two_parts)
    /\ (forall c u v, c ∈ cs -> u ∈ c -> (v ∈ c <-> connected two_parts u v))
    /\ (forall c, c ∈ cs -> c <> ∅)
    /\ (forall (i j : nat) c c', cs !! i = Some c -> cs !! j = Some c' ->
          i <> j -> c ## c').
Proof.
  apply (connected_components_partition 22 two_parts).
  - split; [simpl; lia|]. split; [reflexivity|]. repeat constructor.
  - simpl. lia.
Defined.

(** X18.  On a well-formed graph [is_connected] returns [True] exactly when
    every two vertices are joined by a chain of edges (arcs taken in either
    direction); the graph without vertices counts as connected. *)
Theorem is_connected_spec (fuel : nat) (g : Graph) :
  proper g -> (Z.to_nat (n g) * S (Z.to_nat (n g)) + 1 < fuel)%nat ->
  exists b,
    is_connected fuel g = Ret b
    /\ (b = true <->
        forall u v, 0 <= u < n g -> 0 <= v < n g -> connected g u v).
Proof.
  intros Hg Hfuel. unfold is_connected.
  destruct (Z.eqb_spec (n g) 0) as [Hn|Hn].
  { exists true. split; [done|]. split; [|done]. intros _ u v Hu. lia. }
  destruct (components_classes fuel g Hg Hfuel)
    as (cs & -> & Hcover & Hrange & Hclass & Hne & Hdisj).
  simpl. eexists. split; [done|].
  destruct Hg as [Hn0 _].
  destruct cs as [|c1 [|c2 cs]]; simpl.
  - destruct (Hcover 0) as (c & ?%elem_of_nil & _); [lia|done].
  - split; [|done]. intros _ u v Hu Hv.
    destruct (Hcover u Hu) as (c & ->%list_elem_of_singleton & Hcu).
    destruct (Hcover v Hv) as (c & ->%list_elem_of_singleton & Hcv).
    by apply (Hclass c1); [left|..].
  - split; [done|]. intros Hall. exfalso.
    destruct (set_choose_L c1) as [u Hu]; [apply Hne; by left|].
    destruct (set_choose_L c2) as [v Hv]; [apply Hne; right; by left|].
    assert (v ∈ c1) as Hv1.
    { apply (Hclass c1 u v); [by left|done|].
      apply Hall; [apply (Hrange c1); [by left|done]|].
      apply (Hrange c2); [right; by left|done]. }
    assert (c1 ## c2) as Hd by (by apply (Hdisj 0%nat 1%nat)).
    rewrite elem_of_disjoint in Hd. by apply (Hd v).
Qed.

Lemma is_connected_spec_witness :
  exists b,
    is_connected 22 two_parts = Ret b
    /\ (b = true <->
        forall u v, 0 <= u < n two_parts -> 0 <= v < n two_parts ->
          connected two_parts u v).
Proof.
  apply (is_connected_spec 22 two_parts).
  - split; [simpl; lia|]. split; [reflexivity|]. repeat constructor.
  - simpl. lia.
Defined.

End ComponentsFacts.

(** ** [src/lab4/matching.py]: two-colouring and maximum matching *)

Module MatchingProps.
Import Matching MatchingSpec MatchingVocabulary PyFacts MatchingFacts.

(** The adjacency lists [check_bipartite] builds, exactly. *)
Lemma check_adj_exact n (edges : list Edge) adj :
  (forall a b, (a, b) ∈ edges -> 0 <= a < n /\ 0 <= b < n) ->
  for_each edges (fun '(u, v) adj => adj1 ← adj_append adj u v; adj_append adj1 v u)
    (replicate (Z.to_nat n) []) = Ret adj ->
  length adj = Z.to_nat n /\ neighbours_of edges adj.
Proof.
  intros Hrange H.
  eapply (for_each_prefix
            (fun pre (adj : list (list Z)) =>
               length adj = Z.to_nat n /\ neighbours_of pre adj));
    [| |exact H].
  - intros pre [a b] post' s s' Hsplit [Hlen Hpre].
    destruct (Hrange a b) as [Ha Hb]; [rewrite Hsplit, elem_of_app; right; by left|].
    intros (adj1 & (L1 & r1 & R1 & E1)%adj_append_lk & (L2 & r2 & R2 & E2)%adj_append_lk)%bind_Ret;
      [|lia..].
    split; [lia|]. intros v row Hv u. rewrite E2 in Hv.
    rewrite !elem_of_app, !list_elem_of_singleton.
    rewrite E1 in R2.
    destruct (decide (v = b)) as [->|Hvb].
    + injection Hv as <-. rewrite elem_of_app, list_elem_of_singleton.
      destruct (decide (b = a)) as [->|Hba].
      * injection R2 as <-. rewrite elem_of_app, list_elem_of_singleton.
        rewrite (Hpre a r1 R1 u). split; [|intros [[?|[= ->]]|[?|[= ->]]]; tauto].
        intros [[?| ->]| ->]; tauto.
      * rewrite (Hpre b r2 R2 u). split; [|intros [[?|[= -> ->]]|[?|[= ->]]]; tauto].
        intros [?| ->]; tauto.
    + rewrite E1 in Hv. destruct (decide (v = a)) as [->|Hva].
      * injection Hv as <-. rewrite elem_of_app, list_elem_of_singleton.
        rewrite (Hpre a r1 R1 u). split; [|intros [[?|[= ->]]|[?|[= -> ->]]]; tauto].
        intros [?| ->]; tauto.
      * rewrite (Hpre v row Hv u). split; [tauto|]. intros [[?|[= -> ->]]|[?|[= -> ->]]]; tauto.
  - split; [apply length_replicate|].
    intros v row ->%lk_replicate u. split; [by intros ?%elem_of_nil|].
    by intros [?%elem_of_nil|?%elem_of_nil].
Qed.

(** *** The colouring found *)

Section covers.
Variables (N : nat) (adj : list (list Z)).
Hypothesis adj_range : forall v row u,
  lk adj v = Some row -> u ∈ row -> 0 <= u < Z.of_nat N.

(** Every start vertex ends up coloured. *)
Lemma colour_all_covers fuel starts :
  forall colors colors',
    Forall (fun v => 0 <= v) starts ->
    colouring N adj colors [] None ->
    colour_all fuel adj starts colors = Ret (true, colors') ->
    extends colors colors'
    /\ forall v, v ∈ starts -> exists c, lk colors' v = Some c /\ c <> -1.
Proof.
  induction starts as [|start starts IH]; intros colors colors' Hstarts Hinv; simpl.
  { intros [= <-]. split; [apply extends_refl|]. by intros v ?%elem_of_nil. }
  apply Forall_cons in Hstarts as [Hstart Hstarts].
  intros (c & Hc & H)%bind_Ret.
  apply py_get_lk in Hc as [Hc _]; [|done].
  destruct (Z.eqb_spec c (-1)) as [->|Hne]; simpl in H.
  - apply bind_Ret in H as (colors1 & Hset & H).
    apply py_set_lk in Hset as (Hlen1 & _ & E); [|done].
    apply bind_Ret in H as (r & Hr & H). destruct r as [colors2|]; [|done].
    destruct Hinv as (Hlen & Hval & _ & Hdone).
    assert (extends colors colors1) as Hext.
    { split; [done|]. intros w c Hw Hc'. rewrite E. case_decide; [congruence|done]. }
    apply (colour_component_spec N adj adj_range) in Hr as [Hinv2 Hext2].
    + destruct (IH colors2 colors' Hstarts Hinv2 H) as [Hext' Hcov].
      split; [eauto using extends_trans|].
      intros v [->|Hv]%elem_of_cons; [|auto].
      exists 0. split; [|done].
      apply (proj2 Hext'); [|done]. apply (proj2 Hext2); [|done].
      by rewrite E, decide_True.
    + split; [lia|]. split; [|split].
      * intros w c. rewrite E. case_decide; [intros [= <-]; lia|apply Hval].
      * constructor; [|done]. split; [done|]. exists 0.
        by rewrite E, decide_True.
      * intros w c. rewrite E. case_decide as Hw; [subst w; intros _ _; left; by left|].
        intros Hw' Hc'. destruct (Hdone w c Hw' Hc') as [?%elem_of_nil|[?|?]]; [done..|].
        right; right. by eapply checked_extends.
  - destruct (IH colors colors' Hstarts Hinv H) as [Hext Hcov]. split; [done|].
    intros v [->|Hv]%elem_of_cons; [|auto].
    exists c. split; [|done]. by apply (proj2 Hext).
Qed.

End covers.

(** The colours of an accepted graph. *)
Lemma check_bipartite_colours (fuel : nat) (n : Z) (edges : list Edge)
    (colors : list Z) :
  (forall a b, (a, b) ∈ edges -> 0 <= a < n /\ 0 <= b < n) ->
  check_bipartite fuel n edges = Ret (true, colors) ->
  length colors = Z.to_nat n
  /\ (forall v, 0 <= v < n -> lk colors v = Some 0 \/ lk colors v = Some 1)
  /\ (forall a b, (a, b) ∈ edges ->
        exists c, lk colors a = Some c /\ lk colors b = Some (1 - c)).
Proof.
  intros Hrange.
  unfold check_bipartite. intros (adj & Hadj & H)%bind_Ret.
  destruct (check_adj_spec _ _ _ Hrange Hadj) as [Hin Hnb].
  assert (colouring (Z.to_nat n) adj (py_repeat (-1) n) [] None) as Hinit.
  { unfold py_repeat. split; [apply length_replicate|]. split; [|split].
    - intros v c ->%lk_replicate. by left.
    - constructor.
    - by intros v c ->%lk_replicate. }
  assert (Forall (fun v => 0 <= v) (py_range 0 n)) as Hstarts.
  { apply Forall_forall. intros v Hv%elem_of_seqZ. lia. }
  pose proof (colour_all_spec _ adj Hin _ _ _ _ Hstarts Hinit H)
    as (Hlen & Hval & _ & Hdone).
  destruct (colour_all_covers _ adj Hin _ _ _ _ Hstarts Hinit H) as [_ Hcov].
  assert (forall v, 0 <= v < n -> lk colors v = Some 0 \/ lk colors v = Some 1) as Hall.
  { intros v Hv. destruct (Hcov v) as (c & Hc & Hne); [apply elem_of_seqZ; lia|].
    rewrite Hc. destruct (Hval v c Hc) as [?|[->| ->]]; auto. done. }
  split; [done|]. split; [done|]. intros a b Hab.
  destruct (Hrange a b Hab) as [Ha Hb].
  destruct (Hnb a b Hab) as (row & Hrow & Hbrow).
  assert (exists c, lk colors a = Some c /\ c <> -1) as (c & Hc & Hne).
  { destruct (Hall a Ha) as [->| ->]; eauto. }
  destruct (Hdone a c Hc Hne) as [?%elem_of_nil|[?|Hchk]]; [done..|].
  destruct (Hchk row b Hrow Hbrow) as (cv & Hcv & _ & Hcb). eauto.
Qed.

(** X19.  When [check_bipartite] answers [True], the colours it returns are
    a proper two-colouring: every vertex has colour 0 or 1, and the two
    ends of every edge have different colours. *)
Theorem check_bipartite_sound (fuel : nat) (n : Z) (edges : list Edge)
    (colors : list Z) :
  Forall (fun e => 0 <= e.1 < n /\ 0 <= e.2 < n) edges ->
  check_bipartite fuel n edges = Ret (true, colors) ->
  length colors = Z.to_nat n
  /\ (forall v, 0 <= v < n -> lk colors v = Some 0 \/ lk colors v = Some 1)
  /\ (forall a b, (a, b) ∈ edges ->
        exists c, lk colors a = Some c /\ lk colors b = Some (1 - c)).
Proof.
  intros Hedges. rewrite Forall_forall in Hedges.
  apply check_bipartite_colours. intros a b Hab. apply (Hedges _ Hab).
Qed.

Lemma check_bipartite_sound_witness :
  check_bipartite 5 4 square = Ret (true, [0; 1; 0; 1])
  /\ length [0; 1; 0; 1] = Z.to_nat 4
  /\ (forall v, 0 <= v < 4 ->
        lk [0; 1; 0; 1] v = Some 0 \/ lk [0; 1; 0; 1] v = Some 1)
  /\ (forall a b, (a, b) ∈ square ->
        exists c, lk [0; 1; 0; 1] a = Some c /\ lk [0; 1; 0; 1] b = Some (1 - c)).
Proof.
  split; [reflexivity|].
  apply (check_bipartite_sound 5 4 square [0; 1; 0; 1]).
  - repeat constructor; simpl; lia.
  - reflexivity.
Defined.

(** *** A two-colourable graph is accepted *)

Section complete.
Variables (N : nat) (adj : list (list Z)) (edges : list Edge) (side : Z -> bool).
Hypothesis adj_length : length adj = N.
Hypothesis adj_range : forall v row u,
  lk adj v = Some row -> u ∈ row -> 0 <= u < Z.of_nat N.
Hypothesis adj_exact : neighbours_of edges adj.
Hypothesis side_ok : two_colourable edges side.

Lemma neighbour_sides v row u :
  lk adj v = Some row -> u ∈ row -> side u <> side v.
Proof.
  intros Hrow [Hvu|Huv]%(adj_exact v row Hrow).
  - intros E. by apply (side_ok v u).
  - by apply side_ok.
Qed.

Lemma neighbour_back v row u :
  lk adj v = Some row -> u ∈ row -> exists row', lk adj u = Some row' /\ v ∈ row'.
Proof.
  intros Hrow Hu. pose proof (adj_range v row u Hrow Hu) as Hur.
  destruct (py_get_total adj u) as (row' & _ & Hrow'); [lia|].
  exists row'. split; [done|]. apply (adj_exact u row' Hrow').
  apply (adj_exact v row Hrow) in Hu. tauto.
Qed.

Lemma painted_other swap v u :
  side u <> side v -> painted side swap u = 1 - painted side swap v.
Proof. unfold painted. destruct (side u), (side v), swap; simpl; done. Qed.

Lemma painted_value swap v : painted side swap v = 0 \/ painted side swap v = 1.
Proof. unfold painted. destruct (xorb _ _); auto. Qed.

Lemma colour_neighbours_complete swap v row :
  lk adj v = Some row -> 0 <= v ->
  forall us seen colors q,
    row = seen ++ us ->
    colouring N adj colors q (Some v) ->
    agrees side swap colors q (Some v) ->
    (forall u, u ∈ seen -> lk colors u = Some (1 - painted side swap v)) ->
    exists colors' q',
      colour_neighbours v us colors q = Ret (Continue (colors', q'))
      /\ colouring N adj colors' q' None
      /\ agrees side swap colors' q' None
      /\ (uncolored colors' + length q' <= uncolored colors + length q)%nat.
Proof.
  intros Hrow Hv. set (cv := painted side swap v).
  assert (cv = 0 \/ cv = 1) as Hcv01 by apply painted_value.
  induction us as [|u us IH];
    intros seen colors q Hsplit Hinv Hagr Hseen; simpl.
  - rewrite app_nil_r in Hsplit. subst seen.
    destruct Hinv as (Hlen & Hval & Hq & Hdone).
    eexists _, _. split; [done|]. split; [|split; [|done]].
    + split; [done|]. split; [done|]. split; [done|].
      intros w c Hw Hc. destruct (Hdone w c Hw Hc) as [?|[[= ->]|?]]; auto.
      right. right. intros row' u Hrow' Hu. simplify_eq.
      exists cv. split; [apply Hagr; by right|]. split; [done|]. auto.
    + intros x [?|[=]]. apply Hagr. by left.
  - pose proof Hinv as (Hlen & Hval & Hq & Hdone).
    assert (u ∈ row) as Hurow by (rewrite Hsplit, elem_of_app; right; by left).
    assert (0 <= u < Z.of_nat N) as Hu by (by apply (adj_range v row)).
    pose proof (neighbour_sides v row u Hrow Hurow) as Hside.
    assert (lk colors v = Some cv) as Hcol by (apply Hagr; by right).
    destruct (py_get_total colors u) as (cu & -> & Hcu); [lia|]. simpl.
    destruct (py_get_total colors v) as (cv' & -> & Hcv');
      [apply lk_Some_range in Hcol; lia|]. simpl.
    rewrite Hcol in Hcv'. injection Hcv' as <-.
    destruct (Z.eqb_spec cu (-1)) as [->|Hne].
    + (* [u] is not coloured yet *)
      destruct (py_set_total colors u (1 - cv)) as (colors1 & Hset); [lia|].
      rewrite Hset. simpl.
      assert (uncolored colors1 < uncolored colors)%nat as Hlt
        by (apply (uncolored_set colors u (1 - cv)); [done|lia|lia|done]).
      apply py_set_lk in Hset as (Hlen1 & _ & E); [|lia].
      assert (extends colors colors1) as Hext.
      { split; [done|]. intros w c Hw Hc. rewrite E.
        case_decide; [congruence|done]. }
      destruct (IH (seen ++ [u]) colors1 (q ++ [u])) as (colors' & q' & -> & ? & ? & Hm);
        [by rewrite <- app_assoc| | | |].
      * split; [lia|]. split; [|split].
        -- intros w c. rewrite E. case_decide; [intros [= <-]; lia|apply Hval].
        -- apply Forall_app. split.
           ++ eapply Forall_impl; [done|]. simpl. intros w [? (c & Hw & Hc)].
              split; [done|]. exists c. split; [|done]. by apply (proj2 Hext).
           ++ constructor; [|done]. split; [lia|]. exists (1 - cv).
              rewrite E, decide_True by done. split; [done|lia].
        -- intros w c. rewrite E. case_decide as Hw; [subst w|].
           ++ intros _ _. left. rewrite elem_of_app. right. by left.
           ++ intros Hw' Hc. destruct (Hdone w c Hw' Hc) as [?|[?|?]].
              ** left. rewrite elem_of_app. by left.
              ** by right; left.
              ** right; right. by eapply checked_extends.
      * intros x Hx. rewrite E. case_decide as Hxu.
        -- subst x. f_equal. symmetry. by apply painted_other.
        -- apply Hagr. destruct Hx as [[?| ->%list_elem_of_singleton]%elem_of_app|?];
             [by left|done|by right].
      * intros w [Hw| ->%list_elem_of_singleton]%elem_of_app.
        -- apply (proj2 Hext); [auto|]. fold cv. lia.
        -- by rewrite E, decide_True.
      * eexists _, _. split; [done|]. split; [done|]. split; [done|].
        rewrite length_app in Hm. simpl in Hm. lia.
    + (* [u] has a colour, and it is the other one *)
      assert (cu = 1 - cv) as ->.
      { destruct (Hdone u cu Hcu Hne) as [Huq|[[= ->]|Hchk]].
        - assert (lk colors u = Some (painted side swap u)) as Hpu
            by (apply Hagr; by left).
          rewrite Hcu in Hpu. injection Hpu as ->. by apply painted_other.
        - done.
        - destruct (neighbour_back v row u Hrow Hurow) as (row' & Hrow' & Hvrow').
          destruct (Hchk row' v Hrow' Hvrow') as (cu' & Hcu' & _ & Hcv').
          rewrite Hcu in Hcu'. injection Hcu' as <-.
          rewrite Hcol in Hcv'. injection Hcv' as Hcv'. lia. }
      destruct (Z.eqb_spec (1 - cv) cv) as [?|_]; [lia|].
      apply (IH (seen ++ [u]) colors q); [by rewrite <- app_assoc|done..|].
      intros w [Hw| ->%list_elem_of_singleton]%elem_of_app; [auto|done].
Qed.

Lemma colour_component_complete swap fuel :
  forall colors q,
    colouring N adj colors q None ->
    agrees side swap colors q None ->
    (uncolored colors + length q < fuel)%nat ->
    exists colors', colour_component fuel adj colors q = Ret (Continue colors').
Proof.
  induction fuel as [|fuel IH]; intros colors q Hinv Hagr Hfuel; [lia|]. simpl.
  destruct q as [|v q]; [eauto|].
  pose proof Hinv as (Hlen & Hval & Hq & Hdone).
  apply Forall_cons in Hq as [[Hv (cv & Hcv & Hne)] Hq].
  pose proof (lk_Some_range _ _ _ Hcv) as Hrange.
  destruct (py_get_total adj v) as (us & -> & Hus); [lia|]. simpl.
  destruct (colour_neighbours_complete swap v us Hus Hv us [] colors q)
    as (colors1 & q1 & -> & Hinv1 & Hagr1 & Hm); [done| | | |].
  - split; [done|]. split; [done|]. split; [done|].
    intros w c Hw Hc. destruct (Hdone w c Hw Hc) as [[->|?]%elem_of_cons|[?|?]];
      [auto|auto|done|auto].
  - intros x [Hx|[= ->]]; apply Hagr; left; [by right|by left].
  - by intros u ?%elem_of_nil.
  - simpl. simpl in Hfuel. apply IH; [done..|lia].
Qed.

Lemma colour_all_complete fuel starts :
  (N < fuel)%nat ->
  forall colors,
    Forall (fun v => 0 <= v < Z.of_nat N) starts ->
    colouring N adj colors [] None ->
    exists colors', colour_all fuel adj starts colors = Ret (true, colors').
Proof.
  intros Hfuel. induction starts as [|start starts IH]; intros colors Hstarts Hinv; simpl;
    [eauto|].
  apply Forall_cons in Hstarts as [Hstart Hstarts].
  pose proof Hinv as (Hlen & Hval & _ & Hdone).
  destruct (py_get_total colors start) as (c & -> & Hc); [lia|]. simpl.
  destruct (Z.eqb_spec c (-1)) as [->|Hne]; simpl; [|by apply IH].
  destruct (py_set_total colors start 0) as (colors1 & Hset); [lia|].
  rewrite Hset. simpl.
  assert (uncolored colors1 < uncolored colors)%nat as Hlt
    by (apply (uncolored_set colors start 0); [done|lia|lia|done]).
  pose proof (uncolored_le colors) as Hle.
  apply py_set_lk in Hset as (Hlen1 & _ & E); [|lia].
  assert (colouring N adj colors1 [start] None) as Hinv1.
  { assert (extends colors colors1) as Hext.
    { split; [done|]. intros w c Hw Hc'. rewrite E. case_decide; [congruence|done]. }
    split; [lia|]. split; [|split].
    - intros w c. rewrite E. case_decide; [intros [= <-]; lia|apply Hval].
    - constructor; [|done]. split; [lia|]. exists 0. by rewrite E, decide_True.
    - intros w c. rewrite E. case_decide as Hw; [subst w; intros _ _; left; by left|].
      intros Hw' Hc'. destruct (Hdone w c Hw' Hc') as [?%elem_of_nil|[?|?]]; [done..|].
      right; right. by eapply checked_extends. }
  destruct (colour_component_complete (side start) fuel colors1 [start] Hinv1)
    as (colors2 & Hr); [|simpl; lia|].
  { intros x [->%list_elem_of_singleton|[=]]. rewrite E, decide_True by done.
    unfold painted. by rewrite xorb_nilpotent. }
  rewrite Hr. simpl. apply IH; [done|].
  by apply (colour_component_spec N adj adj_range fuel colors1 [start] colors2).
Qed.

End complete.

(** The answer of [check_bipartite]. *)
Lemma check_bipartite_answer (fuel : nat) (n : Z) (edges : list Edge) :
  (forall a b, (a, b) ∈ edges -> 0 <= a < n /\ 0 <= b < n) ->
  (Z.to_nat n < fuel)%nat ->
  exists b colors,
    check_bipartite fuel n edges = Ret (b, colors)
    /\ (b = true <-> exists side, two_colourable edges side).
Proof.
  intros Hrange Hfuel.
  destruct (check_bipartite_total fuel n edges Hrange Hfuel) as (b & colors & Hrun).
  exists b, colors. split; [done|]. split.
  - intros ->.
    destruct (check_bipartite_colours _ _ _ _ Hrange Hrun) as (_ & Hall & Hedge).
    exists (fun v => bool_decide (lk colors v = Some 1)). intros x y Hxy.
    destruct (Hedge x y Hxy) as (c & Hx & ->). rewrite Hx.
    destruct (Hall x) as [Hx'|Hx']; [by apply (Hrange x y)|..];
      rewrite Hx in Hx'; injection Hx' as ->; done.
  - intros [side Hside]. unfold check_bipartite in Hrun.
    apply bind_Ret in Hrun as (adj & Hadj & Hrun).
    destruct (check_adj_spec _ _ _ Hrange Hadj) as [Hin _].
    destruct (check_adj_exact _ _ _ Hrange Hadj) as [Hlen Hexact].
    destruct (colour_all_complete (Z.to_nat n) adj edges side Hlen Hin Hexact Hside
                fuel (py_range 0 n) Hfuel (py_repeat (-1) n)) as (colors' & Hc).
    + apply Forall_forall. intros v Hv%elem_of_seqZ. lia.
    + unfold py_repeat. split; [apply length_replicate|]. split; [|split].
      * intros v c ->%lk_replicate. by left.
      * constructor.
      * by intros v c ->%lk_replicate.
    + congruence.
Qed.

(** X20.  [check_bipartite] decides two-colourability: for edges over
    [0, n) it returns (the queue loop ends within [n] rounds per start
    vertex), and its answer is [True] exactly when the vertices can be
    split into two sides with every edge joining the two sides; an edge
    from a vertex to itself makes the answer [False]. *)
Theorem check_bipartite_decides (fuel : nat) (n : Z) (edges : list Edge) :
  Forall (fun e => 0 <= e.1 < n /\ 0 <= e.2 < n) edges ->
  (Z.to_nat n < fuel)%nat ->
  exists b colors,
    check_bipartite fuel n edges = Ret (b, colors)
    /\ (b = true <-> exists side, two_colourable edges side).
Proof.
  intros Hedges. rewrite Forall_forall in Hedges.
  apply check_bipartite_answer. intros a b Hab. apply (Hedges _ Hab).
Qed.

Lemma check_bipartite_decides_witness :
  exists b colors,
    check_bipartite 5 4 square = Ret (b, colors)
    /\ (b = true <-> exists side, two_colourable square side).
Proof.
  apply (check_bipartite_decides 5 4 square).
  - repeat constructor; simpl; lia.
  - simpl. lia.
Defined.

(** *** The matching is made of edges of the graph *)

Lemma set_dist_pairs st v d st' :
  set_dist st v d = Ret st' -> pair_v st' = pair_v st /\ pair_u st' = pair_u st.
Proof. unfold set_dist. by intros (dist' & _ & [= <-])%bind_Ret. Qed.

Lemma bfs_init_pairs v (s s' : hk * list Z) :
  bfs_init v s = Ret s' -> pair_v s'.1 = pair_v s.1.
Proof.
  destruct s as [st dq]. unfold bfs_init. intros (pv & _ & H)%bind_Ret.
  destruct (negb _); apply bind_Ret in H as (st' & [? _]%set_dist_pairs & [= <-]); done.
Qed.

Lemma bfs_visit_pairs v u (s s' : hk * list Z * bool) :
  bfs_visit v u s = Ret s' -> pair_v s'.1.1 = pair_v s.1.1.
Proof.
  destruct s as [[st dq] f]. unfold bfs_visit. intros (pu & _ & H)%bind_Ret.
  destruct (pu =? -1); [by injection H as <-|].
  apply bind_Ret in H as (dpu & _ & H).
  destruct (layer_is_inf dpu); [|by injection H as <-].
  apply bind_Ret in H as (dv & _ & H).
  by apply bind_Ret in H as (st' & [? _]%set_dist_pairs & [= <-]).
Qed.

Lemma bfs_loop_pairs fuel forward_adj :
  forall (s : hk * list Z * bool) st' found,
    bfs_loop fuel forward_adj s = Ret (st', found) -> pair_v st' = pair_v s.1.1.
Proof.
  induction fuel as [|fuel IH]; intros [[st dq] f] st' found; simpl; [done|].
  destruct dq as [|v dq]; [by intros [= <- _]|].
  intros (us & _ & H)%bind_Ret. apply bind_Ret in H as (s1 & Hs1 & H).
  rewrite (IH _ _ _ H). change (pair_v s1.1.1 = pair_v (st, dq, f).1.1).
  eapply (for_each_invariant (fun s : hk * list Z * bool => pair_v s.1.1 = pair_v st));
    [| |exact Hs1]; [|done].
  intros u s2 s3 _ E ->%bfs_visit_pairs. done.
Qed.

Lemma bfs_pairs fuel forward_adj left_partition st st' found :
  bfs fuel forward_adj left_partition st = Ret (st', found) -> pair_v st' = pair_v st.
Proof.
  unfold bfs. intros ([s dq] & Hinit & ->%bfs_loop_pairs)%bind_Ret.
  change (pair_v (s, dq).1 = pair_v st).
  eapply (for_each_invariant (fun s : hk * list Z => pair_v s.1 = pair_v st));
    [| |exact Hinit]; [|done].
  intros v s2 s3 _ E ->%bfs_init_pairs. done.
Qed.

Section from_adj.
Variable forward_adj : list (list Z).

Lemma flip_from_adj st v u row st' :
  from_adj forward_adj st -> py_get forward_adj v = Ret row -> u ∈ row ->
  flip st v u = Ret st' -> from_adj forward_adj st'.
Proof.
  intros [Hlen Hst] (k & Hk & Hrow)%py_get_Ret Hu. unfold flip.
  intros (pv & Hpv & H)%bind_Ret. apply bind_Ret in H as (pu & _ & [= <-]). simpl.
  apply py_set_Ret in Hpv as (k' & Hk' & ->). rewrite Hlen, Hk in Hk'.
  injection Hk' as <-. split; simpl; [by rewrite length_insert|].
  intros j x. destruct (decide (j = k)) as [->|Hjk].
  - rewrite list_lookup_insert_eq by (rewrite Hlen; by eapply lookup_lt_Some).
    intros [= <-] _. eauto.
  - rewrite list_lookup_insert_ne by done. apply Hst.
Qed.

Lemma dfs_edges_from_adj (rec : Z -> hk -> outcome (bool * hk)) v row :
  py_get forward_adj v = Ret row ->
  (forall pu s ok s1,
      from_adj forward_adj s -> rec pu s = Ret (ok, s1) -> from_adj forward_adj s1) ->
  forall us s ok s',
    (forall u, u ∈ us -> u ∈ row) ->
    from_adj forward_adj s ->
    dfs_edges rec v us s = Ret (ok, s') -> from_adj forward_adj s'.
Proof.
  intros Hrow Hrec. induction us as [|u us IH]; intros s ok s' Hus Hs; simpl.
  - intros (s1 & [Ev _]%set_dist_pairs & [= _ <-])%bind_Ret.
    unfold from_adj. by rewrite Ev.
  - assert (u ∈ row) as Hu by (apply Hus; by left).
    assert (forall u', u' ∈ us -> u' ∈ row) as Hus' by (intros u' ?; apply Hus; by right).
    intros (pu & _ & H)%bind_Ret.
    destruct (pu =? -1).
    { apply bind_Ret in H as (s1 & Hflip & [= _ <-]). by eapply flip_from_adj. }
    apply bind_Ret in H as (dpu & _ & H). apply bind_Ret in H as (dv & _ & H).
    destruct (layer_eqb dpu (layer_succ dv)); [|by eapply IH].
    apply bind_Ret in H as ([ok1 s1] & Hcall & H).
    pose proof (Hrec _ _ _ _ Hs Hcall) as Hs1.
    destruct ok1; [|by eapply IH].
    apply bind_Ret in H as (s2 & Hflip & [= _ <-]). by eapply flip_from_adj.
Qed.

Lemma dfs_from_adj fuel :
  forall v s ok s',
    from_adj forward_adj s -> dfs fuel forward_adj v s = Ret (ok, s') ->
    from_adj forward_adj s'.
Proof.
  induction fuel as [|fuel IH]; intros v s ok s' Hs; simpl; [done|].
  intros (row & Hrow & H)%bind_Ret.
  by eapply (dfs_edges_from_adj (dfs fuel forward_adj) v row Hrow IH row).
Qed.

Lemma phases_from_adj left_partition fuel :
  forall st st',
    from_adj forward_adj st ->
    phases fuel forward_adj left_partition st = Ret st' -> from_adj forward_adj st'.
Proof.
  induction fuel as [|fuel IH]; intros st st' Hst; simpl; [done|].
  intros ([st1 found] & Hbfs%bfs_pairs & H)%bind_Ret.
  assert (from_adj forward_adj st1) as Hst1 by (unfold from_adj; by rewrite Hbfs).
  destruct found; [|by injection H as <-].
  apply bind_Ret in H as (st2 & Hphase & H). apply (IH st2); [|done].
  eapply (for_each_invariant (from_adj forward_adj)); [|exact Hst1|exact Hphase].
  intros u s s' _ Hs. unfold phase_step. intros (pv & _ & Hb)%bind_Ret.
  destruct (pv =? -1); [|by injection Hb as <-].
  apply bind_Ret in Hb as ([ok s1] & Hdfs & [= <-]). by eapply dfs_from_adj.
Qed.

End from_adj.

(** The lists of [forward_adj] hold neighbours only. *)
Lemma forward_adj_edges n (edges : list Edge) left_partition forward_adj :
  (forall a b, (a, b) ∈ edges -> 0 <= a < n /\ 0 <= b < n) ->
  for_each edges (add_forward left_partition) (replicate (Z.to_nat n) [])
  = Ret forward_adj ->
  length forward_adj = Z.to_nat n
  /\ forall v us u, lk forward_adj v = Some us -> u ∈ us ->
       (v, u) ∈ edges \/ (u, v) ∈ edges.
Proof.
  intros Hrange H.
  eapply (for_each_prefix
            (fun pre (adj : list (list Z)) =>
               length adj = Z.to_nat n
               /\ forall v us u, lk adj v = Some us -> u ∈ us ->
                    (v, u) ∈ pre \/ (u, v) ∈ pre));
    [| |exact H].
  - intros pre [a b] post s s' Hsplit [Hlen Hpre].
    destruct (Hrange a b) as [Ha Hb]; [rewrite Hsplit, elem_of_app; right; by left|].
    assert (forall v us u, lk s v = Some us -> u ∈ us ->
              (v, u) ∈ pre ++ [(a, b)] \/ (u, v) ∈ pre ++ [(a, b)]) as Hkeep.
    { intros v us u Hv Hu. rewrite !elem_of_app.
      destruct (Hpre v us u Hv Hu); auto. }
    unfold add_forward.
    case_bool_decide; [|case_bool_decide].
    + intros (L & row & Hrow & E)%adj_append_lk; [|lia]. split; [lia|].
      intros v us u. rewrite E. case_decide as Hv; [|apply Hkeep].
      intros [= <-] [Hu| ->%list_elem_of_singleton]%elem_of_app; subst v.
      * by eapply Hkeep.
      * left. rewrite elem_of_app. right. by left.
    + intros (L & row & Hrow & E)%adj_append_lk; [|lia]. split; [lia|].
      intros v us u. rewrite E. case_decide as Hv; [|apply Hkeep].
      intros [= <-] [Hu| ->%list_elem_of_singleton]%elem_of_app; subst v.
      * by eapply Hkeep.
      * right. rewrite elem_of_app. right. by left.
    + by intros [= <-].
  - split; [apply length_replicate|].
    intros v us u ->%lk_replicate. by intros ?%elem_of_nil.
Qed.

(** The pairs returned are edges. *)
Lemma solve_matching_edges (iter_order : list Z -> list Z) (fuel : nat)
    (n : Z) (edges : list Edge) (m : list Edge) :
  (forall l, iter_order l ≡ₚ l) ->
  (forall a b, (a, b) ∈ edges -> 0 <= a < n /\ 0 <= b < n) ->
  solve_matching iter_order fuel n edges = Ret (true, m) ->
  forall u v, (u, v) ∈ m -> (u, v) ∈ edges \/ (v, u) ∈ edges.
Proof.
  intros Hperm Hrange.
  unfold solve_matching. intros ([is_bipartite colors] & Hcheck & H)%bind_Ret.
  destruct is_bipartite; [|done]. simpl in H.
  apply bind_Ret in H as (m' & Hhk & [= <-]).
  set (left_partition := iter_order (left_of colors)) in *.
  assert (forall u, u ∈ left_partition -> 0 <= u) as Hleft.
  { intros u. unfold left_partition. rewrite Hperm.
    intros Hu%left_of_elem%lk_Some_range. lia. }
  unfold hopcroft_karp in Hhk.
  apply bind_Ret in Hhk as (forward_adj & Hbuild & Hhk).
  destruct (forward_adj_edges _ _ _ _ Hrange Hbuild) as [Hlen Hadj].
  apply bind_Ret in Hhk as (st & Hst & Hm).
  apply phases_from_adj in Hst as [_ Hfrom].
  2: { split; [by rewrite Hlen; apply length_replicate|].
       intros k u [-> _]%lookup_replicate. done. }
  eapply (for_each_invariant
            (fun m : list Edge =>
               forall u v, (u, v) ∈ m -> (u, v) ∈ edges \/ (v, u) ∈ edges));
    [| |exact Hm].
  - intros x acc acc' Hx Hacc (pv & Hpv & [= <-])%bind_Ret.
    apply py_get_lk in Hpv as [Hpv _]; [|by apply Hleft].
    destruct (Z.eqb_spec pv (-1)) as [->|Hne]; [done|].
    intros u v [?|[= -> ->]%list_elem_of_singleton]%elem_of_app; [auto|].
    pose proof (Hleft x Hx) as Hx0.
    unfold lk in Hpv. rewrite decide_True in Hpv by done.
    destruct (Hfrom _ _ Hpv Hne) as (us & Hus & Hin).
    apply (Hadj x us pv); [|done]. unfold lk. by rewrite decide_True.
  - by intros u v ?%elem_of_nil.
Qed.

(** X21.  Every pair of the matching [solve_matching] returns is an edge of
    the input graph, in one direction or the other. *)
Theorem matching_uses_edges (iter_order : list Z -> list Z) (fuel : nat)
    (n : Z) (edges : list Edge) (m : list Edge) :
  (forall l, iter_order l ≡ₚ l) ->
  Forall (fun e => 0 <= e.1 < n /\ 0 <= e.2 < n) edges ->
  solve_matching iter_order fuel n edges = Ret (true, m) ->
  forall u v, (u, v) ∈ m -> (u, v) ∈ edges \/ (v, u) ∈ edges.
Proof.
  intros Hperm Hedges. rewrite Forall_forall in Hedges.
  apply solve_matching_edges; [done|]. intros a b Hab. apply (Hedges _ Hab).
Qed.

Lemma matching_uses_edges_witness :
  solve_matching reverse 13 4 square = Ret (true, [(2, 1); (0, 3)])
  /\ forall u v, (u, v) ∈ [(2, 1); (0, 3)] -> (u, v) ∈ square \/ (v, u) ∈ square.
Proof.
  split; [reflexivity|].
  apply (matching_uses_edges reverse 13 4 square).
  - intros l. apply reverse_Permutation.
  - repeat constructor; simpl; lia.
  - reflexivity.
Defined.

(** *** The matching is maximum *)

Lemma post_false_pairs N left_partition d v s s' :
  post N left_partition d v s s' false ->
  (forall x, lk (pair_v s') x = lk (pair_v s) x)
  /\ (forall u, lk (pair_u s') u = lk (pair_u s) u).
Proof.
  intros (_ & Hv & Hu & _). split; intros x.
  - destruct (decide (lk (pair_v s') x = lk (pair_v s) x)) as [|Hne]; [done|].
    by destruct (Hv x Hne) as [? _].
  - destruct (decide (lk (pair_u s') x = lk (pair_u s) x)) as [|Hne]; [done|].
    by destruct (Hu x Hne) as [? _].
Qed.

Lemma inverse_same_pairs st s :
  (forall x, lk (pair_v s) x = lk (pair_v st) x) ->
  (forall u, lk (pair_u s) u = lk (pair_u st) u) ->
  inverse st -> inverse s.
Proof. intros Ev Eu Hinv u x. rewrite Ev, Eu. apply Hinv. Qed.

Lemma inverse_but_free v st st' :
  lk (pair_v st) v = Some (-1) -> inverse_but v st st' -> inverse st'.
Proof.
  intros Hfree Hinv u x Hu Hx. destruct (Hinv u x Hu Hx) as [?|[-> Hv]]; [done|].
  rewrite Hfree in Hv. injection Hv as <-. apply lk_Some_range in Hu. lia.
Qed.

Section inverse.
Variables (N : nat) (forward_adj : list (list Z)) (left_partition : list Z).
Hypothesis adj_right : forall v us u,
  lk forward_adj v = Some us -> u ∈ us ->
  0 <= u < Z.of_nat N /\ u ∉ left_partition.
Hypothesis left_range : forall u, u ∈ left_partition -> 0 <= u < Z.of_nat N.

Abbreviation good := (good N left_partition).
Abbreviation post := (post N left_partition).

Lemma dfs_edges_inverse (rec : Z -> hk -> outcome (bool * hk)) d v st :
  (forall pu s ok s1,
      good s -> 0 <= pu -> pu ∈ left_partition ->
      lk (dist s) pu = Some (Fin (d + 1)) ->
      rec pu s = Ret (ok, s1) -> post (d + 1) pu s s1 ok) ->
  (forall pu s s1,
      good s -> inverse s -> pu ∈ left_partition ->
      lk (dist s) pu = Some (Fin (d + 1)) ->
      rec pu s = Ret (true, s1) -> inverse_but pu s s1) ->
  v ∈ left_partition -> lk (dist st) v = Some (Fin d) -> inverse st ->
  forall us s s',
    (forall u, u ∈ us -> 0 <= u < Z.of_nat N /\ u ∉ left_partition) ->
    good s -> deeper d false st s ->
    dfs_edges rec v us s = Ret (true, s') ->
    inverse_but v st s'.
Proof.
  intros Hpost Hrec Hleft Hdv Hinv.
  destruct (left_range v Hleft) as [Hv0 HvN].
  induction us as [|u us IH]; intros s s' Hus Hs Hin; simpl.
  - by intros (s1 & _ & [=])%bind_Ret.
  - destruct (Hus u) as [Hu Hright]; [by left|].
    assert (forall u', u' ∈ us -> 0 <= u' < Z.of_nat N /\ u' ∉ left_partition) as Hus'.
    { intros u' Hu'. apply Hus. by right. }
    destruct (deeper_pairs _ _ _ Hin) as [Pv Pu].
    intros (pu & Hpu & H)%bind_Ret.
    apply py_get_lk in Hpu as [Hpu _]; [|lia].
    pose proof Hs as (_ & _ & _ & Mv & Mu).
    destruct (Z.eqb_spec pu (-1)) as [->|Hpu1].
    + (* [u] is free *)
      apply bind_Ret in H as (s1 & Hflip & [= <-]).
      apply flip_spec in Hflip as (_ & _ & _ & _ & Ev & Eu); [|lia..].
      intros u' x. rewrite Eu, Ev. destruct (decide (u' = u)) as [->|Hu'].
      * intros [= <-] _. left. by rewrite decide_True.
      * rewrite Pu. intros Hx Hne. pose proof (Hinv u' x Hx Hne) as Hx'.
        case_decide as Hxv; [subst x; by right|]. left. by rewrite Pv.
    + destruct (Mu u pu Hpu Hpu1) as [[Hpu0 HpuN] Hpul].
      apply bind_Ret in H as (dpu & Hdpu & H).
      apply bind_Ret in H as (dv & Hdv' & H).
      apply py_get_lk in Hdpu as [Hdpu _]; [|done].
      apply py_get_lk in Hdv' as [Hdv' _]; [|done].
      rewrite (deeper_layer _ _ _ _ _ Hin Hdv) in Hdv'. simplify_eq.
      destruct (layer_eqb dpu (layer_succ (Fin d))) eqn:El; [|by eapply IH].
      apply layer_eqb_succ in El as ->.
      apply bind_Ret in H as ([ok1 s1] & Hcall & H).
      pose proof (Hpost _ _ _ _ Hs Hpu0 Hpul Hdpu Hcall) as Hp.
      pose proof (deeper_trans _ _ _ _ _ Hin
                    (post_deeper N left_partition _ _ _ _ _ Hdpu Hp)) as Hin1.
      destruct ok1; [|eapply IH; [done|apply Hp|done|done]].
      apply bind_Ret in H as (s2 & Hflip & [= <-]).
      pose proof (inverse_same_pairs _ _ Pv Pu Hinv) as Hinvs.
      pose proof (Hrec _ _ _ Hs Hinvs Hpul Hdpu Hcall) as Hbut.
      destruct Hp as (Hs1 & Hv1 & _).
      apply flip_spec in Hflip as (_ & _ & _ & _ & Ev & Eu); [|lia..].
      assert (lk (pair_v s) pu = Some u) as Hold by (by apply Hinvs).
      assert (lk (pair_v s1) v = lk (pair_v st) v) as Hsame.
      { rewrite <- Pv.
        destruct (decide (lk (pair_v s1) v = lk (pair_v s) v)) as [|Hne]; [done|].
        pose proof (deeper_layer _ _ _ _ _ Hin Hdv) as Hdvs.
        destruct (Hv1 v Hne) as (_ & _ & [->|(dx & ? & ?)]); simplify_eq; lia. }
      intros u' x. rewrite Eu, Ev. destruct (decide (u' = u)) as [->|Hu'].
      * intros [= <-] _. left. by rewrite decide_True.
      * intros Hx Hne. destruct (Hbut u' x Hx Hne) as [Hx'|[-> Hx']].
        -- case_decide as Hxv; [|by left]. subst x. right. split; [done|]. congruence.
        -- congruence.
Qed.

Lemma dfs_inverse fuel :
  forall d v s s',
    good s -> inverse s -> v ∈ left_partition -> lk (dist s) v = Some (Fin d) ->
    dfs fuel forward_adj v s = Ret (true, s') -> inverse_but v s s'.
Proof.
  induction fuel as [|fuel IH]; intros d v s s' Hs Hinv Hleft Hd; simpl; [done|].
  destruct (left_range v Hleft) as [Hv0 HvN].
  intros (us & Hus & H)%bind_Ret.
  apply py_get_lk in Hus as [Hus _]; [|done].
  eapply (dfs_edges_inverse (dfs fuel forward_adj) d v s); eauto using deeper_refl.
  intros pu s0 ok s1 Hs0 Hpu0 Hpul Hdpu Hcall.
  by eapply (dfs_post N forward_adj left_partition adj_right fuel).
Qed.

Hypothesis left_nodup : NoDup left_partition.

Lemma phase_inverse fuel st st' :
  good st -> inverse st ->
  (forall u, u ∈ left_partition -> lk (pair_v st) u = Some (-1) ->
     lk (dist st) u = Some (Fin 0)) ->
  for_each left_partition (phase_step fuel forward_adj) st = Ret st' ->
  inverse st'.
Proof.
  intros Hst Hinv H0 H.
  eapply (for_each_prefix
            (fun pre s =>
               good s /\ inverse s
               /\ forall u, u ∈ left_partition -> u ∉ pre ->
                    lk (pair_v s) u = Some (-1) -> lk (dist s) u = Some (Fin 0)))
    in H; [apply H| |].
  - intros pre x post' s s' Hsplit (Hs & Hinvs & Hfree). unfold phase_step.
    assert (x ∈ left_partition) as Hx by (rewrite Hsplit, elem_of_app; right; by left).
    assert (x ∉ pre) as Hxpre.
    { pose proof left_nodup as Hnd. rewrite Hsplit in Hnd.
      apply NoDup_app in Hnd as (_ & Hnd & _). intros Hin. apply (Hnd x Hin). by left. }
    destruct (left_range x Hx) as [Hx0 _].
    intros (pv & Hpv & Hb)%bind_Ret.
    apply py_get_lk in Hpv as [Hpv _]; [|done].
    destruct (Z.eqb_spec pv (-1)) as [->|Hne].
    + apply bind_Ret in Hb as ([ok s1] & Hdfs & [= <-]).
      pose proof (dfs_post N forward_adj left_partition adj_right
                    fuel 0 x s ok s1 Hs Hx0 Hx (Hfree x Hx Hxpre Hpv) Hdfs) as Hp.
      split; [apply Hp|]. split.
      * destruct ok.
        -- apply (inverse_but_free x s s1 Hpv).
           exact (dfs_inverse fuel 0 x s s1 Hs Hinvs Hx (Hfree x Hx Hxpre Hpv) Hdfs).
        -- destruct (post_false_pairs _ _ _ _ _ _ Hp) as [Ev Eu].
           by eapply inverse_same_pairs.
      * destruct Hp as (Hs1 & Hv & _ & Hd & _).
        intros u Hu Hupre Hu1.
        assert (u <> x) as Hux
          by (intros ->; apply Hupre; rewrite elem_of_app; right; by left).
        assert (lk (pair_v s1) u = lk (pair_v s) u) as Esame.
        { destruct (decide (lk (pair_v s1) u = lk (pair_v s) u)) as [|Hne]; [done|].
          destruct (Hv u Hne) as (_ & (u' & ? & ?) & _). congruence. }
        assert (lk (dist s) u = Some (Fin 0)) as Hdu.
        { apply Hfree; [done|intros ?; apply Hupre; rewrite elem_of_app; by left|congruence]. }
        destruct (decide (lk (dist s1) u = lk (dist s) u)) as [->|Hne]; [done|].
        destruct (Hd u Hne) as (_ & [?|(dx & ? & ?)]); [done|]. simplify_eq; lia.
    + injection Hb as <-. split; [done|]. split; [done|]. intros u Hu Hupre.
      apply Hfree; [done|intros ?; apply Hupre; rewrite elem_of_app; by left].
  - split; [done|]. split; [done|]. intros u Hu _. by apply H0.
Qed.

(** The arrays returned by the loop over phases come from a search that
    found no path. *)
Lemma phases_final fuel :
  forall st st',
    good st -> inverse st ->
    phases fuel forward_adj left_partition st = Ret st' ->
    exists st0 fuel0,
      good st0 /\ inverse st0
      /\ bfs fuel0 forward_adj left_partition st0 = Ret (st', false).
Proof.
  induction fuel as [|fuel IH]; intros st st' Hst Hinv; simpl; [done|].
  intros ([st1 found] & Hbfs & H)%bind_Ret.
  destruct found; [|injection H as <-; eauto 6].
  pose proof (bfs_spec N forward_adj left_partition adj_right left_range _ _ _ _ Hst Hbfs)
    as [Hst1 H0].
  pose proof (bfs_pairs _ _ _ _ _ _ Hbfs) as Ev.
  assert (inverse st1) as Hinv1.
  { unfold bfs in Hbfs. apply bind_Ret in Hbfs as ([s dq] & Hi & Hl).
    apply (bfs_init_spec N forward_adj left_partition adj_right left_range)
      in Hi as (Hs & Hdq & _).
    apply (bfs_loop_spec N forward_adj left_partition adj_right _ _ Hst _ _ _ _ _ Hs Hdq)
      in Hl as [(Ev' & Eu' & _) _].
    intros u x. rewrite Ev', Eu'. apply Hinv. }
  apply bind_Ret in H as (st2 & Hphase & H).
  apply (IH st2); [|by eapply phase_inverse|done].
  by eapply (phase_spec N forward_adj left_partition adj_right left_range left_nodup).
Qed.

End inverse.

Lemma handled_mono s s' found found' u :
  pair_u s' = pair_u s ->
  (forall x, finite_at (dist s) x -> finite_at (dist s') x) ->
  (found = true -> found' = true) ->
  handled s found u -> handled s' found' u.
Proof.
  intros Eu Hfin Hf (pu & Hpu & H1 & H2). exists pu. rewrite Eu.
  split; [done|]. split; [auto|]. intros Hne. auto.
Qed.

Lemma bfs_init_finite (left_partition : list Z) st s dq :
  (forall v, v ∈ left_partition -> 0 <= v) ->
  for_each left_partition bfs_init (st, []) = Ret (s, dq) ->
  Forall (finite_at (dist s)) dq
  /\ forall x, x ∈ left_partition -> finite_at (dist s) x -> x ∈ dq.
Proof.
  intros Hleft H.
  eapply (for_each_prefix
            (fun pre (sd : hk * list Z) =>
               pair_v sd.1 = pair_v st
               /\ (forall x, x ∈ sd.2 ->
                     lk (pair_v st) x = Some (-1) /\ finite_at (dist sd.1) x)
               /\ forall x, x ∈ pre -> finite_at (dist sd.1) x -> x ∈ sd.2)) in H.
  - destruct H as (_ & Hdq & Hpre). split; [|done].
    apply Forall_forall. intros x Hx. by apply Hdq.
  - intros pre v post' [s0 dq0] [s1 dq1] Hsplit (Ev & Hdq & Hpre). simpl in *.
    assert (0 <= v) as Hv by (apply Hleft; rewrite Hsplit, elem_of_app; right; by left).
    intros (pv & Hpv & Hb)%bind_Ret.
    apply py_get_lk in Hpv as [Hpv _]; [|done]. rewrite Ev in Hpv.
    destruct (Z.eqb_spec pv (-1)) as [->|Hne]; simpl in Hb;
      apply bind_Ret in Hb as (s2 & (Ev2 & _ & _ & Ed)%set_dist_spec & [= <- <-]);
      try done.
    + split; [congruence|]. split.
      * intros x [Hx| ->%list_elem_of_singleton]%elem_of_app.
        -- destruct (Hdq x Hx) as [? [k Hk]]. split; [done|].
           unfold finite_at. rewrite Ed. case_decide; eauto.
        -- split; [done|]. exists 0. rewrite Ed. by rewrite decide_True.
      * intros x Hx [k Hk]. rewrite elem_of_app. rewrite Ed in Hk.
        destruct (decide (x = v)) as [->|Hxv]; [right; by left|]. left.
        apply elem_of_app in Hx as [Hx| ->%list_elem_of_singleton]; [|done].
        apply Hpre; [done|]. by exists k.
    + split; [congruence|]. split.
      * intros x Hx. destruct (Hdq x Hx) as [Hfree [k Hk]]. split; [done|].
        exists k. rewrite Ed. rewrite decide_False; [done|]. intros ->. congruence.
      * intros x Hx [k Hk]. rewrite Ed in Hk.
        destruct (decide (x = v)) as [->|Hxv]; [done|].
        apply elem_of_app in Hx as [Hx| ->%list_elem_of_singleton]; [|done].
        apply Hpre; [done|]. by exists k.
  - split; [done|]. split; [by intros x ?%elem_of_nil|by intros x ?%elem_of_nil].
Qed.

Lemma bfs_visit_explored v u s dq found s' dq' found' :
  (forall u x, lk (pair_u s) u = Some x -> x <> -1 -> 0 <= x) ->
  0 <= u -> finite_at (dist s) v ->
  bfs_visit v u (s, dq, found) = Ret (s', dq', found') ->
  pair_u s' = pair_u s
  /\ (forall x, finite_at (dist s) x -> finite_at (dist s') x)
  /\ (forall x, finite_at (dist s') x -> finite_at (dist s) x \/ x ∈ dq')
  /\ (forall x, x ∈ dq -> x ∈ dq')
  /\ (forall x, x ∈ dq' -> x ∈ dq \/ finite_at (dist s') x)
  /\ (found = true -> found' = true)
  /\ handled s' found' u.
Proof.
  intros Hpos Hu [k Hk]. unfold bfs_visit.
  intros (pu & Hpu & H)%bind_Ret.
  apply py_get_lk in Hpu as [Hpu _]; [|done].
  destruct (Z.eqb_spec pu (-1)) as [->|Hne].
  { injection H as <- <- <-. repeat split; auto. exists (-1). by repeat split. }
  pose proof (Hpos u pu Hpu Hne) as Hpu0.
  apply bind_Ret in H as (dpu & Hdpu & H).
  apply py_get_lk in Hdpu as [Hdpu _]; [|done].
  destruct dpu as [kp|]; simpl in H.
  { injection H as <- <- <-. repeat split; auto. exists pu.
    split; [done|]. split; [done|]. intros _. by exists kp. }
  destruct (lk_Some_range _ _ _ Hk) as [Hv0 _].
  apply bind_Ret in H as (dv & Hdv & H).
  apply py_get_lk in Hdv as [Hdv _]; [|done].
  rewrite Hk in Hdv. injection Hdv as <-.
  apply bind_Ret in H as (s1 & (_ & Eu & _ & Ed)%set_dist_spec & [= <- <- <-]); [|done].
  split; [done|]. split; [|split; [|split; [|split; [|split]]]].
  - intros x [kx Hx]. unfold finite_at. rewrite Ed. case_decide; eauto.
  - intros x [kx Hx]. rewrite Ed in Hx. case_decide as Hxp.
    + subst. right. rewrite elem_of_app. right. by left.
    + left. by exists kx.
  - intros x Hx. rewrite elem_of_app. by left.
  - intros x [Hx| ->%list_elem_of_singleton]%elem_of_app; [by left|]. right.
    exists (k + 1). rewrite Ed. by rewrite decide_True.
  - done.
  - exists pu. rewrite Eu. split; [done|]. split; [done|]. intros _.
    exists (k + 1). rewrite Ed. by rewrite decide_True.
Qed.

Lemma bfs_loop_explored (forward_adj : list (list Z)) (left_partition : list Z) fuel :
  (forall v us u, lk forward_adj v = Some us -> u ∈ us -> 0 <= u) ->
  forall s dq found s' found',
    (forall u x, lk (pair_u s) u = Some x -> x <> -1 -> 0 <= x) ->
    Forall (finite_at (dist s)) dq ->
    (forall x, x ∈ left_partition -> finite_at (dist s) x ->
       x ∈ dq \/ explored forward_adj s found x) ->
    bfs_loop fuel forward_adj (s, dq, found) = Ret (s', found') ->
    forall x, x ∈ left_partition -> finite_at (dist s') x ->
      explored forward_adj s' found' x.
Proof.
  intros Hadj.
  induction fuel as [|fuel IH]; intros s dq found s' found' Hpos Hdq Hinv; simpl;
    [done|].
  destruct dq as [|v dq].
  { intros [= <- <-] x Hx Hfin. by destruct (Hinv x Hx Hfin) as [?%elem_of_nil|?]. }
  apply Forall_cons in Hdq as [Hv Hdq]. rewrite Forall_forall in Hdq.
  destruct Hv as [k Hk]. destruct (lk_Some_range _ _ _ Hk) as [Hv0 _].
  intros (us & Hus & H)%bind_Ret.
  apply py_get_lk in Hus as [Hus _]; [|done].
  apply bind_Ret in H as ([[s1 dq1] found1] & Hvisit & H).
  eapply (for_each_prefix
            (fun pre (t : hk * list Z * bool) =>
               pair_u t.1.1 = pair_u s
               /\ (forall x, finite_at (dist s) x -> finite_at (dist t.1.1) x)
               /\ (forall x, finite_at (dist t.1.1) x ->
                     finite_at (dist s) x \/ x ∈ t.1.2)
               /\ (forall x, x ∈ dq -> x ∈ t.1.2)
               /\ (forall x, x ∈ t.1.2 -> x ∈ dq \/ finite_at (dist t.1.1) x)
               /\ (found = true -> t.2 = true)
               /\ forall u, u ∈ pre -> handled t.1.1 t.2 u))
    in Hvisit.
  - destruct Hvisit as (Eu & Hup & Hnew & Hold & Hdq1 & Hf & Hdone). simpl in *.
    eapply IH; [| | |exact H].
    + rewrite Eu. apply Hpos.
    + apply Forall_forall. intros x Hx.
      destruct (Hdq1 x Hx) as [?|?]; [|done]. by apply Hup, Hdq.
    + intros x Hx Hfin. destruct (Hnew x Hfin) as [Hfin0|?]; [|by left].
      destruct (Hinv x Hx Hfin0) as [[->|Hxd]%elem_of_cons|Hex].
      * right. intros us' u. rewrite Hus. intros [= <-] Hu. by apply Hdone.
      * left. by apply Hold.
      * right. intros us' u Hus' Hu. eapply handled_mono; [done..|]. by eapply Hex.
  - intros pre u post' [[t dqt] ft] [[t' dqt'] ft'] Hsplit
      (Eu & Hup & Hnew & Hold & Hdq1 & Hf & Hdone). simpl in *.
    intros Hstep. apply bfs_visit_explored in Hstep
      as (Eu' & Hup' & Hnew' & Hold' & Hdq' & Hf' & Hh).
    + split; [congruence|]. split; [auto|]. split; [|split; [auto|split; [|split; [auto|]]]].
      * intros x Hx. destruct (Hnew' x Hx) as [Hx'|?]; [|by right].
        destruct (Hnew x Hx') as [?|?]; auto.
      * intros x Hx. destruct (Hdq' x Hx) as [Hx'|?]; [|by right].
        destruct (Hdq1 x Hx') as [?|?]; auto.
      * intros w [Hw| ->%list_elem_of_singleton]%elem_of_app; [|done].
        eapply handled_mono; [done..|]. by apply Hdone.
    + rewrite Eu. apply Hpos.
    + apply (Hadj v us); [done|]. rewrite Hsplit, elem_of_app. right. by left.
    + apply Hup. by exists k.
  - simpl. split; [done|]. split; [done|]. split; [by left|]. split; [done|].
    split; [by left|]. split; [done|]. by intros u ?%elem_of_nil.
Qed.

Lemma NoDup_fmap_inj_on {A B} (f : A -> B) (l : list A) x y :
  NoDup (f <$> l) -> x ∈ l -> y ∈ l -> f x = f y -> x = y.
Proof.
  intros Hnd [i Hi]%list_elem_of_lookup [j Hj]%list_elem_of_lookup Hf.
  assert (i = j) as ->; [|congruence].
  apply (NoDup_lookup (f <$> l) i j (f x) Hnd); rewrite list_lookup_fmap.
  - by rewrite Hi.
  - by rewrite Hj, Hf.
Qed.

(** Two pairs of a matching that share a vertex are the same pair. *)
Lemma matching_share (m : list Edge) e e' :
  NoDup (m.*1 ++ m.*2) -> e ∈ m -> e' ∈ m ->
  e.1 = e'.1 \/ e.1 = e'.2 \/ e.2 = e'.1 \/ e.2 = e'.2 -> e = e'.
Proof.
  intros (H1 & Hd & H2)%NoDup_app He He' Hs.
  assert (forall a b : Edge, a ∈ m -> b ∈ m -> a.1 <> b.2) as Hne.
  { intros a b Ha Hb E. apply (Hd a.1).
    - apply list_elem_of_fmap. eauto.
    - rewrite E. apply list_elem_of_fmap. eauto. }
  destruct Hs as [E|[E|[E|E]]].
  - by apply (NoDup_fmap_inj_on fst m).
  - by destruct (Hne e e').
  - symmetry in E. by destruct (Hne e' e).
  - by apply (NoDup_fmap_inj_on snd m).
Qed.

Lemma matching_complete (left_partition : list Z) st (m : list Edge) :
  (forall u, u ∈ left_partition -> 0 <= u) ->
  for_each left_partition
    (fun u matching =>
       pv ← py_get (pair_v st) u;
       Ret (if pv =? -1 then matching else matching ++ [(u, pv)]))
    [] = Ret m ->
  forall x y, x ∈ left_partition -> lk (pair_v st) x = Some y -> y <> -1 -> (x, y) ∈ m.
Proof.
  intros Hleft H.
  eapply (for_each_prefix
            (fun pre (m : list Edge) =>
               forall x y, x ∈ pre -> lk (pair_v st) x = Some y -> y <> -1 ->
                 (x, y) ∈ m)); [| |exact H].
  - intros pre u post' acc acc' Hsplit Hpre (pv & Hpv & [= <-])%bind_Ret.
    apply py_get_lk in Hpv as [Hpv _].
    2: { apply Hleft. rewrite Hsplit, elem_of_app. right. by left. }
    intros x y [Hx| ->%list_elem_of_singleton]%elem_of_app Hy Hne.
    + destruct (pv =? -1); [|rewrite elem_of_app; left]; by apply Hpre.
    + rewrite Hpv in Hy. injection Hy as ->.
      destruct (Z.eqb_spec y (-1)) as [|_]; [done|].
      rewrite elem_of_app. right. by left.
  - by intros x y ?%elem_of_nil.
Qed.

Section counting.
Variables (N : nat) (forward_adj : list (list Z)) (left_partition : list Z).
Variables (st : hk) (m' : list Edge).
Hypothesis st_good : MatchingSpec.good N left_partition st.
Hypothesis st_inverse : inverse st.
Hypothesis st_free : forall x,
  x ∈ left_partition -> lk (pair_v st) x = Some (-1) -> finite_at (dist st) x.
Hypothesis st_explored : forall x,
  x ∈ left_partition -> finite_at (dist st) x -> explored forward_adj st false x.
Hypothesis left_range : forall u, u ∈ left_partition -> 0 <= u < Z.of_nat N.
Hypothesis m'_nodup : NoDup (m'.*1 ++ m'.*2).
Hypothesis m'_adj : forall e, e ∈ m' ->
  (ends left_partition e).1 ∈ left_partition
  /\ exists us, lk forward_adj (ends left_partition e).1 = Some us
                /\ (ends left_partition e).2 ∈ us.

Lemma ends_cases e :
  ends left_partition e = e \/ ends left_partition e = (e.2, e.1).
Proof. unfold ends. case_bool_decide; auto. Qed.

(** The pair chosen for an edge of [m'] is recorded in [st]; when chosen
    at the right end, its left end has a layer. *)
Lemma cover_of_spec e :
  e ∈ m' ->
  let x := (ends left_partition e).1 in
  let y := (ends left_partition e).2 in
  let c := cover_of left_partition st e in
  c.1 ∈ left_partition /\ lk (pair_v st) c.1 = Some c.2 /\ c.2 <> -1
  /\ ((~ finite_at (dist st) x /\ c.1 = x)
      \/ (finite_at (dist st) c.1 /\ c.2 = y)).
Proof.
  intros He. destruct (m'_adj e He) as (Hx & us & Hus & Hy).
  unfold cover_of. destruct (ends left_partition e) as [x y]. simpl in *.
  destruct st_good as (Lv & _ & Ld & _ & Mu).
  destruct (left_range x Hx) as [Hx0 HxN].
  destruct (lk (dist st) x) as [[k|]|] eqn:Hd.
  - destruct (st_explored x Hx (ex_intro _ k Hd) us y Hus Hy)
      as (pu & Hpu & Hfree & Hfin).
    rewrite Hpu. simpl.
    assert (pu <> -1) as Hne by (intros ->; by specialize (Hfree eq_refl)).
    destruct (Mu y pu Hpu Hne) as [_ Hpul].
    split; [done|]. split; [by apply st_inverse|]. split.
    + apply lk_Some_range in Hpu. lia.
    + right. split; [by apply Hfin|done].
  - assert (exists pv, lk (pair_v st) x = Some pv) as [pv Hpv].
    { unfold lk. rewrite decide_True by done. apply lookup_lt_is_Some. lia. }
    rewrite Hpv. simpl. split; [done|]. split; [done|]. split.
    + intros ->. destruct (st_free x Hx Hpv) as [k Hk]. congruence.
    + left. split; [|done]. intros [k Hk]. congruence.
  - unfold lk in Hd. rewrite decide_True in Hd by done.
    apply lookup_ge_None in Hd. lia.
Qed.

Lemma cover_of_inj e e' :
  e ∈ m' -> e' ∈ m' ->
  cover_of left_partition st e = cover_of left_partition st e' -> e = e'.
Proof.
  intros He He' E.
  destruct (cover_of_spec e He) as (_ & _ & _ & Hc).
  destruct (cover_of_spec e' He') as (_ & _ & _ & Hc').
  rewrite <- E in Hc'. apply (matching_share m'); [done..|].
  destruct Hc as [[Hinf Hx]|[Hfin Hy]], Hc' as [[Hinf' Hx']|[Hfin' Hy']].
  - rewrite Hx in Hx'.
    destruct (ends_cases e) as [Ee|Ee], (ends_cases e') as [Ee'|Ee'];
      rewrite Ee, Ee' in *; simpl in *; auto.
  - rewrite Hx in Hfin'. done.
  - rewrite Hx' in Hfin. done.
  - rewrite Hy in Hy'.
    destruct (ends_cases e) as [Ee|Ee], (ends_cases e') as [Ee'|Ee'];
      rewrite Ee, Ee' in *; simpl in *; auto.
Qed.

Lemma matching_bound (m : list Edge) :
  (forall x y, x ∈ left_partition -> lk (pair_v st) x = Some y -> y <> -1 ->
     (x, y) ∈ m) ->
  (length m' <= length m)%nat.
Proof.
  intros Hm.
  rewrite <- (length_fmap (cover_of left_partition st) m').
  apply submseteq_length, NoDup_submseteq.
  - apply NoDup_fmap_2_strong.
    + intros e e' He He'. by apply cover_of_inj.
    + apply NoDup_app in m'_nodup as (Hnd & _). by apply NoDup_fmap_1 in Hnd.
  - intros c (e & -> & He)%list_elem_of_fmap.
    destruct (cover_of_spec e He) as (Hl & Hp & Hne & _).
    destruct (cover_of left_partition st e) as [x y]. by apply Hm.
Qed.

End counting.

Section search.
Variables (N : nat) (forward_adj : list (list Z)) (left_partition : list Z).
Hypothesis adj_right : forall v us u,
  lk forward_adj v = Some us -> u ∈ us ->
  0 <= u < Z.of_nat N /\ u ∉ left_partition.
Hypothesis left_range : forall u, u ∈ left_partition -> 0 <= u < Z.of_nat N.

(** When the search returns, every right neighbour of a left vertex with
    a layer has been looked at. *)
Lemma bfs_explored fuel st st' found :
  MatchingSpec.good N left_partition st ->
  bfs fuel forward_adj left_partition st = Ret (st', found) ->
  pair_v st' = pair_v st /\ pair_u st' = pair_u st
  /\ forall x, x ∈ left_partition -> finite_at (dist st') x ->
       explored forward_adj st' found x.
Proof.
  intros Hst. unfold bfs. intros ([s dq] & Hi & Hl)%bind_Ret.
  pose proof Hi as [Hdq Hin]%bfs_init_finite.
  2: { intros v Hv%left_range. lia. }
  apply (bfs_init_spec N forward_adj left_partition adj_right left_range)
    in Hi as (Hs & Hpos & _).
  pose proof (bfs_loop_spec N forward_adj left_partition adj_right _ _ Hst
                _ _ _ _ _ Hs Hpos Hl) as [(Ev & Eu & _) _].
  split; [done|]. split; [done|].
  eapply (bfs_loop_explored forward_adj left_partition); [| | | |exact Hl].
  - intros v us u Hus Hu. destruct (adj_right v us u Hus Hu). lia.
  - destruct Hs as (_ & Eu' & _). rewrite Eu'.
    destruct Hst as (_ & _ & _ & _ & Mu). intros u x Hu Hne.
    destruct (Mu u x Hu Hne). lia.
  - done.
  - intros x Hx Hfin. left. by apply Hin.
Qed.

End search.

Lemma adjacent_append (adj : list (list Z)) a b adj' x y :
  0 <= a -> adj_append adj a b = Ret adj' ->
  (exists us, lk adj x = Some us /\ y ∈ us) ->
  exists us, lk adj' x = Some us /\ y ∈ us.
Proof.
  intros Ha (_ & row & Hrow & E)%adj_append_lk (us & Hus & Hy); [|done].
  rewrite E. case_decide as Hx; [|eauto]. subst x. exists (row ++ [b]).
  split; [done|]. rewrite elem_of_app. left. congruence.
Qed.

(** Every edge with one end in [left_partition] is listed in
    [forward_adj] under that end. *)
Lemma forward_adj_complete n (edges : list Edge) (left_partition : list Z)
    forward_adj :
  (forall a b, (a, b) ∈ edges -> 0 <= a < n /\ 0 <= b < n) ->
  for_each edges (add_forward left_partition) (replicate (Z.to_nat n) [])
  = Ret forward_adj ->
  forall a b, (a, b) ∈ edges ->
    (a ∈ left_partition -> exists us, lk forward_adj a = Some us /\ b ∈ us)
    /\ (a ∉ left_partition -> b ∈ left_partition ->
          exists us, lk forward_adj b = Some us /\ a ∈ us).
Proof.
  intros Hrange H.
  eapply (for_each_prefix
            (fun pre (adj : list (list Z)) =>
               forall a b, (a, b) ∈ pre ->
                 (a ∈ left_partition -> exists us, lk adj a = Some us /\ b ∈ us)
                 /\ (a ∉ left_partition -> b ∈ left_partition ->
                       exists us, lk adj b = Some us /\ a ∈ us)));
    [| |exact H].
  - intros pre [a b] post s s' Hsplit Hpre.
    destruct (Hrange a b) as [Ha Hb]; [rewrite Hsplit, elem_of_app; right; by left|].
    unfold add_forward. case_bool_decide as Hal; [|case_bool_decide as Hbl].
    + intros Happ x y [Hxy|[= -> ->]%list_elem_of_singleton]%elem_of_app.
      * destruct (Hpre x y Hxy) as [H1 H2].
        split; intros; eapply adjacent_append; eauto; lia.
      * split; [|done]. intros _.
        apply adj_append_lk in Happ as (_ & row & _ & E); [|lia].
        exists (row ++ [b]). rewrite E, decide_True by done.
        split; [done|]. rewrite elem_of_app. right. by left.
    + intros Happ x y [Hxy|[= -> ->]%list_elem_of_singleton]%elem_of_app.
      * destruct (Hpre x y Hxy) as [H1 H2].
        split; intros; eapply adjacent_append; eauto; lia.
      * split; [done|]. intros _ _.
        apply adj_append_lk in Happ as (_ & row & _ & E); [|lia].
        exists (row ++ [a]). rewrite E, decide_True by done.
        split; [done|]. rewrite elem_of_app. right. by left.
    + intros [= <-] x y [Hxy|[= -> ->]%list_elem_of_singleton]%elem_of_app.
      * by apply Hpre.
      * done.
  - by intros a b ?%elem_of_nil.
Qed.

(** The matching [hopcroft_karp] returns is at least as large as any
    other, when [left_partition] holds one end of every edge. *)
Lemma hopcroft_karp_maximum fuel n (edges : list Edge) (left_partition : list Z)
    (m m' : list Edge) :
  (forall a b, (a, b) ∈ edges -> 0 <= a < n /\ 0 <= b < n) ->
  (forall u, u ∈ left_partition -> 0 <= u < n) ->
  NoDup left_partition ->
  (forall a b, (a, b) ∈ edges -> a ∈ left_partition <-> b ∉ left_partition) ->
  hopcroft_karp fuel n edges left_partition = Ret m ->
  is_matching edges m' ->
  (length m' <= length m)%nat.
Proof.
  intros Hedges Hleft Hnd Hcross Hrun [Hm' Hnd'].
  assert (forall a b, (a, b) ∈ edges -> a ∈ left_partition -> b ∉ left_partition)
    as Hlr by (intros a b Hab; by apply Hcross).
  unfold hopcroft_karp in Hrun. apply bind_Ret in Hrun as (forward_adj & Hbuild & H).
  pose proof (forward_adj_right n edges left_partition Hedges Hlr _ Hbuild) as Hadj.
  pose proof (forward_adj_complete _ _ _ _ Hedges Hbuild) as Hall.
  apply bind_Ret in H as (st & Hst & H).
  assert (forall u, u ∈ left_partition -> 0 <= u < Z.of_nat (Z.to_nat n)) as Hrange.
  { intros u Hu%Hleft. lia. }
  apply (phases_final _ _ _ Hadj Hrange Hnd) in Hst
    as (st0 & fuel0 & Hg0 & Hi0 & Hbfs); [|apply initial_good|].
  2: { intros u x. simpl. by intros ->%lk_replicate. }
  destruct (bfs_spec _ _ _ Hadj Hrange _ _ _ _ Hg0 Hbfs) as [Hg Hfree].
  destruct (bfs_explored _ _ _ Hadj Hrange _ _ _ _ Hg0 Hbfs) as (Ev & Eu & Hex).
  apply (matching_bound (Z.to_nat n) forward_adj left_partition st m'); try done.
  - intros u x. rewrite Ev, Eu. apply Hi0.
  - intros x Hx Hpv. exists 0. by apply Hfree.
  - intros [a b] He. unfold ends. simpl.
    assert (a ∈ left_partition <-> b ∉ left_partition) as Hab.
    { destruct (Hm' a b He) as [Hab|Hba]; [by apply Hcross|].
      pose proof (Hcross b a Hba) as Hc. split.
      - intros Ha Hb. by apply Hc in Hb.
      - intros Hb. destruct (decide (a ∈ left_partition)) as [|Ha]; [done|].
        by apply Hc in Ha. }
    case_bool_decide as Ha; simpl.
    + split; [done|]. destruct (Hm' a b He) as [Hab'|Hba].
      * by apply (Hall a b Hab').
      * apply (Hall b a Hba); [|done]. by apply Hab.
    + assert (b ∈ left_partition) as Hb.
      { destruct (decide (b ∈ left_partition)) as [|Hb]; [done|]. by apply Hab in Hb. }
      split; [done|]. destruct (Hm' a b He) as [Hab'|Hba].
      * by apply (Hall a b Hab').
      * by apply (Hall b a Hba).
  - apply (matching_complete left_partition st m); [|done].
    intros u Hu%Hleft. lia.
Qed.

(** The matching returned is at least as large as any other. *)
Lemma solve_matching_largest (iter_order : list Z -> list Z) (fuel : nat)
    (n : Z) (edges : list Edge) (m m' : list Edge) :
  (forall l, iter_order l ≡ₚ l) ->
  (forall a b, (a, b) ∈ edges -> 0 <= a < n /\ 0 <= b < n) ->
  solve_matching iter_order fuel n edges = Ret (true, m) ->
  is_matching edges m' ->
  (length m' <= length m)%nat.
Proof.
  intros Hperm Hrange.
  unfold solve_matching. intros ([is_bipartite colors] & Hcheck & H)%bind_Ret.
  destruct is_bipartite; [|done]. simpl in H.
  apply bind_Ret in H as (m0 & Hhk & [= <-]).
  destruct (check_bipartite_colours _ _ _ _ Hrange Hcheck) as (Hlen & Hall & Hedge).
  apply (hopcroft_karp_maximum fuel n edges (iter_order (left_of colors))); try done.
  - intros u. rewrite Hperm. intros Hu%left_of_elem%lk_Some_range. lia.
  - rewrite Hperm. apply left_of_nodup.
  - intros a b Hab. rewrite !Hperm, !left_of_elem.
    destruct (Hedge a b Hab) as (c & Ha & Hb). rewrite Ha, Hb.
    destruct (Hall a) as [Ha'|Ha']; [by apply (Hrange a b)|..];
      rewrite Ha in Ha'; injection Ha' as ->; cbn; split; intros H';
      first [done | by destruct H' | by intros [=]].
Qed.

(** X22.  What [solve_matching] computes, for edges over [0, n) and whatever
    order Python iterates over the set [left_partition] in.  It returns
    (fuel above [3 * n] is never used up).  Its first component says
    whether the graph can be two-coloured.  If not, the list returned is
    empty.  If so, the list is a maximum matching: its pairs are edges of
    the graph, no vertex occurs in two of them, and no set of edges with
    that property has more elements. *)
Theorem solve_matching_maximum (iter_order : list Z -> list Z) (fuel : nat)
    (n : Z) (edges : list Edge) :
  (forall l, iter_order l ≡ₚ l) ->
  Forall (fun e => 0 <= e.1 < n /\ 0 <= e.2 < n) edges ->
  (3 * Z.to_nat n < fuel)%nat ->
  exists b m,
    solve_matching iter_order fuel n edges = Ret (b, m)
    /\ (b = true <-> exists side, two_colourable edges side)
    /\ (b = false -> m = [])
    /\ (b = true ->
        is_matching edges m
        /\ forall m', is_matching edges m' -> (length m' <= length m)%nat).
Proof.
  intros Hperm Hedges Hfuel. rewrite Forall_forall in Hedges.
  assert (forall a b, (a, b) ∈ edges -> 0 <= a < n /\ 0 <= b < n) as Hrange.
  { intros a b Hab. apply (Hedges _ Hab). }
  destruct (solve_matching_total iter_order fuel n edges Hperm Hrange Hfuel)
    as (b & m & Hrun).
  exists b, m. split; [done|].
  destruct (check_bipartite_answer fuel n edges Hrange) as (b0 & colors & Hcheck & Hb0);
    [lia|].
  assert (b = b0 /\ (b = false -> m = [])) as [-> Hempty].
  { unfold solve_matching in Hrun. rewrite Hcheck in Hrun. simpl in Hrun.
    destruct b0; simpl in Hrun.
    - apply bind_Ret in Hrun as (m0 & _ & [= <- <-]). done.
    - by injection Hrun as <- <-. }
  split; [done|]. split; [done|]. intros ->. split; [split|].
  - by apply (solve_matching_edges iter_order fuel n).
  - by apply (solve_matching_nodup iter_order fuel n edges).
  - intros m'. by apply (solve_matching_largest iter_order fuel n edges).
Qed.

Lemma solve_matching_maximum_witness :
  exists b m,
    solve_matching reverse 13 4 square = Ret (b, m)
    /\ (b = true <-> exists side, two_colourable square side)
    /\ (b = false -> m = [])
    /\ (b = true ->
        is_matching square m
        /\ forall m', is_matching square m' -> (length m' <= length m)%nat).
Proof.
  apply (solve_matching_maximum reverse 13 4 square).
  - intros l. apply reverse_Permutation.
  - repeat constructor; simpl; lia.
  - simpl. lia.
Defined.

End MatchingProps.

(** ** [src/3/graph.py]: shortest paths *)

Module RouteFacts.
Import GraphStore GraphSpec RouteVocabulary PyFacts GraphFacts.
Import MatchingSpec (lk).
Import MatchingFacts (py_get_lk, py_set_lk, lk_Some_range, py_get_total,
                      py_set_total, lk_replicate, nodup_range_length).

(** *** The order of the heap *)

Lemma Qltb_lt (a b : Q) : Qltb a b = true <-> (a < b)%Q.
Proof.
  unfold Qltb. rewrite negb_true_iff, <- not_true_iff_false, Qle_bool_iff.
  split; intros; lra.
Qed.

Lemma Qltb_ge (a b : Q) : Qltb a b = false <-> (b <= a)%Q.
Proof.
  unfold Qltb. rewrite negb_false_iff, Qle_bool_iff. done.
Qed.

Lemma tuple_lt_Fin a x b y :
  tuple_lt (Fin a, x) (Fin b, y) <-> (a < b)%Q \/ ((a == b)%Q /\ x < y).
Proof.
  unfold tuple_lt, tuple_ltb. simpl.
  destruct (Qeq_bool a b) eqn:E.
  - apply Qeq_bool_iff in E. rewrite Z.ltb_lt. split; [auto|].
    intros [?|[_ ?]]; [lra|done].
  - apply Qeq_bool_neq in E. rewrite Qltb_lt. split; [auto|].
    intros [?|[? _]]; done.
Qed.

Lemma heappush_elem (q : list (ext Q * Z)) x e :
  e ∈ heappush tuple_ltb q x <-> e = x \/ e ∈ q.
Proof.
  induction q as [|y q IH]; simpl.
  - rewrite list_elem_of_singleton, elem_of_nil. tauto.
  - destruct (tuple_ltb x y); rewrite !elem_of_cons; [tauto|]. rewrite IH. tauto.
Qed.

Lemma heappush_length (q : list (ext Q * Z)) x :
  length (heappush tuple_ltb q x) = S (length q).
Proof.
  induction q as [|y q IH]; simpl; [done|].
  destruct (tuple_ltb x y); simpl; by rewrite ?IH.
Qed.

(** Pushing an entry that differs from every entry of a sorted queue
    keeps it sorted. *)
Lemma heappush_sorted (q : list (ext Q * Z)) a x :
  (forall d y, (d, y) ∈ q -> exists b, d = Fin b /\ ((a == b)%Q -> x <> y)) ->
  increasing q -> increasing (heappush tuple_ltb q (Fin a, x)).
Proof.
  intros Hq Hs. induction q as [|[d y] q IH]; simpl.
  - split; [constructor|done].
  - destruct Hs as [Hall Hs].
    destruct (Hq d y) as (b & -> & Hne); [by left|].
    assert (forall d' y', (d', y') ∈ q ->
              exists b', d' = Fin b' /\ ((a == b')%Q -> x <> y')) as Hq'.
    { intros d' y' H'. apply Hq. by right. }
    rewrite Forall_forall in Hall.
    destruct (tuple_ltb (Fin a, x) (Fin b, y)) eqn:E.
    + split; [|by split; [apply Forall_forall|]].
      apply Forall_cons. split; [done|]. apply Forall_forall. intros [d' y'] H'.
      destruct (Hq' d' y' H') as (b' & -> & _).
      specialize (Hall _ H'). apply tuple_lt_Fin in E, Hall. apply tuple_lt_Fin.
      destruct E as [?|[? ?]], Hall as [?|[? ?]]; [left; lra..|]. right. split; [lra|lia].
    + split; [|by apply IH]. apply Forall_forall. intros [d' y'].
      rewrite heappush_elem. intros [[= -> ->]|H']; [|by apply Hall].
      apply tuple_lt_Fin. apply not_true_iff_false in E.
      destruct (Qlt_le_dec b a) as [?|Hle]; [by left|]. right.
      destruct (Qeq_dec a b) as [Heq|Hneq].
      * split; [lra|]. specialize (Hne Heq).
        destruct (Z.lt_trichotomy x y) as [?|[?|?]]; [|done..].
        exfalso. apply E, tuple_lt_Fin. auto.
      * exfalso. apply E, tuple_lt_Fin. left.
        destruct (Qlt_le_dec a b); [done|]. exfalso. apply Hneq. lra.
Qed.

(** *** Chains of predecessors *)

Lemma chain_head prev u c : chain prev u c -> exists c', c = u :: c'.
Proof. destruct 1; eauto. Qed.

Lemma chain_functional prev u c c' : chain prev u c -> chain prev u c' -> c = c'.
Proof.
  intros H. revert c'. induction H as [x Hx|x y c Hx Hc IH]; intros c' H';
    destruct H' as [x Hx'|x y' c' Hx' Hc']; try congruence.
  f_equal. apply IH. congruence.
Qed.

Lemma chain_suffix prev u c x :
  chain prev u c -> x ∈ c -> exists c1 c2, c = c1 ++ c2 /\ chain prev x c2.
Proof.
  induction 1 as [u Hu|u y c Hu Hc IH].
  - intros ->%list_elem_of_singleton. exists [], [u]. split; [done|]. by constructor.
  - intros [->|Hx]%elem_of_cons.
    + exists [], (u :: c). split; [done|]. by econstructor.
    + destruct (IH Hx) as (c1 & c2 & -> & H2). exists (u :: c1), c2. done.
Qed.

Lemma chain_nodup prev u c : chain prev u c -> NoDup c.
Proof.
  induction 1 as [u Hu|u y c Hu Hc IH]; [apply NoDup_singleton|].
  constructor; [|done]. intros Hin.
  destruct (chain_suffix _ _ _ _ Hc Hin) as (c1 & c2 & -> & H2).
  assert (chain prev u (u :: c1 ++ c2)) as H1 by (by econstructor).
  pose proof (chain_functional _ _ _ _ H1 H2) as E.
  apply (f_equal length) in E. simpl in E. rewrite length_app in E. lia.
Qed.

Lemma chain_range prev u c x : chain prev u c -> x ∈ c -> 0 <= x < Z.of_nat (length prev).
Proof.
  induction 1 as [u Hu|u y c Hu Hc IH].
  - intros ->%list_elem_of_singleton. by apply lk_Some_range in Hu.
  - intros [->|Hx]%elem_of_cons; [by apply lk_Some_range in Hu|auto].
Qed.

Lemma chain_length prev u c : chain prev u c -> (length c <= length prev)%nat.
Proof.
  intros H. apply nodup_range_length; [by eapply chain_nodup|].
  intros x Hx. by eapply chain_range.
Qed.

(** Redirecting [u] to a vertex [v] whose chain avoids [u] leaves every
    vertex with a chain. *)
Lemma chain_keep prev prev' u c x :
  (forall y, y <> u -> lk prev' y = lk prev y) ->
  chain prev x c -> u ∉ c -> chain prev' x c.
Proof.
  intros Hsame. induction 1 as [x Hx|x y c Hx Hc IH]; intros Hu.
  - constructor. rewrite Hsame; [done|]. intros ->. apply Hu. by left.
  - apply not_elem_of_cons in Hu as [Hne Hu]. econstructor; [|by apply IH].
    by rewrite Hsame.
Qed.

Lemma chain_redirect prev prev' u v cv x c :
  (forall y, y <> u -> lk prev' y = lk prev y) ->
  lk prev' u = Some (Some v) ->
  chain prev v cv -> u ∉ cv ->
  chain prev x c -> exists c', chain prev' x c'.
Proof.
  intros Hsame Hu Hv Hcv. induction 1 as [x Hx|x y c Hx Hc [c' IH]].
  - destruct (decide (x = u)) as [->|Hne].
    + exists (u :: cv). econstructor; [done|]. by eapply chain_keep.
    + exists [x]. constructor. by rewrite Hsame.
  - destruct (decide (x = u)) as [->|Hne].
    + exists (u :: cv). econstructor; [done|]. by eapply chain_keep.
    + exists (x :: c'). econstructor; [|done]. by rewrite Hsame.
Qed.

Lemma ret_bind {A B} (x : A) (f : A -> outcome B) : Ret x ≫= f = f x.
Proof. done. Qed.

(** *** One relaxation *)

Section search.
Variables (g : Graph) (start : Z).
Hypothesis g_proper : proper g.
Hypothesis g_nonneg : nonnegative g.

Lemma weight_total v u : exists w, weight g v u = Ret w.
Proof.
  destruct (weight_consistent g v u (proper_consistent _ g_proper)) as [H1 H2].
  destruct (in_graph g v && in_graph g u) eqn:E.
  - destruct H1 as (x & _ & ->); eauto.
  - rewrite H2; eauto.
Qed.

Lemma arc_range v u w : arc g v u w -> 0 <= v < n g /\ 0 <= u < n g.
Proof.
  intros [_ Hw]. unfold weight in Hw.
  destruct (in_graph g v && in_graph g u) eqn:E; [|done].
  apply andb_true_iff in E as [?%in_graph_spec ?%in_graph_spec]. done.
Qed.

Lemma arc_functional v u w w' : arc g v u w -> arc g v u w' -> w = w'.
Proof. intros [_ H] [_ H']. congruence. Qed.

(** Along a chain of predecessors the distances do not grow. *)
Lemma chain_dist st u c du :
  tree g start st -> chain (prev st) u c -> lk (dist st) u = Some (Fin du) ->
  forall x, x ∈ c -> exists dx, lk (dist st) x = Some (Fin dx) /\ (dx <= du)%Q.
Proof.
  intros Ht H. revert du. induction H as [u Hu|u y c Hu Hc IH]; intros du Hdu x.
  - intros ->%list_elem_of_singleton. exists du. split; [done|lra].
  - intros [->|Hx]%elem_of_cons; [exists du; split; [done|lra]|].
    destruct (tree_prev _ _ _ Ht u y Hu) as (dy & du' & w & Harc & Hdy & Hdu' & Hle).
    pose proof (g_nonneg _ _ _ Harc).
    destruct (IH dy Hdy x Hx) as (dx & Hdx & ?). exists dx. split; [done|].
    assert (du' = du) as -> by congruence. lra.
Qed.

(** Every vertex has a chain of predecessors. *)
Lemma chain_exists st u :
  tree g start st -> 0 <= u < n g -> exists c, chain (prev st) u c.
Proof.
  intros Ht Hu.
  destruct (lk (dist st) u) as [[du|]|] eqn:E.
  - by eapply tree_chain.
  - exists [u]. constructor. by apply (tree_unreached _ _ _ Ht).
  - unfold lk in E. rewrite decide_True in E by lia. apply lookup_ge_None in E.
    rewrite (tree_dist_length _ _ _ Ht) in E. lia.
Qed.

Lemma relax_step T v dv u st :
  inv g start T (Some v) st -> v ∈ T ->
  lk (dist st) v = Some (Fin dv) ->
  (forall s ds, s ∈ T -> lk (dist st) s = Some (Fin ds) -> (ds <= dv)%Q) ->
  0 <= u < n g ->
  exists st',
    relax g v u st = Ret st'
    /\ inv g start T (Some v) st'
    /\ (forall s, s ∈ T -> lk (dist st') s = lk (dist st) s)
    /\ (forall x dx, lk (dist st) x = Some (Fin dx) ->
          exists dx', lk (dist st') x = Some (Fin dx') /\ (dx' <= dx)%Q)
    /\ (forall w, arc g v u w ->
          exists du, lk (dist st') u = Some (Fin du) /\ (du <= dv + w)%Q)
    /\ (length (queue st') <= S (length (queue st)))%nat.
Proof.
  intros Hinv HvT Hdv Hmax Hu.
  pose proof (inv_tree _ _ _ _ _ Hinv) as Ht.
  pose proof (tree_dist_length _ _ _ Ht) as Ld.
  pose proof (tree_prev_length _ _ _ Ht) as Lp.
  destruct (lk_Some_range _ _ _ Hdv) as [Hv0 HvN].
  assert (forall st0 : search,
            st0 = st -> (forall w, ~ arc g v u w) \/
              (exists du, lk (dist st) u = Some (Fin du)
                          /\ forall w, arc g v u w -> (du <= dv + w)%Q) ->
            inv g start T (Some v) st0
            /\ (forall s, s ∈ T -> lk (dist st0) s = lk (dist st) s)
            /\ (forall x dx, lk (dist st) x = Some (Fin dx) ->
                  exists dx', lk (dist st0) x = Some (Fin dx') /\ (dx' <= dx)%Q)
            /\ (forall w, arc g v u w ->
                  exists du, lk (dist st0) u = Some (Fin du) /\ (du <= dv + w)%Q)
            /\ (length (queue st0) <= S (length (queue st)))%nat) as Hsame.
  { intros st0 -> Hcase. split; [done|]. split; [done|]. split.
    - intros x dx Hx. exists dx. split; [done|lra].
    - split; [|lia]. intros w Hw. destruct Hcase as [Hno|(du & Hdu & Hle)].
      + by destruct (Hno w).
      + exists du. split; [done|]. by apply Hle. }
  unfold relax. destruct (weight_total v u) as (w & Hw). rewrite Hw, ret_bind.
  destruct w as [wt|].
  2: { eexists. split; [done|]. apply Hsame; [done|]. left. intros w [_ Hw'].
       congruence. }
  destruct (Z.eqb_spec v u) as [Hvu|Hvu]; cbn [negb].
  { eexists. split; [done|]. apply Hsame; [done|]. left. by intros w [? _]. }
  assert (arc g v u wt) as Harc by done.
  pose proof (g_nonneg _ _ _ Harc) as Hwt.
  pose proof (tree_nonneg _ _ _ Ht v dv Hdv) as Hdv0.
  destruct (py_get_total (dist st) v) as (dv' & -> & Hdv'); [lia|].
  assert (dv' = Fin dv) as -> by congruence. rewrite ret_bind.
  destruct (py_get_total (dist st) u) as (du & -> & Hdu); [lia|].
  rewrite ret_bind. change (ext_add (Fin dv) (Fin wt)) with (Fin (dv + wt)%Q).
  destruct (ext_ltb (Fin (dv + wt)%Q) du) eqn:Elt.
  2: { eexists. split; [done|]. apply Hsame; [done|]. right.
       destruct du as [d'|]; [|done]. simpl in Elt. apply Qltb_ge in Elt.
       exists d'. split; [done|]. intros w Hw'.
       by rewrite <- (arc_functional _ _ _ _ Harc Hw'). }
  assert (forall d', du = Fin d' -> (dv + wt < d')%Q) as Hlt.
  { intros d' ->. simpl in Elt. by apply Qltb_lt. }
  destruct (py_set_total (dist st) u (Fin (dv + wt)%Q)) as (dist' & Hset); [lia|].
  rewrite Hset, ret_bind.
  destruct (py_set_total (prev st) u (Some v)) as (prev' & Hsetp); [lia|].
  rewrite Hsetp, ret_bind.
  apply py_set_lk in Hset as (Ld' & _ & Ed); [|lia].
  apply py_set_lk in Hsetp as (Lp' & _ & Ep); [|lia].
  eexists. split; [done|]. simpl.
  assert (u <> start) as Hus.
  { intros ->. rewrite (tree_start _ _ _ Ht) in Hdu. injection Hdu as <-.
    specialize (Hlt _ eq_refl). lra. }
  assert (forall s, s ∈ T -> s <> u) as HTu.
  { intros s Hs ->. destruct (inv_settled _ _ _ _ _ Hinv u Hs) as (ds & Hds & _).
    rewrite Hds in Hdu. injection Hdu as <-.
    specialize (Hlt _ eq_refl). specialize (Hmax u ds Hs Hds). lra. }
  assert (forall x dx, lk (dist st) x = Some (Fin dx) ->
            exists dx', lk dist' x = Some (Fin dx') /\ (dx' <= dx)%Q) as Hmono.
  { intros x dx Hx. rewrite Ed. case_decide as Hxu.
    - subst x. rewrite Hx in Hdu. injection Hdu as <-.
      specialize (Hlt _ eq_refl). eexists. split; [done|lra].
    - exists dx. split; [done|lra]. }
  split; [|split; [|split; [done|split]]].
  - split; simpl.
    + (* tree *)
      split; simpl.
      * lia.
      * lia.
      * rewrite Ed, decide_False by done. apply Ht.
      * intros x d. rewrite Ed. case_decide; [intros [= <-]; lra|].
        apply (tree_nonneg _ _ _ Ht).
      * rewrite Ep, decide_False by done. apply Ht.
      * intros x y. rewrite Ep. case_decide as Hxu.
        -- intros [= <-]. subst x. exists dv, (dv + wt)%Q, wt.
           split; [done|]. rewrite !Ed, decide_False, decide_True by done.
           split; [done|]. split; [done|lra].
        -- intros Hxy.
           destruct (tree_prev _ _ _ Ht x y Hxy) as (dy & dx & w' & Ha & Hdy & Hdx & Hle).
           destruct (Hmono y dy Hdy) as (dy' & Hdy' & ?).
           exists dy', dx, w'. split; [done|]. split; [done|].
           rewrite Ed, decide_False by done. split; [done|lra].
      * intros x. rewrite Ep, Ed. case_decide; [done|]. apply (tree_root _ _ _ Ht).
      * intros x. rewrite Ep, Ed. case_decide; [done|]. apply (tree_unreached _ _ _ Ht).
      * intros x dx Hx.
        assert (0 <= x < n g) as Hxr by (apply lk_Some_range in Hx; lia).
        destruct (chain_exists st x Ht Hxr) as (c & Hc).
        destruct (tree_chain _ _ _ Ht v dv Hdv) as (cv & Hcv).
        eapply (chain_redirect (prev st) prev' u v cv x c); [| |done| |done].
        -- intros y Hy. by rewrite Ep, decide_False.
        -- by rewrite Ep, decide_True.
        -- intros Hin.
           destruct (chain_dist st v cv dv Ht Hcv Hdv u Hin) as (d' & Hd' & ?).
           rewrite Hd' in Hdu. injection Hdu as <-.
           specialize (Hlt _ eq_refl). lra.
    + (* queue entries *)
      intros d x [[= -> ->]|Hin]%heappush_elem.
      * split; [done|]. exists (dv + wt)%Q, (dv + wt)%Q.
        rewrite Ed, decide_True by done. split; [done|]. split; [done|lra].
      * destruct (inv_queue _ _ _ _ _ Hinv d x Hin) as (Hx & q & dx & -> & Hdx & Hle).
        split; [done|]. destruct (Hmono x dx Hdx) as (dx' & Hdx' & ?).
        exists q, dx'. split; [done|]. split; [done|lra].
    + (* sorted *)
      apply heappush_sorted; [|apply Hinv]. intros d y Hin.
      destruct (inv_queue _ _ _ _ _ Hinv d y Hin) as (Hy & q & dy & -> & Hdy & Hle).
      exists q. split; [done|]. intros Heq ->.
      rewrite Hdy in Hdu. injection Hdu as <-. specialize (Hlt _ eq_refl). lra.
    + (* front *)
      intros x dx Hxv. rewrite Ed. case_decide as Hxu.
      * intros [= <-]. left. exists (dv + wt)%Q. split; [|lra].
        apply heappush_elem. left. by subst.
      * intros Hx. destruct (inv_front _ _ _ _ _ Hinv x dx Hxv Hx) as [(q & Hq & ?)|Hr].
        -- left. exists q. split; [|done]. apply heappush_elem. by right.
        -- right. intros y w' Ha. destruct (Hr y w' Ha) as (dy & Hdy & ?).
           destruct (Hmono y dy Hdy) as (dy' & Hdy' & ?).
           exists dy'. split; [done|lra].
    + (* settled *)
      intros s Hs. destruct (inv_settled _ _ _ _ _ Hinv s Hs) as (ds & Hds & Hall & Hown).
      exists ds. rewrite Ed, decide_False by (by apply HTu).
      split; [done|]. split.
      * intros q x [[= -> ->]|Hin]%heappush_elem; [|by eapply Hall].
        specialize (Hmax s ds Hs Hds). lra.
      * intros q [[= -> ->]|Hin]%heappush_elem; [|by apply Hown].
        by destruct (HTu u Hs).
    + apply Hinv.
    + apply Hinv.
  - intros s Hs. simpl. by rewrite Ed, decide_False by (by apply HTu).
  - intros w Hw'. simpl. rewrite Ed, decide_True by done.
    eexists. split; [done|]. rewrite <- (arc_functional _ _ _ _ Harc Hw'). lra.
  - simpl. rewrite heappush_length. lia.
Qed.

(** *** The loop over the vertices *)

Lemma inv_fill T v st :
  inv g start T (Some v) st ->
  (forall du, lk (dist st) v = Some (Fin du) -> relaxed g (dist st) v du) ->
  inv g start T None st.
Proof.
  intros Hinv Hv. split; try apply Hinv.
  intros u du _ Hu. destruct (decide (u = v)) as [->|Hne]; [right; by apply Hv|].
  apply (inv_front _ _ _ _ _ Hinv); [congruence|done].
Qed.

Lemma relax_all T v dv st :
  inv g start T (Some v) st -> v ∈ T ->
  lk (dist st) v = Some (Fin dv) ->
  (forall s ds, s ∈ T -> lk (dist st) s = Some (Fin ds) -> (ds <= dv)%Q) ->
  exists st',
    for_each (py_range 0 (size g)) (relax g v) st = Ret st'
    /\ inv g start T None st'
    /\ (length (queue st') <= length (queue st) + Z.to_nat (n g))%nat.
Proof.
  intros Hinv HvT Hdv Hmax.
  destruct (for_each_prefix_total
    (fun pre s =>
       inv g start T (Some v) s
       /\ (forall t, t ∈ T -> lk (dist s) t = lk (dist st) t)
       /\ (forall u w, u ∈ pre -> arc g v u w ->
             exists du, lk (dist s) u = Some (Fin du) /\ (du <= dv + w)%Q)
       /\ (length (queue s) <= length (queue st) + length pre)%nat)
    (relax g v) (py_range 0 (size g))) with (s := st)
    as (st' & Hrun & Hinv' & Hkeep & Hrel & Hlen).
  - intros pre u post s Hsplit (Hs & Hk & Hr & Hl).
    assert (0 <= u < n g) as Hu.
    { assert (u ∈ py_range 0 (size g)) as Hin
        by (rewrite Hsplit, elem_of_app; right; by left).
      apply elem_of_seqZ in Hin. unfold size in Hin. lia. }
    destruct (relax_step T v dv u s Hs HvT) as (s' & Hrun & Hs' & Hk' & Hmono & Hu' & Hl');
      [by rewrite Hk| |done|].
    { intros t dt Ht. rewrite Hk by done. by apply Hmax. }
    exists s'. split; [done|]. split; [done|]. split; [|split].
    + intros t Ht. rewrite Hk' by done. by apply Hk.
    + intros x w [Hx| ->%list_elem_of_singleton]%elem_of_app Ha; [|by apply Hu'].
      destruct (Hr x w Hx Ha) as (dx & Hdx & ?).
      destruct (Hmono x dx Hdx) as (dx' & Hdx' & ?). exists dx'. split; [done|lra].
    + rewrite length_app. simpl. lia.
  - split; [done|]. split; [done|]. split; [by intros u w ?%elem_of_nil|]. simpl. lia.
  - exists st'. split; [done|]. split.
    + apply (inv_fill T v); [done|]. intros du Hdu x w Ha.
      rewrite Hkeep, Hdv in Hdu by done. injection Hdu as <-.
      apply (Hrel x w); [|done]. destruct (arc_range _ _ _ Ha) as [_ Hx].
      apply elem_of_seqZ. unfold size. lia.
    + unfold py_range in Hlen. rewrite length_seqZ in Hlen. unfold size in Hlen. lia.
Qed.

(** Distances that no arc out of a vertex nearer than [bound] can improve
    are optimal up to [bound]. *)
Lemma closure_optimal st (bound : option Q) :
  tree g start st ->
  (forall u du, lk (dist st) u = Some (Fin du) ->
     relaxed g (dist st) u du \/ exists c, bound = Some c /\ (c <= du)%Q) ->
  forall p l x, route g start p l -> last p = Some x ->
    (exists dx, lk (dist st) x = Some (Fin dx) /\ (dx <= l)%Q)
    \/ exists c, bound = Some c /\ (c <= l)%Q.
Proof.
  intros Ht Hclosed p l x Hroute. revert x.
  induction Hroute as [|p u y w l Hroute IH Hlast Harc]; intros x.
  - intros [= <-]. left. exists 0%Q. split; [apply Ht|lra].
  - rewrite last_snoc. intros [= <-]. pose proof (g_nonneg _ _ _ Harc).
    destruct (IH u Hlast) as [(du & Hdu & ?)|(c & -> & ?)].
    + destruct (Hclosed u du Hdu) as [Hr|(c & -> & ?)].
      * destruct (Hr y w Harc) as (dy & Hdy & ?). left. exists dy. split; [done|lra].
      * right. exists c. split; [done|lra].
    + right. exists c. split; [done|lra].
Qed.

Lemma increasing_head c v (q : list (ext Q * Z)) b x :
  increasing ((Fin c, v) :: q) -> (Fin b, x) ∈ (Fin c, v) :: q ->
  (c <= b)%Q /\ ((Fin b, x) ∈ q -> x = v -> (c < b)%Q).
Proof.
  intros [Hall _]. rewrite Forall_forall in Hall.
  intros [[= -> ->]|Hin]%elem_of_cons.
  - split; [lra|]. intros Hin _. apply Hall, tuple_lt_Fin in Hin.
    destruct Hin as [?|[_ ?]]; [lra|lia].
  - pose proof (Hall _ Hin) as [?|[? ?]]%tuple_lt_Fin.
    + split; [lra|done].
    + split; [lra|]. intros _ ->. lia.
Qed.

Lemma inv_pop T st c v q' :
  queue st = (Fin c, v) :: q' ->
  inv g start T None st ->
  (forall du, lk (dist st) v = Some (Fin du) -> (du < c)%Q) ->
  inv g start T None {| dist := dist st; prev := prev st; queue := q' |}.
Proof.
  intros Hq Hinv Hstale. split; simpl.
  - pose proof (inv_tree _ _ _ _ _ Hinv) as Ht. split; simpl; apply Ht.
  - intros d x Hin. apply (inv_queue _ _ _ _ _ Hinv). rewrite Hq. by right.
  - pose proof (inv_sorted _ _ _ _ _ Hinv) as Hs. rewrite Hq in Hs. apply Hs.
  - intros u du Hne Hu.
    destruct (inv_front _ _ _ _ _ Hinv u du Hne Hu) as [(b & Hin & ?)|?]; [|by right].
    rewrite Hq in Hin. apply elem_of_cons in Hin as [[= -> ->]|Hin].
    + specialize (Hstale du Hu). lra.
    + left. by exists b.
  - intros s Hs. destruct (inv_settled _ _ _ _ _ Hinv s Hs) as (ds & Hds & Hall & Hown).
    exists ds. split; [done|]. simpl. rewrite Hq in Hall, Hown.
    split; [intros b x ?; apply (Hall b x); by right|intros b ?; apply Hown; by right].
  - apply Hinv.
  - apply Hinv.
Qed.

Lemma inv_settle T st c v dv q' :
  queue st = (Fin c, v) :: q' ->
  inv g start T None st ->
  lk (dist st) v = Some (Fin dv) -> (c <= dv)%Q -> 0 <= v < n g ->
  (v ∉ T)
  /\ inv g start (v :: T) (Some v) {| dist := dist st; prev := prev st; queue := q' |}
  /\ forall s ds, s ∈ v :: T -> lk (dist st) s = Some (Fin ds) -> (ds <= dv)%Q.
Proof.
  intros Hq Hinv Hdv Hle Hv.
  pose proof (inv_sorted _ _ _ _ _ Hinv) as Hsorted. rewrite Hq in Hsorted.
  assert (v ∉ T) as HvT.
  { intros Hin. destruct (inv_settled _ _ _ _ _ Hinv v Hin) as (ds & Hds & _ & Hown).
    assert (ds = dv) as -> by congruence.
    specialize (Hown c). rewrite Hq in Hown. specialize (Hown ltac:(by left)). lra. }
  assert (dv <= c)%Q as Hge.
  { destruct (inv_queue _ _ _ _ _ Hinv (Fin c) v) as (_ & b & dx & [= <-] & Hdx & ?);
      [rewrite Hq; by left|].
    assert (dx = dv) as -> by congruence. done. }
  split; [done|]. split.
  - split; simpl.
    + pose proof (inv_tree _ _ _ _ _ Hinv) as Ht. split; simpl; apply Ht.
    + intros d x Hin. apply (inv_queue _ _ _ _ _ Hinv). rewrite Hq. by right.
    + apply Hsorted.
    + intros u du Hne Hu.
      destruct (inv_front _ _ _ _ _ Hinv u du) as [(b & Hin & ?)|?];
        [done|done| |by right].
      rewrite Hq in Hin. apply elem_of_cons in Hin as [[= -> ->]|Hin]; [done|].
      left. by exists b.
    + intros s [->|Hs]%elem_of_cons.
      * exists dv. split; [done|]. simpl. split.
        -- intros b x Hin.
           destruct (increasing_head c v q' b x Hsorted) as [? _]; [by right|]. lra.
        -- intros b Hin.
           destruct (increasing_head c v q' b v Hsorted) as [_ Hlt]; [by right|].
           specialize (Hlt Hin eq_refl). lra.
      * destruct (inv_settled _ _ _ _ _ Hinv s Hs) as (ds & Hds & Hall & Hown).
        exists ds. split; [done|]. simpl. rewrite Hq in Hall, Hown.
        split; [intros b x ?; apply (Hall b x); by right|intros b ?; apply Hown; by right].
    + constructor; [done|apply Hinv].
    + intros s [->|Hs]%elem_of_cons; [done|by apply (inv_range _ _ _ _ _ Hinv)].
  - intros s ds [->|Hs]%elem_of_cons Hds.
    + assert (ds = dv) as -> by congruence. lra.
    + destruct (inv_settled _ _ _ _ _ Hinv s Hs) as (ds' & Hds' & Hall & _).
      assert (ds' = ds) as -> by congruence.
      specialize (Hall c v). rewrite Hq in Hall. specialize (Hall ltac:(by left)). lra.
Qed.

Lemma dijkstra_loop_spec stop fuel :
  forall T st,
    inv g start T None st ->
    (Z.to_nat (n g) * (Z.to_nat (n g) - length T) + length (queue st) < fuel)%nat ->
    exists st',
      dijkstra_loop fuel g stop st = Ret st'
      /\ tree g start st' /\ optimal g start stop st'.
Proof.
  induction fuel as [|fuel IH]; intros T st Hinv Hfuel;
    [by apply Nat.nlt_0_r in Hfuel|]. simpl.
  pose proof (inv_tree _ _ _ _ _ Hinv) as Ht.
  destruct (queue st) as [|[cur v] q'] eqn:Hq; simpl.
  { exists st. split; [done|]. split; [done|]. intros p l x Hroute Hlast _.
    destruct (closure_optimal st None Ht) with (p := p) (l := l) (x := x)
      as [?|(c & [=] & _)]; [|done..].
    intros u du Hu. left.
    destruct (inv_front _ _ _ _ _ Hinv u du) as [(b & Hin & _)|?]; [done..| |done].
    rewrite Hq in Hin. by apply elem_of_nil in Hin. }
  destruct (inv_queue _ _ _ _ _ Hinv cur v) as (Hv & c & dv & -> & Hdv & Hge);
    [rewrite Hq; by left|].
  destruct (py_get_total (dist st) v) as (dv' & -> & Hdv').
  { rewrite (tree_dist_length _ _ _ Ht). lia. }
  assert (dv' = Fin dv) as -> by congruence. rewrite ret_bind.
  cbn [ext_ltb]. destruct (Qltb dv c) eqn:Elt.
  { (* a stale entry *)
    apply Qltb_lt in Elt. apply (IH T); [|simpl in *; lia].
    apply (inv_pop T st c v q' Hq Hinv). intros du Hdu.
    assert (du = dv) as -> by congruence. done. }
  apply Qltb_ge in Elt.
  destruct (inv_settle T st c v dv q' Hq Hinv Hdv Elt Hv) as (HvT & Hinv1 & Hmax).
  case_bool_decide as Hstop.
  { (* the target is reached *)
    eexists. split; [done|]. split.
    { split; simpl; apply Ht. }
    intros p l x Hroute Hlast [?|Hx]; [congruence|]. simpl.
    assert (x = v) as -> by congruence.
    destruct (closure_optimal st (Some c) Ht) with (p := p) (l := l) (x := v)
      as [?|(c' & [= <-] & ?)]; [|done..| |].
    - intros u du Hu.
      destruct (inv_front _ _ _ _ _ Hinv u du) as [(b & Hin & ?)|?]; [done..| |by left].
      right. exists c. split; [done|]. rewrite Hq in Hin.
      pose proof (inv_sorted _ _ _ _ _ Hinv) as Hsorted. rewrite Hq in Hsorted.
      destruct (increasing_head c v q' b u Hsorted Hin) as [? _]. lra.
    - done.
    - exists dv. split; [done|lra]. }
  destruct (relax_all (v :: T) v dv _ Hinv1) as (st2 & -> & Hinv2 & Hlen);
    [by left|done|done|].
  apply (IH (v :: T)); [done|]. simpl in *.
  assert (length (v :: T) <= Z.to_nat (n g))%nat as HT.
  { apply nodup_range_length; [apply Hinv2|]. intros s Hs.
    pose proof (inv_range _ _ _ _ _ Hinv2 s Hs). lia. }
  simpl in HT. nia.
Qed.

(** *** From the arrays to the results *)

Lemma init_search_spec :
  0 <= start < n g ->
  exists st0,
    init_search (size g) start = Ret st0
    /\ inv g start [] None st0 /\ length (queue st0) = 1%nat.
Proof.
  intros Hs. unfold init_search, size.
  destruct (py_set_total (py_repeat (@PInf Q) (n g)) start (Fin 0%Q)) as (d & Hd).
  { unfold py_repeat. rewrite length_replicate. lia. }
  rewrite Hd, ret_bind. eexists. split; [done|].
  apply py_set_lk in Hd as (Ld & _ & Ed); [|lia].
  unfold py_repeat in *. rewrite length_replicate in Ld.
  assert (forall x d', lk d x = Some (Fin d') -> x = start /\ d' = 0%Q) as Hfin.
  { intros x d'. rewrite Ed. case_decide; [by intros [= <-]|].
    by intros ?%lk_replicate. }
  assert (lk (replicate (Z.to_nat (n g)) (@None Z)) start = Some None) as Hp.
  { unfold lk. rewrite decide_True by lia. apply lookup_replicate. split; [done|lia]. }
  split; [|done]. split; simpl.
  - split; simpl.
    + done.
    + apply length_replicate.
    + by rewrite Ed, decide_True.
    + intros x d' [-> ->]%Hfin. lra.
    + done.
    + by intros u v ?%lk_replicate.
    + intros u Hu. rewrite Ed. case_decide; [by left|]. right.
      apply lk_Some_range in Hu. rewrite length_replicate in Hu.
      unfold lk. rewrite decide_True by lia. apply lookup_replicate. split; [done|lia].
    + intros u Hu. apply lk_Some_range in Hu. rewrite Ld in Hu.
      unfold lk. rewrite decide_True by lia. apply lookup_replicate. split; [done|lia].
    + intros u du [-> _]%Hfin. exists [start]. by constructor.
  - intros d' x [= -> ->]%list_elem_of_singleton. split; [done|].
    exists 0%Q, 0%Q. rewrite Ed, decide_True by done. split; [done|]. split; [done|lra].
  - split; [constructor|done].
  - intros u du _ [-> ->]%Hfin. left. exists 0%Q. split; [by left|lra].
  - by intros s ?%elem_of_nil.
  - constructor.
  - by intros s ?%elem_of_nil.
Qed.

(** The walk back from [u] collects the chain of [u]. *)
Lemma walk_back_chain prev u c :
  chain prev u c ->
  forall fuel path, (length c <= fuel)%nat ->
    walk_back fuel prev (Some u) path = Ret (path ++ c).
Proof.
  induction 1 as [u Hu|u y c Hu Hc IH]; intros fuel path Hfuel;
    (destruct fuel as [|fuel]; simpl in *; [lia|]);
    destruct (lk_Some_range _ _ _ Hu) as [Hu0 HuN];
    destruct (py_get_total prev u) as (p & -> & Hp); try lia;
    rewrite Hu in Hp; injection Hp as <-; rewrite ret_bind.
  - by destruct fuel.
  - rewrite IH by lia. by rewrite <- app_assoc.
Qed.

(** Read backwards, the chain of a vertex with a distance is a route from
    [start], no longer than the distance. *)
Lemma chain_route st u c :
  tree g start st -> chain (prev st) u c ->
  forall du, lk (dist st) u = Some (Fin du) ->
    exists l, route g start (reverse c) l /\ last (reverse c) = Some u /\ (l <= du)%Q.
Proof.
  intros Ht. induction 1 as [u Hu|u y c Hu Hc IH]; intros du Hdu.
  - destruct (tree_root _ _ _ Ht u Hu) as [->|?]; [|congruence].
    exists 0%Q. split; [constructor|]. split; [done|].
    by apply (tree_nonneg _ _ _ Ht start).
  - destruct (tree_prev _ _ _ Ht u y Hu) as (dy & du' & w & Harc & Hdy & Hdu' & Hle).
    assert (du' = du) as -> by congruence.
    destruct (IH dy Hdy) as (l & Hroute & Hlast & ?).
    exists (l + w)%Q. rewrite reverse_cons. split; [by econstructor|].
    split; [by rewrite last_snoc|lra].
Qed.

(** What the arrays say about a target [e] with optimal distance. *)
Lemma target_shortest st stop e fuel :
  tree g start st -> optimal g start stop st ->
  stop = None \/ stop = Some e ->
  0 <= e < n g -> (Z.to_nat (n g) <= fuel)%nat ->
  exists d c,
    py_get (dist st) e = Ret d
    /\ walk_back fuel (prev st) (Some e) [] = Ret c
    /\ shortest g start e [] (d, if is_inf d then [] else reverse c)
    /\ shortest g start e [e] (d, reverse c).
Proof.
  intros Ht Hopt Hstop He Hfuel.
  destruct (py_get_total (dist st) e) as (d & Hget & Hd).
  { rewrite (tree_dist_length _ _ _ Ht). lia. }
  destruct (chain_exists st e Ht He) as (c & Hc).
  pose proof (chain_length _ _ _ Hc) as Hlen.
  rewrite (tree_prev_length _ _ _ Ht) in Hlen.
  exists d, c. split; [done|]. split; [apply (walk_back_chain _ _ _ Hc); lia|].
  unfold shortest. destruct d as [de|]; simpl.
  - destruct (chain_route st e c Ht Hc de Hd) as (l & Hroute & Hlast & Hle).
    assert (forall p l', route g start p l' -> last p = Some e -> (de <= l')%Q) as Hbest.
    { intros p l' Hp Hl'. destruct (Hopt p l' e Hp Hl' Hstop) as (de' & Hde' & ?).
      assert (de' = de) as -> by congruence. done. }
    assert (l == de)%Q as Heq.
    { apply Qle_antisym; [done|]. by apply (Hbest (reverse c)). }
    split; (split; [by exists l|done]).
  - assert (forall p l, route g start p l -> last p = Some e -> False) as Hnone.
    { intros p l Hp Hl. destruct (Hopt p l e Hp Hl Hstop) as (de' & Hde' & _).
      congruence. }
    split; [done|]. split; [|done].
    pose proof (tree_unreached _ _ _ Ht e Hd) as Hroot.
    assert (chain (prev st) e [e]) as Hc' by (by constructor).
    by rewrite (chain_functional _ _ _ _ Hc Hc').
Qed.

End search.


Lemma detour_proper : proper detour.
Proof. split; [simpl; lia|]. split; [reflexivity|]. repeat constructor. Qed.

Lemma detour_nonnegative : nonnegative detour.
Proof.
  intros v u w Ha. destruct (arc_range detour v u w Ha) as [Hv Hu].
  destruct Ha as [_ Hw]. simpl in Hv, Hu.
  assert (v = 0 \/ v = 1 \/ v = 2 \/ v = 3) as Hv' by lia.
  assert (u = 0 \/ u = 1 \/ u = 2 \/ u = 3) as Hu' by lia.
  destruct Hv' as [->|[->|[->| ->]]], Hu' as [->|[->|[->| ->]]];
    vm_compute in Hw; try done; injection Hw as <-; done.
Qed.




End RouteFacts.

(** ** [src/3/graph.py]: [prim] on a path *)

Module PrimFacts.
Import GraphStore PrimVocabulary RouteFacts.

Lemma prim_loop_S fuel g st :
  prim_loop (S fuel) g st
  = match heappop (queue st) with
    | None => Ret st
    | Some ((cur_weight, v), q') =>
        let st1 := {| dist := dist st; prev := prev st; queue := q' |} in
        mv ← py_get (dist st1) v;
        if ext_ltb mv cur_weight then prim_loop fuel g st1
        else
          st2 ← for_each (py_range 0 (size g)) (attach g v) st1;
          prim_loop fuel g st2
    end.
Proof. reflexivity. Qed.

Lemma Qeq_bool_false a b : ~ (a == b)%Q -> Qeq_bool a b = false.
Proof.
  intros H. destruct (Qeq_bool a b) eqn:E; [|done]. by apply Qeq_bool_iff in E.
Qed.

(** Once two vertices name each other, the walk back never ends. *)
Lemma walk_back_looping fuel :
  forall path,
    walk_back fuel looping (Some 1) path = OutOfFuel
    /\ walk_back fuel looping (Some 2) path = OutOfFuel.
Proof.
  induction fuel as [|fuel IH]; intros path; [done|].
  split; simpl.
  - change (py_get looping 1) with (@Ret (option Z) (Some 2)). apply IH.
  - change (py_get looping 2) with (@Ret (option Z) (Some 1)). apply IH.
Qed.

Lemma walk_back_root fuel : walk_back (S fuel) looping (Some 0) [] = Ret [0].
Proof.
  simpl. change (py_get looping 0) with (@Ret (option Z) None). by destruct fuel.
Qed.

Section path3.
Variables w1 w2 : Q.
Hypothesis w2_positive : (0 < w2)%Q.
Hypothesis w2_lighter : (w2 < w1)%Q.

Lemma path3_constructed :
  Graph_load UNDIRECTED 3 [(0, 1, w1); (1, 2, w2)] = Ret (path3 w1 w2).
Proof. reflexivity. Qed.

Lemma cmp_0_0 : Qltb 0 0 = false.
Proof. reflexivity. Qed.
Lemma cmp_eq_w1_0 : Qeq_bool w1 0 = false.
Proof. apply Qeq_bool_false. lra. Qed.
Lemma cmp_eq_w2_0 : Qeq_bool w2 0 = false.
Proof. apply Qeq_bool_false. lra. Qed.
Lemma cmp_w1_w1 : Qltb w1 w1 = false.
Proof. apply Qltb_ge. lra. Qed.
Lemma cmp_w2_w2 : Qltb w2 w2 = false.
Proof. apply Qltb_ge. lra. Qed.
Lemma cmp_w2_w1 : Qltb w2 w1 = true.
Proof. apply Qltb_lt. lra. Qed.
Lemma cmp_w1_w2 : Qltb w1 w2 = false.
Proof. apply Qltb_ge. lra. Qed.
Lemma cmp_w1_0 : Qltb w1 0 = false.
Proof. apply Qltb_ge. lra. Qed.
Lemma cmp_w2_0 : Qltb w2 0 = false.
Proof. apply Qltb_ge. lra. Qed.
Lemma cmp_0_w1 : Qltb 0 w1 = true.
Proof. apply Qltb_lt. lra. Qed.
Lemma cmp_0_w2 : Qltb 0 w2 = true.
Proof. apply Qltb_lt. lra. Qed.
Lemma cmp_eq_w1_w2 : Qeq_bool w1 w2 = false.
Proof. apply Qeq_bool_false. lra. Qed.
Lemma cmp_eq_w2_w1 : Qeq_bool w2 w1 = false.
Proof. apply Qeq_bool_false. lra. Qed.
Lemma cmp_eq_w1_w1 : Qeq_bool w1 w1 = true.
Proof. apply Qeq_bool_iff. lra. Qed.
Lemma cmp_eq_w2_w2 : Qeq_bool w2 w2 = true.
Proof. apply Qeq_bool_iff. lra. Qed.
Lemma cmp_eq_0_w1 : Qeq_bool 0 w1 = false.
Proof. apply Qeq_bool_false. lra. Qed.
Lemma cmp_eq_0_w2 : Qeq_bool 0 w2 = false.
Proof. apply Qeq_bool_false. lra. Qed.

Ltac compare :=
  rewrite ?cmp_0_0, ?cmp_eq_w1_0, ?cmp_eq_w2_0, ?cmp_w1_w1, ?cmp_w2_w2, ?cmp_w2_w1,
    ?cmp_w1_w2, ?cmp_w1_0, ?cmp_w2_0, ?cmp_0_w1, ?cmp_0_w2, ?cmp_eq_w1_w2,
    ?cmp_eq_w2_w1, ?cmp_eq_w1_w1, ?cmp_eq_w2_w2, ?cmp_eq_0_w1, ?cmp_eq_0_w2.

(** One round of [while queue], the comparisons of weights decided. *)
Ltac round :=
  rewrite ?prim_loop_S; lazy -[Qeq_bool Qltb prim_loop walk_back looping];
  repeat (progress compare; lazy -[Qeq_bool Qltb prim_loop walk_back looping]).

(** The search itself ends after five rounds, with [prev = looping]. *)
Lemma prim_loop_path3 k :
  prim_loop (5 + k) (path3 w1 w2)
    {| dist := [Fin 0%Q; PInf; PInf]; prev := [None; None; None];
       queue := [(Fin 0%Q, 0)] |}
  = Ret {| dist := [Fin 0%Q; Fin w2; Fin w2]; prev := looping; queue := [] |}.
Proof.
  change (5 + k)%nat with (S (S (S (S (S k))))).
  do 5 round. reflexivity.
Qed.

Lemma prim_loop_path3_short fuel :
  (fuel < 5)%nat ->
  prim_loop fuel (path3 w1 w2)
    {| dist := [Fin 0%Q; PInf; PInf]; prev := [None; None; None];
       queue := [(Fin 0%Q, 0)] |}
  = OutOfFuel.
Proof.
  intros Hfuel. destruct fuel as [|[|[|[|[|fuel]]]]]; [| | | | |lia];
    do 5 round; reflexivity.
Qed.

Lemma prim_path3 fuel : prim fuel (path3 w1 w2) 0 = OutOfFuel.
Proof.
  unfold prim. change (init_search _ _) with
    (Ret {| dist := [Fin 0%Q; PInf; PInf]; prev := [None; None; None];
            queue := [(Fin 0%Q, 0)] |}).
  cbn [negb andb size n path3 Z.leb Z.ltb]. rewrite ret_bind.
  destruct (decide (fuel < 5)%nat) as [Hlt|Hge].
  - by rewrite prim_loop_path3_short.
  - replace fuel with (5 + (fuel - 5))%nat at 1 by lia.
    rewrite prim_loop_path3, ret_bind.
    change (py_range 0 _) with [0; 1; 2]. cbn [for_each prev].
    destruct fuel as [|fuel]; [lia|].
    rewrite walk_back_root, !ret_bind.
    by rewrite (proj1 (walk_back_looping (S fuel) [])).
Qed.

End path3.

(** X25.  [prim] does not return on the path [0 - 1 - 2] whose second edge
    is lighter than the first ([0 < w2 < w1]), started at vertex 0.  The
    search ends, but it has attached vertex 1 to vertex 2 after attaching
    2 to 1 (nothing marks a vertex as taken), so [prev] holds a cycle and
    the loop that walks back from vertex 1 never reaches [None]. *)
Theorem prim_path_diverges (w1 w2 : Q) (fuel : nat) :
  (0 < w2)%Q -> (w2 < w1)%Q ->
  exists g,
    Graph_load UNDIRECTED 3 [(0, 1, w1); (1, 2, w2)] = Ret g
    /\ prim fuel g 0 = OutOfFuel.
Proof.
  intros H2 H12. exists (path3 w1 w2). split; [reflexivity|].
  by apply prim_path3.
Qed.

Lemma prim_path_diverges_witness :
  exists g,
    Graph_load UNDIRECTED 3 [(0, 1, 5%Q); (1, 2, 1%Q)] = Ret g
    /\ prim 1000 g 0 = OutOfFuel.
Proof. apply (prim_path_diverges 5 1 1000); reflexivity. Defined.

End PrimFacts.
